(** * Weather zones and the weather layer of the map view

    A shallow embedding of [web/src/utils/weatherGrid.ts] (the zone
    classifier and the visibility culler) and of the script part of the
    weather layer component (particle pools, storm overlay, lightning and the
    per-frame callback), followed by the properties established about them.

    Numbers.  Zone indices, tile indices and the seed are integers: they are
    modelled in [Z] (or [nat] for loop counters), and the places where the
    source does 64-bit floating point or 32-bit integer arithmetic on them are
    written out ([JsNumber]).  Pixel coordinates, velocities, the frame delta
    and opacities are doubles: they are modelled by the rationals they
    denote, and every addition, subtraction, multiplication and division of
    the source on them is followed by the rounding to the nearest double
    ([JsNumber.double]).  NaN and the infinities are not represented, and
    the two zeros are one. *)

From Stdlib Require Import ZArith QArith Qround Qabs Qpower List String Ascii Bool
  Lia Lqa Permutation.
Import ListNotations.

Local Open Scope Z_scope.

(** ** JavaScript number operations on integer values *)

Module JsNumber.

(** Rounding of an exact integer result to the nearest double, ties to
    even.  Integers below 2^53 in magnitude are exact; above, the 53 leading
    bits are kept.  (Magnitudes stay far below the overflow threshold for
    the zone indices and seeds the classifier is applied to.) *)
Definition fl (z : Z) : Z :=
  let a := Z.abs z in
  if a <? 2 ^ 53 then z
  else
    let e := Z.log2 a - 52 in
    let m := Z.shiftr a e in
    let r := Z.land a (Z.ones e) in
    let h := Z.shiftl 1 (e - 1) in
    let m' := if (h <? r) || ((r =? h) && Z.odd m) then m + 1 else m in
    Z.sgn z * Z.shiftl m' e.

Definition ToUint32 (z : Z) : Z := z mod 2 ^ 32.

Definition ToInt32 (z : Z) : Z := (z + 2 ^ 31) mod 2 ^ 32 - 2 ^ 31.

(** [a ^ b] *)
Definition bitxor (a b : Z) : Z := ToInt32 (Z.lxor (ToInt32 a) (ToInt32 b)).

(** [a & b] *)
Definition bitand (a b : Z) : Z := ToInt32 (Z.land (ToInt32 a) (ToInt32 b)).

(** [a >>> k] *)
Definition ushr (a k : Z) : Z := Z.shiftr (ToUint32 a) (k mod 32).

(** [a * b], [a + b] on doubles holding integers *)
Definition mul (a b : Z) : Z := fl (a * b).
Definition add (a b : Z) : Z := fl (a + b).

(** [a < b] on rationals: the source compares a double [k / 65535] with a
    decimal literal; for the literals of the source the quotient either
    equals the literal exactly (when both round to the same double) or
    differs from it by far more than a rounding error, so the comparison of
    the doubles and of the exact rationals agree. *)
Definition ltb (a b : Q) : bool := negb (Qle_bool b a).

(** *** Doubles

    A finite double is a rational [m * 2^e] with [|m| < 2^53] and
    [-1074 <= e]; [double q] is the double nearest to [q], with ties going
    to the even mantissa.  A result beyond the largest finite double is
    left as the rational it is (the source then has an infinity of the same
    sign, and its comparisons with finite numbers come out the same). *)

Local Open Scope Q_scope.

(** The exponent [e] with [2^e <= |q| < 2^(e+1)], for [q] other than zero. *)
Definition ilog2 (q : Q) : Z :=
  let k := (Z.log2 (Z.abs (Qnum q)) - Z.log2 (Zpos (Qden q)))%Z in
  if Qle_bool (2 ^ k) (Qabs q) then k else (k - 1)%Z.

(** The nearest integer, ties to even. *)
Definition rne (x : Q) : Z :=
  let f := Qfloor x in
  match Qcompare (x - inject_Z f) (1 # 2) with
  | Lt => f
  | Gt => (f + 1)%Z
  | Eq => if Z.even f then f else (f + 1)%Z
  end.

(** The spacing of the doubles around [q]: [2^(e-52)] in the binade of
    exponent [e], and [2^-1074] below the smallest normal number, whose
    exponent is [-1022]. *)
Definition exponent (q : Q) : Z := Z.max (ilog2 q) (-1022).

Definition quantum (q : Q) : Q := 2 ^ (exponent q - 52).

Definition double (q : Q) : Q :=
  if Qeq_bool q 0 then 0 else Qred (inject_Z (rne (q / quantum q)) * quantum q).

(** [q] is a double. *)
Definition representable (q : Q) : Prop := double q == q.

(** [a + b], [a - b], [a * b], [a / b] on doubles *)
Definition plus (a b : Q) : Q := double (a + b).
Definition minus (a b : Q) : Q := double (a - b).
Definition times (a b : Q) : Q := double (a * b).
Definition divide (a b : Q) : Q := double (a / b).

(** The largest double below one. *)
Definition belowOne : Q := 1 - (1 # 9007199254740992).

(** A double of [0, 1) out of a rational of [0, 1): the nearest one, and
    the largest one where that would be one. *)
Definition unitDouble (q : Q) : Q :=
  let d := double q in
  if Qle_bool d belowOne then d else belowOne.

End JsNumber.

(** The arithmetic operators of the source, on doubles.  Decimal literals
    of the source that are no doubles are written [double 0.92]; integers
    and the fractions [0.5], [0.25], [1.5] denote themselves. *)
Declare Scope js_scope.
Delimit Scope js_scope with js.
Arguments JsNumber.plus (a b)%_js.
Arguments JsNumber.minus (a b)%_js.
Arguments JsNumber.times (a b)%_js.
Arguments JsNumber.divide (a b)%_js.
Infix "+" := JsNumber.plus : js_scope.
Infix "-" := JsNumber.minus : js_scope.
Infix "*" := JsNumber.times : js_scope.
Infix "/" := JsNumber.divide : js_scope.

(** ** weatherGrid.ts *)

Module WeatherGrid.
Import JsNumber.
Local Open Scope string_scope.
Local Open Scope Z_scope.

Inductive WeatherType : Type := clear | rain | storm | wind | snow.

Definition WeatherType_eqb (a b : WeatherType) : bool :=
  match a, b with
  | clear, clear | rain, rain | storm, storm | wind, wind | snow, snow => true
  | _, _ => false
  end.

Definition ZONE_SIZE : nat := 8.

Record Tendency : Type := {
  main : WeatherType;
  alt : option WeatherType;
  weight : option Q
}.

Definition tend (m : WeatherType) : Tendency :=
  {| main := m; alt := None; weight := None |}.
Definition tendAlt (m a : WeatherType) (w : Q) : Tendency :=
  {| main := m; alt := Some a; weight := Some w |}.

(** The own properties of [TERRAIN_WEATHER_TENDENCY]. *)
Definition TERRAIN_WEATHER_TENDENCY : list (string * Tendency) :=
  [ ("DESERT", tend clear);
    ("GOBI", tend clear);
    ("PLAIN", tendAlt clear rain (4 # 10));
    ("GRASSLAND", tendAlt clear rain (45 # 100));
    ("FARM", tendAlt clear rain (35 # 100));
    ("RAINFOREST", tendAlt rain storm (15 # 100));
    ("FOREST", tendAlt rain clear (3 # 10));
    ("BAMBOO", tendAlt rain clear (25 # 100));
    ("SWAMP", tendAlt rain storm (2 # 10));
    ("MARSH", tendAlt rain storm (2 # 10));
    ("SEA", tendAlt wind rain (2 # 10));
    ("WATER", tendAlt wind rain (25 # 100));
    ("ISLAND", tendAlt wind rain (3 # 10));
    ("MOUNTAIN", tendAlt clear rain (2 # 10));
    ("SNOW_MOUNTAIN", tendAlt snow clear (2 # 10));
    ("GLACIER", tendAlt snow wind (15 # 100));
    ("TUNDRA", tendAlt snow wind (25 # 100));
    ("VOLCANO", tend clear) ].

(** The table and the tile counter of the source are plain object
    literals, so a property read also sees what they inherit from
    [Object.prototype].  These are the inherited names. *)
Definition Object_prototype_names : list string :=
  [ "constructor"; "__defineGetter__"; "__defineSetter__"; "hasOwnProperty";
    "__lookupGetter__"; "__lookupSetter__"; "isPrototypeOf";
    "propertyIsEnumerable"; "toString"; "valueOf"; "__proto__";
    "toLocaleString" ].

Definition inherited (k : string) : bool :=
  existsb (String.eqb k) Object_prototype_names.

Fixpoint assoc {A : Type} (k : string) (l : list (string * A)) : option A :=
  match l with
  | [] => None
  | (k', v) :: l' => if String.eqb k k' then Some v else assoc k l'
  end.

(** The result of reading [obj[k]]: an own entry, an inherited member (a
    truthy value with none of the fields of an entry), or [undefined]. *)
Inductive Lookup (A : Type) : Type :=
| Own (a : A)
| Inherited
| Absent.
Arguments Own {A} a.
Arguments Inherited {A}.
Arguments Absent {A}.

Definition tendencyOf (terrain : string) : Lookup Tendency :=
  match assoc terrain TERRAIN_WEATHER_TENDENCY with
  | Some t => Own t
  | None => if inherited terrain then Inherited else Absent
  end.

(** [hashNoise]: the numerator [u & 0xffff] of the returned quotient. *)
Definition hashBits (zx zy seed : Z) : Z :=
  let n := add (add (mul zx 1619) (mul zy 31337)) (mul seed 6971) in
  let mixed := mul (bitxor n (ushr n 8)) 0x27d4eb2d in
  let u := bitand (bitxor mixed (ushr mixed 15)) 0xffffffff in
  bitand u 0xffff.

Definition hashNoise (zx zy seed : Z) : Q :=
  Qmake (hashBits zx zy seed) 65535.

Definition weatherFromNoise (zx zy seed : Z) : WeatherType :=
  let r := hashNoise zx zy seed in
  if ltb r (35 # 100) then rain
  else if ltb r (6 # 10) then wind
  else if ltb r (8 # 10) then clear
  else if ltb r (9 # 10) then snow else storm.

Definition MapMatrix : Type := list (list string).

(** [mapData[ty]?.[tx] ?? ''] *)
Definition tileOr (mapData : MapMatrix) (ty tx : nat) : string :=
  match nth_error mapData ty with
  | Some row => match nth_error row tx with Some t => t | None => "" end
  | None => ""
  end.

Definition rowsOf (mapData : MapMatrix) : nat := List.length mapData.

(** [mapData[0]?.length ?? 0] *)
Definition colsOf (mapData : MapMatrix) : nat :=
  match mapData with
  | [] => 0%nat
  | row :: _ => List.length row
  end.

(** [count[t] = (count[t] || 0) + 1] on the counter object, kept as the
    list of its own numeric entries in creation order.  For an inherited
    name the read [count[t]] yields the inherited member, the sum is a
    string, and the entry written (if any) never compares greater than a
    number in the scan below: such a tile cannot become dominant and is
    left out of the list. *)
Fixpoint bump (t : string) (count : list (string * nat)) : list (string * nat) :=
  match count with
  | [] => [(t, 1%nat)]
  | (k, c) :: rest =>
      if String.eqb t k then (k, S c) :: rest else (k, c) :: bump t rest
  end.

Definition countTile (t : string) (count : list (string * nat)) :=
  if inherited t then count else bump t count.

Definition isDigit (c : ascii) : bool :=
  let n := nat_of_ascii c in (48 <=? n)%nat && (n <=? 57)%nat.

Fixpoint digitsValue (acc : N) (s : string) : option N :=
  match s with
  | EmptyString => Some acc
  | String c s' =>
      if isDigit c
      then digitsValue (acc * 10 + N.of_nat (nat_of_ascii c - 48)) s'
      else None
  end.

(** An array index: the canonical decimal form of an integer below
    2^32 - 1. *)
Definition arrayIndex (s : string) : option N :=
  match s with
  | EmptyString => None
  | String c s' =>
      if Ascii.eqb c "0" && negb (String.eqb s' EmptyString) then None
      else match digitsValue 0 s with
           | Some v => if (v <? 4294967295)%N then Some v else None
           | None => None
           end
  end.

Fixpoint insertIndexed (k : N) (e : string * nat) (l : list (N * (string * nat)))
  : list (N * (string * nat)) :=
  match l with
  | [] => [(k, e)]
  | (k', e') :: l' =>
      if (k <? k')%N then (k, e) :: l else (k', e') :: insertIndexed k e l'
  end.

(** [Object.entries]: array-index keys in ascending numeric order, then
    the other keys in creation order. *)
Definition entries (count : list (string * nat)) : list (string * nat) :=
  let indexed :=
    fold_left
      (fun acc e => match arrayIndex (fst e) with
                    | Some k => insertIndexed k e acc
                    | None => acc
                    end) count [] in
  map snd indexed
    ++ filter (fun e => match arrayIndex (fst e) with
                        | Some _ => false
                        | None => true
                        end) count.

(** The tiles of zone [(zx, zy)] that lie inside the map, in scan order. *)
Definition zoneTiles (mapData : MapMatrix) (zx zy : nat) : list string :=
  let rows := rowsOf mapData in
  let cols := colsOf mapData in
  flat_map
    (fun dy =>
       flat_map
         (fun dx =>
            let tx := (zx * ZONE_SIZE + dx)%nat in
            let ty := (zy * ZONE_SIZE + dy)%nat in
            if (ty <? rows)%nat && (tx <? cols)%nat
            then [tileOr mapData ty tx] else [])
         (seq 0 ZONE_SIZE))
    (seq 0 ZONE_SIZE).

Definition getZoneDominantTerrain (mapData : MapMatrix) (zx zy : nat) : string :=
  let count := fold_left (fun c t => countTile t c) (zoneTiles mapData zx zy) [] in
  let '(_, dominant) :=
    fold_left
      (fun (acc : nat * string) (e : string * nat) =>
         let '(max, dominant) := acc in
         if (max <? snd e)%nat then (snd e, fst e) else (max, dominant))
      (entries count) (0%nat, "") in
  if String.eqb dominant ""
  then tileOr mapData (zy * ZONE_SIZE) (zx * ZONE_SIZE)
  else dominant.

(** A cell of the grid: [None] is [undefined] (what is pushed when the
    dominant tag names an inherited member of the table). *)
Definition Cell : Type := option WeatherType.

(** The weather the tendency resolves to, before the storm upgrade. *)
Definition resolve (t : Tendency) (r : Q) : WeatherType :=
  let weight := match weight t with Some w => w | None => 0%Q end in
  match alt t with
  | Some a => if ltb r weight then a else main t
  | None => main t
  end.

(** The body of the inner loop of [buildWeatherGrid]. *)
Definition zoneWeather (mapData : MapMatrix) (seed : Z) (zx zy : nat) : Cell :=
  let terrain := getZoneDominantTerrain mapData zx zy in
  let r := hashNoise (Z.of_nat zx) (Z.of_nat zy) seed in
  match tendencyOf terrain with
  | Absent => Some (weatherFromNoise (Z.of_nat zx) (Z.of_nat zy) seed)
  | Inherited => None
  | Own tendency =>
      let weather := resolve tendency r in
      if WeatherType_eqb weather rain
         && ltb (hashNoise (Z.of_nat zx + 1) (Z.of_nat zy) seed) (12 # 100)
      then Some storm
      else Some weather
  end.

Definition ceilDiv (n d : nat) : nat := ((n + d - 1) / d)%nat.

Definition defaultSeed : Z := 12345.

Definition buildWeatherGrid (mapData : MapMatrix) (seed : Z) : list (list Cell) :=
  let rows := rowsOf mapData in
  let cols := colsOf mapData in
  if (rows =? 0)%nat || (cols =? 0)%nat then []
  else
    let zoneRows := ceilDiv rows ZONE_SIZE in
    let zoneCols := ceilDiv cols ZONE_SIZE in
    map (fun zy => map (fun zx => zoneWeather mapData seed zx zy) (seq 0 zoneCols))
        (seq 0 zoneRows).

(** [grid[zy]?.[zx]] *)
Definition cellAt (grid : list (list Cell)) (zy zx : Z) : Cell :=
  if (zy <? 0) || (zx <? 0) then None
  else match nth_error grid (Z.to_nat zy) with
       | Some row => match nth_error row (Z.to_nat zx) with
                     | Some c => c
                     | None => None
                     end
       | None => None
       end.

Definition TILE_SIZE : Z := 64.

(** [Math.floor(a / b)] for a double [a] and a positive integer [b] *)
Definition floorDiv (a : Q) (b : Z) : Z := Qfloor (a / inject_Z b)%js.

Definition worldToZone (px py : Q) : Z * Z :=
  let tx := floorDiv px TILE_SIZE in
  let ty := floorDiv py TILE_SIZE in
  (floorDiv (inject_Z tx) (Z.of_nat ZONE_SIZE),
   floorDiv (inject_Z ty) (Z.of_nat ZONE_SIZE)).

(** The pixel coordinates on which the two divisions of [worldToZone] are
    exact: the doubles that are zero or at least [2^-1016] in magnitude
    (the quotient by 64 is then no subnormal number) and at most [2^58]
    (the tile index is then below [2^53]). *)
Definition tileable (p : Q) : Prop :=
  representable p /\ (p == 0 \/ 2 ^ (-1016) <= Qabs p)%Q /\ (Qabs p <= 2 ^ 58)%Q.

Module Zone.
Record t : Type := {
  zx : Z;
  zy : Z;
  x : Q;
  y : Q;
  width : Q;
  height : Q
}.
End Zone.

(** The integers [lo, lo + 1, ..., hi] ([for (let i = lo; i <= hi; i++)]). *)
Definition upto (lo hi : Z) : list Z :=
  map (fun i => lo + Z.of_nat i) (seq 0 (Z.to_nat (hi - lo + 1))).

(** The object pushed for zone [(zx, zy)]. *)
Definition zoneAt (zx zy : Z) : Zone.t :=
  let zonePxW := Z.of_nat ZONE_SIZE * TILE_SIZE in
  let zonePxH := Z.of_nat ZONE_SIZE * TILE_SIZE in
  {| Zone.zx := zx;
     Zone.zy := zy;
     Zone.x := inject_Z (zx * zonePxW);
     Zone.y := inject_Z (zy * zonePxH);
     Zone.width := inject_Z zonePxW;
     Zone.height := inject_Z zonePxH |}.

Definition getVisibleZones
  (cornerX cornerY visibleWidth visibleHeight : Q) (zoneRows zoneCols : Z)
  : list Zone.t :=
  let start := worldToZone cornerX cornerY in
  let end_ := worldToZone (cornerX + visibleWidth)%js (cornerY + visibleHeight)%js in
  flat_map
    (fun zy =>
       if (zy <? 0) || (zoneRows <=? zy) then []
       else
         flat_map
           (fun zx =>
              if (zx <? 0) || (zoneCols <=? zx) then []
              else [zoneAt zx zy])
           (upto (fst start) (fst end_)))
    (upto (snd start) (snd end_)).

End WeatherGrid.


(** ** The weather layer component *)

Module WeatherLayer.
Import JsNumber.
Local Open Scope Q_scope.

(** *** Display objects

    The scene graph is an external collaborator.  The embedding keeps, for
    every display object created so far, what the component itself writes
    and reads back: its parent, whether [destroy] was called on it, and the
    [visible], [alpha], [x], [y] and [rotation] properties.  Drawing
    commands, tints and scales are not tracked. *)

Definition Handle : Type := nat.

Module DisplayObject.
Inductive Kind : Type := Container | Graphics | Sprite.
Record t : Type := {
  kind : Kind;
  parent : option Handle;
  destroyed : bool;
  visible : bool;
  alpha : Q;
  x : Q;
  y : Q;
  rotation : Q
}.
Definition create (k : Kind) : t :=
  {| kind := k; parent := None; destroyed := false; visible := true;
     alpha := 1; x := 0; y := 0; rotation := 0 |}.
Definition set_parent (v : option Handle) (d : t) : t :=
  {| kind := kind d; parent := v; destroyed := destroyed d; visible := visible d;
     alpha := alpha d; x := x d; y := y d; rotation := rotation d |}.
Definition set_destroyed (v : bool) (d : t) : t :=
  {| kind := kind d; parent := parent d; destroyed := v; visible := visible d;
     alpha := alpha d; x := x d; y := y d; rotation := rotation d |}.
Definition set_visible (v : bool) (d : t) : t :=
  {| kind := kind d; parent := parent d; destroyed := destroyed d; visible := v;
     alpha := alpha d; x := x d; y := y d; rotation := rotation d |}.
Definition set_alpha (v : Q) (d : t) : t :=
  {| kind := kind d; parent := parent d; destroyed := destroyed d; visible := visible d;
     alpha := v; x := x d; y := y d; rotation := rotation d |}.
Definition set_x (v : Q) (d : t) : t :=
  {| kind := kind d; parent := parent d; destroyed := destroyed d; visible := visible d;
     alpha := alpha d; x := v; y := y d; rotation := rotation d |}.
Definition set_y (v : Q) (d : t) : t :=
  {| kind := kind d; parent := parent d; destroyed := destroyed d; visible := visible d;
     alpha := alpha d; x := x d; y := v; rotation := rotation d |}.
Definition set_rotation (v : Q) (d : t) : t :=
  {| kind := kind d; parent := parent d; destroyed := destroyed d; visible := visible d;
     alpha := alpha d; x := x d; y := y d; rotation := v |}.
End DisplayObject.

(** *** Particles *)

Module RainParticle.
Record t : Type := {
  g : Handle;
  x : Q;
  y : Q;
  vx : Q;
  vy : Q;
  zoneX : Q;
  zoneY : Q;
  zoneW : Q;
  zoneH : Q
}.
End RainParticle.

Module WindParticle.
Record t : Type := {
  g : Handle;
  x : Q;
  y : Q;
  vx : Q;
  zoneX : Q;
  zoneW : Q
}.
End WindParticle.

Module SnowParticle.
Record t : Type := {
  g : Handle;
  x : Q;
  y : Q;
  vy : Q;
  phase : Q;
  zoneX : Q;
  zoneY : Q;
  zoneW : Q;
  zoneH : Q
}.
End SnowParticle.

Module Phase.
Inductive t : Type := first | dim | second | out.
Definition eqb (a b : t) : bool :=
  match a, b with
  | first, first | dim, dim | second, second | out, out => true
  | _, _ => false
  end.
End Phase.

(** *** Configuration and surroundings read by the component *)

(** What [getWeatherLevel] returns, seen through the four properties read
    from it; a property the object does not have reads as [undefined]
    ([None]). *)
Module Level.
Record t : Type := {
  rain : option Z;
  wind : option Z;
  snow : option Z;
  stormChance : option Q
}.
(** [{ rain, wind, snow, stormChance }] *)
Definition make (rain wind snow : Z) (stormChance : Q) : t :=
  {| rain := Some rain; wind := Some wind; snow := Some snow;
     stormChance := Some stormChance |}.
(** An object with none of the four properties. *)
Definition unrelated : t :=
  {| rain := None; wind := None; snow := None; stormChance := None |}.
End Level.

(** The value of [worldStore.frontendConfig?.weather]: absent, one of the
    keys of [WEATHER_LEVEL], the name of a member every object inherits
    from [Object.prototype] (['constructor'], ['toString'], ['valueOf'],
    ['hasOwnProperty'], ['__proto__'], ...), or another value (for which
    indexing gives [undefined]). *)
Module Setting.
Inductive t : Type := none | low | high | inherited | other.
End Setting.

(** [WEATHER_LEVEL[k]].  An inherited member is a function (or the
    prototype object): it is not nullish, and it has no [rain], [wind],
    [snow] or [stormChance]. *)
Definition WEATHER_LEVEL (k : Setting.t) : option Level.t :=
  match k with
  | Setting.none => Some (Level.make 0 0 0 0)
  | Setting.low => Some (Level.make 120 35 45 (double 0.015))
  | Setting.high => Some (Level.make 320 90 110 (double 0.035))
  | Setting.inherited => Some Level.unrelated
  | Setting.other => None
  end.

Definition WEATHER_LEVEL_high : Level.t := Level.make 320 90 110 (double 0.035).

(** Comparisons with a number that may be [undefined]: [undefined]
    converts to NaN, and every comparison with NaN is false; [===] between
    [undefined] and a number is false as well. *)
Definition strictEq (v : option Z) (n : Z) : bool :=
  match v with
  | Some m => (m =? n)%Z
  | None => false
  end.

(** [v <= q] *)
Definition leq (v : option Q) (q : Q) : bool :=
  match v with
  | Some c => Qle_bool c q
  | None => false
  end.

(** [q > v] *)
Definition gt (q : Q) (v : option Q) : bool :=
  match v with
  | Some c => ltb c q
  | None => false
  end.

(** [Math.min(maxCount, n) - k], which is NaN ([None]) when [maxCount] is
    [undefined]. *)
Definition shortfall (maxCount : option Z) (n k : Z) : option Z :=
  match maxCount with
  | Some m => Some (Z.min m n - k)%Z
  | None => None
  end.

(** [need <= 0] *)
Definition satisfied (need : option Z) : bool :=
  match need with
  | Some n => (n <=? 0)%Z
  | None => false
  end.

(** How often [while (need > 0 && ...) { ...; need-- }] runs its body when
    nothing else stops it. *)
Definition rounds (need : option Z) : nat :=
  match need with
  | Some n => Z.to_nat n
  | None => 0%nat
  end.

(** [window.__viewport] when it has a corner and a numeric scale. *)
Module Viewport.
Record t : Type := {
  corner_x : Q;
  corner_y : Q;
  scaled : Q;
  screenWidth : Q;
  screenHeight : Q
}.
End Viewport.

(** Which weather textures [useTextures] has loaded. *)
Module Textures.
Record t : Type := {
  weather_rain_light : bool;
  weather_rain_dark : bool;
  weather_wind_leaf : bool;
  weather_snowflake : bool
}.
End Textures.

Module Env.
Record t : Type := {
  width : Q;                                (* props.width *)
  height : Q;                               (* props.height *)
  weather : option Setting.t;               (* frontendConfig?.weather *)
  mapData : option WeatherGrid.MapMatrix;   (* worldStore.mapData *)
  viewport : option Viewport.t;
  textures : Textures.t
}.
End Env.

(** *** The state of one component instance *)

Record World : Type := {
  drawn : nat;                       (* calls of Math.random() so far *)
  nodes : Handle -> DisplayObject.t;
  next : Handle;                     (* the next display object to be created *)
  container : option Handle;         (* container.value, the template ref *)
  rainContainer : option Handle;
  ticker : bool;                     (* ticker !== null *)
  weatherGrid : list (list WeatherGrid.Cell);
  rainPool : list RainParticle.t;
  windPool : list WindParticle.t;
  snowPool : list SnowParticle.t;
  lightningGraphics : option Handle;
  lightningAlpha : Q;
  lightningPhase : Phase.t;
  stormOverlay : option Handle;
  stormAccum : Q;
  thunder : nat                      (* useAudio().play('thunder') so far *)
}.

Definition set_drawn v w :=
  Build_World v (nodes w) (next w) (container w) (rainContainer w) (ticker w)
    (weatherGrid w) (rainPool w) (windPool w) (snowPool w) (lightningGraphics w)
    (lightningAlpha w) (lightningPhase w) (stormOverlay w) (stormAccum w) (thunder w).
Definition set_nodes v w :=
  Build_World (drawn w) v (next w) (container w) (rainContainer w) (ticker w)
    (weatherGrid w) (rainPool w) (windPool w) (snowPool w) (lightningGraphics w)
    (lightningAlpha w) (lightningPhase w) (stormOverlay w) (stormAccum w) (thunder w).
Definition set_next v w :=
  Build_World (drawn w) (nodes w) v (container w) (rainContainer w) (ticker w)
    (weatherGrid w) (rainPool w) (windPool w) (snowPool w) (lightningGraphics w)
    (lightningAlpha w) (lightningPhase w) (stormOverlay w) (stormAccum w) (thunder w).
Definition set_container v w :=
  Build_World (drawn w) (nodes w) (next w) v (rainContainer w) (ticker w)
    (weatherGrid w) (rainPool w) (windPool w) (snowPool w) (lightningGraphics w)
    (lightningAlpha w) (lightningPhase w) (stormOverlay w) (stormAccum w) (thunder w).
Definition set_rainContainer v w :=
  Build_World (drawn w) (nodes w) (next w) (container w) v (ticker w)
    (weatherGrid w) (rainPool w) (windPool w) (snowPool w) (lightningGraphics w)
    (lightningAlpha w) (lightningPhase w) (stormOverlay w) (stormAccum w) (thunder w).
Definition set_ticker v w :=
  Build_World (drawn w) (nodes w) (next w) (container w) (rainContainer w) v
    (weatherGrid w) (rainPool w) (windPool w) (snowPool w) (lightningGraphics w)
    (lightningAlpha w) (lightningPhase w) (stormOverlay w) (stormAccum w) (thunder w).
Definition set_weatherGrid v w :=
  Build_World (drawn w) (nodes w) (next w) (container w) (rainContainer w) (ticker w)
    v (rainPool w) (windPool w) (snowPool w) (lightningGraphics w)
    (lightningAlpha w) (lightningPhase w) (stormOverlay w) (stormAccum w) (thunder w).
Definition set_rainPool v w :=
  Build_World (drawn w) (nodes w) (next w) (container w) (rainContainer w) (ticker w)
    (weatherGrid w) v (windPool w) (snowPool w) (lightningGraphics w)
    (lightningAlpha w) (lightningPhase w) (stormOverlay w) (stormAccum w) (thunder w).
Definition set_windPool v w :=
  Build_World (drawn w) (nodes w) (next w) (container w) (rainContainer w) (ticker w)
    (weatherGrid w) (rainPool w) v (snowPool w) (lightningGraphics w)
    (lightningAlpha w) (lightningPhase w) (stormOverlay w) (stormAccum w) (thunder w).
Definition set_snowPool v w :=
  Build_World (drawn w) (nodes w) (next w) (container w) (rainContainer w) (ticker w)
    (weatherGrid w) (rainPool w) (windPool w) v (lightningGraphics w)
    (lightningAlpha w) (lightningPhase w) (stormOverlay w) (stormAccum w) (thunder w).
Definition set_lightningGraphics v w :=
  Build_World (drawn w) (nodes w) (next w) (container w) (rainContainer w) (ticker w)
    (weatherGrid w) (rainPool w) (windPool w) (snowPool w) v
    (lightningAlpha w) (lightningPhase w) (stormOverlay w) (stormAccum w) (thunder w).
Definition set_lightningAlpha v w :=
  Build_World (drawn w) (nodes w) (next w) (container w) (rainContainer w) (ticker w)
    (weatherGrid w) (rainPool w) (windPool w) (snowPool w) (lightningGraphics w)
    v (lightningPhase w) (stormOverlay w) (stormAccum w) (thunder w).
Definition set_lightningPhase v w :=
  Build_World (drawn w) (nodes w) (next w) (container w) (rainContainer w) (ticker w)
    (weatherGrid w) (rainPool w) (windPool w) (snowPool w) (lightningGraphics w)
    (lightningAlpha w) v (stormOverlay w) (stormAccum w) (thunder w).
Definition set_stormOverlay v w :=
  Build_World (drawn w) (nodes w) (next w) (container w) (rainContainer w) (ticker w)
    (weatherGrid w) (rainPool w) (windPool w) (snowPool w) (lightningGraphics w)
    (lightningAlpha w) (lightningPhase w) v (stormAccum w) (thunder w).
Definition set_stormAccum v w :=
  Build_World (drawn w) (nodes w) (next w) (container w) (rainContainer w) (ticker w)
    (weatherGrid w) (rainPool w) (windPool w) (snowPool w) (lightningGraphics w)
    (lightningAlpha w) (lightningPhase w) (stormOverlay w) v (thunder w).
Definition set_thunder v w :=
  Build_World (drawn w) (nodes w) (next w) (container w) (rainContainer w) (ticker w)
    (weatherGrid w) (rainPool w) (windPool w) (snowPool w) (lightningGraphics w)
    (lightningAlpha w) (lightningPhase w) (stormOverlay w) (stormAccum w) v.

(** *** State passing *)

Definition M (A : Type) : Type := World -> A * World.

Definition ret {A : Type} (a : A) : M A := fun w => (a, w).

Definition bind {A B : Type} (m : M A) (k : A -> M B) : M B :=
  fun w => let r := m w in k (fst r) (snd r).

Notation "x <- m ;; k" := (bind m (fun x => k))
  (at level 61, m at next level, right associativity).
Notation "m ;; k" := (bind m (fun _ => k))
  (at level 61, right associativity).

Definition exec {A : Type} (m : M A) (w : World) : World := snd (m w).

Definition get {A : Type} (f : World -> A) : M A := fun w => (f w, w).

Definition modify (f : World -> World) : M unit := fun w => (tt, f w).

Fixpoint forEach {A : Type} (l : list A) (f : A -> M unit) : M unit :=
  match l with
  | [] => ret tt
  | a :: l' => f a ;; forEach l' f
  end.

(** [forEach] with a callback that mutates the element in place. *)
Fixpoint forEachUpdate {A : Type} (l : list A) (f : A -> M A) : M (list A) :=
  match l with
  | [] => ret []
  | a :: l' => a' <- f a ;; r <- forEachUpdate l' f ;; ret (a' :: r)
  end.

(** *** Scene graph operations *)

Definition update (h : Handle) (f : DisplayObject.t -> DisplayObject.t)
  (s : Handle -> DisplayObject.t) : Handle -> DisplayObject.t :=
  fun h' => if Nat.eqb h' h then f (s h) else s h'.

Definition onNode (h : Handle) (f : DisplayObject.t -> DisplayObject.t) : M unit :=
  modify (fun w => set_nodes (update h f (nodes w)) w).

(** [new Container()], [new Graphics()], [new Sprite(tex)] *)
Definition new (k : DisplayObject.Kind) : M Handle :=
  fun w =>
    (next w,
     set_next (S (next w))
       (set_nodes (update (next w) (fun _ => DisplayObject.create k) (nodes w)) w)).

Definition addChild (c g : Handle) : M unit :=
  onNode g (DisplayObject.set_parent (Some c)).

Definition isChildOf (c : Handle) (d : DisplayObject.t) : bool :=
  match DisplayObject.parent d with
  | Some c' => Nat.eqb c' c
  | None => false
  end.

Definition removeChild (c g : Handle) : M unit :=
  onNode g (fun d => if isChildOf c d then DisplayObject.set_parent None d else d).

Definition destroy (g : Handle) : M unit :=
  onNode g (DisplayObject.set_destroyed true).

Definition frac (q : Q) : Q := q - inject_Z (Qfloor q).

Definition len {A : Type} (l : list A) : Z := Z.of_nat (List.length l).

Section Component.
Local Open Scope js_scope.

(** The host: the source of the values [Math.random()] returns, and
    [Math.sin], [Math.PI]. *)
Variable entropy : nat -> Q.
Variable Math_sin : Q -> Q.
Variable Math_PI : Q.

Variable env : Env.t.

(** [Math.random()]: a double of [0, 1); which one is up to [entropy], and
    every double of [0, 1) is returned for some value of it. *)
Definition Math_random : M Q :=
  fun w => (unitDouble (frac (entropy (drawn w))), set_drawn (S (drawn w)) w).

(** [arr[Math.floor(Math.random() * arr.length)]] on a non-empty array *)
Definition pick {A : Type} (first : A) (rest : list A) : M A :=
  r <- Math_random ;;
  ret (nth (Z.to_nat (Qfloor (r * inject_Z (len (first :: rest)))%js))
           (first :: rest) first).

Definition getWeatherLevel : Level.t :=
  let level := match Env.weather env with
               | Some k => k
               | None => Setting.high
               end in
  match WEATHER_LEVEL level with
  | Some l => l
  | None => WEATHER_LEVEL_high
  end.

(** [level.rain === 0 && level.wind === 0 && level.snow === 0] *)
Definition allZero (level : Level.t) : bool :=
  strictEq (Level.rain level) 0 && strictEq (Level.wind level) 0
  && strictEq (Level.snow level) 0.

(** The watcher of [mapData] (immediate). *)
Definition watchMapData : M unit :=
  match Env.mapData env with
  | Some (((_ :: _) :: _) as data) =>
      modify (set_weatherGrid (WeatherGrid.buildWeatherGrid data WeatherGrid.defaultSeed))
  | _ => modify (set_weatherGrid [])
  end.

(** Returns [(x, y, w, h)].  (A scale of zero is outside the model: the
    source then divides by zero.) *)
Definition getViewportBounds : Q * Q * Q * Q :=
  match Env.viewport env with
  | Some vp =>
      let scale := Viewport.scaled vp in
      (Viewport.corner_x vp, Viewport.corner_y vp,
       Viewport.screenWidth vp / scale, Viewport.screenHeight vp / scale)
  | None => (0, 0, Env.width env, Env.height env)
  end.

Definition createRainParticle : M Handle :=
  if Textures.weather_rain_light (Env.textures env)
     || Textures.weather_rain_dark (Env.textures env)
  then
    s <- new DisplayObject.Sprite ;;
    scale <- Math_random ;;
    r <- Math_random ;;
    onNode s (DisplayObject.set_rotation (double 0.3 + r * double 0.4)%js) ;;
    a <- Math_random ;;
    onNode s (DisplayObject.set_alpha (double 0.8 + a * double 0.2)%js) ;;
    ret s
  else
    len <- Math_random ;;
    slant <- Math_random ;;
    new DisplayObject.Graphics.

Definition createWindParticle : M Handle :=
  if Textures.weather_wind_leaf (Env.textures env)
  then
    s <- new DisplayObject.Sprite ;;
    scale <- Math_random ;;
    r <- Math_random ;;
    onNode s (DisplayObject.set_rotation (r * Math_PI * 2)%js) ;;
    a <- Math_random ;;
    onNode s (DisplayObject.set_alpha (double 0.6 + a * double 0.35)%js) ;;
    ret s
  else
    g <- new DisplayObject.Graphics ;;
    len <- Math_random ;;
    ret g.

Definition createSnowParticle : M Handle :=
  if Textures.weather_snowflake (Env.textures env)
  then
    s <- new DisplayObject.Sprite ;;
    scale <- Math_random ;;
    r <- Math_random ;;
    onNode s (DisplayObject.set_rotation (r * Math_PI * 2)%js) ;;
    a <- Math_random ;;
    onNode s (DisplayObject.set_alpha (double 0.9 + a * double 0.1)%js) ;;
    ret s
  else
    new DisplayObject.Graphics.

(** [existing.forEach((p) => { c.removeChild(p.g); p.g.destroy() })] *)
Definition discard (c : Handle) (g : Handle) : M unit :=
  removeChild c g ;; destroy g.

(** One round of the [while] loop of [ensureRainParticles]. *)
Definition addRainParticle (c : Handle) (z0 : WeatherGrid.Zone.t)
  (zs : list WeatherGrid.Zone.t) : M unit :=
  zone <- pick z0 zs ;;
  g <- createRainParticle ;;
  rx <- Math_random ;;
  let gx := WeatherGrid.Zone.x zone + rx * WeatherGrid.Zone.width zone in
  onNode g (DisplayObject.set_x gx) ;;
  ry <- Math_random ;;
  let gy := WeatherGrid.Zone.y zone + ry * WeatherGrid.Zone.height zone in
  onNode g (DisplayObject.set_y gy) ;;
  rvx <- Math_random ;;
  let vx := (rvx - 0.5) * double 0.8 in
  rvy <- Math_random ;;
  let vy := 4 + rvy * 6 in
  let p := {| RainParticle.g := g; RainParticle.x := gx; RainParticle.y := gy;
              RainParticle.vx := vx; RainParticle.vy := vy;
              RainParticle.zoneX := WeatherGrid.Zone.x zone;
              RainParticle.zoneY := WeatherGrid.Zone.y zone;
              RainParticle.zoneW := WeatherGrid.Zone.width zone;
              RainParticle.zoneH := WeatherGrid.Zone.height zone |} in
  addChild c g ;;
  modify (fun w => set_rainPool (rainPool w ++ [p]) w).

(** [while (need > 0 && zones.length > 0) { ...; need-- }] *)
Fixpoint rainLoop (c : Handle) (zones : list WeatherGrid.Zone.t) (need : nat) : M unit :=
  match need, zones with
  | S need', z0 :: zs => addRainParticle c z0 zs ;; rainLoop c zones need'
  | _, _ => ret tt
  end.

(** [existing] is the pool array itself: after the loop it also holds the
    particles just pushed. *)
Definition ensureRainParticles (visibleRainZones : list WeatherGrid.Zone.t)
  (maxCount : option Z) : M unit :=
  c <- get rainContainer ;;
  match c with
  | None => ret tt
  | Some c =>
      existing <- get rainPool ;;
      let need := shortfall maxCount (len visibleRainZones * 35) (len existing) in
      if satisfied need && (len visibleRainZones =? 0)%Z
      then
        forEach existing (fun p => discard c (RainParticle.g p)) ;;
        modify (set_rainPool [])
      else
        rainLoop c visibleRainZones (rounds need) ;;
        existing <- get rainPool ;;
        if (len visibleRainZones =? 0)%Z && (0 <? len existing)%Z
        then
          forEach existing (fun p => discard c (RainParticle.g p)) ;;
          modify (set_rainPool [])
        else ret tt
  end.

Definition addWindParticle (c : Handle) (z0 : WeatherGrid.Zone.t)
  (zs : list WeatherGrid.Zone.t) : M unit :=
  zone <- pick z0 zs ;;
  g <- createWindParticle ;;
  rx <- Math_random ;;
  let gx := WeatherGrid.Zone.x zone + rx * WeatherGrid.Zone.width zone in
  onNode g (DisplayObject.set_x gx) ;;
  ry <- Math_random ;;
  let gy := WeatherGrid.Zone.y zone + ry * WeatherGrid.Zone.height zone in
  onNode g (DisplayObject.set_y gy) ;;
  rvx <- Math_random ;;
  let vx := 1.5 + rvx * 2 in
  let p := {| WindParticle.g := g; WindParticle.x := gx; WindParticle.y := gy;
              WindParticle.vx := vx;
              WindParticle.zoneX := WeatherGrid.Zone.x zone;
              WindParticle.zoneW := WeatherGrid.Zone.width zone |} in
  addChild c g ;;
  modify (fun w => set_windPool (windPool w ++ [p]) w).

Fixpoint windLoop (c : Handle) (zones : list WeatherGrid.Zone.t) (need : nat) : M unit :=
  match need, zones with
  | S need', z0 :: zs => addWindParticle c z0 zs ;; windLoop c zones need'
  | _, _ => ret tt
  end.

Definition ensureWindParticles (visibleWindZones : list WeatherGrid.Zone.t)
  (maxCount : option Z) : M unit :=
  c <- get container ;;
  match c with
  | None => ret tt
  | Some c =>
      existing <- get windPool ;;
      let need := shortfall maxCount (len visibleWindZones * 12) (len existing) in
      if satisfied need && (len visibleWindZones =? 0)%Z
      then
        forEach existing (fun p => discard c (WindParticle.g p)) ;;
        modify (set_windPool [])
      else
        windLoop c visibleWindZones (rounds need) ;;
        existing <- get windPool ;;
        if (len visibleWindZones =? 0)%Z && (0 <? len existing)%Z
        then
          forEach existing (fun p => discard c (WindParticle.g p)) ;;
          modify (set_windPool [])
        else ret tt
  end.

Definition addSnowParticle (c : Handle) (z0 : WeatherGrid.Zone.t)
  (zs : list WeatherGrid.Zone.t) : M unit :=
  zone <- pick z0 zs ;;
  g <- createSnowParticle ;;
  rx <- Math_random ;;
  let gx := WeatherGrid.Zone.x zone + rx * WeatherGrid.Zone.width zone in
  onNode g (DisplayObject.set_x gx) ;;
  ry <- Math_random ;;
  let gy := WeatherGrid.Zone.y zone + ry * WeatherGrid.Zone.height zone in
  onNode g (DisplayObject.set_y gy) ;;
  rvy <- Math_random ;;
  let vy := double 0.35 + rvy * double 0.55 in
  rph <- Math_random ;;
  let p := {| SnowParticle.g := g; SnowParticle.x := gx; SnowParticle.y := gy;
              SnowParticle.vy := vy; SnowParticle.phase := (rph * Math_PI * 2)%js;
              SnowParticle.zoneX := WeatherGrid.Zone.x zone;
              SnowParticle.zoneY := WeatherGrid.Zone.y zone;
              SnowParticle.zoneW := WeatherGrid.Zone.width zone;
              SnowParticle.zoneH := WeatherGrid.Zone.height zone |} in
  addChild c g ;;
  modify (fun w => set_snowPool (snowPool w ++ [p]) w).

Fixpoint snowLoop (c : Handle) (zones : list WeatherGrid.Zone.t) (need : nat) : M unit :=
  match need, zones with
  | S need', z0 :: zs => addSnowParticle c z0 zs ;; snowLoop c zones need'
  | _, _ => ret tt
  end.

Definition ensureSnowParticles (visibleSnowZones : list WeatherGrid.Zone.t)
  (maxCount : option Z) : M unit :=
  c <- get container ;;
  match c with
  | None => ret tt
  | Some c =>
      existing <- get snowPool ;;
      let need := shortfall maxCount (len visibleSnowZones * 20) (len existing) in
      if satisfied need && (len visibleSnowZones =? 0)%Z
      then
        forEach existing (fun p => discard c (SnowParticle.g p)) ;;
        modify (set_snowPool [])
      else
        snowLoop c visibleSnowZones (rounds need) ;;
        existing <- get snowPool ;;
        if (len visibleSnowZones =? 0)%Z && (0 <? len existing)%Z
        then
          forEach existing (fun p => discard c (SnowParticle.g p)) ;;
          modify (set_snowPool [])
        else ret tt
  end.

Definition ensureStormOverlay (hasStorm : bool) : M unit :=
  c <- get container ;;
  match c with
  | None => ret tt
  | Some c =>
      overlay <- get stormOverlay ;;
      if hasStorm
      then
        match overlay with
        | None =>
            o <- new DisplayObject.Graphics ;;
            modify (set_stormOverlay (Some o)) ;;
            addChild c o ;;
            onNode o (DisplayObject.set_visible true)
        | Some o => onNode o (DisplayObject.set_visible true)
        end
      else
        match overlay with
        | Some o => onNode o (DisplayObject.set_visible false)
        | None => ret tt
        end
  end.

(** [indices.add(i)] on a [Set], kept in insertion order *)
Definition setAdd (i : Z) (indices : list Z) : list Z :=
  if existsb (Z.eqb i) indices then indices else indices ++ [i].

(** [while (indices.size < count) indices.add(Math.floor(Math.random() * n))].
    The loop ends only when the draws produce [count] distinct indices;
    [fuel] bounds the number of draws, and [None] stands for a loop that
    has not ended within it. *)
Fixpoint pickIndices (fuel : nat) (count : nat) (n : Z) (indices : list Z) (w : World)
  : option (list Z * World) :=
  if (List.length indices <? count)%nat
  then
    match fuel with
    | O => None
    | S fuel' =>
        let r := Math_random w in
        pickIndices fuel' count n
          (setAdd (Qfloor (fst r * inject_Z n)%js) indices) (snd r)
    end
  else Some (indices, w).

(** The rectangles drawn over the chosen zones are drawing commands and
    are not tracked. *)
Definition triggerLightning (fuel : nat) (stormZones : list WeatherGrid.Zone.t)
  (w : World) : option World :=
  match container w with
  | None => Some w
  | Some c =>
      if (len stormZones =? 0)%Z then Some w
      else
        let w :=
          match lightningGraphics w with
          | Some old => exec (removeChild c old ;; destroy old) w
          | None => w
          end in
        let w := exec (g <- new DisplayObject.Graphics ;;
                       modify (set_lightningGraphics (Some g))) w in
        let count := Nat.min 2 (List.length stormZones) in
        match pickIndices fuel count (len stormZones) [] w with
        | None => None
        | Some (_, w) =>
            Some (exec
                    (g <- get lightningGraphics ;;
                     match g with
                     | Some g => addChild c g
                     | None => ret tt
                     end ;;
                     modify (set_lightningAlpha (double 0.92)) ;;
                     modify (set_lightningPhase Phase.first) ;;
                     modify (fun w => set_thunder (S (thunder w)) w)) w)
        end
  end.

Definition tryLightning (fuel : nat) (dt : Q) (stormZones : list WeatherGrid.Zone.t)
  (w : World) : option World :=
  if (len stormZones =? 0)%Z then Some w
  else
    let level := getWeatherLevel in
    if leq (Level.stormChance level) 0 then Some w
    else
      let w := set_stormAccum (stormAccum w + dt)%js w in
      if ltb (stormAccum w) 0.5 then Some w
      else
        let w := set_stormAccum 0 w in
        let r := Math_random w in
        if gt (fst r) (Level.stormChance level) then Some (snd r)
        else triggerLightning fuel stormZones (snd r).

Definition Qmax0 (a : Q) : Q := if Qle_bool 0 a then a else 0.

Definition updateLightning (dt : Q) : M unit :=
  g <- get lightningGraphics ;;
  match g with
  | None => ret tt
  | Some g =>
      let decay := 7 in
      phase <- get lightningPhase ;;
      alpha <- get lightningAlpha ;;
      match phase with
      | Phase.first =>
          let alpha := alpha - dt * decay in
          if Qle_bool alpha 0.25
          then modify (set_lightningAlpha 0.25) ;; modify (set_lightningPhase Phase.dim)
          else modify (set_lightningAlpha alpha)
      | Phase.dim =>
          let alpha := alpha - dt * 2 in
          if Qle_bool alpha (double 0.15)
          then
            modify (set_lightningPhase Phase.second) ;;
            modify (set_lightningAlpha (double 0.65))
          else modify (set_lightningAlpha alpha)
      | Phase.second =>
          let alpha := alpha - dt * decay in
          modify (set_lightningAlpha alpha) ;;
          if Qle_bool alpha 0 then modify (set_lightningPhase Phase.out) else ret tt
      | Phase.out =>
          modify (set_lightningAlpha (alpha - dt * decay)%js)
      end ;;
      alpha <- get lightningAlpha ;;
      onNode g (DisplayObject.set_alpha (Qmax0 alpha)) ;;
      if Qle_bool alpha 0
      then
        onNode g (DisplayObject.set_parent None) ;;
        destroy g ;;
        modify (set_lightningGraphics None) ;;
        modify (set_lightningPhase Phase.out)
      else ret tt
  end.

Definition setupContainers : M unit :=
  rc <- get rainContainer ;;
  match rc with
  | Some _ => ret tt
  | None =>
      c <- get container ;;
      match c with
      | None => ret tt
      | Some c =>
          r <- new DisplayObject.Container ;;
          modify (set_rainContainer (Some r)) ;;
          addChild c r
      end
  end.

(** The three [forEach] loops of the frame callback. *)
Definition moveRain (dt : Q) (p : RainParticle.t) : M RainParticle.t :=
  let x := RainParticle.x p + RainParticle.vx p * dt in
  let y := RainParticle.y p + RainParticle.vy p * dt in
  xy <- (if ltb (RainParticle.zoneY p + RainParticle.zoneH p + 20)%js y
         then
           r <- Math_random ;;
           ret (RainParticle.zoneX p + r * RainParticle.zoneW p, RainParticle.zoneY p - 10)
         else ret (x, y)) ;;
  onNode (RainParticle.g p) (DisplayObject.set_x (fst xy)) ;;
  onNode (RainParticle.g p) (DisplayObject.set_y (snd xy)) ;;
  ret {| RainParticle.g := RainParticle.g p;
         RainParticle.x := fst xy; RainParticle.y := snd xy;
         RainParticle.vx := RainParticle.vx p; RainParticle.vy := RainParticle.vy p;
         RainParticle.zoneX := RainParticle.zoneX p;
         RainParticle.zoneY := RainParticle.zoneY p;
         RainParticle.zoneW := RainParticle.zoneW p;
         RainParticle.zoneH := RainParticle.zoneH p |}.

Definition moveWind (dt : Q) (p : WindParticle.t) : M WindParticle.t :=
  let x := WindParticle.x p + WindParticle.vx p * dt in
  let x := if ltb (WindParticle.zoneX p + WindParticle.zoneW p + 20)%js x
           then WindParticle.zoneX p - 10 else x in
  onNode (WindParticle.g p) (DisplayObject.set_x x) ;;
  onNode (WindParticle.g p) (DisplayObject.set_y (WindParticle.y p)) ;;
  ret {| WindParticle.g := WindParticle.g p;
         WindParticle.x := x; WindParticle.y := WindParticle.y p;
         WindParticle.vx := WindParticle.vx p;
         WindParticle.zoneX := WindParticle.zoneX p;
         WindParticle.zoneW := WindParticle.zoneW p |}.

Definition moveSnow (dt : Q) (p : SnowParticle.t) : M SnowParticle.t :=
  let y := SnowParticle.y p + SnowParticle.vy p * dt in
  let phase := SnowParticle.phase p + dt * double 0.8 in
  let wobble := Math_sin phase * double 1.2 in
  let wx := SnowParticle.x p + wobble in
  xy <- (if ltb (SnowParticle.zoneY p + SnowParticle.zoneH p + 10)%js y
         then
           r <- Math_random ;;
           ret (SnowParticle.zoneX p + r * SnowParticle.zoneW p, SnowParticle.zoneY p - 5)
         else ret (SnowParticle.x p, y)) ;;
  onNode (SnowParticle.g p) (DisplayObject.set_x wx) ;;
  onNode (SnowParticle.g p) (DisplayObject.set_y (snd xy)) ;;
  onNode (SnowParticle.g p)
    (fun d => match DisplayObject.kind d with
              | DisplayObject.Sprite =>
                  DisplayObject.set_rotation
                    (DisplayObject.rotation d + dt * double 0.15)%js d
              | _ => d
              end) ;;
  ret {| SnowParticle.g := SnowParticle.g p;
         SnowParticle.x := fst xy; SnowParticle.y := snd xy;
         SnowParticle.vy := SnowParticle.vy p; SnowParticle.phase := phase;
         SnowParticle.zoneX := SnowParticle.zoneX p;
         SnowParticle.zoneY := SnowParticle.zoneY p;
         SnowParticle.zoneW := SnowParticle.zoneW p;
         SnowParticle.zoneH := SnowParticle.zoneH p |}.

Definition integrateRain (dt : Q) : M unit :=
  pool <- get rainPool ;;
  pool' <- forEachUpdate pool (moveRain dt) ;;
  modify (set_rainPool pool').

Definition integrateWind (dt : Q) : M unit :=
  pool <- get windPool ;;
  pool' <- forEachUpdate pool (moveWind dt) ;;
  modify (set_windPool pool').

Definition integrateSnow (dt : Q) : M unit :=
  pool <- get snowPool ;;
  pool' <- forEachUpdate pool (moveSnow dt) ;;
  modify (set_snowPool pool').

Definition weatherIs (grid : list (list WeatherGrid.Cell)) (w : WeatherGrid.WeatherType)
  (z : WeatherGrid.Zone.t) : bool :=
  match WeatherGrid.cellAt grid (WeatherGrid.Zone.zy z) (WeatherGrid.Zone.zx z) with
  | Some w' => WeatherGrid.WeatherType_eqb w' w
  | None => false
  end.

(** The callback added to the ticker in [startTicker]; [deltaTime] is
    [t.deltaTime]. *)
Definition tick (fuel : nat) (deltaTime : Q) (w : World) : option World :=
  let w := exec setupContainers w in
  let grid := weatherGrid w in
  let zoneRows := len grid in
  let zoneCols := match grid with [] => 0%Z | row :: _ => len row end in
  let dt := deltaTime in
  let '(bx, by_, bw, bh) := getViewportBounds in
  if (zoneRows =? 0)%Z || (zoneCols =? 0)%Z then Some w
  else
    let level := getWeatherLevel in
    if allZero level then Some w
    else
      let zones := WeatherGrid.getVisibleZones bx by_ bw bh zoneRows zoneCols in
      let rainZones :=
        filter (fun z => weatherIs grid WeatherGrid.rain z
                         || weatherIs grid WeatherGrid.storm z) zones in
      let windZones := filter (weatherIs grid WeatherGrid.wind) zones in
      let snowZones := filter (weatherIs grid WeatherGrid.snow) zones in
      let stormZones := filter (weatherIs grid WeatherGrid.storm) zones in
      let hasStorm := (0 <? len stormZones)%Z in
      let w :=
        exec (ensureRainParticles rainZones (Level.rain level) ;;
              ensureWindParticles windZones (Level.wind level) ;;
              ensureSnowParticles snowZones (Level.snow level) ;;
              ensureStormOverlay hasStorm ;;
              integrateRain dt ;;
              integrateWind dt ;;
              integrateSnow dt) w in
      match tryLightning fuel dt stormZones w with
      | None => None
      | Some w => Some (exec (updateLightning dt) w)
      end.

Definition startTicker : M unit :=
  t <- get ticker ;;
  if t then ret tt else modify (set_ticker true).

(** [node?.parent] is set *)
Definition attached (h : option Handle) : M bool :=
  ns <- get nodes ;;
  ret match h with
      | Some h => match DisplayObject.parent (ns h) with Some _ => true | None => false end
      | None => false
      end.

Definition stopTicker : M unit :=
  modify (set_ticker false) ;;
  modify (set_stormAccum 0) ;;
  overlay <- get stormOverlay ;;
  a <- attached overlay ;;
  match overlay with
  | Some o => if a then onNode o (DisplayObject.set_visible false) else ret tt
  | None => ret tt
  end ;;
  g <- get lightningGraphics ;;
  a <- attached g ;;
  match g with
  | Some g =>
      if a
      then
        onNode g (DisplayObject.set_parent None) ;;
        destroy g ;;
        modify (set_lightningGraphics None)
      else ret tt
  | None => ret tt
  end ;;
  pool <- get rainPool ;;
  forEach pool (fun p => destroy (RainParticle.g p)) ;;
  modify (set_rainPool []) ;;
  pool <- get windPool ;;
  forEach pool (fun p => destroy (WindParticle.g p)) ;;
  modify (set_windPool []) ;;
  pool <- get snowPool ;;
  forEach pool (fun p => destroy (SnowParticle.g p)) ;;
  modify (set_snowPool []).

(** The callback of both watchers of the weather level (the second one
    also runs when the grid changes). *)
Definition watchLevel : M unit :=
  let level := getWeatherLevel in
  if allZero level then stopTicker
  else
    grid <- get weatherGrid ;;
    if (0 <? len grid)%Z then startTicker else ret tt.

Definition onMounted : M unit :=
  setupContainers ;;
  grid <- get weatherGrid ;;
  if negb (strictEq (Level.rain getWeatherLevel) 0) && (0 <? len grid)%Z
  then startTicker else ret tt.

Definition onUnmounted : M unit :=
  stopTicker ;;
  modify (set_rainContainer None) ;;
  overlay <- get stormOverlay ;;
  a <- attached overlay ;;
  match overlay with
  | Some o =>
      if a
      then
        onNode o (DisplayObject.set_parent None) ;;
        destroy o ;;
        modify (set_stormOverlay None)
      else ret tt
  | None => ret tt
  end.

(** One animation frame: the ticker runs its callback while it exists. *)
Definition frame (fuel : nat) (deltaTime : Q) (w : World) : option World :=
  if ticker w then tick fuel deltaTime w else Some w.

(** The state when the script has run: nothing created yet, the grid
    computed by the immediate watcher. *)
Definition created : World :=
  exec watchMapData
    {| drawn := 0%nat;
       nodes := fun _ => DisplayObject.create DisplayObject.Container;
       next := 0%nat;
       container := None;
       rainContainer := None;
       ticker := false;
       weatherGrid := [];
       rainPool := [];
       windPool := [];
       snowPool := [];
       lightningGraphics := None;
       lightningAlpha := 0;
       lightningPhase := Phase.out;
       stormOverlay := None;
       stormAccum := 0;
       thunder := 0%nat |}.

(** Mounting: the framework creates the template's container, fills the
    ref, and runs the mounted hook. *)
Definition mount : M unit :=
  c <- new DisplayObject.Container ;;
  modify (set_container (Some c)) ;;
  onMounted.

(** Unmounting: the unmounted hook runs and the framework clears the
    template ref. *)
Definition unmount : M unit :=
  onUnmounted ;;
  modify (set_container None).

(** The lightning after [n] frames in which only [updateLightning] acts. *)
Fixpoint decay (dt : Q) (n : nat) (w : World) : World :=
  match n with
  | O => w
  | S n' => exec (updateLightning dt) (decay dt n' w)
  end.

End Component.

(** *** The three pools seen uniformly

    [reconcile] is the name under which the three [ensure...Particles]
    functions are referred to; [density] is the per-zone factor each of
    them multiplies the zone count with. *)

Module Kind.
Inductive t : Type := rain | wind | snow.
End Kind.

Definition density (k : Kind.t) : Z :=
  match k with
  | Kind.rain => 35
  | Kind.wind => 12
  | Kind.snow => 20
  end.

(** The display objects of the particles in the pool, in pool order. *)
Definition pooled (k : Kind.t) (w : World) : list Handle :=
  match k with
  | Kind.rain => map RainParticle.g (rainPool w)
  | Kind.wind => map WindParticle.g (windPool w)
  | Kind.snow => map SnowParticle.g (snowPool w)
  end.

Definition poolSize (k : Kind.t) (w : World) : Z := len (pooled k w).

(** The container the particles of the pool are added to. *)
Definition poolContainer (k : Kind.t) (w : World) : option Handle :=
  match k with
  | Kind.rain => rainContainer w
  | Kind.wind | Kind.snow => container w
  end.

Definition reconcile (entropy : nat -> Q) (Math_PI : Q) (env : Env.t) (k : Kind.t)
  (zones : list WeatherGrid.Zone.t) (maxCount : Z) : M unit :=
  match k with
  | Kind.rain => ensureRainParticles entropy env zones (Some maxCount)
  | Kind.wind => ensureWindParticles entropy Math_PI env zones (Some maxCount)
  | Kind.snow => ensureSnowParticles entropy Math_PI env zones (Some maxCount)
  end.

Definition target (k : Kind.t) (zones : list WeatherGrid.Zone.t) (maxCount : Z) : Z :=
  Z.min maxCount (len zones * density k).

(** *** The states a component instance can be in

    From the state after the script has run, the framework mounts and
    unmounts the component, the ticker calls the frame callback, and the
    watchers run when the store changes; the surroundings [env] may differ
    from one event to the next. *)
Section Reachable.
Variable entropy : nat -> Q.
Variable Math_sin : Q -> Q.
Variable Math_PI : Q.

Inductive reachable : World -> Prop :=
| reach_created (env : Env.t) :
    reachable (created env)
| reach_mount (env : Env.t) (w : World) :
    reachable w -> reachable (exec (mount env) w)
| reach_frame (env : Env.t) (fuel : nat) (dt : Q) (w w' : World) :
    reachable w ->
    frame entropy Math_sin Math_PI env fuel dt w = Some w' ->
    reachable w'
| reach_watchMapData (env : Env.t) (w : World) :
    reachable w -> reachable (exec (watchMapData env) w)
| reach_watchLevel (env : Env.t) (w : World) :
    reachable w -> reachable (exec (watchLevel env) w)
| reach_unmount (w : World) :
    reachable w -> reachable (exec unmount w).
End Reachable.


(** *** Predicates used to state and prove the properties *)

(** [Keeps f m]: running [m] leaves the observation [f] of the state
    unchanged. *)
Definition Keeps {X A : Type} (f : World -> X) (m : M A) : Prop :=
  forall w, f (snd (m w)) = f w.

(** [Ignores set f]: the observation [f] does not depend on the field
    written by [set]. *)
Definition Ignores {X V : Type} (set : V -> World -> World) (f : World -> X) : Prop :=
  forall v w, f (set v w) = f w.

(** Observations that do not look at the scene graph or at the count of
    random draws. *)
Definition SceneBlind {X : Type} (f : World -> X) : Prop :=
  Ignores set_drawn f /\ Ignores set_nodes f /\ Ignores set_next f.

(** [Extends pool n m]: running [m] appends [n] particles to the pool and
    leaves the ones already there as they are. *)
Definition Extends {P A : Type} (pool : World -> list P) (n : nat) (m : M A) : Prop :=
  forall w, exists created,
    pool (snd (m w)) = pool w ++ created /\ List.length created = n.

(** [Hoare P m Q]: from a state satisfying [P], [m] returns a value and a
    state satisfying [Q]. *)
Definition Hoare {A : Type} (P : World -> Prop) (m : M A) (Q : A -> World -> Prop) : Prop :=
  forall w, P w -> Q (fst (m w)) (snd (m w)).

(** [Sets f v m]: after [m], the observation [f] is [v]. *)
Definition Sets {X A : Type} (f : World -> X) (v : X) (m : M A) : Prop :=
  forall w, f (snd (m w)) = v.

(** [destroy] was called on the object and it is no child of [c]. *)
Definition discarded (c : Handle) (d : DisplayObject.t) : Prop :=
  DisplayObject.destroyed d = true /\ isChildOf c d = false.

Section Steps.
Import JsNumber.
Local Open Scope js_scope.

(** What one frame's motion does to a rain particle: the display object,
    the velocity and the home zone stay; the position advances, or, past
    the lower bound of the home zone, is reset relative to that zone. *)
Definition rainStep (dt : Q) (p p' : RainParticle.t) : Prop :=
  RainParticle.g p' = RainParticle.g p
  /\ RainParticle.vx p' = RainParticle.vx p
  /\ RainParticle.vy p' = RainParticle.vy p
  /\ RainParticle.zoneX p' = RainParticle.zoneX p
  /\ RainParticle.zoneY p' = RainParticle.zoneY p
  /\ RainParticle.zoneW p' = RainParticle.zoneW p
  /\ RainParticle.zoneH p' = RainParticle.zoneH p
  /\ if ltb (RainParticle.zoneY p + RainParticle.zoneH p + 20)%js
            (RainParticle.y p + RainParticle.vy p * dt)%js
     then RainParticle.y p' = RainParticle.zoneY p - 10
          /\ exists r, 0 <= r /\ r < 1
               /\ RainParticle.x p' = RainParticle.zoneX p + r * RainParticle.zoneW p
     else RainParticle.x p' = RainParticle.x p + RainParticle.vx p * dt
          /\ RainParticle.y p' = RainParticle.y p + RainParticle.vy p * dt.

Definition windStep (dt : Q) (p p' : WindParticle.t) : Prop :=
  WindParticle.g p' = WindParticle.g p
  /\ WindParticle.vx p' = WindParticle.vx p
  /\ WindParticle.zoneX p' = WindParticle.zoneX p
  /\ WindParticle.zoneW p' = WindParticle.zoneW p
  /\ WindParticle.y p' = WindParticle.y p
  /\ WindParticle.x p'
     = if ltb (WindParticle.zoneX p + WindParticle.zoneW p + 20)%js
              (WindParticle.x p + WindParticle.vx p * dt)%js
       then WindParticle.zoneX p - 10
       else WindParticle.x p + WindParticle.vx p * dt.

Definition snowStep (dt : Q) (p p' : SnowParticle.t) : Prop :=
  SnowParticle.g p' = SnowParticle.g p
  /\ SnowParticle.vy p' = SnowParticle.vy p
  /\ SnowParticle.phase p' = SnowParticle.phase p + dt * double 0.8
  /\ SnowParticle.zoneX p' = SnowParticle.zoneX p
  /\ SnowParticle.zoneY p' = SnowParticle.zoneY p
  /\ SnowParticle.zoneW p' = SnowParticle.zoneW p
  /\ SnowParticle.zoneH p' = SnowParticle.zoneH p
  /\ if ltb (SnowParticle.zoneY p + SnowParticle.zoneH p + 10)%js
            (SnowParticle.y p + SnowParticle.vy p * dt)%js
     then SnowParticle.y p' = SnowParticle.zoneY p - 5
          /\ exists r, 0 <= r /\ r < 1
               /\ SnowParticle.x p' = SnowParticle.zoneX p + r * SnowParticle.zoneW p
     else SnowParticle.x p' = SnowParticle.x p
          /\ SnowParticle.y p' = SnowParticle.y p + SnowParticle.vy p * dt.

(** A pool holds particles only while its container exists. *)
Definition poolsHaveContainer (w : World) : Prop :=
  forall k, poolContainer k w = None -> pooled k w = [].

End Steps.

(** A lightning node that is attached: the teardown removes and destroys
    it, and what follows leaves it destroyed and detached. *)
Definition lightningAttached (g : Handle) (w : World) : Prop :=
  lightningGraphics w = Some g /\ DisplayObject.parent (nodes w g) <> None.

Definition lightningGone (g : Handle) (w : World) : Prop :=
  lightningGraphics w = None
  /\ DisplayObject.destroyed (nodes w g) = true
  /\ DisplayObject.parent (nodes w g) = None.

(** A flash in progress in phase [ph]: its node exists, is not destroyed,
    and the opacity is positive. *)
Definition flashing (g : Handle) (ph : Phase.t) (w : World) : Prop :=
  lightningGraphics w = Some g
  /\ lightningPhase w = ph
  /\ 0 < lightningAlpha w
  /\ DisplayObject.destroyed (nodes w g) = false.

(** A flash in progress in phase [ph] whose opacity is at most [top]. *)
Definition bright (g : Handle) (ph : Phase.t) (top : Q) (w : World) : Prop :=
  flashing g ph w /\ lightningAlpha w <= top.

(** The flash is over: the node is destroyed and forgotten. *)
Definition faded (g : Handle) (w : World) : Prop :=
  lightningGraphics w = None
  /\ lightningPhase w = Phase.out
  /\ lightningAlpha w <= 0
  /\ DisplayObject.destroyed (nodes w g) = true.

(** *** Predicates on the state of a component instance *)

(** A lightning node exists only in the course of a flash: its phase is
    not out and the opacity is positive. *)
Definition lightningLive (w : World) : Prop :=
  forall g, lightningGraphics w = Some g ->
    lightningPhase w <> Phase.out /\ 0 < lightningAlpha w.

(** The fields the teardown resets: no particle, no accumulated storm
    time. *)
Definition idle (w : World) : Prop :=
  rainPool w = [] /\ windPool w = [] /\ snowPool w = [] /\ stormAccum w = 0.

(** A rectangle the culler builds for a pair of zone indices that are not
    negative: 512 pixels wide and high, at a multiple of 512 pixels in both
    directions.  (Nothing relates it to the grid the component holds at
    present.) *)
Definition zoneRect (z : WeatherGrid.Zone.t) : Prop :=
  exists zx zy : Z, z = WeatherGrid.zoneAt zx zy /\ (0 <= zx)%Z /\ (0 <= zy)%Z.

(** What holds of a rain particle from its creation on: it falls with a
    speed between 4 and 10, drifts sideways with a speed between the
    doubles nearest to -0.4 and 0.4, its home zone is a zone rectangle, and
    it is not below the bound [zoneY + zoneH + 20] the frame callback
    compares it with. *)
Definition rainSound (p : RainParticle.t) : Prop :=
  (4 <= RainParticle.vy p /\ RainParticle.vy p <= 10)
  /\ (- double 0.4 <= RainParticle.vx p /\ RainParticle.vx p <= double 0.4)
  /\ (exists z, zoneRect z
                /\ RainParticle.zoneX p = WeatherGrid.Zone.x z
                /\ RainParticle.zoneY p = WeatherGrid.Zone.y z
                /\ RainParticle.zoneW p = WeatherGrid.Zone.width z
                /\ RainParticle.zoneH p = WeatherGrid.Zone.height z)
  /\ RainParticle.y p <= (RainParticle.zoneY p + RainParticle.zoneH p + 20)%js.

(** A wind particle blows to the right with a speed between 1.5 and 3.5
    and is not right of the bound [zoneX + zoneW + 20]. *)
Definition windSound (p : WindParticle.t) : Prop :=
  (1.5 <= WindParticle.vx p /\ WindParticle.vx p <= 3.5)
  /\ (exists z, zoneRect z
                /\ WindParticle.zoneX p = WeatherGrid.Zone.x z
                /\ WindParticle.zoneW p = WeatherGrid.Zone.width z)
  /\ WindParticle.x p <= (WindParticle.zoneX p + WindParticle.zoneW p + 20)%js.

(** A snow particle falls with a speed between the doubles nearest to 0.35
    and 0.9 and is not below the bound [zoneY + zoneH + 10]. *)
Definition snowSound (p : SnowParticle.t) : Prop :=
  (double 0.35 <= SnowParticle.vy p /\ SnowParticle.vy p <= double 0.9)
  /\ (exists z, zoneRect z
                /\ SnowParticle.zoneX p = WeatherGrid.Zone.x z
                /\ SnowParticle.zoneY p = WeatherGrid.Zone.y z
                /\ SnowParticle.zoneW p = WeatherGrid.Zone.width z
                /\ SnowParticle.zoneH p = WeatherGrid.Zone.height z)
  /\ SnowParticle.y p <= (SnowParticle.zoneY p + SnowParticle.zoneH p + 10)%js.

(** *** The display objects a component instance refers to *)

Definition olist (h : option Handle) : list Handle :=
  match h with
  | Some h => [h]
  | None => []
  end.

(** The display objects the component refers to: the pooled particles, the
    lightning node, the storm overlay and the rain container. *)
Definition referenced (w : World) : list Handle :=
  pooled Kind.rain w ++ pooled Kind.wind w ++ pooled Kind.snow w
  ++ olist (lightningGraphics w) ++ olist (stormOverlay w) ++ olist (rainContainer w).

(** The object was created and [destroy] was not called on it. *)
Definition alive (w : World) (h : Handle) : Prop :=
  (h < next w)%nat /\ DisplayObject.destroyed (nodes w h) = false.

(** The object has a parent. *)
Definition inScene (w : World) (h : Handle) : Prop :=
  DisplayObject.parent (nodes w h) <> None.

(** No display object is referred to twice, every one referred to is
    alive, and every one is in the scene; [pending] are objects just
    created and not yet assigned. *)
Definition wellFormed (pending : list Handle) (w : World) : Prop :=
  NoDup (pending ++ referenced w)
  /\ Forall (alive w) (pending ++ referenced w)
  /\ Forall (inScene w) (referenced w).

(** [Gentle m]: [m] creates no display object, calls [destroy] on none and
    detaches none. *)
Definition Gentle {A : Type} (m : M A) : Prop :=
  forall w,
    next (snd (m w)) = next w
    /\ forall h,
         DisplayObject.destroyed (nodes (snd (m w)) h) = DisplayObject.destroyed (nodes w h)
         /\ (inScene w h -> inScene (snd (m w)) h).

(** [Touches hs m]: [m] creates no display object and writes to none but
    those of [hs]. *)
Definition Touches {A : Type} (hs : list Handle) (m : M A) : Prop :=
  forall w,
    next (snd (m w)) = next w
    /\ forall h, ~ In h hs -> nodes (snd (m w)) h = nodes w h.

(** [Still obs n m]: [m] leaves the observation [obs] of each of the first
    [n] display objects as it is; it may create objects, and write to the
    ones created after these. *)
Definition Still {X A : Type} (obs : DisplayObject.t -> X) (n : nat) (m : M A) : Prop :=
  forall w, (n <= next w)%nat ->
    (n <= next (snd (m w)))%nat
    /\ forall h, (h < n)%nat -> obs (nodes (snd (m w)) h) = obs (nodes w h).

(** Where a display object is drawn. *)
Definition position (d : DisplayObject.t) : Q * Q :=
  (DisplayObject.x d, DisplayObject.y d).

(** The display object of a rain or wind particle is drawn where the
    particle is; that of a snow particle at the particle's height (its [x]
    is the particle's [x] of the frame before, with the wobble added). *)
Definition rainPlaced (w : World) (p : RainParticle.t) : Prop :=
  position (nodes w (RainParticle.g p)) = (RainParticle.x p, RainParticle.y p).

Definition windPlaced (w : World) (p : WindParticle.t) : Prop :=
  position (nodes w (WindParticle.g p)) = (WindParticle.x p, WindParticle.y p).

Definition snowPlaced (w : World) (p : SnowParticle.t) : Prop :=
  DisplayObject.y (nodes w (SnowParticle.g p)) = SnowParticle.y p.

(** Every pooled particle has its display object where it belongs. *)
Definition placed (w : World) : Prop :=
  Forall (rainPlaced w) (rainPool w)
  /\ Forall (windPlaced w) (windPool w)
  /\ Forall (snowPlaced w) (snowPool w).

(** The largest particle count of any preset, by kind: the counts of
    [WEATHER_LEVEL.high]. *)
Definition cap (k : Kind.t) : Z :=
  match k with
  | Kind.rain => 320
  | Kind.wind => 90
  | Kind.snow => 110
  end.

End WeatherLayer.


(** ** A concrete run, used for witnesses and counterexamples *)

Module Scenario.
Import WeatherLayer.
Local Open Scope Q_scope.
Definition entropy (i : nat) : Q := Z.of_nat ((i * 37) mod 101) # 101.
Definition Math_sin (q : Q) : Q := 0.
Definition Math_PI : Q := 884279719003555 # 281474976710656.
Definition noTextures : Textures.t :=
  {| Textures.weather_rain_light := false; Textures.weather_rain_dark := false;
     Textures.weather_wind_leaf := false; Textures.weather_snowflake := false |}.
Definition rainforest (rows cols : nat) : WeatherGrid.MapMatrix :=
  repeat (repeat "RAINFOREST"%string cols) rows.
Definition env (weather : Setting.t) : Env.t :=
  {| Env.width := 2048; Env.height := 512; Env.weather := Some weather;
     Env.mapData := Some (rainforest 8 32); Env.viewport := None;
     Env.textures := noTextures |}.
Definition mounted : World := exec (mount (env Setting.high)) (created (env Setting.high)).
Definition afterFrame : World :=
  match tick entropy Math_sin Math_PI (env Setting.high) 5 1 mounted with
  | Some w => w
  | None => mounted
  end.
(** The same first frame after a long pause of the animation clock. *)
Definition afterLongFrame : World :=
  match tick entropy Math_sin Math_PI (env Setting.high) 5 6 mounted with
  | Some w => w
  | None => mounted
  end.
(** A second frame, after a long pause, over the rain particles the first
    frame has created. *)
Definition afterSecondFrame : World :=
  match tick entropy Math_sin Math_PI (env Setting.high) 5 6 afterFrame with
  | Some w => w
  | None => afterFrame
  end.
(** A lightning trigger over the storm zone of the map. *)
Definition flash : World :=
  match triggerLightning entropy 5 [WeatherGrid.zoneAt 3 0] mounted with
  | Some w => w
  | None => mounted
  end.
(** A second map, with sea, glacier, tundra and snow mountain side by side
    (wind, snow, snow and clear under the default seed), all textures
    loaded and the preset low. *)
Definition coast : WeatherGrid.MapMatrix :=
  repeat (repeat "SEA"%string 8 ++ repeat "GLACIER"%string 8
          ++ repeat "TUNDRA"%string 8 ++ repeat "SNOW_MOUNTAIN"%string 8)%list 8.
Definition allTextures : Textures.t :=
  {| Textures.weather_rain_light := true; Textures.weather_rain_dark := true;
     Textures.weather_wind_leaf := true; Textures.weather_snowflake := true |}.
Definition coastEnv : Env.t :=
  {| Env.width := 2048; Env.height := 512; Env.weather := Some Setting.low;
     Env.mapData := Some coast; Env.viewport := None;
     Env.textures := allTextures |}.
Definition coastMounted : World := exec (mount coastEnv) (created coastEnv).
Definition coastAfterFrame : World :=
  match tick entropy Math_sin Math_PI coastEnv 5 1 coastMounted with
  | Some w => w
  | None => coastMounted
  end.
(** A second frame over its wind and snow particles, after a pause long
    enough for a wind particle to pass the right bound of its zone. *)
Definition coastAfterSecondFrame : World :=
  match tick entropy Math_sin Math_PI coastEnv 5 400 coastAfterFrame with
  | Some w => w
  | None => coastAfterFrame
  end.

End Scenario.

(** * Properties *)

(** ** Doubles *)

Section Doubles.
Import JsNumber.
Local Open Scope Q_scope.

Lemma pow2_pos (e : Z) : 0 < 2 ^ e.
Proof. apply Qpower_0_lt. reflexivity. Qed.

Lemma pow2_nonzero (e : Z) : ~ 2 ^ e == 0.
Proof. pose proof (pow2_pos e). lra. Qed.

Lemma pow2_add (a b : Z) : 2 ^ (a + b) == 2 ^ a * 2 ^ b.
Proof. apply Qpower_plus. lra. Qed.

Lemma pow2_succ (a : Z) : 2 ^ (a + 1) == 2 * 2 ^ a.
Proof. rewrite pow2_add. change (2 ^ 1) with 2. lra. Qed.

Lemma pow2_le (a b : Z) : (a <= b)%Z -> 2 ^ a <= 2 ^ b.
Proof. intros H. apply Qpower_le_compat_l; [exact H | lra]. Qed.

Lemma pow2_lt (a b : Z) : (a < b)%Z -> 2 ^ a < 2 ^ b.
Proof. intros H. apply Qpower_lt_compat_l; [exact H | lra]. Qed.

Lemma pow2_lt_inv (a b : Z) : 2 ^ a < 2 ^ b -> (a < b)%Z.
Proof. intros H. apply (Qpower_lt_compat_l_inv 2); [exact H | lra]. Qed.

Lemma pow2_Z (a : Z) : (0 <= a)%Z -> inject_Z (2 ^ a) == 2 ^ a.
Proof. intros H. rewrite Zpower_Qpower by exact H. reflexivity. Qed.

Lemma Qabs_nonzero (q : Q) : ~ q == 0 -> 0 < Qabs q.
Proof.
  intros H. apply Qabs_case; intros H'.
  - destruct (Qlt_le_dec 0 q); [assumption|]. exfalso. apply H. lra.
  - destruct (Qlt_le_dec 0 (- q)); [assumption|]. exfalso. apply H. lra.
Qed.

Lemma ilog2_spec (q : Q) :
  ~ q == 0 -> 2 ^ ilog2 q <= Qabs q /\ Qabs q < 2 ^ (ilog2 q + 1).
Proof.
  intros Hq. destruct q as [n d].
  assert (Hn : (0 < Z.abs n)%Z).
  { destruct n; [exfalso; apply Hq; reflexivity| |]; cbn; lia. }
  unfold ilog2. cbn [Qnum Qden].
  set (a := Z.log2 (Z.abs n)). set (b := Z.log2 (Z.pos d)).
  assert (Ha : (0 <= a)%Z) by apply Z.log2_nonneg.
  assert (Hb : (0 <= b)%Z) by apply Z.log2_nonneg.
  destruct (Z.log2_spec (Z.abs n) Hn) as [Ha1 Ha2]. fold a in Ha1, Ha2.
  destruct (Z.log2_spec (Z.pos d) eq_refl) as [Hb1 Hb2]. fold b in Hb1, Hb2.
  rewrite <- Z.add_1_r in Ha2, Hb2.
  assert (Qa1 : 2 ^ a <= inject_Z (Z.abs n)).
  { rewrite <- pow2_Z by exact Ha. rewrite <- Zle_Qle. exact Ha1. }
  assert (Qa2 : inject_Z (Z.abs n) < 2 * 2 ^ a).
  { rewrite <- pow2_succ, <- pow2_Z by lia. rewrite <- Zlt_Qlt. exact Ha2. }
  assert (Qb1 : 2 ^ b <= inject_Z (Z.pos d)).
  { rewrite <- pow2_Z by exact Hb. rewrite <- Zle_Qle. exact Hb1. }
  assert (Qb2 : inject_Z (Z.pos d) < 2 * 2 ^ b).
  { rewrite <- pow2_succ, <- pow2_Z by lia. rewrite <- Zlt_Qlt. exact Hb2. }
  assert (Hk : 2 ^ (a - b) == 2 ^ a / 2 ^ b) by (apply Qpower_minus; lra).
  assert (Habs : Qabs (n # d) == inject_Z (Z.abs n) / inject_Z (Z.pos d)).
  { change (Qabs (n # d)) with (Z.abs n # d). apply Qmake_Qdiv. }
  pose proof (pow2_pos a) as Pa. pose proof (pow2_pos b) as Pb.
  set (N := inject_Z (Z.abs n)) in *. set (D := inject_Z (Z.pos d)) in *.
  set (A := 2 ^ a) in *. set (B := 2 ^ b) in *.
  assert (HD : 0 < D) by lra.
  assert (Hup : N / D < 2 * (A / B)).
  { apply Qlt_shift_div_r; [exact HD|].
    assert (E : 2 * (A / B) * D == 2 * A * (D / B)) by (field; lra).
    rewrite E. assert (1 <= D / B) by (apply Qle_shift_div_l; lra). nra. }
  assert (Hlo : A / B <= 2 * (N / D)).
  { apply Qle_shift_div_r; [exact Pb|].
    assert (E : 2 * (N / D) * B == 2 * N * (B / D)) by (field; lra).
    rewrite E. assert (1 # 2 <= B / D) by (apply Qle_shift_div_l; lra). nra. }
  destruct (Qle_bool (2 ^ (a - b)) (Qabs (n # d))) eqn:Et.
  - apply Qle_bool_iff in Et. split; [exact Et|].
    rewrite pow2_succ, Hk, Habs. exact Hup.
  - assert (Hlt : Qabs (n # d) < 2 ^ (a - b)).
    { destruct (Qlt_le_dec (Qabs (n # d)) (2 ^ (a - b))) as [H|H]; [exact H|].
      apply Qle_bool_iff in H. congruence. }
    replace (a - b - 1 + 1)%Z with (a - b)%Z by lia. split; [|exact Hlt].
    assert (E : 2 ^ (a - b) == 2 * 2 ^ (a - b - 1)).
    { rewrite <- pow2_succ. replace (a - b - 1 + 1)%Z with (a - b)%Z by lia. reflexivity. }
    rewrite Habs. rewrite Hk in E. fold A B in E.
    set (R := A / B) in *. set (T := 2 ^ (a - b - 1)) in *. set (ND := N / D) in *.
    clearbody R T ND. lra.
Qed.

Lemma ilog2_unique (q : Q) (e : Z) :
  2 ^ e <= Qabs q -> Qabs q < 2 ^ (e + 1) -> ilog2 q = e.
Proof.
  intros H1 H2.
  assert (Hq : ~ q == 0).
  { intros E. rewrite E in H1. pose proof (pow2_pos e). change (Qabs 0) with 0 in H1. lra. }
  destruct (ilog2_spec q Hq) as [S1 S2].
  assert ((ilog2 q < e + 1)%Z) by (apply pow2_lt_inv; lra).
  assert ((e < ilog2 q + 1)%Z) by (apply pow2_lt_inv; lra).
  lia.
Qed.

Lemma ilog2_comp (x y : Q) : ~ x == 0 -> x == y -> ilog2 x = ilog2 y.
Proof.
  intros Hx E. destruct (ilog2_spec x Hx) as [S1 S2].
  symmetry. apply ilog2_unique; rewrite <- E; assumption.
Qed.

Lemma ilog2_le (x y : Q) : ~ x == 0 -> ~ y == 0 -> Qabs x <= Qabs y -> (ilog2 x <= ilog2 y)%Z.
Proof.
  intros Hx Hy H. destruct (ilog2_spec x Hx) as [X1 X2]. destruct (ilog2_spec y Hy) as [Y1 Y2].
  assert ((ilog2 x < ilog2 y + 1)%Z) by (apply pow2_lt_inv; lra). lia.
Qed.

(** Rounding to an integer, ties to even *)

Lemma rne_comp (x y : Q) : x == y -> rne x = rne y.
Proof.
  intros E. unfold rne. rewrite (Qfloor_comp _ _ E).
  assert (C : Qcompare (x - inject_Z (Qfloor y)) (1 # 2) = Qcompare (y - inject_Z (Qfloor y)) (1 # 2)).
  { apply Qcompare_comp; [rewrite E|]; reflexivity. }
  rewrite C. reflexivity.
Qed.

Lemma rne_Z (k : Z) : rne (inject_Z k) = k.
Proof.
  unfold rne. rewrite Qfloor_Z.
  assert (C : Qcompare (inject_Z k - inject_Z k) (1 # 2) = Lt).
  { apply (proj1 (Qlt_alt _ _)). lra. }
  rewrite C. reflexivity.
Qed.

Lemma rne_cases (x : Q) :
  let f := Qfloor x in
  (rne x = f /\ x - inject_Z f <= 1 # 2) \/ (rne x = (f + 1)%Z /\ 1 # 2 <= x - inject_Z f).
Proof.
  cbv zeta. unfold rne.
  destruct (Qcompare_spec (x - inject_Z (Qfloor x)) (1 # 2)) as [H|H|H].
  - destruct (Z.even (Qfloor x)); [left|right]; split; try reflexivity; lra.
  - left. split; [reflexivity|lra].
  - right. split; [reflexivity|lra].
Qed.

Lemma rne_err (x : Q) : Qabs (inject_Z (rne x) - x) <= 1 # 2.
Proof.
  pose proof (Qfloor_le x) as H1. pose proof (Qlt_floor x) as H2.
  rewrite inject_Z_plus in H2. change (inject_Z 1) with 1 in H2.
  apply Qabs_Qle_condition.
  destruct (rne_cases x) as [[-> H]|[-> H]].
  - lra.
  - rewrite inject_Z_plus. change (inject_Z 1) with 1. lra.
Qed.

Lemma rne_le (x y : Q) : x <= y -> (rne x <= rne y)%Z.
Proof.
  intros H. pose proof (Qfloor_resp_le _ _ H) as Hf.
  destruct (Z.eq_dec (Qfloor x) (Qfloor y)) as [E|E].
  - unfold rne. rewrite E.
    destruct (Qcompare_spec (x - inject_Z (Qfloor y)) (1 # 2)) as [Hx|Hx|Hx];
      destruct (Qcompare_spec (y - inject_Z (Qfloor y)) (1 # 2)) as [Hy|Hy|Hy];
      try (destruct (Z.even (Qfloor y))); try lia; exfalso; lra.
  - destruct (rne_cases x) as [[-> _]|[-> _]], (rne_cases y) as [[-> _]|[-> _]]; lia.
Qed.

Lemma rne_nonneg (x : Q) : 0 <= x -> (0 <= rne x)%Z.
Proof. intros H. rewrite <- (rne_Z 0). apply rne_le. exact H. Qed.

Lemma rne_nonpos (x : Q) : x <= 0 -> (rne x <= 0)%Z.
Proof. intros H. rewrite <- (rne_Z 0). apply rne_le. exact H. Qed.

Lemma rne_ge_Z (k : Z) (x : Q) : inject_Z k <= x -> (k <= rne x)%Z.
Proof. intros H. rewrite <- (rne_Z k). apply rne_le. exact H. Qed.

Lemma rne_le_Z (k : Z) (x : Q) : x <= inject_Z k -> (rne x <= k)%Z.
Proof. intros H. rewrite <- (rne_Z k). apply rne_le. exact H. Qed.

(** The nearest double *)

Lemma quantum_exponent (q : Q) : quantum q = 2 ^ (exponent q - 52).
Proof. reflexivity. Qed.

Lemma quantum_pos (q : Q) : 0 < quantum q.
Proof. apply pow2_pos. Qed.

Lemma exponent_quantum (q : Q) : 2 ^ (exponent q) == inject_Z (2 ^ 52) * quantum q.
Proof.
  rewrite quantum_exponent, pow2_Z by lia. rewrite <- pow2_add.
  replace (52 + (exponent q - 52))%Z with (exponent q) by lia. reflexivity.
Qed.

Lemma double_0 (q : Q) : q == 0 -> double q = 0.
Proof. intros H. unfold double. rewrite (Qeq_eq_bool _ _ H). reflexivity. Qed.

Lemma double_eq (q : Q) :
  ~ q == 0 -> double q == inject_Z (rne (q / quantum q)) * quantum q.
Proof.
  intros H. unfold double. destruct (Qeq_bool q 0) eqn:E.
  - exfalso. apply H, Qeq_bool_eq, E.
  - apply Qred_correct.
Qed.

Lemma double_comp (x y : Q) : x == y -> double x = double y.
Proof.
  intros E. unfold double. rewrite (Qeqb_comp _ _ E 0 0 (Qeq_refl 0)).
  destruct (Qeq_bool y 0) eqn:Ey; [reflexivity|].
  assert (Hx : ~ x == 0) by (rewrite E; apply Qeq_bool_neq, Ey).
  unfold quantum, exponent. rewrite (ilog2_comp x y Hx E).
  rewrite (rne_comp (x / 2 ^ (Z.max (ilog2 y) (-1022) - 52)) (y / 2 ^ (Z.max (ilog2 y) (-1022) - 52)))
    by (rewrite E; reflexivity).
  reflexivity.
Qed.

Lemma below_next_binade (q : Q) : ~ q == 0 -> Qabs q < 2 * 2 ^ exponent q.
Proof.
  intros H. destruct (ilog2_spec q H) as [_ S2]. rewrite <- pow2_succ.
  apply (Qlt_le_trans _ _ _ S2). apply pow2_le. unfold exponent. lia.
Qed.

Lemma scaled_lt (q : Q) :
  ~ q == 0 -> - inject_Z (2 ^ 53) < q / quantum q /\ q / quantum q < inject_Z (2 ^ 53).
Proof.
  intros H. pose proof (below_next_binade q H) as Hb. pose proof (quantum_pos q) as Hu.
  rewrite exponent_quantum in Hb. apply Qabs_Qlt_condition in Hb.
  change (inject_Z (2 ^ 52)) with (4503599627370496 # 1) in Hb.
  change (inject_Z (2 ^ 53)) with (9007199254740992 # 1).
  split.
  - apply Qlt_shift_div_l; [exact Hu|]. lra.
  - apply Qlt_shift_div_r; [exact Hu|]. lra.
Qed.

Lemma double_abs_le (q : Q) : ~ q == 0 -> Qabs (double q) <= 2 * 2 ^ exponent q.
Proof.
  intros H. destruct (scaled_lt q H) as [L U]. pose proof (quantum_pos q) as Hu.
  rewrite (double_eq q H), exponent_quantum.
  assert (K1 : (- 2 ^ 53 <= rne (q / quantum q))%Z).
  { apply rne_ge_Z. rewrite inject_Z_opp. lra. }
  assert (K2 : (rne (q / quantum q) <= 2 ^ 53)%Z) by (apply rne_le_Z; lra).
  rewrite Zle_Qle in K1, K2. rewrite inject_Z_opp in K1.
  change (inject_Z (2 ^ 53)) with (9007199254740992 # 1) in K1, K2.
  change (inject_Z (2 ^ 52)) with (4503599627370496 # 1).
  apply Qabs_Qle_condition. split; nra.
Qed.

Lemma double_nonneg (q : Q) : 0 <= q -> 0 <= double q.
Proof.
  intros H. destruct (Qeq_dec q 0) as [E|E]; [rewrite (double_0 q E); lra|].
  rewrite (double_eq q E). pose proof (quantum_pos q) as Hu.
  assert (K : (0 <= rne (q / quantum q))%Z).
  { apply rne_nonneg. apply Qle_shift_div_l; [exact Hu|]. lra. }
  rewrite Zle_Qle in K. change (inject_Z 0) with 0 in K. nra.
Qed.

Lemma double_nonpos (q : Q) : q <= 0 -> double q <= 0.
Proof.
  intros H. destruct (Qeq_dec q 0) as [E|E]; [rewrite (double_0 q E); lra|].
  rewrite (double_eq q E). pose proof (quantum_pos q) as Hu.
  assert (K : (rne (q / quantum q) <= 0)%Z).
  { apply rne_nonpos. apply Qle_shift_div_r; [exact Hu|]. lra. }
  rewrite Zle_Qle in K. change (inject_Z 0) with 0 in K. nra.
Qed.

Lemma double_normal_pos (q : Q) :
  0 < q -> (-1022 <= ilog2 q)%Z -> 2 ^ ilog2 q <= double q.
Proof.
  intros H Hn. assert (E : ~ q == 0) by lra.
  destruct (ilog2_spec q E) as [S1 _]. rewrite (Qabs_pos q) in S1 by lra.
  assert (He : exponent q = ilog2 q) by (unfold exponent; lia).
  pose proof (exponent_quantum q) as Hq. rewrite He in Hq. pose proof (quantum_pos q) as Hu.
  rewrite (double_eq q E), Hq.
  assert (K : (2 ^ 52 <= rne (q / quantum q))%Z).
  { apply rne_ge_Z. apply Qle_shift_div_l; [exact Hu|]. lra. }
  rewrite Zle_Qle in K. apply Qmult_le_compat_r; [exact K|lra].
Qed.

Lemma double_normal_neg (q : Q) :
  q < 0 -> (-1022 <= ilog2 q)%Z -> double q <= - 2 ^ ilog2 q.
Proof.
  intros H Hn. assert (E : ~ q == 0) by lra.
  destruct (ilog2_spec q E) as [S1 _]. rewrite (Qabs_neg q) in S1 by lra.
  assert (He : exponent q = ilog2 q) by (unfold exponent; lia).
  pose proof (exponent_quantum q) as Hq. rewrite He in Hq. pose proof (quantum_pos q) as Hu.
  rewrite (double_eq q E), Hq.
  assert (K : (rne (q / quantum q) <= - 2 ^ 52)%Z).
  { apply rne_le_Z. rewrite inject_Z_opp. apply Qle_shift_div_r; [exact Hu|]. lra. }
  rewrite Zle_Qle in K. rewrite inject_Z_opp in K.
  set (r := inject_Z (rne (q / quantum q))) in *. set (c := inject_Z (2 ^ 52)) in *.
  clearbody r c. nra.
Qed.

Lemma double_le (x y : Q) : x <= y -> double x <= double y.
Proof.
  intros H.
  destruct (Qeq_dec x 0) as [Ex|Ex].
  { rewrite (double_0 x Ex). apply double_nonneg. lra. }
  destruct (Qeq_dec y 0) as [Ey|Ey].
  { rewrite (double_0 y Ey). apply double_nonpos. lra. }
  destruct (Z.eq_dec (exponent x) (exponent y)) as [Ee|Ee].
  - rewrite (double_eq x Ex), (double_eq y Ey), !quantum_exponent, Ee.
    pose proof (pow2_pos (exponent y - 52)) as Hu.
    apply Qmult_le_compat_r; [|lra]. rewrite <- Zle_Qle. apply rne_le.
    apply Qmult_le_compat_r; [exact H|]. apply Qlt_le_weak, Qinv_lt_0_compat, Hu.
  - destruct (Qlt_le_dec 0 x) as [Px|Nx].
    + assert (Py : 0 < y) by lra.
      assert (Hl : (ilog2 x <= ilog2 y)%Z).
      { apply ilog2_le; try assumption. rewrite !Qabs_pos by lra. exact H. }
      assert (Hy : (exponent x < ilog2 y)%Z) by (unfold exponent in *; lia).
      pose proof (double_abs_le x Ex) as Bx. apply Qabs_Qle_condition in Bx.
      pose proof (double_normal_pos y Py ltac:(unfold exponent in *; lia)) as By.
      rewrite <- pow2_succ in Bx.
      assert (2 ^ (exponent x + 1) <= 2 ^ ilog2 y) by (apply pow2_le; lia). lra.
    + assert (Nx' : x < 0).
      { destruct (Qlt_le_dec x 0); [assumption|]. exfalso. apply Ex. lra. }
      destruct (Qlt_le_dec y 0) as [Ny|Py].
      * assert (Hl : (ilog2 y <= ilog2 x)%Z).
        { apply ilog2_le; try assumption. rewrite !Qabs_neg by lra. lra. }
        assert (Hx : (exponent y < ilog2 x)%Z) by (unfold exponent in *; lia).
        pose proof (double_abs_le y Ey) as By. apply Qabs_Qle_condition in By.
        pose proof (double_normal_neg x Nx' ltac:(unfold exponent in *; lia)) as Bx.
        rewrite <- pow2_succ in By.
        assert (2 ^ (exponent y + 1) <= 2 ^ ilog2 x) by (apply pow2_le; lia). lra.
      * apply Qle_trans with 0; [apply double_nonpos|apply double_nonneg]; lra.
Qed.

(** A rational [m * 2^j] with [|m| < 2^53] and [-1074 <= j] is a double. *)
Lemma double_exact (q : Q) (m j : Z) :
  (Z.abs m < 2 ^ 53)%Z -> (-1074 <= j)%Z -> q == inject_Z m * 2 ^ j -> double q == q.
Proof.
  intros Hm Hj Hq.
  destruct (Qeq_dec q 0) as [E|E]; [rewrite (double_0 q E); symmetry; exact E|].
  destruct (ilog2_spec q E) as [S1 _].
  pose proof (pow2_pos j) as Pj.
  assert (Ha : Qabs q == inject_Z (Z.abs m) * 2 ^ j).
  { rewrite Hq, Qabs_Qmult, (Qabs_pos (2 ^ j)) by lra.
    destruct m as [|p|p]; cbn [Z.abs]; try reflexivity. }
  assert (Hlt : Qabs q < 2 ^ (53 + j)).
  { rewrite Ha, pow2_add, <- (pow2_Z 53) by lia. apply Qmult_lt_compat_r; [exact Pj|].
    rewrite <- Zlt_Qlt. exact Hm. }
  assert (Hi : (ilog2 q < 53 + j)%Z) by (apply pow2_lt_inv; lra).
  assert (He : (exponent q - 52 <= j)%Z) by (unfold exponent; lia).
  rewrite (double_eq q E), quantum_exponent.
  remember (exponent q) as e eqn:Ee. clear Ee.
  set (t := (j - (e - 52))%Z).
  pose proof (pow2_pos (e - 52)) as Pe.
  assert (Hs : q / 2 ^ (e - 52) == inject_Z (m * 2 ^ t)).
  { rewrite inject_Z_mult, (pow2_Z t) by (unfold t; lia).
    unfold t. rewrite (Qpower_minus 2 j (e - 52)) by lra. rewrite Hq.
    set (P := 2 ^ j) in *. set (U := 2 ^ (e - 52)) in *. clearbody P U. field. lra. }
  rewrite (rne_comp _ _ Hs), rne_Z, <- Hs.
  set (U := 2 ^ (e - 52)) in *. clearbody U. field. lra.
Qed.

Lemma double_Z (k : Z) : (Z.abs k < 2 ^ 53)%Z -> double (inject_Z k) == inject_Z k.
Proof.
  intros H. apply (double_exact _ k 0); [exact H|lia|]. change (2 ^ 0) with 1. lra.
Qed.

(** The rounding error is at most half the spacing of the doubles. *)
Lemma double_err (q : Q) (k : Z) :
  (-1022 <= k)%Z -> Qabs q < 2 ^ (k + 1) -> Qabs (double q - q) <= 2 ^ (k - 53).
Proof.
  intros Hk Hq.
  destruct (Qeq_dec q 0) as [E|E].
  { rewrite (double_0 q E). pose proof (pow2_pos (k - 53)).
    apply Qabs_Qle_condition. lra. }
  destruct (ilog2_spec q E) as [S1 _].
  assert (Hi : (ilog2 q < k + 1)%Z) by (apply pow2_lt_inv; lra).
  assert (He : (exponent q <= k)%Z) by (unfold exponent; lia).
  pose proof (quantum_pos q) as Hu.
  assert (Hu2 : quantum q <= 2 * 2 ^ (k - 53)).
  { rewrite <- pow2_succ, quantum_exponent. apply pow2_le. lia. }
  pose proof (rne_err (q / quantum q)) as Hr. apply Qabs_Qle_condition in Hr.
  assert (Hd : double q - q == (inject_Z (rne (q / quantum q)) - q / quantum q) * quantum q).
  { rewrite (double_eq q E). set (u := quantum q) in *. clearbody u. field. lra. }
  rewrite Hd. apply Qabs_Qle_condition.
  set (r := inject_Z (rne (q / quantum q)) - q / quantum q) in *.
  assert (r = inject_Z (rne (q / quantum q)) - q / quantum q) by reflexivity.
  clearbody r. set (u := quantum q) in *. clearbody u. set (c := 2 ^ (k - 53)) in *. clearbody c.
  split; nra.
Qed.

(** The result of the rounding is a double. *)
Lemma double_idem (q : Q) : double (double q) == double q.
Proof.
  destruct (Qeq_dec q 0) as [E|E].
  { rewrite (double_0 q E). reflexivity. }
  pose proof (double_eq q E) as Hd. rewrite quantum_exponent in Hd.
  destruct (scaled_lt q E) as [L U]. rewrite quantum_exponent in L, U.
  set (K := rne (q / 2 ^ (exponent q - 52))) in *.
  assert (K1 : (- 2 ^ 53 <= K)%Z).
  { apply rne_ge_Z. rewrite inject_Z_opp. lra. }
  assert (K2 : (K <= 2 ^ 53)%Z) by (apply rne_le_Z; lra).
  assert (He : (-1022 <= exponent q)%Z) by (unfold exponent; lia).
  destruct (Z.eq_dec (Z.abs K) (2 ^ 53)) as [Ek|Ek].
  - apply (double_exact _ (Z.sgn K) (exponent q + 1)).
    + destruct K; cbn; lia.
    + lia.
    + rewrite Hd. replace (exponent q + 1)%Z with (53 + (exponent q - 52))%Z by lia.
      rewrite pow2_add, <- (pow2_Z 53) by lia.
      assert (EK : inject_Z K == inject_Z (Z.sgn K) * inject_Z (2 ^ 53)).
      { rewrite <- inject_Z_mult. rewrite <- Ek, Z.mul_comm, Z.abs_sgn. reflexivity. }
      rewrite EK. ring.
  - apply (double_exact _ K (exponent q - 52)); [lia|lia|exact Hd].
Qed.

Lemma double_representable (q : Q) : representable (double q).
Proof. apply double_idem. Qed.

Lemma representable_Z (k : Z) : (Z.abs k < 2 ^ 53)%Z -> representable (inject_Z k).
Proof. apply double_Z. Qed.

Lemma double_le_r (q c : Q) : representable c -> q <= c -> double q <= c.
Proof.
  intros Hc H. unfold representable in Hc.
  apply Qle_trans with (double c); [apply double_le, H|]. rewrite Hc. apply Qle_refl.
Qed.

Lemma double_le_l (q c : Q) : representable c -> c <= q -> c <= double q.
Proof.
  intros Hc H. unfold representable in Hc.
  apply Qle_trans with (double c); [|apply double_le, H]. rewrite Hc. apply Qle_refl.
Qed.

Lemma belowOne_representable : representable belowOne.
Proof.
  apply (double_exact _ (2 ^ 53 - 1) (-53)); [reflexivity|lia|reflexivity].
Qed.

Lemma unitDouble_range (q : Q) : 0 <= q -> 0 <= unitDouble q /\ unitDouble q <= belowOne.
Proof.
  intros H. unfold unitDouble. cbv zeta.
  destruct (Qle_bool (double q) belowOne) eqn:E.
  - apply Qle_bool_iff in E. split; [apply double_nonneg, H|exact E].
  - split; [|apply Qle_refl]. unfold belowOne. lra.
Qed.

Lemma unitDouble_representable (q : Q) : representable (unitDouble q).
Proof.
  unfold unitDouble. cbv zeta. destruct (Qle_bool (double q) belowOne).
  - apply double_representable.
  - apply belowOne_representable.
Qed.

(** [Math.floor(r * n)] is an index below [n] when [r] is below one. *)
Lemma times_below (r : Q) (n : Z) :
  0 <= r -> r <= belowOne -> (1 <= n)%Z -> times r (inject_Z n) < inject_Z n.
Proof.
  intros H0 H1 Hn. unfold times.
  set (k := Z.log2 n).
  assert (Hk : (0 <= k)%Z) by apply Z.log2_nonneg.
  destruct (Z.log2_spec n ltac:(lia)) as [L1 L2]. fold k in L1, L2.
  rewrite <- Z.add_1_r in L2.
  rewrite Zle_Qle in L1, Hn. rewrite Zlt_Qlt in L2.
  rewrite pow2_Z in L1, L2 by lia. change (inject_Z 1) with 1 in Hn.
  set (N := inject_Z n) in *.
  assert (Hx : r * N <= N - N * (1 # 9007199254740992)).
  { unfold belowOne in H1. nra. }
  assert (Hx0 : 0 <= r * N) by nra.
  assert (P53 : 2 ^ (k - 53) == 2 ^ k * (1 # 9007199254740992)).
  { rewrite Qpower_minus by lra. reflexivity. }
  assert (P54 : 2 * 2 ^ (k - 1 - 53) == 2 ^ (k - 53)).
  { rewrite <- pow2_succ. replace (k - 1 - 53 + 1)%Z with (k - 53)%Z by lia. reflexivity. }
  pose proof (pow2_pos k) as Pk. pose proof (pow2_pos (k - 1 - 53)) as Pk'.
  destruct (Qlt_le_dec (2 ^ k) N) as [Hgt|Hle].
  - pose proof (double_err (r * N) k ltac:(lia)) as He.
    assert (Hb : Qabs (r * N) < 2 ^ (k + 1)).
    { rewrite Qabs_pos by exact Hx0. lra. }
    specialize (He Hb). apply Qabs_Qle_condition in He.
    set (d := double (r * N)) in *. clearbody d.
    set (x := r * N) in *. clearbody x.
    set (a := 2 ^ (k - 53)) in *. set (b := 2 ^ k) in *. clearbody a b. lra.
  - assert (EN : N == 2 ^ k) by lra.
    pose proof (double_err (r * N) (k - 1) ltac:(lia)) as He.
    assert (Hb : Qabs (r * N) < 2 ^ (k - 1 + 1)).
    { rewrite Qabs_pos by exact Hx0. replace (k - 1 + 1)%Z with k by lia. lra. }
    specialize (He Hb). apply Qabs_Qle_condition in He.
    set (d := double (r * N)) in *. clearbody d.
    set (x := r * N) in *. clearbody x.
    set (a := 2 ^ (k - 53)) in *. set (b := 2 ^ k) in *.
    set (c := 2 ^ (k - 1 - 53)) in *. clearbody a b c. lra.
Qed.

Lemma index_in_range (r : Q) (n : Z) :
  0 <= r -> r <= belowOne -> (1 <= n)%Z ->
  (0 <= Qfloor (times r (inject_Z n)) < n)%Z.
Proof.
  intros H0 H1 Hn. pose proof (times_below r n H0 H1 Hn) as Hlt.
  assert (Hge : 0 <= times r (inject_Z n)).
  { apply double_nonneg. rewrite Zle_Qle in Hn. change (inject_Z 1) with 1 in Hn. nra. }
  split.
  - rewrite <- (Qfloor_Z 0). apply Qfloor_resp_le. exact Hge.
  - pose proof (Qfloor_le (times r (inject_Z n))) as Hf.
    rewrite Zlt_Qlt. lra.
Qed.

(** A subtraction of at least [d] takes off [d] up to the rounding error
    of the binade the difference lies in. *)
Lemma minus_drops (a r d : Q) (k : Z) :
  (-1022 <= k)%Z -> - 2 ^ (k + 1) < a - d -> a - d < 2 ^ (k + 1) -> d <= r ->
  minus a r <= a - d + 2 ^ (k - 53).
Proof.
  intros Hk L U Hr. unfold minus.
  apply Qle_trans with (double (a - d)); [apply double_le; lra|].
  pose proof (double_err (a - d) k Hk) as He.
  assert (Hb : Qabs (a - d) < 2 ^ (k + 1)) by (apply Qabs_Qlt_condition; split; assumption).
  specialize (He Hb). apply Qabs_Qle_condition in He.
  set (x := double (a - d)) in *. clearbody x. lra.
Qed.

(** A double other than zero is [m * 2^j] with [|m| < 2^53] and [j] not
    below the exponent of its quantum. *)
Lemma representable_form (p : Q) :
  representable p -> ~ p == 0 ->
  exists m j : Z, (Z.abs m < 2 ^ 53)%Z /\ (exponent p - 52 <= j)%Z /\ p == inject_Z m * 2 ^ j.
Proof.
  intros Hrep E. unfold representable in Hrep.
  pose proof (double_eq p E) as Hd. rewrite quantum_exponent, Hrep in Hd.
  destruct (scaled_lt p E) as [L U]. rewrite quantum_exponent in L, U.
  set (K := rne (p / 2 ^ (exponent p - 52))) in *.
  assert (K1 : (- 2 ^ 53 <= K)%Z).
  { apply rne_ge_Z. rewrite inject_Z_opp. lra. }
  assert (K2 : (K <= 2 ^ 53)%Z) by (apply rne_le_Z; lra).
  destruct (Z.eq_dec (Z.abs K) (2 ^ 53)) as [Ek|Ek].
  - exists (Z.sgn K), (exponent p + 1)%Z. split; [destruct K; cbn; lia|]. split; [lia|].
    apply (Qeq_trans _ _ _ Hd).
    replace (exponent p + 1)%Z with (53 + (exponent p - 52))%Z by lia.
    rewrite pow2_add, <- (pow2_Z 53) by lia.
    assert (EK : inject_Z K == inject_Z (Z.sgn K) * inject_Z (2 ^ 53)).
    { rewrite <- inject_Z_mult. rewrite <- Ek, Z.mul_comm, Z.abs_sgn. reflexivity. }
    rewrite EK. ring.
  - exists K, (exponent p - 52)%Z. split; [lia|]. split; [lia|exact Hd].
Qed.

(** Dividing a double by a power of two is exact unless the quotient is
    below the smallest normal number. *)
Lemma representable_shift (p : Q) (k : Z) :
  representable p -> (p == 0 \/ 2 ^ (k - 1022) <= Qabs p) -> representable (p / 2 ^ k).
Proof.
  intros Hrep [E|Hb].
  - unfold representable. assert (E' : p / 2 ^ k == 0).
    { rewrite E. unfold Qdiv. ring. }
    rewrite (double_0 _ E'). symmetry. exact E'.
  - assert (E : ~ p == 0).
    { intros E. rewrite E in Hb. change (Qabs 0) with 0 in Hb.
      pose proof (pow2_pos (k - 1022)). lra. }
    destruct (representable_form p Hrep E) as (m & j & Hm & Hj & Hp).
    destruct (ilog2_spec p E) as [_ S2].
    assert (Hi : (k - 1022 < ilog2 p + 1)%Z) by (apply pow2_lt_inv; lra).
    assert (He : (k - 1022 <= exponent p)%Z) by (unfold exponent; lia).
    apply (double_exact _ m (j - k)); [exact Hm|lia|].
    rewrite Hp, (Qpower_minus 2 j k) by lra.
    pose proof (pow2_pos k). set (P := 2 ^ j). set (U := 2 ^ k) in *. clearbody P U.
    field. lra.
Qed.

End Doubles.

(** ** The zone classifier and the visibility culler *)

Section WeatherGridFacts.
Import JsNumber WeatherGrid.
Local Open Scope Z_scope.

Lemma ToInt32_small (v : Z) : - 2 ^ 31 <= v < 2 ^ 31 -> ToInt32 v = v.
Proof.
  intros Hv. unfold ToInt32.
  rewrite Z.mod_small by lia. lia.
Qed.

Lemma land_low16_range (a : Z) : 0 <= Z.land a 65535 <= 65535.
Proof.
  change 65535 with (Z.ones 16) at 1 2.
  rewrite Z.land_ones by lia.
  pose proof (Z.mod_pos_bound a (2 ^ 16) ltac:(lia)) as Hm.
  change (Z.ones 16) with 65535. change (2 ^ 16) with 65536 in *. lia.
Qed.

Lemma bitand_low16_range (u : Z) : 0 <= bitand u 0xffff <= 65535.
Proof.
  unfold bitand.
  replace (ToInt32 65535) with 65535 by reflexivity.
  pose proof (land_low16_range (ToInt32 u)) as Hr.
  rewrite (ToInt32_small (Z.land (ToInt32 u) 65535)) by lia. exact Hr.
Qed.

Lemma hashBits_range (zx zy seed : Z) : 0 <= hashBits zx zy seed <= 65535.
Proof.
  unfold hashBits. cbv zeta. apply bitand_low16_range.
Qed.

(** The quotient is never negative and never above one. *)
Lemma hashNoise_range (zx zy seed : Z) :
  (0 <= hashNoise zx zy seed <= 1)%Q.
Proof.
  pose proof (hashBits_range zx zy seed) as Hr.
  unfold hashNoise, Qle. cbn [Qnum Qden]. lia.
Qed.

Lemma nth_error_map_seq {A : Type} (f : nat -> A) (n i : nat) :
  (i < n)%nat -> nth_error (map f (seq 0 n)) i = Some (f i).
Proof.
  intros Hi.
  rewrite nth_error_map, (nth_error_nth' _ 0%nat) by (rewrite length_seq; exact Hi).
  rewrite seq_nth by exact Hi. reflexivity.
Qed.

Lemma ceilDiv_pos (n : nat) (i : nat) :
  (i < ceilDiv n ZONE_SIZE)%nat -> (n =? 0)%nat = false.
Proof.
  destruct n as [|n]; [intros H; exfalso; revert H; apply Nat.nlt_0_r | reflexivity].
Qed.

(** Inside the grid, a cell is what the loop body computes for its zone. *)
Lemma buildWeatherGrid_cell (mapData : MapMatrix) (seed : Z) (zy zx : nat) :
  (zy < ceilDiv (rowsOf mapData) ZONE_SIZE)%nat ->
  (zx < ceilDiv (colsOf mapData) ZONE_SIZE)%nat ->
  cellAt (buildWeatherGrid mapData seed) (Z.of_nat zy) (Z.of_nat zx)
  = zoneWeather mapData seed zx zy.
Proof.
  intros Hy Hx. unfold buildWeatherGrid, cellAt.
  rewrite (ceilDiv_pos _ _ Hy), (ceilDiv_pos _ _ Hx). cbn [orb].
  replace (Z.of_nat zy <? 0) with false by (symmetry; apply Z.ltb_ge; lia).
  replace (Z.of_nat zx <? 0) with false by (symmetry; apply Z.ltb_ge; lia).
  cbn [orb]. rewrite !Nat2Z.id.
  rewrite (nth_error_map_seq _ _ _ Hy), (nth_error_map_seq _ _ _ Hx).
  reflexivity.
Qed.

(** C9.  [hashNoise] does not stay below one: at zone (0, 0) with seed 1724,
    and at zone (34, 51) with the default seed 12345, the sixteen low bits
    are all set and the returned quotient 65535 / 65535 is exactly one. *)
Theorem hashNoise_reaches_one :
  (hashNoise 0 0 1724 == 1)%Q /\
  (hashNoise 34 51 defaultSeed == 1)%Q /\
  ~ (hashNoise 0 0 1724 < 1)%Q.
Proof.
  split; [|split].
  - vm_compute. reflexivity.
  - vm_compute. reflexivity.
  - intros H. vm_compute in H. discriminate H.
Qed.

(** C1.  Two calls of [buildWeatherGrid] with the same terrain matrix and
    the same seed return the same grid, cell by cell; and the grid the
    component stores for a map does not depend on the state the component
    is in when it computes it. *)
Theorem buildWeatherGrid_deterministic
  (terrain1 terrain2 : MapMatrix) (seed1 seed2 : Z) :
  terrain1 = terrain2 ->
  seed1 = seed2 ->
  (forall zy zx : Z,
      cellAt (buildWeatherGrid terrain1 seed1) zy zx
      = cellAt (buildWeatherGrid terrain2 seed2) zy zx)
  /\ buildWeatherGrid terrain1 seed1 = buildWeatherGrid terrain2 seed2
  /\ (forall (env1 env2 : WeatherLayer.Env.t) (w1 w2 : WeatherLayer.World),
         WeatherLayer.Env.mapData env1 = Some terrain1 ->
         WeatherLayer.Env.mapData env2 = Some terrain2 ->
         WeatherLayer.weatherGrid (WeatherLayer.exec (WeatherLayer.watchMapData env1) w1)
         = WeatherLayer.weatherGrid (WeatherLayer.exec (WeatherLayer.watchMapData env2) w2)).
Proof.
  intros Ht Hs. subst terrain2 seed2.
  split; [intros zy zx; reflexivity|]. split; [reflexivity|].
  intros env1 env2 w1 w2 H1 H2. unfold WeatherLayer.watchMapData.
  rewrite H1, H2. destruct terrain1 as [|[|t row] rows]; reflexivity.
Qed.

Lemma buildWeatherGrid_deterministic_witness :
  cellAt (buildWeatherGrid [["RAINFOREST"%string]] 12345) 0 0
  = cellAt (buildWeatherGrid [["RAINFOREST"%string]] 12345) 0 0.
Proof.
  exact (proj1 (buildWeatherGrid_deterministic
                  [["RAINFOREST"%string]] [["RAINFOREST"%string]] 12345 12345
                  eq_refl eq_refl) 0 0).
Defined.

(** C4, as the code has it.  For the viewport with corner (0, 0) and size
    (512, 512) on a 4 x 4 grid the far corner (512, 512) falls in zone
    (1, 1), and the inclusive index range yields the four zones (0, 0),
    (1, 0), (0, 1), (1, 1). *)
Theorem getVisibleZones_scenario_four_zones :
  worldToZone (0 + 512) (0 + 512) = (1, 1) /\
  getVisibleZones 0 0 512 512 4 4
  = [zoneAt 0 0; zoneAt 1 0; zoneAt 0 1; zoneAt 1 1].
Proof.
  split; vm_compute; reflexivity.
Qed.

(** C4, refuted as stated: the result is not the single zone (0, 0). *)
Lemma getVisibleZones_scenario_not_single :
  ~ exists z : Zone.t,
      getVisibleZones 0 0 512 512 4 4 = [z] /\ Zone.zx z = 0 /\ Zone.zy z = 0.
Proof.
  intros [z [H _]]. vm_compute in H. discriminate H.
Qed.

(** C8, refuted as stated.  Over the unknown tag CITY with seed 8, zone
    (0, 0) resolves to rain by the noise thresholds and the check
    [hashNoise(zx + 1, zy, seed) < 0.12] succeeds, yet the cell is rain. *)
Lemma noise_rain_is_not_upgraded :
  let grid := buildWeatherGrid [["CITY"%string]] 8 in
  tendencyOf (getZoneDominantTerrain [["CITY"%string]] 0 0) = Absent /\
  weatherFromNoise 0 0 8 = rain /\
  ltb (hashNoise (0 + 1) 0 8) (12 # 100) = true /\
  cellAt grid 0 0 = Some rain /\
  cellAt grid 0 0 <> Some storm.
Proof.
  vm_compute. repeat split; try reflexivity. discriminate.
Qed.

(** C8, as the code has it.  A zone inside the grid whose dominant terrain
    has an entry in the tendency table and whose tendency resolves to rain
    becomes storm exactly when [hashNoise(zx + 1, zy, seed) < 0.12], and
    stays rain otherwise; a zone whose dominant terrain has no entry gets
    the weather of the noise thresholds, with no further check. *)
Theorem rain_upgrade_on_tendency_path
  (mapData : MapMatrix) (seed : Z) (zx zy : nat) :
  (zy < ceilDiv (rowsOf mapData) ZONE_SIZE)%nat ->
  (zx < ceilDiv (colsOf mapData) ZONE_SIZE)%nat ->
  let terrain := getZoneDominantTerrain mapData zx zy in
  let cell := cellAt (buildWeatherGrid mapData seed) (Z.of_nat zy) (Z.of_nat zx) in
  let check := ltb (hashNoise (Z.of_nat zx + 1) (Z.of_nat zy) seed) (12 # 100) in
  (forall tendency : Tendency,
      tendencyOf terrain = Own tendency ->
      resolve tendency (hashNoise (Z.of_nat zx) (Z.of_nat zy) seed) = rain ->
      (cell = Some storm <-> check = true) /\
      (cell = Some rain <-> check = false))
  /\ (tendencyOf terrain = Absent ->
      cell = Some (weatherFromNoise (Z.of_nat zx) (Z.of_nat zy) seed)).
Proof.
  intros Hy Hx terrain cell check.
  subst cell. rewrite (buildWeatherGrid_cell _ _ _ _ Hy Hx).
  unfold zoneWeather. fold terrain. split.
  - intros tendency Hown Hrain. rewrite Hown, Hrain. cbn [WeatherType_eqb andb].
    fold check. destruct check; split; split; intros H;
      try reflexivity; try discriminate H.
  - intros Habs. rewrite Habs. reflexivity.
Qed.

Lemma rain_upgrade_on_tendency_path_witness :
  let mapData := [["SWAMP"%string]] in
  ((0 < ceilDiv (rowsOf mapData) ZONE_SIZE)%nat /\
   (0 < ceilDiv (colsOf mapData) ZONE_SIZE)%nat) /\
  (cellAt (buildWeatherGrid mapData 8) 0 0 = Some storm
   <-> ltb (hashNoise (0 + 1) 0 8) (12 # 100) = true).
Proof.
  split; [split; vm_compute; reflexivity|].
  refine (proj1 (proj1 (rain_upgrade_on_tendency_path [["SWAMP"%string]] 8 0 0 _ _)
                   (tendAlt rain storm (2 # 10)) _ _)).
  - vm_compute. reflexivity.
  - vm_compute. reflexivity.
  - vm_compute. reflexivity.
  - vm_compute. reflexivity.
Defined.
End WeatherGridFacts.

(** ** Frame lemmas for the weather layer *)

Section Frames.
Import WeatherLayer.

Context {X : Type} (f : World -> X).

Lemma Keeps_ret {A : Type} (a : A) : Keeps f (ret a).
Proof. intros w. reflexivity. Qed.

Lemma Keeps_get {A : Type} (p : World -> A) : Keeps f (get p).
Proof. intros w. reflexivity. Qed.

Lemma Keeps_bind {A B : Type} (m : M A) (k : A -> M B) :
  Keeps f m -> (forall a, Keeps f (k a)) -> Keeps f (bind m k).
Proof.
  intros Hm Hk w. unfold bind. cbv zeta. rewrite Hk. apply Hm.
Qed.

Lemma Keeps_modify {V : Type} (set : V -> World -> World) (v : World -> V) :
  Ignores set f -> Keeps f (modify (fun w => set (v w) w)).
Proof. intros H w. apply H. Qed.

Lemma Keeps_modify_const {V : Type} (set : V -> World -> World) (v : V) :
  Ignores set f -> Keeps f (modify (set v)).
Proof. intros H w. apply H. Qed.

Lemma Keeps_forEach {A : Type} (l : list A) (body : A -> M unit) :
  (forall a, Keeps f (body a)) -> Keeps f (forEach l body).
Proof.
  intros H. induction l as [|a l IH]; cbn [forEach].
  - apply Keeps_ret.
  - apply Keeps_bind; [apply H | intros _; exact IH].
Qed.

Lemma Keeps_forEachUpdate {A : Type} (l : list A) (body : A -> M A) :
  (forall a, Keeps f (body a)) -> Keeps f (forEachUpdate l body).
Proof.
  intros H. induction l as [|a l IH]; cbn [forEachUpdate].
  - apply Keeps_ret.
  - apply Keeps_bind; [apply H | intros a'].
    apply Keeps_bind; [exact IH | intros r; apply Keeps_ret].
Qed.

Hypothesis blind : SceneBlind f.

Lemma Keeps_onNode (h : Handle) (u : DisplayObject.t -> DisplayObject.t) :
  Keeps f (onNode h u).
Proof. intros w. unfold onNode, modify. cbn [snd]. apply blind. Qed.

Lemma Keeps_new (k : DisplayObject.Kind) : Keeps f (new k).
Proof.
  intros w. unfold new. cbn [snd].
  destruct blind as (_ & Hnodes & Hnext). rewrite Hnext. apply Hnodes.
Qed.

Lemma Keeps_random (entropy : nat -> Q) : Keeps f (Math_random entropy).
Proof. intros w. unfold Math_random. cbn [snd]. apply blind. Qed.

Lemma Keeps_random_drawn {Y : Type} (h : World -> Y) (entropy : nat -> Q) :
  Ignores set_drawn h -> Keeps h (Math_random entropy).
Proof. intros H w. unfold Math_random. cbn [snd]. apply H. Qed.

End Frames.

(** Structural descent through a program built from the primitives. *)
Ltac keeps_step :=
  lazy zeta;
  first
    [ apply Keeps_ret
    | apply Keeps_get
    | apply Keeps_onNode; assumption
    | apply Keeps_new; assumption
    | apply Keeps_random; assumption
    | apply Keeps_modify_const; assumption
    | apply Keeps_modify; assumption
    | apply Keeps_forEach; intros ?
    | apply Keeps_forEachUpdate; intros ?
    | apply Keeps_bind; [|intros ?]
    | match goal with
      | |- WeatherLayer.Keeps _ (if ?b then _ else _) => destruct b
      | |- WeatherLayer.Keeps _ (match ?x with _ => _ end) => destruct x
      end ].

Ltac keeps := repeat keeps_step.

Section ParticleFrames.
Import WeatherLayer.
Variable entropy : nat -> Q.
Variable Math_sin : Q -> Q.
Variable Math_PI : Q.
Variable env : Env.t.
Context {X : Type} (f : World -> X) (blind : SceneBlind f).

Lemma Keeps_pick {A : Type} (a : A) (l : list A) : Keeps f (pick entropy a l).
Proof. unfold pick. keeps. Qed.

Lemma Keeps_createRainParticle : Keeps f (createRainParticle entropy env).
Proof. unfold createRainParticle. keeps. Qed.

Lemma Keeps_createWindParticle : Keeps f (createWindParticle entropy Math_PI env).
Proof. unfold createWindParticle. keeps. Qed.

Lemma Keeps_createSnowParticle : Keeps f (createSnowParticle entropy Math_PI env).
Proof. unfold createSnowParticle. keeps. Qed.

Lemma Keeps_discard (c g : Handle) : Keeps f (discard c g).
Proof. unfold discard, removeChild, destroy. keeps. Qed.

Lemma Keeps_moveRain (dt : Q) (p : RainParticle.t) : Keeps f (moveRain entropy dt p).
Proof. unfold moveRain. keeps. Qed.

Lemma Keeps_moveWind (dt : Q) (p : WindParticle.t) : Keeps f (moveWind dt p).
Proof. unfold moveWind. keeps. Qed.

Lemma Keeps_moveSnow (dt : Q) (p : SnowParticle.t) : Keeps f (moveSnow entropy Math_sin dt p).
Proof. unfold moveSnow. keeps. Qed.

(** The proof pattern shared by the three pools: [add] is the frame lemma
    of the loop body, [loop] of the loop. *)
Ltac keeps_loop add IH :=
  apply Keeps_bind; [apply add | intros _; exact IH].

Ltac keeps_ensure loop :=
  apply Keeps_bind; [apply Keeps_get | intros [c|]; [|apply Keeps_ret]];
  apply Keeps_bind; [apply Keeps_get | intros existing]; lazy zeta;
  destruct (_ && _);
  [ apply Keeps_bind; [apply Keeps_forEach; intros p; apply Keeps_discard | intros _];
    keeps
  | apply Keeps_bind; [apply loop | intros _];
    apply Keeps_bind; [apply Keeps_get | intros existing'];
    destruct (_ && _); [|apply Keeps_ret];
    apply Keeps_bind; [apply Keeps_forEach; intros p; apply Keeps_discard | intros _];
    keeps ].

Ltac keeps_integrate move :=
  apply Keeps_bind; [apply Keeps_get | intros pool];
  apply Keeps_bind; [apply Keeps_forEachUpdate; intros p; apply move | intros pool'];
  keeps.

Section Rain.
Hypothesis ignores : Ignores set_rainPool f.

Lemma Keeps_addRainParticle c z0 zs : Keeps f (addRainParticle entropy env c z0 zs).
Proof.
  unfold addRainParticle, addChild.
  apply Keeps_bind; [apply Keeps_pick | intros zone].
  apply Keeps_bind; [apply Keeps_createRainParticle | intros g].
  keeps.
Qed.

Lemma Keeps_rainLoop c zs n : Keeps f (rainLoop entropy env c zs n).
Proof.
  induction n as [|n IH]; destruct zs as [|z0 zs']; cbn [rainLoop]; try apply Keeps_ret.
  keeps_loop Keeps_addRainParticle IH.
Qed.

Lemma Keeps_ensureRainParticles zs maxCount :
  Keeps f (ensureRainParticles entropy env zs maxCount).
Proof. unfold ensureRainParticles. keeps_ensure Keeps_rainLoop. Qed.

Lemma Keeps_integrateRain dt : Keeps f (integrateRain entropy dt).
Proof. unfold integrateRain. keeps_integrate Keeps_moveRain. Qed.
End Rain.

Section Wind.
Hypothesis ignores : Ignores set_windPool f.

Lemma Keeps_addWindParticle c z0 zs :
  Keeps f (addWindParticle entropy Math_PI env c z0 zs).
Proof.
  unfold addWindParticle, addChild.
  apply Keeps_bind; [apply Keeps_pick | intros zone].
  apply Keeps_bind; [apply Keeps_createWindParticle | intros g].
  keeps.
Qed.

Lemma Keeps_windLoop c zs n : Keeps f (windLoop entropy Math_PI env c zs n).
Proof.
  induction n as [|n IH]; destruct zs as [|z0 zs']; cbn [windLoop]; try apply Keeps_ret.
  keeps_loop Keeps_addWindParticle IH.
Qed.

Lemma Keeps_ensureWindParticles zs maxCount :
  Keeps f (ensureWindParticles entropy Math_PI env zs maxCount).
Proof. unfold ensureWindParticles. keeps_ensure Keeps_windLoop. Qed.

Lemma Keeps_integrateWind dt : Keeps f (integrateWind dt).
Proof. unfold integrateWind. keeps_integrate Keeps_moveWind. Qed.
End Wind.

Section Snow.
Hypothesis ignores : Ignores set_snowPool f.

Lemma Keeps_addSnowParticle c z0 zs :
  Keeps f (addSnowParticle entropy Math_PI env c z0 zs).
Proof.
  unfold addSnowParticle, addChild.
  apply Keeps_bind; [apply Keeps_pick | intros zone].
  apply Keeps_bind; [apply Keeps_createSnowParticle | intros g].
  keeps.
Qed.

Lemma Keeps_snowLoop c zs n : Keeps f (snowLoop entropy Math_PI env c zs n).
Proof.
  induction n as [|n IH]; destruct zs as [|z0 zs']; cbn [snowLoop]; try apply Keeps_ret.
  keeps_loop Keeps_addSnowParticle IH.
Qed.

Lemma Keeps_ensureSnowParticles zs maxCount :
  Keeps f (ensureSnowParticles entropy Math_PI env zs maxCount).
Proof. unfold ensureSnowParticles. keeps_ensure Keeps_snowLoop. Qed.

Lemma Keeps_integrateSnow dt : Keeps f (integrateSnow entropy Math_sin dt).
Proof. unfold integrateSnow. keeps_integrate Keeps_moveSnow. Qed.
End Snow.

Lemma Keeps_ensureStormOverlay hasStorm :
  Ignores set_stormOverlay f -> Keeps f (ensureStormOverlay hasStorm).
Proof. intros Hign. unfold ensureStormOverlay, addChild. keeps. Qed.

Lemma Keeps_setupContainers :
  Ignores set_rainContainer f -> Keeps f setupContainers.
Proof. intros Hign. unfold setupContainers, addChild. keeps. Qed.

Lemma Keeps_updateLightning dt :
  Ignores set_lightningGraphics f ->
  Ignores set_lightningAlpha f ->
  Ignores set_lightningPhase f ->
  Keeps f (updateLightning dt).
Proof. intros Hg Ha Hp. unfold updateLightning, destroy. keeps. Qed.

Lemma Keeps_startTicker : Ignores set_ticker f -> Keeps f startTicker.
Proof. intros Ht. unfold startTicker. keeps. Qed.

Lemma Keeps_watchMapData : Ignores set_weatherGrid f -> Keeps f (watchMapData env).
Proof. intros Hg. unfold watchMapData. keeps. Qed.

(** The lightning trigger and its sampling, which may not return.  The
    sampling only draws random numbers. *)
Lemma pickIndices_drawn {Y : Type} (h : World -> Y) :
  Ignores set_drawn h ->
  forall fuel count n indices w r w',
    pickIndices entropy fuel count n indices w = Some (r, w') -> h w' = h w.
Proof.
  intros Hd fuel count n. induction fuel as [|fuel IH]; intros indices w r w';
    cbn [pickIndices].
  - destruct (_ <? _)%nat; [discriminate|]. intros H; injection H as _ <-. reflexivity.
  - destruct (_ <? _)%nat.
    + intros H. apply IH in H. rewrite H. apply (Keeps_random_drawn h entropy Hd).
    + intros H; injection H as _ <-. reflexivity.
Qed.

Section Lightning.
Hypothesis ignoresGraphics : Ignores set_lightningGraphics f.
Hypothesis ignoresAlpha : Ignores set_lightningAlpha f.
Hypothesis ignoresPhase : Ignores set_lightningPhase f.
Hypothesis ignoresAccum : Ignores set_stormAccum f.
Hypothesis ignoresThunder : Ignores (V := nat) set_thunder f.

Lemma pickIndices_keeps fuel count n indices w r w' :
  pickIndices entropy fuel count n indices w = Some (r, w') -> f w' = f w.
Proof.
  intros H. exact (pickIndices_drawn f (proj1 blind) _ _ _ _ _ _ _ H).
Qed.

Lemma triggerLightning_keeps fuel zs w w' :
  triggerLightning entropy fuel zs w = Some w' -> f w' = f w.
Proof.
  unfold triggerLightning.
  destruct (container w) as [c|]; [|intros H; injection H as <-; reflexivity].
  destruct (_ =? _)%Z; [intros H; injection H as <-; reflexivity|].
  lazy zeta.
  match goal with
  | |- match pickIndices _ _ _ _ _ ?w1 with _ => _ end = _ -> _ =>
      assert (Hw1 : f w1 = f w); [|destruct (pickIndices entropy fuel _ _ [] w1) as [[r w2]|] eqn:Hp]
  end.
  - match goal with |- f (exec ?m ?w0) = _ => transitivity (f w0) end.
    + apply (@Keeps_bind _ f); [apply Keeps_new; exact blind | intros g]. keeps.
    + destruct (lightningGraphics w) as [old|]; [|reflexivity].
      unfold removeChild, destroy.
      apply (@Keeps_bind _ f); [keeps | intros _; keeps].
  - intros H; injection H as <-.
    apply pickIndices_keeps in Hp. rewrite <- Hw1, <- Hp.
    unfold addChild. unfold exec.
    apply (@Keeps_bind _ f); [apply Keeps_get | intros g].
    apply (@Keeps_bind _ f); [destruct g; keeps | intros _]. keeps.
  - discriminate.
Qed.

Lemma tryLightning_keeps fuel dt zs w w' :
  tryLightning entropy env fuel dt zs w = Some w' -> f w' = f w.
Proof.
  unfold tryLightning. destruct blind as (Hd & _ & _).
  destruct (_ =? _)%Z; [intros H; injection H as <-; reflexivity|].
  lazy zeta.
  destruct (leq _ _); [intros H; injection H as <-; reflexivity|].
  destruct (JsNumber.ltb _ _); [intros H; injection H as <-; apply ignoresAccum|].
  destruct (gt _ _).
  - intros H; injection H as <-.
    unfold Math_random; cbn [snd]. rewrite Hd, !ignoresAccum. reflexivity.
  - intros H. apply triggerLightning_keeps in H. rewrite H.
    unfold Math_random; cbn [snd]. rewrite Hd, !ignoresAccum. reflexivity.
Qed.
End Lightning.
End ParticleFrames.

Section Sequencing.
Import WeatherLayer.

Lemma exec_bind {A B : Type} (m : M A) (k : A -> M B) (w : World) :
  exec (bind m k) w = exec (k (fst (m w))) (snd (m w)).
Proof. reflexivity. Qed.

Lemma exec_seq {A : Type} (m : M unit) (k : M A) (w : World) :
  exec (m ;; k) w = exec k (exec m w).
Proof. reflexivity. Qed.

Lemma Keeps_exec {X A : Type} (f : World -> X) (m : M A) :
  Keeps f m -> forall w, f (exec m w) = f w.
Proof. intros H w. apply H. Qed.

Lemma forEachUpdate_Forall2 {A : Type} (R : A -> A -> Prop) (body : A -> M A) :
  (forall a w, R a (fst (body a w))) ->
  forall l w, Forall2 R l (fst (forEachUpdate l body w)).
Proof.
  intros H. induction l as [|a l IH]; intros w; cbn [forEachUpdate].
  - constructor.
  - unfold bind at 1. cbv zeta. unfold bind at 1. cbv zeta. cbn [ret fst].
    constructor; [apply H | apply IH].
Qed.
End Sequencing.

Section Discard.
Import WeatherLayer.

Lemma nodes_discard (c g h : Handle) (w : World) :
  nodes (exec (discard c g) w) h
  = if Nat.eqb h g
    then DisplayObject.set_destroyed true
           (if isChildOf c (nodes w g)
            then DisplayObject.set_parent None (nodes w g) else nodes w g)
    else nodes w h.
Proof.
  unfold discard, removeChild, destroy, onNode, modify, exec, bind, update.
  cbn. destruct (Nat.eqb h g) eqn:E; [|reflexivity].
  rewrite Nat.eqb_refl. reflexivity.
Qed.

Lemma discard_self (c g : Handle) (w : World) :
  discarded c (nodes (exec (discard c g) w) g).
Proof.
  rewrite nodes_discard, Nat.eqb_refl. unfold discarded.
  destruct (isChildOf c (nodes w g)) eqn:E; split; try reflexivity; exact E.
Qed.

Lemma discard_mono (c g h : Handle) (w : World) :
  discarded c (nodes w h) -> discarded c (nodes (exec (discard c g) w) h).
Proof.
  intros Hd. destruct (Nat.eqb h g) eqn:E.
  - apply Nat.eqb_eq in E. subst h. apply discard_self.
  - rewrite nodes_discard, E. exact Hd.
Qed.

Lemma forEach_discard {A : Type} (c : Handle) (g : A -> Handle) (l : list A) :
  forall (w : World) (h : Handle),
    discarded c (nodes w h) \/ In h (map g l) ->
    discarded c (nodes (exec (forEach l (fun p => discard c (g p))) w) h).
Proof.
  induction l as [|a l IH]; intros w h [Hd | Hin]; cbn [forEach].
  - exact Hd.
  - destruct Hin.
  - rewrite exec_seq. apply IH. left. apply discard_mono, Hd.
  - rewrite exec_seq. apply IH. destruct Hin as [<- | Hin].
    + left. apply discard_self.
    + right. exact Hin.
Qed.
End Discard.

Ltac blind := repeat split; intros ? ?; reflexivity.
Ltac ign := intros ? ?; reflexivity.

Section Growth.
Import WeatherLayer.
Context {P : Type} (pool : World -> list P).

Lemma Extends_keeps {A : Type} (m : M A) : Keeps pool m -> Extends pool 0 m.
Proof.
  intros H w. exists []. rewrite app_nil_r. split; [apply H | reflexivity].
Qed.

Lemma Extends_bind {A B : Type} (n1 n2 : nat) (m : M A) (k : A -> M B) :
  Extends pool n1 m -> (forall a, Extends pool n2 (k a)) ->
  Extends pool (n1 + n2) (bind m k).
Proof.
  intros Hm Hk w. unfold bind. cbv zeta.
  destruct (Hm w) as (l1 & E1 & L1).
  destruct (Hk (fst (m w)) (snd (m w))) as (l2 & E2 & L2).
  exists (l1 ++ l2). rewrite E2, E1, app_assoc, length_app, L1, L2. split; reflexivity.
Qed.

Lemma Extends_bind_keeps {A B : Type} (n : nat) (m : M A) (k : A -> M B) :
  Keeps pool m -> (forall a, Extends pool n (k a)) -> Extends pool n (bind m k).
Proof.
  intros Hm Hk. apply (Extends_bind 0 n); [apply Extends_keeps, Hm | exact Hk].
Qed.
End Growth.

Section RainPool.
Import WeatherLayer.
Variable entropy : nat -> Q.
Variable env : Env.t.

Lemma rainPool_blind : SceneBlind rainPool.
Proof. blind. Qed.

Lemma addRainParticle_extends c z0 zs :
  Extends rainPool 1 (addRainParticle entropy env c z0 zs).
Proof.
  unfold addRainParticle, addChild.
  apply Extends_bind_keeps; [apply Keeps_pick, rainPool_blind | intros zone].
  apply Extends_bind_keeps; [apply Keeps_createRainParticle, rainPool_blind | intros g].
  repeat (lazy zeta;
          apply Extends_bind_keeps;
          [first [apply Keeps_random | apply Keeps_onNode]; apply rainPool_blind | intros ?]).
  intros w. eexists. split; reflexivity.
Qed.

Lemma rainLoop_extends c z0 zs n :
  Extends rainPool n (rainLoop entropy env c (z0 :: zs) n).
Proof.
  induction n as [|n IH]; cbn [rainLoop].
  - apply Extends_keeps, Keeps_ret.
  - apply (Extends_bind rainPool 1 n); [apply addRainParticle_extends | intros _; exact IH].
Qed.

(** What [ensureRainParticles] does to the pool. *)
Lemma ensureRainParticles_no_container zs maxCount w :
  rainContainer w = None ->
  exec (ensureRainParticles entropy env zs maxCount) w = w.
Proof.
  intros Hc. unfold ensureRainParticles, exec, bind, get. cbn [fst snd].
  rewrite Hc. reflexivity.
Qed.

Lemma ensureRainParticles_empty maxCount w c :
  rainContainer w = Some c ->
  exec (ensureRainParticles entropy env [] maxCount) w
  = set_rainPool []
      (exec (forEach (rainPool w) (fun p => discard c (RainParticle.g p))) w).
Proof.
  intros Hc. unfold ensureRainParticles, exec, bind, get. cbn [fst snd].
  rewrite Hc. cbn [len List.length Z.of_nat Z.mul Z.eqb andb].
  destruct maxCount as [m|]; cbn [shortfall satisfied rounds].
  - replace (Z.min m 0 - len (rainPool w) <=? 0)%Z with true
      by (symmetry; apply Z.leb_le; unfold len; lia).
    reflexivity.
  - cbn [andb rainLoop ret fst snd]. cbv beta.
    destruct (rainPool w) as [|p pool] eqn:Ep.
    + cbn [len List.length Z.of_nat Z.ltb Z.compare ret snd forEach].
      destruct w. cbn in Ep. subst. reflexivity.
    + replace (0 <? len (p :: pool))%Z with true
        by (symmetry; apply Z.ltb_lt; unfold len; cbn [List.length]; lia).
      reflexivity.
Qed.

Lemma ensureRainParticles_some z0 zs maxCount w c :
  rainContainer w = Some c ->
  exec (ensureRainParticles entropy env (z0 :: zs) maxCount) w
  = exec (rainLoop entropy env c (z0 :: zs)
            (rounds (shortfall maxCount (len (z0 :: zs) * 35) (len (rainPool w))))) w.
Proof.
  intros Hc. unfold ensureRainParticles, exec, bind, get. cbn [fst snd].
  rewrite Hc.
  assert (Hz : (len (z0 :: zs) =? 0)%Z = false)
    by (apply Z.eqb_neq; unfold len; cbn [List.length]; lia).
  rewrite Hz, andb_false_r. cbn [andb]. reflexivity.
Qed.

Lemma ensureRainParticles_unchanged z0 zs maxCount w :
  (Z.min maxCount (len (z0 :: zs) * 35) <= len (rainPool w))%Z ->
  exec (ensureRainParticles entropy env (z0 :: zs) (Some maxCount)) w = w.
Proof.
  intros Hle. destruct (rainContainer w) as [c|] eqn:Hc.
  - rewrite (ensureRainParticles_some _ _ _ _ _ Hc). cbn [shortfall rounds].
    replace (Z.to_nat _) with 0%nat by lia. reflexivity.
  - apply ensureRainParticles_no_container, Hc.
Qed.

Lemma ensureRainParticles_grow z0 zs maxCount w c :
  rainContainer w = Some c ->
  exists created,
    rainPool (exec (ensureRainParticles entropy env (z0 :: zs) maxCount) w)
    = rainPool w ++ created
    /\ List.length created
       = rounds (shortfall maxCount (len (z0 :: zs) * 35) (len (rainPool w))).
Proof.
  intros Hc. rewrite (ensureRainParticles_some _ _ _ _ _ Hc).
  apply rainLoop_extends.
Qed.

Lemma ensureRainParticles_clear maxCount w c :
  rainContainer w = Some c ->
  let w' := exec (ensureRainParticles entropy env [] maxCount) w in
  rainPool w' = []
  /\ forall h, In h (map RainParticle.g (rainPool w)) -> discarded c (nodes w' h).
Proof.
  intros Hc w'. subst w'. rewrite (ensureRainParticles_empty _ _ _ Hc).
  split; [reflexivity | intros h Hin].
  cbn [nodes set_rainPool]. apply forEach_discard. right. exact Hin.
Qed.

(** Either the pool is emptied or it keeps its particles and gains new
    ones at the end. *)
Lemma ensureRainParticles_prefix zs maxCount w :
  let w' := exec (ensureRainParticles entropy env zs maxCount) w in
  rainPool w' = []
  \/ exists created,
      rainPool w' = rainPool w ++ created
      /\ (rainContainer w = None -> created = []).
Proof.
  intros w'. subst w'. destruct (rainContainer w) as [c|] eqn:Hc.
  - destruct zs as [|z0 zs].
    + left. apply (ensureRainParticles_clear maxCount w c Hc).
    + right. destruct (ensureRainParticles_grow z0 zs maxCount w c Hc) as (l & E & _).
      exists l. split; [exact E | discriminate].
  - right. exists []. rewrite ensureRainParticles_no_container by exact Hc.
    split; [symmetry; apply app_nil_r | reflexivity].
Qed.
End RainPool.

Section WindPool.
Import WeatherLayer.
Variable entropy : nat -> Q.
Variable Math_PI : Q.
Variable env : Env.t.

Lemma windPool_blind : SceneBlind windPool.
Proof. blind. Qed.

Lemma addWindParticle_extends c z0 zs :
  Extends windPool 1 (addWindParticle entropy Math_PI env c z0 zs).
Proof.
  unfold addWindParticle, addChild.
  apply Extends_bind_keeps; [apply Keeps_pick, windPool_blind | intros zone].
  apply Extends_bind_keeps; [apply Keeps_createWindParticle, windPool_blind | intros g].
  repeat (lazy zeta;
          apply Extends_bind_keeps;
          [first [apply Keeps_random | apply Keeps_onNode]; apply windPool_blind | intros ?]).
  intros w. eexists. split; reflexivity.
Qed.

Lemma windLoop_extends c z0 zs n :
  Extends windPool n (windLoop entropy Math_PI env c (z0 :: zs) n).
Proof.
  induction n as [|n IH]; cbn [windLoop].
  - apply Extends_keeps, Keeps_ret.
  - apply (Extends_bind windPool 1 n); [apply addWindParticle_extends | intros _; exact IH].
Qed.

(** What [ensureWindParticles] does to the pool. *)
Lemma ensureWindParticles_no_container zs maxCount w :
  container w = None ->
  exec (ensureWindParticles entropy Math_PI env zs maxCount) w = w.
Proof.
  intros Hc. unfold ensureWindParticles, exec, bind, get. cbn [fst snd].
  rewrite Hc. reflexivity.
Qed.

Lemma ensureWindParticles_empty maxCount w c :
  container w = Some c ->
  exec (ensureWindParticles entropy Math_PI env [] maxCount) w
  = set_windPool []
      (exec (forEach (windPool w) (fun p => discard c (WindParticle.g p))) w).
Proof.
  intros Hc. unfold ensureWindParticles, exec, bind, get. cbn [fst snd].
  rewrite Hc. cbn [len List.length Z.of_nat Z.mul Z.eqb andb].
  destruct maxCount as [m|]; cbn [shortfall satisfied rounds].
  - replace (Z.min m 0 - len (windPool w) <=? 0)%Z with true
      by (symmetry; apply Z.leb_le; unfold len; lia).
    reflexivity.
  - cbn [andb windLoop ret fst snd]. cbv beta.
    destruct (windPool w) as [|p pool] eqn:Ep.
    + cbn [len List.length Z.of_nat Z.ltb Z.compare ret snd forEach].
      destruct w. cbn in Ep. subst. reflexivity.
    + replace (0 <? len (p :: pool))%Z with true
        by (symmetry; apply Z.ltb_lt; unfold len; cbn [List.length]; lia).
      reflexivity.
Qed.

Lemma ensureWindParticles_some z0 zs maxCount w c :
  container w = Some c ->
  exec (ensureWindParticles entropy Math_PI env (z0 :: zs) maxCount) w
  = exec (windLoop entropy Math_PI env c (z0 :: zs)
            (rounds (shortfall maxCount (len (z0 :: zs) * 12) (len (windPool w))))) w.
Proof.
  intros Hc. unfold ensureWindParticles, exec, bind, get. cbn [fst snd].
  rewrite Hc.
  assert (Hz : (len (z0 :: zs) =? 0)%Z = false)
    by (apply Z.eqb_neq; unfold len; cbn [List.length]; lia).
  rewrite Hz, andb_false_r. cbn [andb]. reflexivity.
Qed.

Lemma ensureWindParticles_unchanged z0 zs maxCount w :
  (Z.min maxCount (len (z0 :: zs) * 12) <= len (windPool w))%Z ->
  exec (ensureWindParticles entropy Math_PI env (z0 :: zs) (Some maxCount)) w = w.
Proof.
  intros Hle. destruct (container w) as [c|] eqn:Hc.
  - rewrite (ensureWindParticles_some _ _ _ _ _ Hc). cbn [shortfall rounds].
    replace (Z.to_nat _) with 0%nat by lia. reflexivity.
  - apply ensureWindParticles_no_container, Hc.
Qed.

Lemma ensureWindParticles_grow z0 zs maxCount w c :
  container w = Some c ->
  exists created,
    windPool (exec (ensureWindParticles entropy Math_PI env (z0 :: zs) maxCount) w)
    = windPool w ++ created
    /\ List.length created
       = rounds (shortfall maxCount (len (z0 :: zs) * 12) (len (windPool w))).
Proof.
  intros Hc. rewrite (ensureWindParticles_some _ _ _ _ _ Hc).
  apply windLoop_extends.
Qed.

Lemma ensureWindParticles_clear maxCount w c :
  container w = Some c ->
  let w' := exec (ensureWindParticles entropy Math_PI env [] maxCount) w in
  windPool w' = []
  /\ forall h, In h (map WindParticle.g (windPool w)) -> discarded c (nodes w' h).
Proof.
  intros Hc w'. subst w'. rewrite (ensureWindParticles_empty _ _ _ Hc).
  split; [reflexivity | intros h Hin].
  cbn [nodes set_windPool]. apply forEach_discard. right. exact Hin.
Qed.

(** Either the pool is emptied or it keeps its particles and gains new
    ones at the end. *)
Lemma ensureWindParticles_prefix zs maxCount w :
  let w' := exec (ensureWindParticles entropy Math_PI env zs maxCount) w in
  windPool w' = []
  \/ exists created,
      windPool w' = windPool w ++ created
      /\ (container w = None -> created = []).
Proof.
  intros w'. subst w'. destruct (container w) as [c|] eqn:Hc.
  - destruct zs as [|z0 zs].
    + left. apply (ensureWindParticles_clear maxCount w c Hc).
    + right. destruct (ensureWindParticles_grow z0 zs maxCount w c Hc) as (l & E & _).
      exists l. split; [exact E | discriminate].
  - right. exists []. rewrite ensureWindParticles_no_container by exact Hc.
    split; [symmetry; apply app_nil_r | reflexivity].
Qed.
End WindPool.

Section SnowPool.
Import WeatherLayer.
Variable entropy : nat -> Q.
Variable Math_PI : Q.
Variable env : Env.t.

Lemma snowPool_blind : SceneBlind snowPool.
Proof. blind. Qed.

Lemma addSnowParticle_extends c z0 zs :
  Extends snowPool 1 (addSnowParticle entropy Math_PI env c z0 zs).
Proof.
  unfold addSnowParticle, addChild.
  apply Extends_bind_keeps; [apply Keeps_pick, snowPool_blind | intros zone].
  apply Extends_bind_keeps; [apply Keeps_createSnowParticle, snowPool_blind | intros g].
  repeat (lazy zeta;
          apply Extends_bind_keeps;
          [first [apply Keeps_random | apply Keeps_onNode]; apply snowPool_blind | intros ?]).
  intros w. eexists. split; reflexivity.
Qed.

Lemma snowLoop_extends c z0 zs n :
  Extends snowPool n (snowLoop entropy Math_PI env c (z0 :: zs) n).
Proof.
  induction n as [|n IH]; cbn [snowLoop].
  - apply Extends_keeps, Keeps_ret.
  - apply (Extends_bind snowPool 1 n); [apply addSnowParticle_extends | intros _; exact IH].
Qed.

(** What [ensureSnowParticles] does to the pool. *)
Lemma ensureSnowParticles_no_container zs maxCount w :
  container w = None ->
  exec (ensureSnowParticles entropy Math_PI env zs maxCount) w = w.
Proof.
  intros Hc. unfold ensureSnowParticles, exec, bind, get. cbn [fst snd].
  rewrite Hc. reflexivity.
Qed.

Lemma ensureSnowParticles_empty maxCount w c :
  container w = Some c ->
  exec (ensureSnowParticles entropy Math_PI env [] maxCount) w
  = set_snowPool []
      (exec (forEach (snowPool w) (fun p => discard c (SnowParticle.g p))) w).
Proof.
  intros Hc. unfold ensureSnowParticles, exec, bind, get. cbn [fst snd].
  rewrite Hc. cbn [len List.length Z.of_nat Z.mul Z.eqb andb].
  destruct maxCount as [m|]; cbn [shortfall satisfied rounds].
  - replace (Z.min m 0 - len (snowPool w) <=? 0)%Z with true
      by (symmetry; apply Z.leb_le; unfold len; lia).
    reflexivity.
  - cbn [andb snowLoop ret fst snd]. cbv beta.
    destruct (snowPool w) as [|p pool] eqn:Ep.
    + cbn [len List.length Z.of_nat Z.ltb Z.compare ret snd forEach].
      destruct w. cbn in Ep. subst. reflexivity.
    + replace (0 <? len (p :: pool))%Z with true
        by (symmetry; apply Z.ltb_lt; unfold len; cbn [List.length]; lia).
      reflexivity.
Qed.

Lemma ensureSnowParticles_some z0 zs maxCount w c :
  container w = Some c ->
  exec (ensureSnowParticles entropy Math_PI env (z0 :: zs) maxCount) w
  = exec (snowLoop entropy Math_PI env c (z0 :: zs)
            (rounds (shortfall maxCount (len (z0 :: zs) * 20) (len (snowPool w))))) w.
Proof.
  intros Hc. unfold ensureSnowParticles, exec, bind, get. cbn [fst snd].
  rewrite Hc.
  assert (Hz : (len (z0 :: zs) =? 0)%Z = false)
    by (apply Z.eqb_neq; unfold len; cbn [List.length]; lia).
  rewrite Hz, andb_false_r. cbn [andb]. reflexivity.
Qed.

Lemma ensureSnowParticles_unchanged z0 zs maxCount w :
  (Z.min maxCount (len (z0 :: zs) * 20) <= len (snowPool w))%Z ->
  exec (ensureSnowParticles entropy Math_PI env (z0 :: zs) (Some maxCount)) w = w.
Proof.
  intros Hle. destruct (container w) as [c|] eqn:Hc.
  - rewrite (ensureSnowParticles_some _ _ _ _ _ Hc). cbn [shortfall rounds].
    replace (Z.to_nat _) with 0%nat by lia. reflexivity.
  - apply ensureSnowParticles_no_container, Hc.
Qed.

Lemma ensureSnowParticles_grow z0 zs maxCount w c :
  container w = Some c ->
  exists created,
    snowPool (exec (ensureSnowParticles entropy Math_PI env (z0 :: zs) maxCount) w)
    = snowPool w ++ created
    /\ List.length created
       = rounds (shortfall maxCount (len (z0 :: zs) * 20) (len (snowPool w))).
Proof.
  intros Hc. rewrite (ensureSnowParticles_some _ _ _ _ _ Hc).
  apply snowLoop_extends.
Qed.

Lemma ensureSnowParticles_clear maxCount w c :
  container w = Some c ->
  let w' := exec (ensureSnowParticles entropy Math_PI env [] maxCount) w in
  snowPool w' = []
  /\ forall h, In h (map SnowParticle.g (snowPool w)) -> discarded c (nodes w' h).
Proof.
  intros Hc w'. subst w'. rewrite (ensureSnowParticles_empty _ _ _ Hc).
  split; [reflexivity | intros h Hin].
  cbn [nodes set_snowPool]. apply forEach_discard. right. exact Hin.
Qed.

(** Either the pool is emptied or it keeps its particles and gains new
    ones at the end. *)
Lemma ensureSnowParticles_prefix zs maxCount w :
  let w' := exec (ensureSnowParticles entropy Math_PI env zs maxCount) w in
  snowPool w' = []
  \/ exists created,
      snowPool w' = snowPool w ++ created
      /\ (container w = None -> created = []).
Proof.
  intros w'. subst w'. destruct (container w) as [c|] eqn:Hc.
  - destruct zs as [|z0 zs].
    + left. apply (ensureSnowParticles_clear maxCount w c Hc).
    + right. destruct (ensureSnowParticles_grow z0 zs maxCount w c Hc) as (l & E & _).
      exists l. split; [exact E | discriminate].
  - right. exists []. rewrite ensureSnowParticles_no_container by exact Hc.
    split; [symmetry; apply app_nil_r | reflexivity].
Qed.
End SnowPool.

Section Reconcile.
Import WeatherLayer.
Variable entropy : nat -> Q.
Variable Math_PI : Q.
Variable env : Env.t.

Lemma poolSize_app (k : Kind.t) (w w' : World) (created : list Handle) :
  pooled k w' = pooled k w ++ created ->
  poolSize k w' = (poolSize k w + Z.of_nat (List.length created))%Z.
Proof.
  intros E. unfold poolSize, len. rewrite E, length_app. lia.
Qed.

Lemma reconcile_no_container k zones maxCount w :
  poolContainer k w = None -> exec (reconcile entropy Math_PI env k zones maxCount) w = w.
Proof.
  destruct k; cbn [poolContainer reconcile]; intros Hc.
  - apply ensureRainParticles_no_container, Hc.
  - apply ensureWindParticles_no_container, Hc.
  - apply ensureSnowParticles_no_container, Hc.
Qed.

Lemma reconcile_unchanged k zones maxCount w :
  zones <> [] ->
  (target k zones maxCount <= poolSize k w)%Z ->
  exec (reconcile entropy Math_PI env k zones maxCount) w = w.
Proof.
  intros Hz. destruct zones as [|z0 zs]; [contradiction|].
  unfold target, poolSize, pooled, len.
  destruct k; cbn [reconcile density]; rewrite length_map; intros Hle.
  - apply ensureRainParticles_unchanged. exact Hle.
  - apply ensureWindParticles_unchanged. exact Hle.
  - apply ensureSnowParticles_unchanged. exact Hle.
Qed.

Lemma reconcile_grow k zones maxCount w c :
  poolContainer k w = Some c ->
  zones <> [] ->
  exists created,
    pooled k (exec (reconcile entropy Math_PI env k zones maxCount) w) = pooled k w ++ created
    /\ List.length created = Z.to_nat (target k zones maxCount - poolSize k w).
Proof.
  intros Hc Hz. destruct zones as [|z0 zs]; [contradiction|].
  unfold target, poolSize, pooled, len.
  destruct k; cbn [reconcile density poolContainer] in *; rewrite length_map.
  - destruct (ensureRainParticles_grow entropy env z0 zs (Some maxCount) w c Hc) as (l & E & L).
    exists (map RainParticle.g l). rewrite E, map_app, length_map. split; [reflexivity | exact L].
  - destruct (ensureWindParticles_grow entropy Math_PI env z0 zs (Some maxCount) w c Hc) as (l & E & L).
    exists (map WindParticle.g l). rewrite E, map_app, length_map. split; [reflexivity | exact L].
  - destruct (ensureSnowParticles_grow entropy Math_PI env z0 zs (Some maxCount) w c Hc) as (l & E & L).
    exists (map SnowParticle.g l). rewrite E, map_app, length_map. split; [reflexivity | exact L].
Qed.

Lemma reconcile_clear k maxCount w c :
  poolContainer k w = Some c ->
  let w' := exec (reconcile entropy Math_PI env k [] maxCount) w in
  pooled k w' = []
  /\ forall h, In h (pooled k w) -> discarded c (nodes w' h).
Proof.
  intros Hc. destruct k; cbn [reconcile poolContainer pooled] in *.
  - destruct (ensureRainParticles_clear entropy env (Some maxCount) w c Hc) as (E & D).
    cbv zeta. rewrite E. split; [reflexivity | exact D].
  - destruct (ensureWindParticles_clear entropy Math_PI env (Some maxCount) w c Hc) as (E & D).
    cbv zeta. rewrite E. split; [reflexivity | exact D].
  - destruct (ensureSnowParticles_clear entropy Math_PI env (Some maxCount) w c Hc) as (E & D).
    cbv zeta. rewrite E. split; [reflexivity | exact D].
Qed.

Lemma poolSize_nonneg k w : (0 <= poolSize k w)%Z.
Proof. unfold poolSize, len. lia. Qed.

(** The size of the pool after a call, by cases. *)
Lemma reconcile_size k zones maxCount w :
  let w' := exec (reconcile entropy Math_PI env k zones maxCount) w in
  poolSize k w'
  = match poolContainer k w, zones with
    | None, _ => poolSize k w
    | Some _, [] => 0%Z
    | Some _, _ :: _ => Z.max (poolSize k w) (target k zones maxCount)
    end.
Proof.
  intros w'. subst w'. destruct (poolContainer k w) as [c|] eqn:Hc.
  - destruct zones as [|z0 zs].
    + destruct (reconcile_clear k maxCount w c Hc) as (E & _).
      unfold poolSize. rewrite E. reflexivity.
    + destruct (reconcile_grow k (z0 :: zs) maxCount w c Hc ltac:(discriminate))
        as (l & E & L).
      rewrite (poolSize_app _ _ _ _ E), L.
      pose proof (poolSize_nonneg k w). lia.
  - rewrite reconcile_no_container by exact Hc. reflexivity.
Qed.

(** C7.  With a non-empty zone list whose target count does not exceed
    the current pool size, a reconcile call changes nothing at all: the
    state after the call is the state before it, so no particle and no
    display object was created or destroyed and the pool is as it was. *)
Theorem reconcile_keeps_pool_when_target_not_above
  (k : Kind.t) (zones : list WeatherGrid.Zone.t) (maxCount : Z) (w : World) :
  zones <> [] ->
  (target k zones maxCount <= poolSize k w)%Z ->
  exec (reconcile entropy Math_PI env k zones maxCount) w = w
  /\ pooled k (exec (reconcile entropy Math_PI env k zones maxCount) w) = pooled k w.
Proof.
  intros Hz Hle. rewrite (reconcile_unchanged k zones maxCount w Hz Hle).
  split; reflexivity.
Qed.

(** C2, as the code has it.  After a reconcile call the pool holds at
    most the larger of its size before the call and the target count
    min(maxCount, |Z| * density); it holds at most the target count when
    it held no more than that before the call. *)
Theorem reconcile_pool_size_bound
  (k : Kind.t) (zones : list WeatherGrid.Zone.t) (maxCount : Z) (w : World) :
  let w' := exec (reconcile entropy Math_PI env k zones maxCount) w in
  (poolSize k w' <= Z.max (poolSize k w) (target k zones maxCount))%Z
  /\ ((poolSize k w <= target k zones maxCount)%Z ->
      (poolSize k w' <= target k zones maxCount)%Z).
Proof.
  intros w'. subst w'. rewrite reconcile_size.
  pose proof (poolSize_nonneg k w) as Hn.
  destruct (poolContainer k w), zones; split; intros; lia.
Qed.
End Reconcile.

Section Motion.
Import WeatherLayer.
Variable entropy : nat -> Q.
Variable Math_sin : Q -> Q.

Lemma frac_range (q : Q) : (0 <= frac q /\ frac q < 1)%Q.
Proof.
  unfold frac. pose proof (Qfloor_le q) as Hlo. pose proof (Qlt_floor q) as Hhi.
  rewrite inject_Z_plus in Hhi. change (inject_Z 1) with 1%Q in Hhi.
  split; lra.
Qed.

Lemma Math_random_bounds w :
  (0 <= fst (Math_random entropy w) /\ fst (Math_random entropy w) <= JsNumber.belowOne)%Q.
Proof.
  unfold Math_random. cbn [fst]. apply unitDouble_range, frac_range.
Qed.

Lemma Math_random_range w :
  (0 <= fst (Math_random entropy w) /\ fst (Math_random entropy w) < 1)%Q.
Proof.
  destruct (Math_random_bounds w) as [Hlo Hhi]. unfold JsNumber.belowOne in Hhi.
  split; lra.
Qed.

Lemma moveRain_step dt p w : rainStep dt p (fst (moveRain entropy dt p w)).
Proof.
  unfold rainStep, moveRain, bind. cbn [fst snd ret RainParticle.g RainParticle.x
    RainParticle.y RainParticle.vx RainParticle.vy RainParticle.zoneX RainParticle.zoneY
    RainParticle.zoneW RainParticle.zoneH].
  do 7 (split; [reflexivity|]).
  destruct (JsNumber.ltb _ _).
  - split; [reflexivity|]. exists (fst (Math_random entropy w)).
    destruct (Math_random_range w) as [Hlo Hhi].
    split; [exact Hlo | split; [exact Hhi | reflexivity]].
  - split; reflexivity.
Qed.

Lemma moveWind_step dt p w : windStep dt p (fst (moveWind dt p w)).
Proof. repeat split. Qed.

Lemma moveSnow_step dt p w : snowStep dt p (fst (moveSnow entropy Math_sin dt p w)).
Proof.
  unfold snowStep, moveSnow, bind. cbn [fst snd ret SnowParticle.g SnowParticle.x
    SnowParticle.y SnowParticle.vy SnowParticle.phase SnowParticle.zoneX SnowParticle.zoneY
    SnowParticle.zoneW SnowParticle.zoneH].
  do 7 (split; [reflexivity|]).
  destruct (JsNumber.ltb _ _).
  - split; [reflexivity|]. exists (fst (Math_random entropy w)).
    destruct (Math_random_range w) as [Hlo Hhi].
    split; [exact Hlo | split; [exact Hhi | reflexivity]].
  - split; reflexivity.
Qed.

Lemma integrateRain_step dt w :
  Forall2 (rainStep dt) (rainPool w) (rainPool (exec (integrateRain entropy dt) w)).
Proof.
  unfold integrateRain, exec, bind, get, modify. cbn [fst snd rainPool set_rainPool].
  apply forEachUpdate_Forall2. intros p w0. apply moveRain_step.
Qed.

Lemma integrateWind_step dt w :
  Forall2 (windStep dt) (windPool w) (windPool (exec (integrateWind dt) w)).
Proof.
  unfold integrateWind, exec, bind, get, modify. cbn [fst snd windPool set_windPool].
  apply forEachUpdate_Forall2. intros p w0. apply moveWind_step.
Qed.

Lemma integrateSnow_step dt w :
  Forall2 (snowStep dt) (snowPool w) (snowPool (exec (integrateSnow entropy Math_sin dt) w)).
Proof.
  unfold integrateSnow, exec, bind, get, modify. cbn [fst snd snowPool set_snowPool].
  apply forEachUpdate_Forall2. intros p w0. apply moveSnow_step.
Qed.
End Motion.

Section Setup.
Import WeatherLayer.

Lemma setupContainers_rainContainer w :
  rainContainer (exec setupContainers w)
  = match rainContainer w, container w with
    | Some r, _ => Some r
    | None, Some _ => Some (next w)
    | None, None => None
    end.
Proof.
  unfold setupContainers, exec, bind, get. cbn [fst snd].
  destruct (rainContainer w) eqn:Hr; [cbn; exact Hr|].
  destruct (container w); cbn; [reflexivity | exact Hr].
Qed.
End Setup.

Ltac frame_side := solve [repeat split; intros ? ?; reflexivity].

(** Removes an outermost step that keeps the observed field. *)
Ltac drop_exec :=
  match goal with
  | |- context [?f (WeatherLayer.exec ?m ?w)] =>
      let H := fresh in
      assert (H : f (WeatherLayer.exec m w) = f w)
        by (apply Keeps_exec;
            first [ apply Keeps_updateLightning
                  | apply Keeps_integrateSnow
                  | apply Keeps_integrateWind
                  | apply Keeps_integrateRain
                  | apply Keeps_ensureStormOverlay
                  | apply Keeps_ensureSnowParticles
                  | apply Keeps_ensureWindParticles
                  | apply Keeps_ensureRainParticles
                  | apply Keeps_setupContainers
                  | apply Keeps_startTicker
                  | apply Keeps_watchMapData ];
            frame_side);
      rewrite H; clear H
  end.

Section Tick.
Import WeatherLayer.
Variable entropy : nat -> Q.
Variable Math_sin : Q -> Q.
Variable Math_PI : Q.

(** A frame either returns right after the container set-up, or runs the
    pools, the overlay, the motion and the lightning in this order. *)
Lemma tick_cases env fuel dt w w' :
  tick entropy Math_sin Math_PI env fuel dt w = Some w' ->
  let w1 := exec setupContainers w in
  w' = w1
  \/ exists rainZones windZones snowZones stormZones hasStorm w3,
      let level := getWeatherLevel env in
      tryLightning entropy env fuel dt stormZones
        (exec (integrateSnow entropy Math_sin dt)
           (exec (integrateWind dt)
              (exec (integrateRain entropy dt)
                 (exec (ensureStormOverlay hasStorm)
                    (exec (ensureSnowParticles entropy Math_PI env snowZones (Level.snow level))
                       (exec (ensureWindParticles entropy Math_PI env windZones (Level.wind level))
                          (exec (ensureRainParticles entropy env rainZones (Level.rain level))
                             w1)))))))
      = Some w3
      /\ w' = exec (updateLightning dt) w3.
Proof.
  unfold tick. cbv zeta.
  destruct (getViewportBounds env) as [[[bx by_] bw] bh].
  destruct (_ || _); [intros H; injection H as <-; left; reflexivity|].
  destruct (allZero _); [intros H; injection H as <-; left; reflexivity|].
  match goal with
  | |- match tryLightning _ _ _ _ ?sz ?w2 with _ => _ end = _ -> _ =>
      destruct (tryLightning entropy env fuel dt sz w2) as [w3|] eqn:Ht;
      [|discriminate]
  end.
  intros H; injection H as <-. right.
  do 5 eexists. exists w3. cbv zeta. split; [exact Ht | reflexivity].
Qed.

Lemma tick_containers env fuel dt w w' :
  tick entropy Math_sin Math_PI env fuel dt w = Some w' ->
  container w' = container w
  /\ rainContainer w' = rainContainer (exec setupContainers w).
Proof.
  intros H. apply tick_cases in H. cbv zeta in H.
  destruct H as [-> | (rz & wz & sz & tz & hs & w3 & Ht & ->)].
  - split; [drop_exec|]; reflexivity.
  - split.
    + drop_exec.
      rewrite (tryLightning_keeps entropy env container ltac:(frame_side)
                 ltac:(frame_side) ltac:(frame_side) ltac:(frame_side) ltac:(frame_side)
                 ltac:(frame_side) _ _ _ _ _ Ht).
      repeat drop_exec. reflexivity.
    + drop_exec.
      rewrite (tryLightning_keeps entropy env rainContainer ltac:(frame_side)
                 ltac:(frame_side) ltac:(frame_side) ltac:(frame_side) ltac:(frame_side)
                 ltac:(frame_side) _ _ _ _ _ Ht).
      repeat drop_exec. reflexivity.
Qed.

Ltac through_lightning f Ht :=
  drop_exec;
  rewrite (tryLightning_keeps entropy _ f ltac:(frame_side)
             ltac:(frame_side) ltac:(frame_side) ltac:(frame_side) ltac:(frame_side)
             ltac:(frame_side) _ _ _ _ _ Ht).

(** Through a frame, the rain pool is left as it is (the frame returned
    early), or is emptied, or its particles stay in place in the pool, each
    moved by one step, followed by the particles created in this frame. *)
Lemma tick_rainPool env fuel dt w w' :
  tick entropy Math_sin Math_PI env fuel dt w = Some w' ->
  rainPool w' = rainPool w
  \/ rainPool w' = []
  \/ exists created,
      Forall2 (rainStep dt) (rainPool w ++ created) (rainPool w')
      /\ (rainContainer w' = None -> created = []).
Proof.
  intros H. pose proof (tick_containers _ _ _ _ _ H) as [Hc Hrc]. revert H.
  intros H. apply tick_cases in H. cbv zeta in H.
  destruct H as [-> | (rz & wz & sz & tz & hs & w3 & Ht & ->)].
  - left. drop_exec. reflexivity.
  - through_lightning rainPool Ht. do 2 drop_exec.
    match goal with
    | |- context [rainPool (exec (integrateRain entropy dt) ?wd)] =>
        pose proof (integrateRain_step entropy dt wd) as Hm;
        generalize dependent (rainPool (exec (integrateRain entropy dt) wd))
    end.
    intros pool' Hm. revert Hm. do 3 drop_exec.
    match goal with
    | |- context [exec (ensureRainParticles entropy env ?zs ?mx) ?w1] =>
        destruct (ensureRainParticles_prefix entropy env zs mx w1) as [E | (l & E & Hnone)];
        rewrite E; clear E
    end.
    + intros Hm. right. left. inversion Hm. reflexivity.
    + do 1 drop_exec. intros Hm. right. right. exists l. split; [exact Hm|].
      intros Hn. apply Hnone. revert Hn. rewrite ?Hc, ?Hrc. repeat drop_exec. exact (fun Hn => Hn).
Qed.

Lemma tick_windPool env fuel dt w w' :
  tick entropy Math_sin Math_PI env fuel dt w = Some w' ->
  windPool w' = windPool w
  \/ windPool w' = []
  \/ exists created,
      Forall2 (windStep dt) (windPool w ++ created) (windPool w')
      /\ (container w' = None -> created = []).
Proof.
  intros H. pose proof (tick_containers _ _ _ _ _ H) as [Hc Hrc]. revert H.
  intros H. apply tick_cases in H. cbv zeta in H.
  destruct H as [-> | (rz & wz & sz & tz & hs & w3 & Ht & ->)].
  - left. drop_exec. reflexivity.
  - through_lightning windPool Ht. drop_exec.
    match goal with
    | |- context [windPool (exec (integrateWind dt) ?wd)] =>
        pose proof (integrateWind_step dt wd) as Hm;
        generalize dependent (windPool (exec (integrateWind dt) wd))
    end.
    intros pool' Hm. revert Hm. do 3 drop_exec.
    match goal with
    | |- context [exec (ensureWindParticles entropy Math_PI env ?zs ?mx) ?w1] =>
        destruct (ensureWindParticles_prefix entropy Math_PI env zs mx w1) as [E | (l & E & Hnone)];
        rewrite E; clear E
    end.
    + intros Hm. right. left. inversion Hm. reflexivity.
    + do 2 drop_exec. intros Hm. right. right. exists l. split; [exact Hm|].
      intros Hn. apply Hnone. revert Hn. rewrite ?Hc, ?Hrc. repeat drop_exec. exact (fun Hn => Hn).
Qed.

Lemma tick_snowPool env fuel dt w w' :
  tick entropy Math_sin Math_PI env fuel dt w = Some w' ->
  snowPool w' = snowPool w
  \/ snowPool w' = []
  \/ exists created,
      Forall2 (snowStep dt) (snowPool w ++ created) (snowPool w')
      /\ (container w' = None -> created = []).
Proof.
  intros H. pose proof (tick_containers _ _ _ _ _ H) as [Hc Hrc]. revert H.
  intros H. apply tick_cases in H. cbv zeta in H.
  destruct H as [-> | (rz & wz & sz & tz & hs & w3 & Ht & ->)].
  - left. drop_exec. reflexivity.
  - through_lightning snowPool Ht.
    match goal with
    | |- context [snowPool (exec (integrateSnow entropy Math_sin dt) ?wd)] =>
        pose proof (integrateSnow_step entropy Math_sin dt wd) as Hm;
        generalize dependent (snowPool (exec (integrateSnow entropy Math_sin dt) wd))
    end.
    intros pool' Hm. revert Hm. do 3 drop_exec.
    match goal with
    | |- context [exec (ensureSnowParticles entropy Math_PI env ?zs ?mx) ?w1] =>
        destruct (ensureSnowParticles_prefix entropy Math_PI env zs mx w1) as [E | (l & E & Hnone)];
        rewrite E; clear E
    end.
    + intros Hm. right. left. inversion Hm. reflexivity.
    + do 3 drop_exec. intros Hm. right. right. exists l. split; [exact Hm|].
      intros Hn. apply Hnone. revert Hn. rewrite ?Hc, ?Hrc. repeat drop_exec. exact (fun Hn => Hn).
Qed.
End Tick.

Section Setting.
Import WeatherLayer.
Context {X : Type} (f : World -> X) (v : X).

Lemma Sets_bind_right {A B : Type} (m : M A) (k : A -> M B) :
  (forall a, Sets f v (k a)) -> Sets f v (bind m k).
Proof. intros Hk w. apply Hk. Qed.

Lemma Sets_bind_left {A B : Type} (m : M A) (k : A -> M B) :
  Sets f v m -> (forall a, Keeps f (k a)) -> Sets f v (bind m k).
Proof. intros Hm Hk w. unfold bind. cbv zeta. rewrite Hk. apply Hm. Qed.

Lemma Sets_exec {A : Type} (m : M A) : Sets f v m -> forall w, f (exec m w) = v.
Proof. intros H w. apply H. Qed.
End Setting.

Section Lifecycle.
Import WeatherLayer.

Lemma rainPool_frame :
  SceneBlind rainPool /\ Ignores set_windPool rainPool /\ Ignores set_snowPool rainPool
  /\ Ignores set_ticker rainPool /\ Ignores set_stormAccum rainPool
  /\ Ignores set_lightningGraphics rainPool /\ Ignores set_rainContainer rainPool
  /\ Ignores set_stormOverlay rainPool /\ Ignores set_container rainPool.
Proof. repeat split; intros ? ?; reflexivity. Qed.

Lemma windPool_frame :
  SceneBlind windPool /\ Ignores set_rainPool windPool /\ Ignores set_snowPool windPool
  /\ Ignores set_ticker windPool /\ Ignores set_stormAccum windPool
  /\ Ignores set_lightningGraphics windPool /\ Ignores set_rainContainer windPool
  /\ Ignores set_stormOverlay windPool /\ Ignores set_container windPool.
Proof. repeat split; intros ? ?; reflexivity. Qed.

Lemma snowPool_frame :
  SceneBlind snowPool /\ Ignores set_rainPool snowPool /\ Ignores set_windPool snowPool
  /\ Ignores set_ticker snowPool /\ Ignores set_stormAccum snowPool
  /\ Ignores set_lightningGraphics snowPool /\ Ignores set_rainContainer snowPool
  /\ Ignores set_stormOverlay snowPool /\ Ignores set_container snowPool.
Proof. repeat split; intros ? ?; reflexivity. Qed.

Ltac sets :=
  repeat first
    [ apply Sets_bind_left; [intros ?; reflexivity | intros ?; keeps]
    | apply Sets_bind_right; intros ?
    | (intros ?; reflexivity) ].

Lemma stopTicker_rainPool : Sets rainPool [] stopTicker.
Proof.
  destruct rainPool_frame as (? & ? & ? & ? & ? & ? & ? & ? & ?).
  unfold stopTicker, attached, destroy.
  do 8 (apply Sets_bind_right; intros ?).
  apply Sets_bind_right; intros ?.
  apply Sets_bind_right; intros ?.
  apply Sets_bind_left; [intros ?; reflexivity | intros ?; keeps].
Qed.

Lemma stopTicker_windPool : Sets windPool [] stopTicker.
Proof.
  destruct windPool_frame as (? & ? & ? & ? & ? & ? & ? & ? & ?).
  unfold stopTicker, attached, destroy.
  do 13 (apply Sets_bind_right; intros ?).
  apply Sets_bind_left; [intros ?; reflexivity | intros ?; keeps].
Qed.

Lemma stopTicker_snowPool : Sets snowPool [] stopTicker.
Proof.
  unfold stopTicker, attached, destroy.
  do 15 (apply Sets_bind_right; intros ?).
  intros ?; reflexivity.
Qed.
End Lifecycle.

Section Invariant.
Import WeatherLayer.
Variable entropy : nat -> Q.
Variable Math_sin : Q -> Q.
Variable Math_PI : Q.

Lemma pools_empty_haveContainer w :
  rainPool w = [] -> windPool w = [] -> snowPool w = [] -> poolsHaveContainer w.
Proof.
  intros Hr Hw Hs k _. destruct k; cbn [pooled]; rewrite ?Hr, ?Hw, ?Hs; reflexivity.
Qed.

Lemma same_pools_haveContainer w w' :
  rainPool w' = rainPool w -> windPool w' = windPool w -> snowPool w' = snowPool w ->
  container w' = container w -> rainContainer w' = rainContainer w ->
  poolsHaveContainer w -> poolsHaveContainer w'.
Proof.
  intros Hr Hw Hs Hc Hrc Inv k. specialize (Inv k). revert Inv.
  destruct k; cbn [pooled poolContainer]; rewrite ?Hr, ?Hw, ?Hs, ?Hc, ?Hrc; auto.
Qed.

Lemma created_haveContainer env : poolsHaveContainer (created env).
Proof.
  apply pools_empty_haveContainer; unfold created; drop_exec; reflexivity.
Qed.

Lemma Keeps_onMounted {X : Type} (f : World -> X) env :
  SceneBlind f -> Ignores set_rainContainer f -> Ignores set_ticker f ->
  Keeps f (onMounted env).
Proof.
  intros Hb Hr Ht. unfold onMounted.
  apply Keeps_bind; [apply Keeps_setupContainers; assumption | intros _].
  apply Keeps_bind; [apply Keeps_get | intros grid].
  destruct (_ && _); [apply Keeps_startTicker; assumption | apply Keeps_ret].
Qed.

Lemma mount_containers env w :
  container (exec (mount env) w) <> None
  /\ rainContainer (exec (mount env) w) <> None.
Proof.
  unfold mount. rewrite exec_bind, exec_seq. split.
  - rewrite (Keeps_exec container _
               (Keeps_onMounted container env ltac:(frame_side) ltac:(frame_side)
                  ltac:(frame_side))).
    discriminate.
  - unfold onMounted. rewrite exec_seq, exec_bind. cbn [get fst snd].
    match goal with
    | |- rainContainer (exec ?m ?w1) <> None =>
        assert (E : rainContainer (exec m w1) = rainContainer w1)
          by (apply Keeps_exec; destruct (_ && _);
              [apply Keeps_startTicker; frame_side | apply Keeps_ret]);
        rewrite E; clear E
    end.
    rewrite setupContainers_rainContainer.
    destruct (rainContainer _); [discriminate|]. cbn. discriminate.
Qed.

Lemma mount_haveContainer env w : poolsHaveContainer (exec (mount env) w).
Proof.
  destruct (mount_containers env w) as [Hc Hr].
  intros k Hk. destruct k; cbn [poolContainer] in Hk; contradiction.
Qed.

Lemma tick_haveContainer env fuel dt w w' :
  poolsHaveContainer w ->
  tick entropy Math_sin Math_PI env fuel dt w = Some w' ->
  poolsHaveContainer w'.
Proof.
  intros Inv Ht. pose proof (tick_containers _ _ _ _ _ _ _ _ Ht) as [Hc Hrc].
  intros k Hk. destruct k; cbn [poolContainer pooled] in *.
  - assert (Hr0 : rainContainer w = None).
    { rewrite Hrc, setupContainers_rainContainer in Hk.
      destruct (rainContainer w); [discriminate | reflexivity]. }
    pose proof (Inv Kind.rain Hr0) as Hp. cbn [pooled] in Hp.
    apply map_eq_nil in Hp.
    destruct (tick_rainPool _ _ _ _ _ _ _ _ Ht) as [E | [E | (l & F & Hl)]].
    + rewrite E, Hp. reflexivity.
    + rewrite E. reflexivity.
    + rewrite (Hl Hk), Hp in F. inversion F. reflexivity.
  - rewrite Hc in Hk. pose proof (Inv Kind.wind Hk) as Hp. cbn [pooled] in Hp.
    apply map_eq_nil in Hp.
    destruct (tick_windPool _ _ _ _ _ _ _ _ Ht) as [E | [E | (l & F & Hl)]].
    + rewrite E, Hp. reflexivity.
    + rewrite E. reflexivity.
    + rewrite Hc in Hl. rewrite (Hl Hk), Hp in F. inversion F. reflexivity.
  - rewrite Hc in Hk. pose proof (Inv Kind.snow Hk) as Hp. cbn [pooled] in Hp.
    apply map_eq_nil in Hp.
    destruct (tick_snowPool _ _ _ _ _ _ _ _ Ht) as [E | [E | (l & F & Hl)]].
    + rewrite E, Hp. reflexivity.
    + rewrite E. reflexivity.
    + rewrite Hc in Hl. rewrite (Hl Hk), Hp in F. inversion F. reflexivity.
Qed.

Lemma stopTicker_haveContainer w : poolsHaveContainer (exec stopTicker w).
Proof.
  apply pools_empty_haveContainer; apply Sets_exec.
  - apply stopTicker_rainPool.
  - apply stopTicker_windPool.
  - apply stopTicker_snowPool.
Qed.

Lemma watchLevel_haveContainer env w :
  poolsHaveContainer w -> poolsHaveContainer (exec (watchLevel env) w).
Proof.
  intros Inv. unfold watchLevel. cbv zeta.
  destruct (allZero _); [apply stopTicker_haveContainer|].
  rewrite exec_bind. cbn [get fst snd].
  destruct (_ <? _)%Z; [|exact Inv].
  apply (same_pools_haveContainer w); try exact Inv; drop_exec; reflexivity.
Qed.

Lemma watchMapData_haveContainer env w :
  poolsHaveContainer w -> poolsHaveContainer (exec (watchMapData env) w).
Proof.
  intros Inv.
  apply (same_pools_haveContainer w); try exact Inv; drop_exec; reflexivity.
Qed.

Lemma unmount_haveContainer w : poolsHaveContainer (exec unmount w).
Proof.
  unfold unmount, onUnmounted, attached.
  apply pools_empty_haveContainer; apply Sets_exec.
  - destruct rainPool_frame as (? & ? & ? & ? & ? & ? & ? & ? & ?).
    apply Sets_bind_left; [|intros ?; keeps].
    apply Sets_bind_left; [apply stopTicker_rainPool | intros ?; unfold destroy; keeps].
  - destruct windPool_frame as (? & ? & ? & ? & ? & ? & ? & ? & ?).
    apply Sets_bind_left; [|intros ?; keeps].
    apply Sets_bind_left; [apply stopTicker_windPool | intros ?; unfold destroy; keeps].
  - destruct snowPool_frame as (? & ? & ? & ? & ? & ? & ? & ? & ?).
    apply Sets_bind_left; [|intros ?; keeps].
    apply Sets_bind_left; [apply stopTicker_snowPool | intros ?; unfold destroy; keeps].
Qed.

(** In every state the component can be in, a pool that holds particles
    has its container. *)
Lemma reachable_haveContainer w :
  reachable entropy Math_sin Math_PI w -> poolsHaveContainer w.
Proof.
  induction 1 as [env | env w _ _ | env fuel dt w w' _ IH Hf | env w _ IH | env w _ IH | w _ _].
  - apply created_haveContainer.
  - apply mount_haveContainer.
  - unfold frame in Hf. destruct (ticker w).
    + exact (tick_haveContainer _ _ _ _ _ IH Hf).
    + injection Hf as <-. exact IH.
  - apply watchMapData_haveContainer, IH.
  - apply watchLevel_haveContainer, IH.
  - apply unmount_haveContainer.
Qed.
End Invariant.

Section PoolClaims.
Import WeatherLayer.
Variable entropy : nat -> Q.
Variable Math_sin : Q -> Q.
Variable Math_PI : Q.

(** C6.  In any state the component can be in, a reconcile call with an
    empty zone list on a non-empty pool leaves the pool empty, and every
    display object that was pooled has been removed from the pool's
    container and destroyed. *)
Theorem reconcile_empty_zone_list_clears_pool
  (env : Env.t) (k : Kind.t) (maxCount : Z) (w : World) :
  reachable entropy Math_sin Math_PI w ->
  pooled k w <> [] ->
  let w' := exec (reconcile entropy Math_PI env k [] maxCount) w in
  poolSize k w' = 0%Z
  /\ pooled k w' = []
  /\ exists c,
      poolContainer k w = Some c
      /\ forall h, In h (pooled k w) ->
           DisplayObject.destroyed (nodes w' h) = true
           /\ isChildOf c (nodes w' h) = false.
Proof.
  intros Hreach Hne w'.
  pose proof (reachable_haveContainer _ _ _ _ Hreach k) as Inv.
  destruct (poolContainer k w) as [c|] eqn:Hc; [|elim Hne; apply Inv; reflexivity].
  destruct (reconcile_clear entropy Math_PI env k maxCount w c Hc) as (E & D).
  subst w'. unfold poolSize. rewrite E. repeat split.
  exists c. split; [reflexivity | exact D].
Qed.
End PoolClaims.

Section ScenarioFacts.
Import WeatherLayer.

Lemma scenario_ticker : ticker Scenario.mounted = true.
Proof. vm_compute. reflexivity. Qed.

Lemma scenario_tick :
  tick Scenario.entropy Scenario.Math_sin Scenario.Math_PI
    (Scenario.env Setting.high) 5 1 Scenario.mounted
  = Some Scenario.afterFrame.
Proof.
  unfold Scenario.afterFrame.
  destruct (tick _ _ _ _ _ _ _) as [w|] eqn:E; [reflexivity|].
  exfalso.
  assert (H : match tick Scenario.entropy Scenario.Math_sin Scenario.Math_PI
                      (Scenario.env Setting.high) 5 1 Scenario.mounted with
              | Some _ => true
              | None => false
              end = true) by (vm_compute; reflexivity).
  rewrite E in H. discriminate H.
Qed.

Lemma scenario_frame :
  frame Scenario.entropy Scenario.Math_sin Scenario.Math_PI
    (Scenario.env Setting.high) 5 1 Scenario.mounted
  = Some Scenario.afterFrame.
Proof.
  unfold frame. rewrite scenario_ticker. exact scenario_tick.
Qed.

Lemma scenario_second_tick :
  tick Scenario.entropy Scenario.Math_sin Scenario.Math_PI
    (Scenario.env Setting.high) 5 6 Scenario.afterFrame
  = Some Scenario.afterSecondFrame.
Proof.
  unfold Scenario.afterSecondFrame.
  destruct (tick _ _ _ _ _ _ _) as [w|] eqn:E; [reflexivity|].
  exfalso.
  assert (H : match tick Scenario.entropy Scenario.Math_sin Scenario.Math_PI
                      (Scenario.env Setting.high) 5 6 Scenario.afterFrame with
              | Some _ => true
              | None => false
              end = true) by (vm_compute; reflexivity).
  rewrite E in H. discriminate H.
Qed.

Lemma coast_second_tick :
  tick Scenario.entropy Scenario.Math_sin Scenario.Math_PI
    Scenario.coastEnv 5 400 Scenario.coastAfterFrame
  = Some Scenario.coastAfterSecondFrame.
Proof.
  unfold Scenario.coastAfterSecondFrame.
  destruct (tick _ _ _ _ _ _ _) as [w|] eqn:E; [reflexivity|].
  exfalso.
  assert (H : match tick Scenario.entropy Scenario.Math_sin Scenario.Math_PI
                      Scenario.coastEnv 5 400 Scenario.coastAfterFrame with
              | Some _ => true
              | None => false
              end = true) by (vm_compute; reflexivity).
  rewrite E in H. discriminate H.
Qed.

Lemma scenario_reachable :
  reachable Scenario.entropy Scenario.Math_sin Scenario.Math_PI Scenario.afterFrame.
Proof.
  apply (reach_frame _ _ _ (Scenario.env Setting.high) 5 1 Scenario.mounted).
  - apply reach_mount, reach_created.
  - exact scenario_frame.
Qed.
End ScenarioFacts.

Lemma reconcile_empty_zone_list_clears_pool_witness :
  WeatherLayer.pooled WeatherLayer.Kind.rain Scenario.afterFrame <> []
  /\ WeatherLayer.poolSize WeatherLayer.Kind.rain
       (WeatherLayer.exec
          (WeatherLayer.reconcile Scenario.entropy Scenario.Math_PI
             (Scenario.env WeatherLayer.Setting.high) WeatherLayer.Kind.rain [] 320)
          Scenario.afterFrame) = 0%Z.
Proof.
  assert (Hne : WeatherLayer.pooled WeatherLayer.Kind.rain Scenario.afterFrame <> [])
    by (vm_compute; discriminate).
  split; [exact Hne|].
  exact (proj1 (reconcile_empty_zone_list_clears_pool
                  Scenario.entropy Scenario.Math_sin Scenario.Math_PI
                  (Scenario.env WeatherLayer.Setting.high) WeatherLayer.Kind.rain 320
                  Scenario.afterFrame scenario_reachable Hne)).
Defined.

Section Teardown.
Import WeatherLayer.

Lemma Hoare_bind {A B : Type} (P : World -> Prop) (R : A -> World -> Prop)
  (Q : B -> World -> Prop) (m : M A) (k : A -> M B) :
  Hoare P m R -> (forall a, Hoare (R a) (k a) Q) -> Hoare P (bind m k) Q.
Proof.
  intros Hm Hk w HP. unfold bind. cbv zeta. apply Hk, Hm, HP.
Qed.

Lemma nodes_forEach_destroy {A : Type} (g : A -> Handle) (l : list A) (w : World) (h : Handle) :
  let d := nodes (exec (forEach l (fun p => destroy (g p))) w) h in
  DisplayObject.parent d = DisplayObject.parent (nodes w h)
  /\ (DisplayObject.destroyed (nodes w h) = true -> DisplayObject.destroyed d = true).
Proof.
  revert w. induction l as [|a l IH]; intros w; cbn [forEach].
  - split; [reflexivity | exact (fun H => H)].
  - rewrite exec_seq. cbv zeta.
    destruct (IH (exec (destroy (g a)) w)) as [Hp Hd]. rewrite Hp. clear Hp.
    unfold destroy, onNode, modify, exec, update in *. cbn [snd nodes set_nodes] in *.
    destruct (Nat.eqb h (g a)) eqn:E.
    + apply Nat.eqb_eq in E. subst h. split; [reflexivity|]. intros _. apply Hd. reflexivity.
    + split; [reflexivity | exact Hd].
Qed.

Lemma stopTicker_ticker : Sets ticker false stopTicker.
Proof.
  assert (SceneBlind ticker) by frame_side.
  assert (Ignores set_stormAccum ticker) by frame_side.
  assert (Ignores set_lightningGraphics ticker) by frame_side.
  assert (Ignores set_rainPool ticker) by frame_side.
  assert (Ignores set_windPool ticker) by frame_side.
  assert (Ignores set_snowPool ticker) by frame_side.
  unfold stopTicker, attached, destroy.
  apply Sets_bind_left; [intros ?; reflexivity | intros ?; keeps].
Qed.

Lemma Keeps_stopTicker_overlay : Keeps stormOverlay stopTicker.
Proof.
  assert (SceneBlind stormOverlay) by frame_side.
  assert (Ignores set_ticker stormOverlay) by frame_side.
  assert (Ignores set_stormAccum stormOverlay) by frame_side.
  assert (Ignores set_lightningGraphics stormOverlay) by frame_side.
  assert (Ignores set_rainPool stormOverlay) by frame_side.
  assert (Ignores set_windPool stormOverlay) by frame_side.
  assert (Ignores set_snowPool stormOverlay) by frame_side.
  unfold stopTicker, attached, destroy. keeps.
Qed.

Lemma lightningGone_forEach_destroy {A : Type} (f : A -> Handle) (l : list A) g :
  Hoare (lightningGone g) (forEach l (fun p => destroy (f p))) (fun _ => lightningGone g).
Proof.
  intros w (Hg & Hd & Hp).
  destruct (nodes_forEach_destroy f l w g) as [Ep Ed].
  assert (Keeps lightningGraphics (forEach l (fun p => destroy (f p)))) as Hk
    by (apply Keeps_forEach; intros p; apply Keeps_onNode; frame_side).
  repeat split.
  - rewrite Hk. exact Hg.
  - apply Ed, Hd.
  - unfold exec in Ep. rewrite Ep. exact Hp.
Qed.

Lemma stopTicker_lightning g :
  Hoare (lightningAttached g) stopTicker (fun _ => lightningGone g).
Proof.
  unfold stopTicker.
  apply (Hoare_bind _ (fun _ => lightningAttached g)); [intros w H; exact H | intros _].
  apply (Hoare_bind _ (fun _ => lightningAttached g)); [intros w H; exact H | intros _].
  apply (Hoare_bind _ (fun _ => lightningAttached g)); [intros w H; exact H | intros overlay].
  apply (Hoare_bind _ (fun _ => lightningAttached g)); [intros w H; exact H | intros a].
  apply (Hoare_bind _ (fun _ => lightningAttached g)).
  { destruct overlay as [o|]; [destruct a|]; try (intros w H; exact H).
    intros w (Hg & Hp). split; [exact Hg|].
    unfold onNode, modify, update. cbn [snd nodes set_nodes].
    destruct (Nat.eqb g o) eqn:E; [|exact Hp].
    apply Nat.eqb_eq in E. subst o. exact Hp. }
  intros _.
  apply (Hoare_bind _ (fun r w => r = Some g /\ lightningAttached g w));
    [intros w H; split; [apply H | exact H] | intros g'].
  apply (Hoare_bind _ (fun r w => g' = Some g /\ r = true /\ lightningAttached g w)).
  { intros w (-> & Hg & Hp). unfold attached, bind, get, ret. cbn [fst snd].
    repeat split; try assumption.
    destruct (DisplayObject.parent (nodes w g)); [reflexivity | contradiction]. }
  intros a'.
  apply (Hoare_bind _ (fun _ => lightningGone g)).
  { intros w (-> & -> & Hg & Hp).
    unfold onNode, destroy, onNode, modify, bind, update.
    cbn [fst snd nodes set_nodes lightningGraphics set_lightningGraphics].
    unfold lightningGone. cbn [nodes set_nodes lightningGraphics set_lightningGraphics].
    rewrite Nat.eqb_refl. repeat split. }
  intros _.
  apply (Hoare_bind _ (fun _ => lightningGone g)); [intros w H; exact H | intros pool].
  apply (Hoare_bind _ (fun _ => lightningGone g));
    [apply lightningGone_forEach_destroy | intros _].
  apply (Hoare_bind _ (fun _ => lightningGone g)); [intros w H; exact H | intros _].
  apply (Hoare_bind _ (fun _ => lightningGone g)); [intros w H; exact H | intros pool'].
  apply (Hoare_bind _ (fun _ => lightningGone g));
    [apply lightningGone_forEach_destroy | intros _].
  apply (Hoare_bind _ (fun _ => lightningGone g)); [intros w H; exact H | intros _].
  apply (Hoare_bind _ (fun _ => lightningGone g)); [intros w H; exact H | intros pool''].
  apply (Hoare_bind _ (fun _ => lightningGone g));
    [apply lightningGone_forEach_destroy | intros _].
  intros w H; exact H.
Qed.
End Teardown.

Section DriverClaims.
Import WeatherLayer.
Variable entropy : nat -> Q.
Variable Math_sin : Q -> Q.
Variable Math_PI : Q.

Lemma none_level env : Env.weather env = Some Setting.none -> allZero (getWeatherLevel env) = true.
Proof. intros H. unfold getWeatherLevel. rewrite H. reflexivity. Qed.

Lemma tick_all_zero env fuel dt w :
  allZero (getWeatherLevel env) = true ->
  tick entropy Math_sin Math_PI env fuel dt w = Some (exec setupContainers w).
Proof.
  intros Hz. unfold tick. cbv zeta.
  destruct (getViewportBounds env) as [[[bx by_] bw] bh].
  rewrite Hz. destruct (_ || _); reflexivity.
Qed.

(** C5, as the code has it.  With the preset none, the frame callback
    returns right after the container set-up and tears nothing down: the
    pools, the overlay and the lightning are as before.  The teardown is
    done by the watcher of the weather level, through [stopTicker]: it
    stops the ticker, empties the three pools, removes and destroys an
    attached lightning node, and keeps the storm overlay node. *)
Theorem none_preset_teardown_is_the_watchers
  (env : Env.t) (fuel : nat) (dt : Q) (w : World) :
  Env.weather env = Some Setting.none ->
  (tick entropy Math_sin Math_PI env fuel dt w = Some (exec setupContainers w)
   /\ rainPool (exec setupContainers w) = rainPool w
   /\ windPool (exec setupContainers w) = windPool w
   /\ snowPool (exec setupContainers w) = snowPool w
   /\ stormOverlay (exec setupContainers w) = stormOverlay w
   /\ lightningGraphics (exec setupContainers w) = lightningGraphics w)
  /\ (let w' := exec (watchLevel env) w in
      ticker w' = false
      /\ rainPool w' = [] /\ windPool w' = [] /\ snowPool w' = []
      /\ stormOverlay w' = stormOverlay w
      /\ forall g, lightningGraphics w = Some g ->
           DisplayObject.parent (nodes w g) <> None ->
           lightningGraphics w' = None
           /\ DisplayObject.destroyed (nodes w' g) = true
           /\ DisplayObject.parent (nodes w' g) = None).
Proof.
  intros Hnone. pose proof (none_level env Hnone) as Hz. split.
  - split; [apply tick_all_zero, Hz|].
    repeat split; drop_exec; reflexivity.
  - unfold watchLevel. cbv zeta. rewrite Hz.
    split; [apply Sets_exec, stopTicker_ticker|].
    split; [apply Sets_exec, stopTicker_rainPool|].
    split; [apply Sets_exec, stopTicker_windPool|].
    split; [apply Sets_exec, stopTicker_snowPool|].
    split; [apply (Keeps_exec _ _ Keeps_stopTicker_overlay)|].
    intros g Hg Hp. apply (stopTicker_lightning g w). split; assumption.
Qed.

(** C10, as the code has it.  Through a frame each pool is left as it is,
    or emptied, or keeps every particle in its place in the pool with the
    display object, the velocity and the home zone it was created with,
    new particles being appended; a particle that passes the far bound of
    its home zone is reset from its own home-zone fields, to 10 (rain,
    wind) or 5 (snow) pixels before the near edge of that zone, at a
    random abscissa within the zone's width for rain and snow.  The
    visible zones of the frame play no part in it. *)
Theorem particles_keep_their_home_zone
  (env : Env.t) (fuel : nat) (dt : Q) (w w' : World) :
  tick entropy Math_sin Math_PI env fuel dt w = Some w' ->
  (rainPool w' = rainPool w \/ rainPool w' = []
   \/ exists created, Forall2 (rainStep dt) (rainPool w ++ created) (rainPool w'))
  /\ (windPool w' = windPool w \/ windPool w' = []
      \/ exists created, Forall2 (windStep dt) (windPool w ++ created) (windPool w'))
  /\ (snowPool w' = snowPool w \/ snowPool w' = []
      \/ exists created, Forall2 (snowStep dt) (snowPool w ++ created) (snowPool w')).
Proof.
  intros Ht. repeat split.
  - destruct (tick_rainPool _ _ _ _ _ _ _ _ Ht) as [E | [E | (l & F & _)]]; eauto.
  - destruct (tick_windPool _ _ _ _ _ _ _ _ Ht) as [E | [E | (l & F & _)]]; eauto.
  - destruct (tick_snowPool _ _ _ _ _ _ _ _ Ht) as [E | [E | (l & F & _)]]; eauto.
Qed.
End DriverClaims.


(** Two frames that have particles to move: a second frame over the 140
    rain particles of the rain forest, of which it recycles some, and a
    second frame over the 12 wind and 40 snow particles of the coast, of
    which it recycles wind particles. *)
Lemma particles_keep_their_home_zone_witness :
  (let w := Scenario.afterFrame in
   let w' := Scenario.afterSecondFrame in
   (WeatherLayer.tick Scenario.entropy Scenario.Math_sin Scenario.Math_PI
      (Scenario.env WeatherLayer.Setting.high) 5 6 w = Some w'
    /\ List.length (WeatherLayer.rainPool w) = 140%nat
    /\ existsb (fun p => Qle_bool (WeatherLayer.RainParticle.y p) (- (10)))
         (WeatherLayer.rainPool w') = true)
   /\ (WeatherLayer.rainPool w' = WeatherLayer.rainPool w
       \/ WeatherLayer.rainPool w' = []
       \/ exists created,
           Forall2 (WeatherLayer.rainStep 6) (WeatherLayer.rainPool w ++ created)
             (WeatherLayer.rainPool w'))
   /\ (WeatherLayer.windPool w' = WeatherLayer.windPool w
       \/ WeatherLayer.windPool w' = []
       \/ exists created,
           Forall2 (WeatherLayer.windStep 6) (WeatherLayer.windPool w ++ created)
             (WeatherLayer.windPool w'))
   /\ (WeatherLayer.snowPool w' = WeatherLayer.snowPool w
       \/ WeatherLayer.snowPool w' = []
       \/ exists created,
           Forall2 (WeatherLayer.snowStep 6) (WeatherLayer.snowPool w ++ created)
             (WeatherLayer.snowPool w')))
  /\ (let w := Scenario.coastAfterFrame in
      let w' := Scenario.coastAfterSecondFrame in
      (WeatherLayer.tick Scenario.entropy Scenario.Math_sin Scenario.Math_PI
         Scenario.coastEnv 5 400 w = Some w'
       /\ List.length (WeatherLayer.windPool w) = 12%nat
       /\ List.length (WeatherLayer.snowPool w) = 40%nat
       /\ existsb (fun p => Qle_bool (WeatherLayer.WindParticle.x p)
                              (WeatherLayer.WindParticle.zoneX p))
            (WeatherLayer.windPool w') = true)
      /\ (WeatherLayer.rainPool w' = WeatherLayer.rainPool w
          \/ WeatherLayer.rainPool w' = []
          \/ exists created,
              Forall2 (WeatherLayer.rainStep 400) (WeatherLayer.rainPool w ++ created)
                (WeatherLayer.rainPool w'))
      /\ (WeatherLayer.windPool w' = WeatherLayer.windPool w
          \/ WeatherLayer.windPool w' = []
          \/ exists created,
              Forall2 (WeatherLayer.windStep 400) (WeatherLayer.windPool w ++ created)
                (WeatherLayer.windPool w'))
      /\ (WeatherLayer.snowPool w' = WeatherLayer.snowPool w
          \/ WeatherLayer.snowPool w' = []
          \/ exists created,
              Forall2 (WeatherLayer.snowStep 400) (WeatherLayer.snowPool w ++ created)
                (WeatherLayer.snowPool w'))).
Proof.
  split; cbv zeta.
  - split.
    + split; [exact scenario_second_tick|]. split; vm_compute; reflexivity.
    + exact (particles_keep_their_home_zone
               Scenario.entropy Scenario.Math_sin Scenario.Math_PI
               (Scenario.env WeatherLayer.Setting.high) 5 6
               Scenario.afterFrame Scenario.afterSecondFrame scenario_second_tick).
  - split.
    + split; [exact coast_second_tick|]. repeat split; vm_compute; reflexivity.
    + exact (particles_keep_their_home_zone
               Scenario.entropy Scenario.Math_sin Scenario.Math_PI
               Scenario.coastEnv 5 400
               Scenario.coastAfterFrame Scenario.coastAfterSecondFrame coast_second_tick).
Defined.

Lemma none_preset_teardown_is_the_watchers_witness :
  WeatherLayer.Env.weather (Scenario.env WeatherLayer.Setting.none)
  = Some WeatherLayer.Setting.none
  /\ WeatherLayer.tick Scenario.entropy Scenario.Math_sin Scenario.Math_PI
       (Scenario.env WeatherLayer.Setting.none) 5 1 Scenario.afterFrame
     = Some (WeatherLayer.exec WeatherLayer.setupContainers Scenario.afterFrame).
Proof.
  split; [reflexivity|].
  exact (proj1 (proj1 (none_preset_teardown_is_the_watchers
                         Scenario.entropy Scenario.Math_sin Scenario.Math_PI
                         (Scenario.env WeatherLayer.Setting.none) 5 1
                         Scenario.afterFrame eq_refl))).
Defined.

(** C5, refuted as stated.  After a first frame at the preset high over a
    map whose grid has a storm zone, the pool holds 140 rain particles and
    the overlay and a lightning node exist.  With the preset then none, one
    more frame leaves all of them in place; and when the watcher has run
    before that frame, the storm overlay node still exists afterwards. *)
Lemma none_preset_frame_tears_nothing_down :
  let none := Scenario.env WeatherLayer.Setting.none in
  let tick := WeatherLayer.tick Scenario.entropy Scenario.Math_sin Scenario.Math_PI none 5 1 in
  WeatherLayer.allZero (WeatherLayer.getWeatherLevel none) = true
  /\ WeatherGrid.cellAt (WeatherLayer.weatherGrid Scenario.afterFrame) 0 3
     = Some WeatherGrid.storm
  /\ (exists w',
        tick Scenario.afterFrame = Some w'
        /\ List.length (WeatherLayer.rainPool w') = 140%nat
        /\ WeatherLayer.stormOverlay w' = Some 142%nat
        /\ WeatherLayer.lightningGraphics w' = Some 143%nat)
  /\ (exists w',
        tick (WeatherLayer.exec (WeatherLayer.watchLevel none) Scenario.afterFrame) = Some w'
        /\ WeatherLayer.stormOverlay w' = Some 142%nat
        /\ WeatherLayer.DisplayObject.destroyed (WeatherLayer.nodes w' 142%nat) = false).
Proof.
  cbv zeta. split; [reflexivity|]. split; [vm_compute; reflexivity|]. split.
  - eexists. split; [apply tick_all_zero; reflexivity|].
    vm_compute. repeat split.
  - eexists. split; [apply tick_all_zero; reflexivity|].
    vm_compute. repeat split.
Qed.

(** C2, refuted as stated.  The rain pool holds 140 particles after the
    first frame; a reconcile call with the single zone (0, 0) and the
    maximum 320 has the target min(320, 1 * 35) = 35 and leaves the 140
    particles in the pool. *)
Lemma reconcile_pool_exceeds_target :
  let w' :=
    WeatherLayer.exec
      (WeatherLayer.reconcile Scenario.entropy Scenario.Math_PI
         (Scenario.env WeatherLayer.Setting.high) WeatherLayer.Kind.rain
         [WeatherGrid.zoneAt 0 0] 320)
      Scenario.afterFrame in
  WeatherLayer.poolSize WeatherLayer.Kind.rain w' = 140%Z
  /\ Z.min 320 (WeatherLayer.len [WeatherGrid.zoneAt 0 0]
                * WeatherLayer.density WeatherLayer.Kind.rain) = 35%Z
  /\ ~ (WeatherLayer.poolSize WeatherLayer.Kind.rain w'
        <= Z.min 320 (WeatherLayer.len [WeatherGrid.zoneAt 0 0]
                      * WeatherLayer.density WeatherLayer.Kind.rain))%Z.
Proof.
  cbv zeta.
  assert (E : WeatherLayer.poolSize WeatherLayer.Kind.rain
                (WeatherLayer.exec
                   (WeatherLayer.reconcile Scenario.entropy Scenario.Math_PI
                      (Scenario.env WeatherLayer.Setting.high) WeatherLayer.Kind.rain
                      [WeatherGrid.zoneAt 0 0] 320)
                   Scenario.afterFrame) = 140%Z) by (vm_compute; reflexivity).
  rewrite E. split; [reflexivity|]. split; [reflexivity|]. vm_compute. intros H. apply H. reflexivity.
Qed.

Lemma reconcile_keeps_pool_when_target_not_above_witness :
  let zones := [WeatherGrid.zoneAt 0 0] in
  (zones <> []
   /\ (WeatherLayer.target WeatherLayer.Kind.rain zones 320
       <= WeatherLayer.poolSize WeatherLayer.Kind.rain Scenario.afterFrame)%Z)
  /\ WeatherLayer.exec
       (WeatherLayer.reconcile Scenario.entropy Scenario.Math_PI
          (Scenario.env WeatherLayer.Setting.high) WeatherLayer.Kind.rain zones 320)
       Scenario.afterFrame
     = Scenario.afterFrame.
Proof.
  cbv zeta.
  assert (Hz : [WeatherGrid.zoneAt 0 0] <> []) by discriminate.
  assert (Hle : (WeatherLayer.target WeatherLayer.Kind.rain [WeatherGrid.zoneAt 0 0] 320
                 <= WeatherLayer.poolSize WeatherLayer.Kind.rain Scenario.afterFrame)%Z)
    by (vm_compute; discriminate).
  split; [split; assumption|].
  exact (proj1 (reconcile_keeps_pool_when_target_not_above
                  Scenario.entropy Scenario.Math_PI (Scenario.env WeatherLayer.Setting.high)
                  WeatherLayer.Kind.rain [WeatherGrid.zoneAt 0 0] 320 Scenario.afterFrame
                  Hz Hle)).
Defined.

(** C10, refuted as stated.  In the first frame after a long pause
    (deltaTime 6) the rain particle with display object 10, created in the
    zone with top edge 0 and height 512, passes the lower bound and is
    reset to y = -10: above its home zone, not inside it.  The same step on
    a particle given in full: at y = 530 with speed 4 in the zone from 0 to
    512, one frame (deltaTime 1) gives 534 > 532 and resets it to -10. *)
Lemma recycled_rain_particle_is_above_its_zone :
  (match find (fun p => Nat.eqb (WeatherLayer.RainParticle.g p) 10)
           (WeatherLayer.rainPool Scenario.afterLongFrame) with
   | Some p =>
       WeatherLayer.RainParticle.zoneY p == 0
       /\ WeatherLayer.RainParticle.zoneH p == 512
       /\ WeatherLayer.RainParticle.y p == - (10)
       /\ WeatherLayer.RainParticle.y p < WeatherLayer.RainParticle.zoneY p
   | None => False
   end)%Q
  /\ (let p := {| WeatherLayer.RainParticle.g := 10%nat;
                  WeatherLayer.RainParticle.x := 100;
                  WeatherLayer.RainParticle.y := 530;
                  WeatherLayer.RainParticle.vx := 0;
                  WeatherLayer.RainParticle.vy := 4;
                  WeatherLayer.RainParticle.zoneX := 0;
                  WeatherLayer.RainParticle.zoneY := 0;
                  WeatherLayer.RainParticle.zoneW := 512;
                  WeatherLayer.RainParticle.zoneH := 512 |} in
      let p' := fst (WeatherLayer.moveRain Scenario.entropy 1 p Scenario.mounted) in
      WeatherLayer.RainParticle.zoneY p' = WeatherLayer.RainParticle.zoneY p
      /\ WeatherLayer.RainParticle.y p' == - (10)
      /\ ~ WeatherLayer.RainParticle.zoneY p' <= WeatherLayer.RainParticle.y p')%Q.
Proof.
  split.
  - vm_compute. repeat split.
  - cbv zeta. split; [reflexivity|]. split; [vm_compute; reflexivity|].
    vm_compute. intros H. apply H. reflexivity.
Qed.

Section LightningSteps.
Import WeatherLayer.
Local Open Scope Q_scope.
Variable dt : Q.
Variable g : Handle.

Ltac step_update Hg Hp :=
  unfold updateLightning, exec, bind, get, modify, onNode, destroy, onNode, modify, ret;
  cbn [fst snd]; rewrite Hg; cbn [fst snd]; rewrite Hp; cbv zeta; cbn [fst snd].

Lemma Qle_bool_false (a b : Q) : b < a -> Qle_bool a b = false.
Proof.
  intros H. destruct (Qle_bool a b) eqn:E; [|reflexivity].
  apply Qle_bool_iff in E. lra.
Qed.

Lemma Qle_bool_true (a b : Q) : a <= b -> Qle_bool a b = true.
Proof. intros H. apply Qle_bool_iff, H. Qed.

(** The doubles the literals of [updateLightning] and [triggerLightning]
    denote. *)
Lemma double_0_15 : JsNumber.double 0.15 = 5404319552844595 # 36028797018963968.
Proof. vm_compute. reflexivity. Qed.

Lemma double_0_65 : JsNumber.double 0.65 = 5854679515581645 # 9007199254740992.
Proof. vm_compute. reflexivity. Qed.

Lemma double_0_92 : JsNumber.double 0.92 = 8286623314361713 # 9007199254740992.
Proof. vm_compute. reflexivity. Qed.

Lemma first_stay w :
  flashing g Phase.first w -> 0.25 < (lightningAlpha w - dt * 7)%js ->
  flashing g Phase.first (exec (updateLightning dt) w)
  /\ lightningAlpha (exec (updateLightning dt) w) = (lightningAlpha w - dt * 7)%js.
Proof.
  intros (Hg & Hp & Ha & Hd) Hs. step_update Hg Hp.
  rewrite (Qle_bool_false _ _ Hs).
  cbn [fst snd lightningAlpha set_lightningAlpha set_nodes].
  rewrite (Qle_bool_false (lightningAlpha w - dt * 7)%js 0) by lra.
  unfold flashing, update.
  cbn [fst snd ret lightningAlpha set_lightningAlpha set_nodes lightningGraphics
       lightningPhase nodes].
  rewrite Nat.eqb_refl. repeat split; try assumption. lra.
Qed.

Lemma first_leave w :
  flashing g Phase.first w -> (lightningAlpha w - dt * 7)%js <= 0.25 ->
  flashing g Phase.dim (exec (updateLightning dt) w)
  /\ lightningAlpha (exec (updateLightning dt) w) = 0.25.
Proof.
  intros (Hg & Hp & Ha & Hd) Hs. step_update Hg Hp.
  rewrite (Qle_bool_true _ _ Hs).
  unfold flashing, update.
  cbn [fst snd ret lightningAlpha set_lightningAlpha set_lightningPhase set_nodes
       lightningGraphics lightningPhase nodes Qle_bool Qnum Qden].
  cbn. rewrite Nat.eqb_refl. repeat split; try assumption.
Qed.

Lemma dim_stay w :
  flashing g Phase.dim w -> JsNumber.double 0.15 < (lightningAlpha w - dt * 2)%js ->
  flashing g Phase.dim (exec (updateLightning dt) w)
  /\ lightningAlpha (exec (updateLightning dt) w) = (lightningAlpha w - dt * 2)%js.
Proof.
  intros (Hg & Hp & Ha & Hd) Hs. step_update Hg Hp.
  rewrite (Qle_bool_false _ _ Hs). rewrite double_0_15 in Hs.
  cbn [fst snd lightningAlpha set_lightningAlpha set_nodes].
  rewrite (Qle_bool_false (lightningAlpha w - dt * 2)%js 0) by lra.
  unfold flashing, update.
  cbn [fst snd ret lightningAlpha set_lightningAlpha set_nodes lightningGraphics
       lightningPhase nodes].
  rewrite Nat.eqb_refl. repeat split; try assumption. lra.
Qed.

Lemma dim_leave w :
  flashing g Phase.dim w -> (lightningAlpha w - dt * 2)%js <= JsNumber.double 0.15 ->
  flashing g Phase.second (exec (updateLightning dt) w)
  /\ lightningAlpha (exec (updateLightning dt) w) = JsNumber.double 0.65.
Proof.
  intros (Hg & Hp & Ha & Hd) Hs. step_update Hg Hp.
  rewrite (Qle_bool_true _ _ Hs).
  unfold flashing, update.
  cbn [fst snd ret lightningAlpha set_lightningAlpha set_lightningPhase set_nodes
       lightningGraphics lightningPhase nodes].
  rewrite double_0_65.
  cbn [fst snd ret lightningAlpha set_lightningAlpha set_lightningPhase set_nodes
       lightningGraphics lightningPhase nodes Qle_bool Qnum Qden Z.mul Pos.mul Z.leb
       Z.compare].
  rewrite Nat.eqb_refl. repeat split; try assumption.
Qed.

Lemma second_stay w :
  flashing g Phase.second w -> 0 < (lightningAlpha w - dt * 7)%js ->
  flashing g Phase.second (exec (updateLightning dt) w)
  /\ lightningAlpha (exec (updateLightning dt) w) = (lightningAlpha w - dt * 7)%js.
Proof.
  intros (Hg & Hp & Ha & Hd) Hs. step_update Hg Hp.
  cbn [fst snd lightningAlpha set_lightningAlpha set_nodes].
  rewrite !(Qle_bool_false _ _ Hs).
  unfold flashing, update.
  cbn [fst snd ret lightningAlpha set_lightningAlpha set_nodes lightningGraphics
       lightningPhase nodes].
  rewrite (Qle_bool_false _ _ Hs).
  cbn [fst snd ret lightningAlpha set_lightningAlpha set_nodes lightningGraphics
       lightningPhase nodes].
  rewrite Nat.eqb_refl. repeat split; try assumption.
Qed.

Lemma second_leave w :
  flashing g Phase.second w -> (lightningAlpha w - dt * 7)%js <= 0 ->
  faded g (exec (updateLightning dt) w).
Proof.
  intros (Hg & Hp & Ha & Hd) Hs. step_update Hg Hp.
  cbn [fst snd lightningAlpha set_lightningAlpha set_nodes].
  rewrite !(Qle_bool_true _ _ Hs).
  unfold faded, update.
  cbn [fst snd ret lightningAlpha set_lightningAlpha set_lightningPhase set_nodes
       set_lightningGraphics lightningGraphics lightningPhase nodes].
  rewrite (Qle_bool_true _ _ Hs).
  cbn [fst snd ret lightningAlpha set_lightningAlpha set_lightningPhase set_nodes
       set_lightningGraphics lightningGraphics lightningPhase nodes].
  rewrite Nat.eqb_refl. repeat split; try assumption.
Qed.

Lemma faded_stay w : faded g w -> exec (updateLightning dt) w = w.
Proof.
  intros (Hg & _). unfold updateLightning, exec, bind, get. cbn [fst snd].
  rewrite Hg. reflexivity.
Qed.

Lemma decay_S_inner n w : decay dt (S n) w = decay dt n (exec (updateLightning dt) w).
Proof.
  induction n as [|n IH]; [reflexivity|].
  change (decay dt (S (S n)) w) with (exec (updateLightning dt) (decay dt (S n) w)).
  rewrite IH. reflexivity.
Qed.

Lemma decay_add n m w : decay dt (n + m) w = decay dt n (decay dt m w).
Proof.
  induction n as [|n IH]; [reflexivity|]. cbn [Nat.add decay]. rewrite IH. reflexivity.
Qed.

Lemma decay_faded n w : faded g w -> decay dt n w = w.
Proof.
  intros H. induction n as [|n IH]; [reflexivity|].
  cbn [decay]. rewrite IH. apply faded_stay, H.
Qed.

(** A phase in which every frame subtracts [rate] from the opacity until
    the result is [floor] or less, and in which a subtraction takes off
    at least [drop], is left after finitely many frames, and not before. *)
Section Run.
Variable Within Next : World -> Prop.
Variable rate floor drop : Q.
Hypothesis stay :
  forall w, Within w -> floor < (lightningAlpha w - rate)%js ->
    Within (exec (updateLightning dt) w)
    /\ lightningAlpha (exec (updateLightning dt) w) = (lightningAlpha w - rate)%js.
Hypothesis leave :
  forall w, Within w -> (lightningAlpha w - rate)%js <= floor ->
    Next (exec (updateLightning dt) w).
Hypothesis falls :
  forall w, Within w -> (lightningAlpha w - rate)%js <= lightningAlpha w - drop.

Lemma run_bounded (n : nat) :
  forall w, Within w ->
    lightningAlpha w - inject_Z (Z.of_nat n) * drop <= floor ->
    0 < drop ->
    exists a, (1 <= a)%nat
      /\ (forall j, (j < a)%nat -> Within (decay dt j w))
      /\ Next (decay dt a w).
Proof.
  induction n as [|n IH]; intros w Hin Hb Hr.
  - exists 1%nat. split; [lia|]. split.
    + intros j Hj. replace j with 0%nat by lia. exact Hin.
    + apply leave; [exact Hin|]. pose proof (falls w Hin) as Hf.
      change (inject_Z (Z.of_nat 0)) with 0 in Hb. lra.
  - destruct (Qlt_le_dec floor (lightningAlpha w - rate)%js) as [Hs | Hl].
    + destruct (stay w Hin Hs) as [Hin' Ha'].
      destruct (IH (exec (updateLightning dt) w) Hin') as (a & Ha & Hbefore & Hat).
      * rewrite Ha'. pose proof (falls w Hin) as Hf.
        rewrite Nat2Z.inj_succ, <- Z.add_1_r, inject_Z_plus in Hb.
        change (inject_Z 1) with 1 in Hb. lra.
      * exact Hr.
      * exists (S a). split; [lia|]. split.
        -- intros [|j] Hj; [exact Hin|]. rewrite decay_S_inner. apply Hbefore. lia.
        -- rewrite decay_S_inner. exact Hat.
    + exists 1%nat. split; [lia|]. split.
      * intros j Hj. replace j with 0%nat by lia. exact Hin.
      * apply leave; assumption.
Qed.

Lemma enough_frames (x : Q) :
  0 < drop -> exists n : nat, x - inject_Z (Z.of_nat n) * drop <= floor.
Proof.
  intros Hr.
  exists (Z.to_nat (Qceiling ((x - floor) / drop))).
  pose proof (Qle_ceiling ((x - floor) / drop)) as Hc.
  assert (Hn : inject_Z (Qceiling ((x - floor) / drop))
               <= inject_Z (Z.of_nat (Z.to_nat (Qceiling ((x - floor) / drop))))).
  { rewrite <- Zle_Qle. lia. }
  assert (Hm : (x - floor) / drop * drop
               <= inject_Z (Z.of_nat (Z.to_nat (Qceiling ((x - floor) / drop)))) * drop).
  { apply Qmult_le_compat_r; lra. }
  assert (He : (x - floor) / drop * drop == x - floor) by (field; lra).
  lra.
Qed.

Lemma run :
  0 < drop ->
  forall w, Within w ->
    exists a, (1 <= a)%nat
      /\ (forall j, (j < a)%nat -> Within (decay dt j w))
      /\ Next (decay dt a w).
Proof.
  intros Hr w Hin. destruct (enough_frames (lightningAlpha w) Hr) as [n Hn].
  exact (run_bounded n w Hin Hn Hr).
Qed.
End Run.

(** A frame delta of [2^-56] or more is not lost in the subtractions: at
    the fast rate an opacity of at most one falls by [3 * 2^-56] at least,
    and at the slow rate an opacity of at most a quarter by [2^-56]. *)
Lemma rate_lower (k : Z) :
  2 ^ (-56) <= dt -> (1 <= k < 2 ^ 53)%Z -> inject_Z k * 2 ^ (-56) <= (dt * inject_Z k)%js.
Proof.
  intros Hdt Hk. apply double_le_l.
  - apply (double_exact _ k (-56)); [lia|lia|reflexivity].
  - assert (1 <= inject_Z k) by (rewrite Zle_Qle in Hk; apply Hk).
    change (2 ^ (-56)) with (1 # 72057594037927936) in *. nra.
Qed.

Lemma fast_falls (a : Q) :
  2 ^ (-56) <= dt -> 0 < a -> a <= 1 -> (a - dt * 7)%js <= a - 2 ^ (-56).
Proof.
  intros Hdt A0 A1. pose proof (rate_lower 7 Hdt ltac:(lia)) as Hr.
  pose proof (minus_drops a (dt * 7)%js (inject_Z 7 * 2 ^ (-56)) (-1) ltac:(lia)) as Hm.
  change (inject_Z 7) with 7 in *.
  change (2 ^ (-56)) with (1 # 72057594037927936) in *.
  change (2 ^ (-1 + 1)) with 1 in Hm.
  change (2 ^ (-1 - 53)) with (1 # 18014398509481984) in Hm.
  assert (H : (a - dt * 7)%js
              <= a - 7 * (1 # 72057594037927936) + (1 # 18014398509481984))
    by (apply Hm; lra).
  lra.
Qed.

Lemma slow_falls (a : Q) :
  2 ^ (-56) <= dt -> 0 < a -> a <= 0.25 -> (a - dt * 2)%js <= a - 2 ^ (-56).
Proof.
  intros Hdt A0 A1. pose proof (rate_lower 2 Hdt ltac:(lia)) as Hr.
  pose proof (minus_drops a (dt * 2)%js (inject_Z 2 * 2 ^ (-56)) (-3) ltac:(lia)) as Hm.
  change (inject_Z 2) with 2 in *.
  change (2 ^ (-56)) with (1 # 72057594037927936) in *.
  change (2 ^ (-3 + 1)) with (1 # 4) in Hm.
  change (2 ^ (-3 - 53)) with (1 # 72057594037927936) in Hm.
  assert (H : (a - dt * 2)%js
              <= a - 2 * (1 # 72057594037927936) + (1 # 72057594037927936))
    by (apply Hm; lra).
  lra.
Qed.

Lemma bright_first_stay w :
  2 ^ (-56) <= dt ->
  bright g Phase.first 1 w -> 0.25 < (lightningAlpha w - dt * 7)%js ->
  bright g Phase.first 1 (exec (updateLightning dt) w)
  /\ lightningAlpha (exec (updateLightning dt) w) = (lightningAlpha w - dt * 7)%js.
Proof.
  intros Hdt [Hf H1] Hs. destruct (first_stay w Hf Hs) as [Hf' Ha].
  split; [split; [exact Hf'|] | exact Ha].
  rewrite Ha. pose proof (fast_falls (lightningAlpha w) Hdt ltac:(apply Hf) H1) as Hr.
  change (2 ^ (-56)) with (1 # 72057594037927936) in Hr. lra.
Qed.

Lemma bright_dim_stay w :
  2 ^ (-56) <= dt ->
  bright g Phase.dim 0.25 w -> JsNumber.double 0.15 < (lightningAlpha w - dt * 2)%js ->
  bright g Phase.dim 0.25 (exec (updateLightning dt) w)
  /\ lightningAlpha (exec (updateLightning dt) w) = (lightningAlpha w - dt * 2)%js.
Proof.
  intros Hdt [Hf H1] Hs. destruct (dim_stay w Hf Hs) as [Hf' Ha].
  split; [split; [exact Hf'|] | exact Ha].
  rewrite Ha. pose proof (slow_falls (lightningAlpha w) Hdt ltac:(apply Hf) H1) as Hr.
  change (2 ^ (-56)) with (1 # 72057594037927936) in Hr. lra.
Qed.

Lemma bright_second_stay w :
  2 ^ (-56) <= dt ->
  bright g Phase.second 1 w -> 0 < (lightningAlpha w - dt * 7)%js ->
  bright g Phase.second 1 (exec (updateLightning dt) w)
  /\ lightningAlpha (exec (updateLightning dt) w) = (lightningAlpha w - dt * 7)%js.
Proof.
  intros Hdt [Hf H1] Hs. destruct (second_stay w Hf Hs) as [Hf' Ha].
  split; [split; [exact Hf'|] | exact Ha].
  rewrite Ha. pose proof (fast_falls (lightningAlpha w) Hdt ltac:(apply Hf) H1) as Hr.
  change (2 ^ (-56)) with (1 # 72057594037927936) in Hr. lra.
Qed.

Lemma bright_first_leave w :
  bright g Phase.first 1 w -> (lightningAlpha w - dt * 7)%js <= 0.25 ->
  bright g Phase.dim 0.25 (exec (updateLightning dt) w).
Proof.
  intros [Hf _] Hs. destruct (first_leave w Hf Hs) as [Hf' Ha].
  split; [exact Hf'|]. rewrite Ha. lra.
Qed.

Lemma bright_dim_leave w :
  bright g Phase.dim 0.25 w -> (lightningAlpha w - dt * 2)%js <= JsNumber.double 0.15 ->
  bright g Phase.second 1 (exec (updateLightning dt) w).
Proof.
  intros [Hf _] Hs. destruct (dim_leave w Hf Hs) as [Hf' Ha].
  split; [exact Hf'|]. rewrite Ha, double_0_65. lra.
Qed.

Lemma bright_second_leave w :
  bright g Phase.second 1 w -> (lightningAlpha w - dt * 7)%js <= 0 ->
  faded g (exec (updateLightning dt) w).
Proof. intros [Hf _] Hs. exact (second_leave w Hf Hs). Qed.

Lemma bright_fast_falls (ph : Phase.t) w :
  2 ^ (-56) <= dt -> bright g ph 1 w ->
  (lightningAlpha w - dt * 7)%js <= lightningAlpha w - 2 ^ (-56).
Proof. intros Hdt [Hf H1]. apply fast_falls; try assumption. apply Hf. Qed.

Lemma bright_slow_falls (ph : Phase.t) w :
  2 ^ (-56) <= dt -> bright g ph 0.25 w ->
  (lightningAlpha w - dt * 2)%js <= lightningAlpha w - 2 ^ (-56).
Proof. intros Hdt [Hf H1]. apply slow_falls; try assumption. apply Hf. Qed.

(** A frame delta of [2^-57] is lost in the subtraction from the opacity
    0.92: the flash stays in its first phase. *)
Lemma first_forever w (n : nat) :
  dt = 1 # 144115188075855872 ->
  flashing g Phase.first w -> lightningAlpha w = JsNumber.double 0.92 ->
  flashing g Phase.first (decay dt n w)
  /\ lightningAlpha (decay dt n w) = JsNumber.double 0.92.
Proof.
  intros Hdt Hf Ha. induction n as [|n [IHf IHa]]; [split; assumption|].
  cbn [decay].
  assert (Hk : (JsNumber.double 0.92 - (1 # 144115188075855872) * 7)%js
               = JsNumber.double 0.92) by (vm_compute; reflexivity).
  destruct (first_stay (decay dt n w) IHf) as [Hf' Ha'].
  - rewrite IHa, Hdt, Hk, double_0_92. reflexivity.
  - split; [exact Hf'|]. rewrite Ha', IHa, Hdt. exact Hk.
Qed.
End LightningSteps.

Section LightningClaim.
Import WeatherLayer.
Local Open Scope Q_scope.
Variable entropy : nat -> Q.

(** A trigger that takes place leaves a fresh node, the opacity 0.92 and
    the phase first. *)
Lemma triggerLightning_flash fuel zs w w0 c :
  container w = Some c ->
  zs <> [] ->
  triggerLightning entropy fuel zs w = Some w0 ->
  exists g, flashing g Phase.first w0 /\ lightningAlpha w0 = JsNumber.double 0.92.
Proof.
  intros Hc Hz. unfold triggerLightning. rewrite Hc.
  replace (len zs =? 0)%Z with false
    by (symmetry; apply Z.eqb_neq; destruct zs; [contradiction | unfold len; cbn; lia]).
  lazy zeta.
  match goal with
  | |- match pickIndices _ _ _ _ _ ?w1 with _ => _ end = _ -> _ =>
      set (wn := w1);
      destruct (pickIndices entropy fuel (Nat.min 2 (List.length zs)) (len zs) [] wn)
        as [[r w2]|] eqn:Hp; [|discriminate]
  end.
  intros H; injection H as <-.
  match type of wn with
  | _ => pose (g := next (match lightningGraphics w with
                          | Some old => exec (removeChild c old;; destroy old) w
                          | None => w
                          end))
  end.
  assert (Hg : lightningGraphics w2 = Some g).
  { rewrite (pickIndices_drawn entropy lightningGraphics ltac:(frame_side) _ _ _ _ _ _ _ Hp).
    reflexivity. }
  assert (Hn : nodes w2 g = DisplayObject.create DisplayObject.Graphics).
  { rewrite (pickIndices_drawn entropy (fun w => nodes w g) ltac:(frame_side)
               _ _ _ _ _ _ _ Hp).
    subst wn. unfold exec, bind, new, modify, update. cbn [fst snd nodes set_nodes
      set_next set_lightningGraphics].
    fold g. rewrite Nat.eqb_refl. reflexivity. }
  exists g. unfold flashing, exec, bind, get, modify, addChild, onNode, modify, update.
  cbn [fst snd]. rewrite Hg.
  cbn [fst snd lightningGraphics lightningPhase lightningAlpha nodes set_nodes
       set_lightningAlpha set_lightningPhase set_thunder].
  rewrite Nat.eqb_refl, Hn. repeat split. exact Hg.
Qed.

Lemma pickIndices_done fuel count n indices w :
  (List.length indices <? count)%nat = false ->
  pickIndices entropy fuel count n indices w = Some (indices, w).
Proof. intros H. destruct fuel; cbn [pickIndices]; rewrite H; reflexivity. Qed.

(** With a single storm zone one draw is enough: the trigger returns. *)
Lemma triggerLightning_returns_single_zone fuel z w :
  exists w0, triggerLightning entropy (S fuel) [z] w = Some w0.
Proof.
  unfold triggerLightning. destruct (container w) as [c|]; [|eexists; reflexivity].
  cbn [len List.length Z.of_nat Z.eqb Pos.of_succ_nat Nat.min pickIndices Nat.ltb
       Nat.leb]. lazy zeta.
  rewrite pickIndices_done by reflexivity.
  eexists. reflexivity.
Qed.

(** C3, as the code has it.  After a trigger (phase first, opacity the
    double 0.92, a fresh node), stepping [updateLightning] with a fixed
    delta of [2^-56] or more keeps the phase first for the frames before
    some [a >= 1], dim from [a] to before some [b > a], second from [b] to
    before some [c > b], and out from [c] on; the node exists and is not
    destroyed before frame [c], and it is destroyed at frame [c], which is
    the first frame at which the opacity is zero or less. *)
Theorem lightning_phases_in_order
  (fuel : nat) (stormZones : list WeatherGrid.Zone.t) (w w0 : World) (dt : Q) :
  container w <> None ->
  stormZones <> [] ->
  triggerLightning entropy fuel stormZones w = Some w0 ->
  2 ^ (-56) <= dt ->
  lightningPhase w0 = Phase.first
  /\ lightningAlpha w0 = JsNumber.double 0.92
  /\ exists (g : Handle) (a b c : nat),
      lightningGraphics w0 = Some g
      /\ (1 <= a)%nat /\ (a < b)%nat /\ (b < c)%nat
      /\ forall n : nat,
          let wn := decay dt n w0 in
          lightningPhase wn
          = (if (n <? a)%nat then Phase.first
             else if (n <? b)%nat then Phase.dim
                  else if (n <? c)%nat then Phase.second else Phase.out)
          /\ lightningGraphics wn = (if (n <? c)%nat then Some g else None)
          /\ (DisplayObject.destroyed (nodes wn g) = true <-> (c <= n)%nat)
          /\ (lightningAlpha wn <= 0 <-> (c <= n)%nat).
Proof.
  intros Hc Hz Ht Hdt.
  destruct (container w) as [cn|] eqn:Hcn; [clear Hc | contradiction].
  destruct (triggerLightning_flash fuel stormZones w w0 cn Hcn Hz Ht) as (g & Hf & Ha0).
  split; [apply Hf|]. split; [exact Ha0|].
  assert (Hdrop : 0 < 2 ^ (-56)) by reflexivity.
  assert (Hb0 : bright g Phase.first 1 w0).
  { split; [exact Hf|]. rewrite Ha0, double_0_92. lra. }
  (* first *)
  destruct (run dt (bright g Phase.first 1) (bright g Phase.dim 0.25)
              (dt * 7)%js 0.25 (2 ^ (-56))
              (fun w => bright_first_stay dt g w Hdt) (bright_first_leave dt g)
              (fun w => bright_fast_falls dt g Phase.first w Hdt)
              Hdrop w0 Hb0) as (a & Ha & Hfirst & Hdim).
  (* dim *)
  destruct (run dt (bright g Phase.dim 0.25) (bright g Phase.second 1)
              (dt * 2)%js (JsNumber.double 0.15) (2 ^ (-56))
              (fun w => bright_dim_stay dt g w Hdt) (bright_dim_leave dt g)
              (fun w => bright_slow_falls dt g Phase.dim w Hdt)
              Hdrop (decay dt a w0) Hdim) as (b' & Hb' & Hdims & Hsec).
  (* second *)
  destruct (run dt (bright g Phase.second 1) (faded g)
              (dt * 7)%js 0 (2 ^ (-56))
              (fun w => bright_second_stay dt g w Hdt) (bright_second_leave dt g)
              (fun w => bright_fast_falls dt g Phase.second w Hdt)
              Hdrop (decay dt b' (decay dt a w0)) Hsec) as (c' & Hc' & Hsecs & Hout).
  exists g, a, (b' + a)%nat, (c' + (b' + a))%nat.
  split; [apply Hf|]. split; [exact Ha|]. split; [lia|]. split; [lia|].
  intros n wn. subst wn.
  destruct (n <? a)%nat eqn:E1.
  { apply Nat.ltb_lt in E1.
    replace (n <? c' + (b' + a))%nat with true by (symmetry; apply Nat.ltb_lt; lia).
    destruct (Hfirst n E1) as ((Hg & Hp & Hpos & Hd) & _).
    repeat split; try assumption; try (intros; lia).
    - rewrite Hd. discriminate.
    - intros Hle. lra. }
  apply Nat.ltb_ge in E1.
  destruct (n <? b' + a)%nat eqn:E2.
  { apply Nat.ltb_lt in E2.
    replace (n <? c' + (b' + a))%nat with true by (symmetry; apply Nat.ltb_lt; lia).
    assert (En : decay dt n w0 = decay dt (n - a) (decay dt a w0))
      by (rewrite <- decay_add; f_equal; lia).
    rewrite En.
    destruct (Hdims (n - a)%nat ltac:(lia)) as ((Hg & Hp & Hpos & Hd) & _).
    repeat split; try assumption; try (intros; lia).
    - rewrite Hd. discriminate.
    - intros Hle. lra. }
  apply Nat.ltb_ge in E2.
  destruct (n <? c' + (b' + a))%nat eqn:E3.
  { apply Nat.ltb_lt in E3.
    assert (En : decay dt n w0
                 = decay dt (n - (b' + a)) (decay dt b' (decay dt a w0)))
      by (rewrite <- !decay_add; f_equal; lia).
    rewrite En.
    destruct (Hsecs (n - (b' + a))%nat ltac:(lia)) as ((Hg & Hp & Hpos & Hd) & _).
    repeat split; try assumption; try (intros; lia).
    - rewrite Hd. discriminate.
    - intros Hle. lra. }
  apply Nat.ltb_ge in E3.
  assert (En : decay dt n w0
               = decay dt (n - (c' + (b' + a)))
                   (decay dt c' (decay dt b' (decay dt a w0))))
    by (rewrite <- !decay_add; f_equal; lia).
  rewrite En, (decay_faded dt g _ _ Hout).
  destruct Hout as (Hg & Hp & Hneg & Hd).
  repeat split; intros; try assumption; lia.
Qed.
End LightningClaim.

Section ScenarioFlash.
Import WeatherLayer.

Lemma scenario_flash :
  triggerLightning Scenario.entropy 5 [WeatherGrid.zoneAt 3 0] Scenario.mounted
  = Some Scenario.flash.
Proof.
  unfold Scenario.flash.
  destruct (triggerLightning _ _ _ _) as [w|] eqn:E; [reflexivity|].
  exfalso.
  assert (H : match triggerLightning Scenario.entropy 5 [WeatherGrid.zoneAt 3 0]
                      Scenario.mounted with
              | Some _ => true
              | None => false
              end = true) by (vm_compute; reflexivity).
  rewrite E in H. discriminate H.
Qed.

(** With a delta of one frame unit the flash takes three frames. *)
Lemma flash_frames_at_unit_delta :
  map (fun n => lightningPhase (decay 1 n Scenario.flash)) [0; 1; 2; 3; 4]%nat
  = [Phase.first; Phase.dim; Phase.second; Phase.out; Phase.out].
Proof. vm_compute. reflexivity. Qed.
End ScenarioFlash.

Lemma lightning_phases_in_order_witness :
  (WeatherLayer.container Scenario.mounted <> None
   /\ [WeatherGrid.zoneAt 3 0] <> []
   /\ WeatherLayer.triggerLightning Scenario.entropy 5 [WeatherGrid.zoneAt 3 0]
        Scenario.mounted = Some Scenario.flash
   /\ (2 ^ (-56) <= 1)%Q)
  /\ WeatherLayer.lightningPhase Scenario.flash = WeatherLayer.Phase.first.
Proof.
  assert (Hc : WeatherLayer.container Scenario.mounted <> None)
    by (vm_compute; discriminate).
  assert (Hz : [WeatherGrid.zoneAt 3 0] <> []) by discriminate.
  assert (Hd : (2 ^ (-56) <= 1)%Q) by (vm_compute; discriminate).
  split; [repeat split; try assumption; exact scenario_flash|].
  exact (proj1 (lightning_phases_in_order Scenario.entropy 5 [WeatherGrid.zoneAt 3 0]
                  Scenario.mounted Scenario.flash 1 Hc Hz scenario_flash Hd)).
Defined.

(** C3, refuted as stated.  With the positive delta [2^-57] the
    subtraction [lightningAlpha -= dt * decay] leaves the opacity at the
    double 0.92 it starts from: after a trigger over the storm zone of the
    scenario the phase is first at every frame, and never dim. *)
Lemma lightning_stays_first_at_tiny_delta :
  WeatherLayer.container Scenario.mounted <> None
  /\ WeatherLayer.triggerLightning Scenario.entropy 5 [WeatherGrid.zoneAt 3 0]
       Scenario.mounted = Some Scenario.flash
  /\ (0 < 1 # 144115188075855872)%Q
  /\ (forall n : nat,
        WeatherLayer.lightningPhase
          (WeatherLayer.decay (1 # 144115188075855872) n Scenario.flash)
        = WeatherLayer.Phase.first)
  /\ ~ (exists n : nat,
          WeatherLayer.lightningPhase
            (WeatherLayer.decay (1 # 144115188075855872) n Scenario.flash)
          = WeatherLayer.Phase.dim).
Proof.
  assert (Hc : WeatherLayer.container Scenario.mounted = Some 0%nat)
    by (vm_compute; reflexivity).
  destruct (triggerLightning_flash Scenario.entropy 5 [WeatherGrid.zoneAt 3 0]
              Scenario.mounted Scenario.flash 0%nat Hc ltac:(discriminate) scenario_flash)
    as (g & Hf & Ha).
  assert (Hall : forall n : nat,
            WeatherLayer.lightningPhase
              (WeatherLayer.decay (1 # 144115188075855872) n Scenario.flash)
            = WeatherLayer.Phase.first).
  { intros n.
    destruct (first_forever (1 # 144115188075855872) g Scenario.flash n eq_refl Hf Ha)
      as [(_ & Hp & _) _].
    exact Hp. }
  split; [rewrite Hc; discriminate|]. split; [exact scenario_flash|].
  split; [reflexivity|]. split; [exact Hall|].
  intros [n Hn]. rewrite Hall in Hn. discriminate Hn.
Qed.

(** ** The dominant terrain of a zone *)

Section DominantTerrain.
Import JsNumber WeatherGrid.
Local Open Scope string_scope.
Local Open Scope nat_scope.

(** The number the counter holds for a tag (zero when it has no entry). *)
Let tally (count : list (string * nat)) (t : string) : nat :=
  match assoc t count with Some n => n | None => 0 end.

Lemma assoc_bump (t t' : string) (count : list (string * nat)) :
  assoc t' (bump t count)
  = if String.eqb t' t then Some (S (tally count t)) else assoc t' count.
Proof.
  unfold tally. induction count as [|[k n] rest IH]; cbn [bump assoc].
  - destruct (String.eqb t' t); reflexivity.
  - destruct (String.eqb_spec t k) as [-> | Hne]; cbn [assoc].
    + destruct (String.eqb_spec t' k); reflexivity.
    + rewrite IH. destruct (String.eqb_spec t' k) as [-> | Hne'].
      * destruct (String.eqb_spec k t) as [-> | _]; [contradiction | reflexivity].
      * reflexivity.
Qed.

Lemma bump_keys (t k : string) (count : list (string * nat)) :
  In k (map fst (bump t count)) -> k = t \/ In k (map fst count).
Proof.
  induction count as [|[k' n] rest IH]; cbn [bump map fst In].
  - intros [<- | []]. left. reflexivity.
  - destruct (String.eqb t k'); cbn [map fst In].
    + intros H. right. exact H.
    + intros [<- | H]; [right; left; reflexivity|].
      destruct (IH H) as [-> | H']; [left; reflexivity | right; right; exact H'].
Qed.

Lemma bump_NoDup (t : string) (count : list (string * nat)) :
  NoDup (map fst count) -> NoDup (map fst (bump t count)).
Proof.
  induction count as [|[k n] rest IH]; cbn [bump map fst]; intros Hnd.
  - constructor; [intros [] | constructor].
  - inversion Hnd as [|? ? Hk Hrest]; subst.
    destruct (String.eqb_spec t k) as [-> | Hne]; cbn [map fst].
    + constructor; assumption.
    + constructor; [|apply IH, Hrest].
      intros Hin. destruct (bump_keys _ _ _ Hin) as [-> | Hin']; [apply Hne; reflexivity|].
      apply Hk, Hin'.
Qed.

Lemma bump_positive (t : string) (count : list (string * nat)) :
  Forall (fun e => 1 <= snd e) count -> Forall (fun e => 1 <= snd e) (bump t count).
Proof.
  induction count as [|[k n] rest IH]; cbn [bump]; intros Hp.
  - constructor; [cbn; lia | constructor].
  - inversion Hp as [|? ? Hn Hrest]; subst.
    destruct (String.eqb t k); constructor; cbn [snd] in *; auto; lia.
Qed.

Lemma In_assoc (t : string) (n : nat) (count : list (string * nat)) :
  NoDup (map fst count) -> In (t, n) count -> assoc t count = Some n.
Proof.
  induction count as [|[k m] rest IH]; cbn [map fst In assoc]; intros Hnd Hin; [destruct Hin|].
  inversion Hnd as [|? ? Hk Hrest]; subst.
  destruct Hin as [E | Hin].
  - injection E as -> ->. rewrite String.eqb_refl. reflexivity.
  - destruct (String.eqb_spec t k) as [-> | _]; [|apply IH; assumption].
    elim Hk. apply (in_map fst) in Hin. exact Hin.
Qed.

Lemma assoc_In (t : string) (n : nat) (count : list (string * nat)) :
  assoc t count = Some n -> In (t, n) count.
Proof.
  induction count as [|[k m] rest IH]; cbn [assoc In]; [discriminate|].
  destruct (String.eqb_spec t k) as [-> | _].
  - intros H; injection H as ->. left. reflexivity.
  - intros H. right. apply IH, H.
Qed.

(** The counter after a scan: own entries with distinct keys and positive
    counts, each the number of occurrences of a tag that is no inherited
    name. *)
Lemma counter_scan (tiles : list string) (count : list (string * nat)) :
  NoDup (map fst count) ->
  Forall (fun e => 1 <= snd e) count ->
  let count' := fold_left (fun c t => countTile t c) tiles count in
  NoDup (map fst count')
  /\ Forall (fun e => 1 <= snd e) count'
  /\ forall t, tally count' t
               = tally count t
                 + if inherited t then 0 else count_occ string_dec tiles t.
Proof.
  revert count. induction tiles as [|a tiles IH]; intros count Hnd Hp; cbn [fold_left].
  - repeat split; try assumption. intros t. cbn [count_occ]. destruct (inherited t); lia.
  - assert (Hnd' : NoDup (map fst (countTile a count)))
      by (unfold countTile; destruct (inherited a); [exact Hnd | apply bump_NoDup, Hnd]).
    assert (Hp' : Forall (fun e => 1 <= snd e) (countTile a count))
      by (unfold countTile; destruct (inherited a); [exact Hp | apply bump_positive, Hp]).
    destruct (IH _ Hnd' Hp') as (N & P & T). repeat split; try assumption.
    intros t. rewrite T. cbn [count_occ]. unfold countTile.
    destruct (inherited a) eqn:Ea.
    + destruct (inherited t) eqn:Et; [reflexivity|].
      destruct (string_dec a t) as [-> | _]; [congruence | reflexivity].
    + unfold tally at 1. rewrite assoc_bump. fold (tally count t).
      destruct (String.eqb_spec t a) as [-> | Hne].
      * rewrite Ea. destruct (string_dec a a); [lia | contradiction].
      * destruct (inherited t); [reflexivity|].
        destruct (string_dec a t) as [-> | _]; [contradiction | reflexivity].
Qed.

Lemma In_insertIndexed (k : N) (e : string * nat) (l : list (N * (string * nat)))
  (x : N * (string * nat)) :
  In x (insertIndexed k e l) <-> x = (k, e) \/ In x l.
Proof.
  induction l as [|[k' e'] l IH]; cbn [insertIndexed In].
  - intuition auto.
  - destruct (k <? k')%N; cbn [In]; rewrite ?IH; intuition auto.
Qed.

Lemma In_indexed (e : string * nat) (count : list (string * nat))
  (acc : list (N * (string * nat))) :
  In e (map snd
          (fold_left
             (fun acc e => match arrayIndex (fst e) with
                           | Some k => insertIndexed k e acc
                           | None => acc
                           end) count acc))
  <-> In e (map snd acc) \/ (In e count /\ arrayIndex (fst e) <> None).
Proof.
  revert acc. induction count as [|a count IH]; intros acc; cbn [fold_left In].
  - intuition auto.
  - rewrite IH. destruct (arrayIndex (fst a)) as [k|] eqn:Ea.
    + rewrite !in_map_iff. split.
      * intros [((k' & e') & E & Hin) | (Hin & Hne)].
        -- cbn [snd] in E. subst e'. apply In_insertIndexed in Hin.
           destruct Hin as [E | Hin].
           ++ injection E as -> ->. right. split; [left; reflexivity | congruence].
           ++ left. exists (k', e). split; [reflexivity | exact Hin].
        -- right. split; [right; exact Hin | exact Hne].
      * intros [((k' & e') & E & Hin) | ([-> | Hin] & Hne)].
        -- left. exists (k', e'). split; [exact E | apply In_insertIndexed; right; exact Hin].
        -- left. exists (k, e). split; [reflexivity | apply In_insertIndexed; left; reflexivity].
        -- right. split; assumption.
    + split.
      * intros [H | (Hin & Hne)]; [left; exact H | right; split; [right; exact Hin | exact Hne]].
      * intros [H | ([-> | Hin] & Hne)]; [left; exact H | congruence | right; split; assumption].
Qed.

(** [Object.entries] lists exactly the entries of the counter. *)
Lemma In_entries (e : string * nat) (count : list (string * nat)) :
  In e (entries count) <-> In e count.
Proof.
  unfold entries. rewrite in_app_iff, In_indexed, filter_In. cbn [map In].
  destruct (arrayIndex (fst e)); intuition (auto; congruence).
Qed.

(** The scan for the maximum. *)
Lemma max_scan (l : list (string * nat)) (m0 : nat) (d0 : string) :
  let r := fold_left
             (fun (acc : nat * string) (e : string * nat) =>
                let '(max, dominant) := acc in
                if (max <? snd e) then (snd e, fst e) else (max, dominant))
             l (m0, d0) in
  m0 <= fst r
  /\ (forall e, In e l -> snd e <= fst r)
  /\ (r = (m0, d0) \/ In (snd r, fst r) l).
Proof.
  revert m0 d0. induction l as [|[k n] l IH]; intros m0 d0; cbn [fold_left].
  - cbv zeta. cbn [fst snd]. split; [lia | split; [intros e [] | left; reflexivity]].
  - cbn [snd fst]. destruct (Nat.ltb_spec m0 n) as [Hlt | Hge].
    + destruct (IH n k) as (H1 & H2 & H3). cbv zeta in *. split; [|split].
      * lia.
      * intros e [<- | Hin]; [exact H1 | apply H2, Hin].
      * right. destruct H3 as [-> | H3]; [left; reflexivity | right; exact H3].
    + destruct (IH m0 d0) as (H1 & H2 & H3). cbv zeta in *. split; [|split].
      * exact H1.
      * intros e [<- | Hin]; [cbn [snd]; lia | apply H2, Hin].
      * destruct H3 as [-> | H3]; [left; reflexivity | right; right; exact H3].
Qed.

(** The outcome of the two scans of [getZoneDominantTerrain]: the tag [d]
    that the second scan ends with is at least as frequent in the zone as
    every tag that is counted; it is the empty tag or occurs in the zone. *)
Lemma dominant_scan (tiles : list string) :
  let count := fold_left (fun c t => countTile t c) tiles [] in
  let r := fold_left
             (fun (acc : nat * string) (e : string * nat) =>
                let '(max, dominant) := acc in
                if (max <? snd e) then (snd e, fst e) else (max, dominant))
             (entries count) (0, ""%string) in
  (forall t, inherited t = false ->
             count_occ string_dec tiles t <= count_occ string_dec tiles (snd r))
  /\ (snd r = ""%string \/ In (snd r) tiles).
Proof.
  intros count r.
  destruct (counter_scan tiles [] (NoDup_nil _) (Forall_nil _)) as (N & P & T).
  fold count in N, P, T. cbv zeta in T.
  assert (Hentry : forall t n, In (t, n) count ->
                     n = count_occ string_dec tiles t /\ 1 <= n).
  { intros t n Hin. pose proof (In_assoc _ _ _ N Hin) as Ha.
    pose proof (T t) as Ht. unfold tally in Ht at 1 2. rewrite Ha in Ht. cbn [assoc] in Ht.
    rewrite Forall_forall in P. specialize (P _ Hin). cbn [snd] in P.
    destruct (inherited t); [lia | split; [lia | exact P]]. }
  assert (Hcounted : forall t, inherited t = false -> 1 <= count_occ string_dec tiles t ->
                       In (t, count_occ string_dec tiles t) count).
  { intros t Hi Hc. pose proof (T t) as Ht. rewrite Hi in Ht. unfold tally in Ht at 1 2.
    cbn [assoc] in Ht. destruct (assoc t count) as [n|] eqn:Ha; [|lia].
    apply assoc_In in Ha. cbn [Nat.add] in Ht. rewrite <- Ht. exact Ha. }
  destruct (max_scan (entries count) 0 ""%string) as (_ & Hmax & Hwho).
  cbv zeta in Hmax, Hwho. fold r in Hmax, Hwho.
  destruct r as [m d]. cbn [fst snd] in *.
  destruct Hwho as [E | Hin].
  - injection E as -> ->. split; [|left; reflexivity].
    intros t Hi. destruct (Nat.eq_dec (count_occ string_dec tiles t) 0) as [-> | Hpos]; [lia|].
    assert (Hc : In (t, count_occ string_dec tiles t) count) by (apply Hcounted; [exact Hi | lia]).
    apply (proj2 (In_entries _ _)), Hmax in Hc. cbn [snd] in Hc. lia.
  - apply (proj1 (In_entries _ _)) in Hin. destruct (Hentry _ _ Hin) as [-> Hone]. split.
    + intros t Hi.
      destruct (Nat.eq_dec (count_occ string_dec tiles t) 0) as [-> | Hpos]; [lia|].
      assert (Hc : In (t, count_occ string_dec tiles t) count)
        by (apply Hcounted; [exact Hi | lia]).
      apply (proj2 (In_entries _ _)), Hmax in Hc. exact Hc.
    + right. apply (count_occ_In string_dec). lia.
Qed.

(** A zone with a tile inside the map has its first tile at its top-left
    corner. *)
Lemma zoneTiles_head (mapData : MapMatrix) (zx zy : nat) :
  zoneTiles mapData zx zy <> [] ->
  exists rest,
    zoneTiles mapData zx zy
    = tileOr mapData (zy * ZONE_SIZE) (zx * ZONE_SIZE) :: rest.
Proof.
  intros Hne.
  assert (Hin : (zy * ZONE_SIZE <? rowsOf mapData) && (zx * ZONE_SIZE <? colsOf mapData) = true).
  { destruct (zoneTiles mapData zx zy) as [|t rest] eqn:E; [contradiction|].
    assert (Ht : In t (zoneTiles mapData zx zy)) by (rewrite E; left; reflexivity).
    unfold zoneTiles in Ht. cbv zeta in Ht.
    apply in_flat_map in Ht. destruct Ht as (dy & _ & Ht).
    apply in_flat_map in Ht. destruct Ht as (dx & _ & Ht).
    destruct (andb _ _) eqn:Eb in Ht; [|destruct Ht].
    apply andb_true_iff in Eb. destruct Eb as [Hy Hx].
    apply Nat.ltb_lt in Hy, Hx. apply andb_true_iff.
    split; apply Nat.ltb_lt; lia. }
  unfold zoneTiles. cbv zeta. change (seq 0 ZONE_SIZE) with (0 :: seq 1 7).
  cbn [flat_map]. rewrite !Nat.add_0_r, Hin. cbn [app]. eexists. reflexivity.
Qed.

(** X1.  No tag that is counted occurs more often among the tiles of a zone
    than the terrain returned for it, unless the empty tag does (the zone's
    top-left tile is then returned instead). *)
Theorem getZoneDominantTerrain_most_frequent
  (mapData : MapMatrix) (zx zy : nat) (t : string) :
  inherited t = false ->
  let tiles := zoneTiles mapData zx zy in
  let dominant := getZoneDominantTerrain mapData zx zy in
  count_occ string_dec tiles t
  <= Nat.max (count_occ string_dec tiles dominant) (count_occ string_dec tiles "").
Proof.
  intros Hi tiles dominant. subst dominant. unfold getZoneDominantTerrain. cbv zeta.
  destruct (dominant_scan (zoneTiles mapData zx zy)) as [Hmax _]. cbv zeta in Hmax.
  fold tiles in Hmax |- *. specialize (Hmax t Hi).
  destruct (fold_left _ (entries _) _) as [m d]. cbn [snd] in Hmax.
  destruct (String.eqb_spec d "") as [-> | _]; lia.
Qed.

(** X2.  The terrain returned for a zone that has a tile inside the map is
    the tag of one of its tiles; so a zone whose tiles all carry the same tag
    gets that tag, whatever the tag is. *)
Theorem getZoneDominantTerrain_is_a_tile_of_the_zone
  (mapData : MapMatrix) (zx zy : nat) :
  zoneTiles mapData zx zy <> [] ->
  In (getZoneDominantTerrain mapData zx zy) (zoneTiles mapData zx zy)
  /\ forall t, (forall t', In t' (zoneTiles mapData zx zy) -> t' = t) ->
               getZoneDominantTerrain mapData zx zy = t.
Proof.
  intros Hne.
  assert (Hin : In (getZoneDominantTerrain mapData zx zy) (zoneTiles mapData zx zy)).
  { unfold getZoneDominantTerrain. cbv zeta.
    destruct (dominant_scan (zoneTiles mapData zx zy)) as [_ Hd]. cbv zeta in Hd.
    destruct (fold_left _ (entries _) _) as [m d]. cbn [snd] in Hd.
    destruct (zoneTiles_head _ _ _ Hne) as (rest & E).
    destruct (String.eqb_spec d "") as [-> | Hd'].
    - rewrite E. left. reflexivity.
    - destruct Hd as [-> | Hd]; [contradiction | exact Hd]. }
  split; [exact Hin | intros t Hall; apply Hall, Hin].
Qed.

End DominantTerrain.

Lemma getZoneDominantTerrain_most_frequent_witness :
  let mapData := [["SEA"; "PLAIN"; "SEA"]; ["PLAIN"; "SEA"; "toString"]]%string in
  WeatherGrid.inherited "SEA" = false
  /\ (count_occ string_dec (WeatherGrid.zoneTiles mapData 0 0) "SEA"%string
      <= Nat.max
           (count_occ string_dec (WeatherGrid.zoneTiles mapData 0 0)
              (WeatherGrid.getZoneDominantTerrain mapData 0 0))
           (count_occ string_dec (WeatherGrid.zoneTiles mapData 0 0) ""%string))%nat.
Proof.
  split; [reflexivity|].
  exact (getZoneDominantTerrain_most_frequent
           [["SEA"; "PLAIN"; "SEA"]; ["PLAIN"; "SEA"; "toString"]]%string 0 0 "SEA"%string
           eq_refl).
Defined.

Lemma getZoneDominantTerrain_is_a_tile_of_the_zone_witness :
  WeatherGrid.zoneTiles [["toString"; "toString"]]%string 0 0 <> []
  /\ WeatherGrid.getZoneDominantTerrain [["toString"; "toString"]]%string 0 0
     = "toString"%string.
Proof.
  assert (Hne : WeatherGrid.zoneTiles [["toString"; "toString"]]%string 0 0 <> [])
    by (vm_compute; discriminate).
  split; [exact Hne|].
  apply (proj2 (getZoneDominantTerrain_is_a_tile_of_the_zone
                  [["toString"; "toString"]]%string 0 0 Hne)).
  intros t' Hin. vm_compute in Hin. destruct Hin as [<- | [<- | []]]; reflexivity.
Defined.

(** ** The shape and the cells of the weather grid *)

Section GridShape.
Import JsNumber WeatherGrid.
Local Open Scope nat_scope.

Lemma ceilDiv_bounds (n : nat) :
  n <= ZONE_SIZE * ceilDiv n ZONE_SIZE < n + ZONE_SIZE.
Proof.
  unfold ceilDiv, ZONE_SIZE.
  pose proof (Nat.div_mod_eq (n + 8 - 1) 8) as E.
  pose proof (Nat.mod_upper_bound (n + 8 - 1) 8 ltac:(lia)) as B.
  lia.
Qed.

(** X3.  An empty matrix, or one whose first row is empty, gives the empty
    grid.  Otherwise the grid has one row per started band of eight map
    rows, and every grid row has one cell per started band of eight
    columns of the first map row: the zones tile the map with less than one
    zone of overhang. *)
Theorem buildWeatherGrid_shape (mapData : MapMatrix) (seed : Z) :
  let grid := buildWeatherGrid mapData seed in
  let rows := rowsOf mapData in
  let cols := colsOf mapData in
  (rows = 0 \/ cols = 0 -> grid = [])
  /\ (0 < rows /\ 0 < cols ->
      rows <= ZONE_SIZE * List.length grid < rows + ZONE_SIZE
      /\ Forall (fun row : list Cell =>
                   cols <= ZONE_SIZE * List.length row < cols + ZONE_SIZE) grid).
Proof.
  intros grid rows cols. subst grid. unfold buildWeatherGrid. fold rows cols. cbv zeta.
  split.
  - intros [-> | ->]; [reflexivity | rewrite orb_true_r; reflexivity].
  - intros [Hr Hc].
    replace (rows =? 0) with false by (symmetry; apply Nat.eqb_neq; lia).
    replace (cols =? 0) with false by (symmetry; apply Nat.eqb_neq; lia).
    cbn [orb]. rewrite length_map, length_seq. split; [apply ceilDiv_bounds|].
    apply Forall_forall. intros row Hin. apply in_map_iff in Hin.
    destruct Hin as (zy & <- & _). rewrite length_map, length_seq. apply ceilDiv_bounds.
Qed.

(** No key of the tendency table is an inherited name. *)
Lemma table_keys_are_own (terrain : string) (t : Tendency) :
  assoc terrain TERRAIN_WEATHER_TENDENCY = Some t -> inherited terrain = false.
Proof.
  unfold TERRAIN_WEATHER_TENDENCY. cbn [assoc].
  repeat match goal with
         | |- context [String.eqb terrain ?s] =>
             destruct (String.eqb_spec terrain s) as [-> | _]; [intros _; reflexivity|]
         end.
  discriminate.
Qed.

Lemma tendencyOf_Inherited (terrain : string) :
  tendencyOf terrain = Inherited <-> inherited terrain = true.
Proof.
  unfold tendencyOf. destruct (assoc terrain TERRAIN_WEATHER_TENDENCY) as [t|] eqn:E.
  - rewrite (table_keys_are_own _ _ E). split; discriminate.
  - destruct (inherited terrain); split; try reflexivity; discriminate.
Qed.

(** X4.  A cell inside the grid is [undefined] exactly when the dominant
    terrain of its zone is the name of a member that the tendency table
    inherits from [Object.prototype]; every other cell holds a weather
    type. *)
Theorem buildWeatherGrid_undefined_cell
  (mapData : MapMatrix) (seed : Z) (zx zy : nat) :
  zy < ceilDiv (rowsOf mapData) ZONE_SIZE ->
  zx < ceilDiv (colsOf mapData) ZONE_SIZE ->
  cellAt (buildWeatherGrid mapData seed) (Z.of_nat zy) (Z.of_nat zx) = None
  <-> inherited (getZoneDominantTerrain mapData zx zy) = true.
Proof.
  intros Hy Hx. rewrite (buildWeatherGrid_cell _ _ _ _ Hy Hx).
  rewrite <- tendencyOf_Inherited. unfold zoneWeather. cbv zeta.
  destruct (tendencyOf (getZoneDominantTerrain mapData zx zy)).
  - destruct (_ && _); split; discriminate.
  - split; reflexivity.
  - split; discriminate.
Qed.

(** X5.  Over a zone whose dominant terrain has an entry in the tendency
    table, the cell holds the main weather of the entry, its alternative,
    or storm; and storm in place of both only where one of them is rain. *)
Theorem buildWeatherGrid_weather_follows_tendency
  (mapData : MapMatrix) (seed : Z) (zx zy : nat) (tendency : Tendency) :
  zy < ceilDiv (rowsOf mapData) ZONE_SIZE ->
  zx < ceilDiv (colsOf mapData) ZONE_SIZE ->
  tendencyOf (getZoneDominantTerrain mapData zx zy) = Own tendency ->
  exists weather : WeatherType,
    cellAt (buildWeatherGrid mapData seed) (Z.of_nat zy) (Z.of_nat zx) = Some weather
    /\ (weather = main tendency
        \/ alt tendency = Some weather
        \/ (weather = storm /\ (main tendency = rain \/ alt tendency = Some rain))).
Proof.
  intros Hy Hx Hown. rewrite (buildWeatherGrid_cell _ _ _ _ Hy Hx).
  unfold zoneWeather. cbv zeta. rewrite Hown.
  set (r := hashNoise (Z.of_nat zx) (Z.of_nat zy) seed).
  assert (Hres : resolve tendency r = main tendency \/ alt tendency = Some (resolve tendency r)).
  { unfold resolve. cbv zeta. destruct (alt tendency) as [a|]; [|left; reflexivity].
    destruct (ltb r _); [right; reflexivity | left; reflexivity]. }
  destruct (WeatherType_eqb (resolve tendency r) rain) eqn:Erain; cbn [andb].
  - assert (Er : resolve tendency r = rain) by (destruct (resolve tendency r); first [reflexivity | discriminate Erain]).
    destruct (ltb _ _).
    + exists storm. split; [reflexivity|]. right. right. split; [reflexivity|].
      rewrite Er in Hres. destruct Hres as [<- | ->]; [left | right]; reflexivity.
    + exists (resolve tendency r). split; [reflexivity|].
      destruct Hres as [-> | ->]; [left | right; left]; reflexivity.
  - exists (resolve tendency r). split; [reflexivity|].
    destruct Hres as [-> | ->]; [left | right; left]; reflexivity.
Qed.

End GridShape.

Lemma buildWeatherGrid_undefined_cell_witness :
  let mapData := [["constructor"]]%string in
  ((0 < WeatherGrid.ceilDiv (WeatherGrid.rowsOf mapData) WeatherGrid.ZONE_SIZE)%nat
   /\ (0 < WeatherGrid.ceilDiv (WeatherGrid.colsOf mapData) WeatherGrid.ZONE_SIZE)%nat)
  /\ WeatherGrid.inherited (WeatherGrid.getZoneDominantTerrain mapData 0 0) = true
  /\ WeatherGrid.cellAt (WeatherGrid.buildWeatherGrid mapData 1) 0 0 = None.
Proof.
  split; [split; vm_compute; reflexivity|]. split; [vm_compute; reflexivity|].
  apply (proj2 (buildWeatherGrid_undefined_cell [["constructor"]]%string 1 0 0
                  ltac:(vm_compute; reflexivity) ltac:(vm_compute; reflexivity))).
  vm_compute. reflexivity.
Defined.

Lemma buildWeatherGrid_weather_follows_tendency_witness :
  let mapData := [["GLACIER"]]%string in
  ((0 < WeatherGrid.ceilDiv (WeatherGrid.rowsOf mapData) WeatherGrid.ZONE_SIZE)%nat
   /\ (0 < WeatherGrid.ceilDiv (WeatherGrid.colsOf mapData) WeatherGrid.ZONE_SIZE)%nat)
  /\ WeatherGrid.tendencyOf (WeatherGrid.getZoneDominantTerrain mapData 0 0)
     = WeatherGrid.Own (WeatherGrid.tendAlt WeatherGrid.snow WeatherGrid.wind (15 # 100))
  /\ exists weather,
       WeatherGrid.cellAt (WeatherGrid.buildWeatherGrid mapData 7) 0 0 = Some weather
       /\ (weather = WeatherGrid.snow
           \/ Some WeatherGrid.wind = Some weather
           \/ (weather = WeatherGrid.storm
               /\ (WeatherGrid.snow = WeatherGrid.rain
                   \/ Some WeatherGrid.wind = Some WeatherGrid.rain))).
Proof.
  split; [split; vm_compute; reflexivity|]. split; [vm_compute; reflexivity|].
  exact (buildWeatherGrid_weather_follows_tendency [["GLACIER"]]%string 7 0 0
           (WeatherGrid.tendAlt WeatherGrid.snow WeatherGrid.wind (15 # 100))
           ltac:(vm_compute; reflexivity) ltac:(vm_compute; reflexivity)
           ltac:(vm_compute; reflexivity)).
Defined.

(** ** Pixels, zones and the visibility culler *)

Section Culler.
Import JsNumber WeatherGrid.
Local Open Scope Z_scope.

Lemma le_Qfloor (z : Z) (x : Q) : z <= Qfloor x <-> (inject_Z z <= x)%Q.
Proof.
  split; intros H.
  - apply Qle_trans with (inject_Z (Qfloor x)); [|apply Qfloor_le].
    rewrite <- Zle_Qle. exact H.
  - apply Qfloor_resp_le in H. rewrite Qfloor_Z in H. exact H.
Qed.

Lemma Qfloor_le_iff (z : Z) (x : Q) : Qfloor x <= z <-> (x < inject_Z (z + 1))%Q.
Proof.
  split; intros H.
  - apply Qlt_le_trans with (inject_Z (Qfloor x + 1)); [apply Qlt_floor|].
    rewrite <- Zle_Qle. lia.
  - destruct (Z_le_gt_dec (Qfloor x) z) as [Hle | Hgt]; [exact Hle|].
    exfalso. assert (Hz : z + 1 <= Qfloor x) by lia.
    apply le_Qfloor in Hz. apply (Qlt_irrefl x). eapply Qlt_le_trans; eassumption.
Qed.

Lemma le_div_iff (z b : Z) (a : Q) :
  0 < b -> (inject_Z z <= a / inject_Z b)%Q <-> (inject_Z (b * z) <= a)%Q.
Proof.
  intros Hb. assert (Hb' : (0 < inject_Z b)%Q) by (rewrite Zlt_Qlt in Hb; exact Hb).
  rewrite inject_Z_mult, Qmult_comm. split; intros H.
  - destruct (Qlt_le_dec a (inject_Z z * inject_Z b)) as [Hlt | Hle]; [|exact Hle].
    exfalso. apply Qlt_shift_div_r in Hlt; [|exact Hb'].
    apply (Qlt_irrefl (a / inject_Z b)). eapply Qlt_le_trans; eassumption.
  - apply Qle_shift_div_l; assumption.
Qed.

Lemma div_lt_iff (z b : Z) (a : Q) :
  0 < b -> (a / inject_Z b < inject_Z z)%Q <-> (a < inject_Z (b * z))%Q.
Proof.
  intros Hb. split; intros H.
  - destruct (Qlt_le_dec a (inject_Z (b * z))) as [Hlt | Hle]; [exact Hlt|].
    exfalso. apply le_div_iff in Hle; [|exact Hb].
    apply (Qlt_irrefl (inject_Z z)). eapply Qle_lt_trans; eassumption.
  - destruct (Qlt_le_dec (a / inject_Z b) (inject_Z z)) as [Hlt | Hle]; [exact Hlt|].
    exfalso. apply le_div_iff in Hle; [|exact Hb].
    apply (Qlt_irrefl a). eapply Qlt_le_trans; eassumption.
Qed.

(** The two floors compose to one division by the zone's pixel size. *)
Lemma floors_bounds (p : Q) (z : Z) :
  let i := Qfloor (inject_Z (Qfloor (p / inject_Z 64)) / inject_Z 8) in
  (z <= i <-> (inject_Z (512 * z) <= p)%Q)
  /\ (i <= z <-> (p < inject_Z (512 * (z + 1)))%Q).
Proof.
  intros i. subst i. split.
  - rewrite le_Qfloor, le_div_iff, <- Zle_Qle, le_Qfloor, le_div_iff by lia.
    replace (64 * (8 * z)) with (512 * z) by lia. reflexivity.
  - rewrite Qfloor_le_iff, div_lt_iff, <- Zlt_Qlt by lia.
    assert (E : Qfloor (p / inject_Z 64) < 8 * (z + 1)
                <-> Qfloor (p / inject_Z 64) <= 8 * (z + 1) - 1) by lia.
    rewrite E, Qfloor_le_iff, div_lt_iff by lia.
    replace (64 * (8 * (z + 1) - 1 + 1)) with (512 * (z + 1)) by lia. reflexivity.
Qed.

(** On a tileable coordinate both divisions of [worldToZone] are exact. *)
Lemma zoneIndex_exact (p : Q) :
  tileable p ->
  floorDiv (inject_Z (floorDiv p TILE_SIZE)) (Z.of_nat ZONE_SIZE)
  = Qfloor (inject_Z (Qfloor (p / inject_Z 64)) / inject_Z 8).
Proof.
  intros (Hrep & Hlow & Hhigh). unfold floorDiv, TILE_SIZE, ZONE_SIZE, divide.
  change (Z.of_nat 8) with 8.
  assert (E1 : (double (p / inject_Z 64) == p / inject_Z 64)%Q).
  { change (inject_Z 64) with (2 ^ 6)%Q. apply representable_shift; assumption. }
  rewrite (Qfloor_comp _ _ E1).
  set (t := Qfloor (p / inject_Z 64)).
  assert (Ht : - 2 ^ 52 <= t <= 2 ^ 52).
  { apply Qabs_Qle_condition in Hhigh. change (2 ^ 58)%Q with (inject_Z (64 * 2 ^ 52)) in Hhigh.
    change (- inject_Z (64 * 2 ^ 52))%Q with (inject_Z (64 * - 2 ^ 52)) in Hhigh.
    split.
    - apply le_Qfloor, le_div_iff; [lia|]. apply Hhigh.
    - apply Qfloor_le_iff, div_lt_iff; [lia|].
      apply Qle_lt_trans with (inject_Z (64 * 2 ^ 52)); [apply Hhigh|].
      rewrite <- Zlt_Qlt. lia. }
  assert (E2 : (double (inject_Z t / inject_Z 8) == inject_Z t / inject_Z 8)%Q).
  { apply (double_exact _ t (-3)); [lia|lia|]. reflexivity. }
  apply Qfloor_comp, E2.
Qed.

(** The zone index of a pixel coordinate. *)
Lemma zoneIndex_bounds (p : Q) (z : Z) :
  tileable p ->
  let i := floorDiv (inject_Z (floorDiv p TILE_SIZE)) (Z.of_nat ZONE_SIZE) in
  (z <= i <-> (inject_Z (512 * z) <= p)%Q)
  /\ (i <= z <-> (p < inject_Z (512 * (z + 1)))%Q).
Proof.
  intros Hp i. subst i. rewrite (zoneIndex_exact p Hp). apply floors_bounds.
Qed.

Lemma zoneAt_rect (zx zy : Z) :
  Zone.x (zoneAt zx zy) = inject_Z (512 * zx)
  /\ Zone.y (zoneAt zx zy) = inject_Z (512 * zy)
  /\ Zone.width (zoneAt zx zy) = inject_Z 512
  /\ Zone.height (zoneAt zx zy) = inject_Z 512.
Proof.
  unfold zoneAt, TILE_SIZE, ZONE_SIZE. cbn [Zone.x Zone.y Zone.width Zone.height].
  change (Z.of_nat 8 * 64) with 512. rewrite !(Z.mul_comm _ 512). repeat split.
Qed.

Lemma in_zone_iff (p : Q) (z : Z) :
  (inject_Z (512 * z) <= p /\ p < inject_Z (512 * z) + inject_Z 512)%Q
  <-> (inject_Z (512 * z) <= p /\ p < inject_Z (512 * (z + 1)))%Q.
Proof.
  assert (E : (inject_Z (512 * z) + inject_Z 512 == inject_Z (512 * (z + 1)))%Q)
    by (rewrite <- inject_Z_plus; replace (512 * z + 512) with (512 * (z + 1)) by lia;
        reflexivity).
  rewrite E. reflexivity.
Qed.

(** X6.  For pixel coordinates on which its divisions are exact (doubles
    that are zero or between [2^-1016] and [2^58] in magnitude),
    [worldToZone] returns the index of the zone whose pixel rectangle, as
    [getVisibleZones] reports it, contains the point (the rectangle is
    closed at its near edges and open at its far edges); this also holds
    for negative coordinates. *)
Theorem worldToZone_locates_the_point (px py : Q) (zx zy : Z) :
  tileable px -> tileable py ->
  (worldToZone px py = (zx, zy)
   <-> let zone := zoneAt zx zy in
       (Zone.x zone <= px /\ px < Zone.x zone + Zone.width zone)%Q
       /\ (Zone.y zone <= py /\ py < Zone.y zone + Zone.height zone)%Q).
Proof.
  intros Hpx Hpy.
  cbv zeta. destruct (zoneAt_rect zx zy) as (-> & -> & -> & ->).
  rewrite !in_zone_iff. unfold worldToZone. cbv zeta.
  destruct (zoneIndex_bounds px zx Hpx) as [Hx1 Hx2].
  destruct (zoneIndex_bounds py zy Hpy) as [Hy1 Hy2]. cbv zeta in *.
  rewrite <- Hx1, <- Hx2, <- Hy1, <- Hy2. split.
  - intros H; injection H as <- <-. repeat split; apply Z.le_refl.
  - intros [[H1 H2] [H3 H4]]. f_equal; apply Z.le_antisymm; assumption.
Qed.

Lemma In_upto (i lo hi : Z) : In i (upto lo hi) <-> lo <= i <= hi.
Proof.
  unfold upto. rewrite in_map_iff. split.
  - intros (k & <- & Hk). apply in_seq in Hk. lia.
  - intros H. exists (Z.to_nat (i - lo)). split; [lia | apply in_seq; lia].
Qed.

Lemma NoDup_map_injective {A B : Type} (f : A -> B) (l : list A) :
  (forall a b, f a = f b -> a = b) -> NoDup l -> NoDup (map f l).
Proof.
  intros Hf. induction 1 as [|a l Ha _ IH]; cbn [map]; constructor; [|exact IH].
  intros Hin. apply in_map_iff in Hin. destruct Hin as (b & E & Hb).
  apply Hf in E. subst b. contradiction.
Qed.

Lemma NoDup_upto (lo hi : Z) : NoDup (upto lo hi).
Proof.
  unfold upto. apply NoDup_map_injective; [|apply seq_NoDup].
  intros a b H. lia.
Qed.

Lemma visible_zone_in_grid
  (cornerX cornerY visibleWidth visibleHeight : Q) (zoneRows zoneCols : Z)
  (zone : Zone.t) :
  In zone (getVisibleZones cornerX cornerY visibleWidth visibleHeight zoneRows zoneCols) ->
  exists zx zy : Z, zone = zoneAt zx zy /\ 0 <= zx < zoneCols /\ 0 <= zy < zoneRows.
Proof.
  unfold getVisibleZones. cbv zeta. rewrite in_flat_map.
  intros (zy & _ & Hin).
  destruct ((zy <? 0) || (zoneRows <=? zy)) eqn:Ey; [destruct Hin|].
  apply in_flat_map in Hin. destruct Hin as (zx & _ & Hin).
  destruct ((zx <? 0) || (zoneCols <=? zx)) eqn:Ex; [destruct Hin|].
  destruct Hin as [<- | []].
  apply orb_false_iff in Ey, Ex. destruct Ey as [Ey1 Ey2], Ex as [Ex1 Ex2].
  apply Z.ltb_ge in Ey1, Ex1. apply Z.leb_gt in Ey2, Ex2.
  exists zx, zy. repeat split; assumption.
Qed.

(** X7.  Where the divisions of [worldToZone] are exact on the corner of
    the viewport and on the far corner [cornerX + visibleWidth],
    [cornerY + visibleHeight] the source computes (sums of doubles, rounded
    to a double), the culler returns a zone exactly when the zone lies
    inside the grid and its pixel rectangle meets the rectangle between the
    two corners, whose far edges are included: a zone that only touches the
    right or the bottom edge is returned as well. *)
Theorem getVisibleZones_are_the_zones_in_view
  (cornerX cornerY visibleWidth visibleHeight : Q) (zoneRows zoneCols : Z)
  (zone : Zone.t) :
  tileable cornerX -> tileable cornerY ->
  tileable (cornerX + visibleWidth)%js -> tileable (cornerY + visibleHeight)%js ->
  (In zone (getVisibleZones cornerX cornerY visibleWidth visibleHeight zoneRows zoneCols)
   <-> exists zx zy : Z,
         zone = zoneAt zx zy
         /\ 0 <= zx < zoneCols /\ 0 <= zy < zoneRows
         /\ (cornerX < Zone.x zone + Zone.width zone)%Q
         /\ (Zone.x zone <= (cornerX + visibleWidth)%js)%Q
         /\ (cornerY < Zone.y zone + Zone.height zone)%Q
         /\ (Zone.y zone <= (cornerY + visibleHeight)%js)%Q).
Proof.
  intros Tx Ty Tx' Ty'.
  unfold getVisibleZones, worldToZone. cbv zeta. cbn [fst snd].
  assert (Hrect : forall p q z, tileable p -> tileable q ->
             (p < inject_Z (512 * z) + inject_Z 512)%Q /\ (inject_Z (512 * z) <= q)%Q
             <-> floorDiv (inject_Z (floorDiv p TILE_SIZE)) (Z.of_nat ZONE_SIZE) <= z
                 <= floorDiv (inject_Z (floorDiv q TILE_SIZE)) (Z.of_nat ZONE_SIZE)).
  { intros p q z Hp Hq.
    destruct (zoneIndex_bounds p z Hp) as [_ H1].
    destruct (zoneIndex_bounds q z Hq) as [H2 _].
    cbv zeta in *. rewrite H1, H2.
    assert (E : (inject_Z (512 * z) + inject_Z 512 == inject_Z (512 * (z + 1)))%Q)
      by (rewrite <- inject_Z_plus; replace (512 * z + 512) with (512 * (z + 1)) by lia;
          reflexivity).
    rewrite E. reflexivity. }
  rewrite in_flat_map. split.
  - intros (zy & Hzy & Hin). apply In_upto in Hzy.
    destruct ((zy <? 0) || (zoneRows <=? zy)) eqn:Ey; [destruct Hin|].
    apply in_flat_map in Hin. destruct Hin as (zx & Hzx & Hin). apply In_upto in Hzx.
    destruct ((zx <? 0) || (zoneCols <=? zx)) eqn:Ex; [destruct Hin|].
    destruct Hin as [<- | []].
    apply orb_false_iff in Ey, Ex. destruct Ey as [Ey1 Ey2], Ex as [Ex1 Ex2].
    apply Z.ltb_ge in Ey1, Ex1. apply Z.leb_gt in Ey2, Ex2.
    exists zx, zy. destruct (zoneAt_rect zx zy) as (-> & -> & -> & ->).
    apply Hrect in Hzx, Hzy; try assumption. intuition auto.
  - intros (zx & zy & -> & Hx & Hy & H1 & H2 & H3 & H4).
    destruct (zoneAt_rect zx zy) as (Ex & Ey & Ew & Eh).
    rewrite Ex, Ew in H1. rewrite Ex in H2. rewrite Ey, Eh in H3. rewrite Ey in H4.
    exists zy. split; [apply In_upto, Hrect; try assumption; split; assumption|].
    replace ((zy <? 0) || (zoneRows <=? zy)) with false
      by (symmetry; apply orb_false_iff; split; [apply Z.ltb_ge | apply Z.leb_gt]; lia).
    apply in_flat_map. exists zx.
    split; [apply In_upto, Hrect; try assumption; split; assumption|].
    replace ((zx <? 0) || (zoneCols <=? zx)) with false
      by (symmetry; apply orb_false_iff; split; [apply Z.ltb_ge | apply Z.leb_gt]; lia).
    left. reflexivity.
Qed.

Lemma NoDup_flat_map {A B : Type} (f : A -> list B) (l : list A) :
  NoDup l ->
  (forall a, In a l -> NoDup (f a)) ->
  (forall a a' b, In a l -> In a' l -> In b (f a) -> In b (f a') -> a = a') ->
  NoDup (flat_map f l).
Proof.
  induction l as [|a l IH]; intros Hnd Hf Hdisj; cbn [flat_map]; [constructor|].
  inversion Hnd as [|? ? Ha Hl]; subst.
  apply NoDup_app.
  - apply Hf. left. reflexivity.
  - apply IH; [exact Hl | intros a' Ha'; apply Hf; right; exact Ha'|].
    intros a1 a2 b H1 H2. apply Hdisj; right; assumption.
  - intros b Hb Hb'. apply in_flat_map in Hb'. destruct Hb' as (a' & Ha' & Hb').
    assert (a = a') by (apply (Hdisj a a' b); [left; reflexivity | right; exact Ha' | exact Hb | exact Hb']).
    subst a'. contradiction.
Qed.

(** All zones of a grid with the given numbers of rows and columns. *)
Let allZones (zoneRows zoneCols : Z) : list Zone.t :=
  flat_map (fun zy => map (fun zx => zoneAt zx zy) (upto 0 (zoneCols - 1)))
    (upto 0 (zoneRows - 1)).

Lemma length_upto (lo hi : Z) : List.length (upto lo hi) = Z.to_nat (hi - lo + 1).
Proof. unfold upto. rewrite length_map, length_seq. reflexivity. Qed.

Lemma length_allZones (zoneRows zoneCols : Z) :
  Z.of_nat (List.length (allZones zoneRows zoneCols))
  = Z.max 0 zoneRows * Z.max 0 zoneCols.
Proof.
  unfold allZones.
  assert (H : forall l : list Z,
             List.length (flat_map (fun zy => map (fun zx => zoneAt zx zy) (upto 0 (zoneCols - 1))) l)
             = (List.length l * Z.to_nat (zoneCols - 1 - 0 + 1))%nat).
  { induction l as [|a l IH]; [reflexivity|]. cbn [flat_map List.length].
    rewrite length_app, IH, length_map, length_upto. lia. }
  rewrite H, length_upto. nia.
Qed.

(** X8.  The culler returns every zone at most once, and never more zones
    than the grid has, however large the viewport is. *)
Theorem getVisibleZones_distinct_and_bounded
  (cornerX cornerY visibleWidth visibleHeight : Q) (zoneRows zoneCols : Z) :
  let zones :=
    getVisibleZones cornerX cornerY visibleWidth visibleHeight zoneRows zoneCols in
  NoDup zones
  /\ Z.of_nat (List.length zones) <= Z.max 0 zoneRows * Z.max 0 zoneCols.
Proof.
  intros zones.
  assert (Hnd : NoDup zones).
  { subst zones. unfold getVisibleZones. cbv zeta.
    apply NoDup_flat_map; [apply NoDup_upto | |].
    - intros zy _. destruct (_ || _); [constructor|].
      apply NoDup_flat_map; [apply NoDup_upto | |].
      + intros zx _. destruct (_ || _); [constructor|].
        constructor; [intros [] | constructor].
      + intros zx zx' z _ _ H1 H2.
        destruct (_ || _) in H1; [destruct H1|]. destruct (_ || _) in H2; [destruct H2|].
        destruct H1 as [<- | []]. destruct H2 as [E | []].
        apply (f_equal Zone.zx) in E. cbn in E. congruence.
    - intros zy zy' z _ _ H1 H2.
      destruct (_ || _) in H1; [destruct H1|]. destruct (_ || _) in H2; [destruct H2|].
      apply in_flat_map in H1, H2.
      destruct H1 as (zx & _ & H1). destruct H2 as (zx' & _ & H2).
      destruct (_ || _) in H1; [destruct H1|]. destruct (_ || _) in H2; [destruct H2|].
      destruct H1 as [<- | []]. destruct H2 as [E | []].
      apply (f_equal Zone.zy) in E. cbn in E. congruence. }
  split; [exact Hnd|].
  rewrite <- length_allZones. apply inj_le. apply NoDup_incl_length; [exact Hnd|].
  intros z Hz. apply visible_zone_in_grid in Hz.
  destruct Hz as (zx & zy & -> & Hx & Hy).
  unfold allZones. apply in_flat_map. exists zy. split; [apply In_upto; lia|].
  apply in_map_iff. exists zx. split; [reflexivity | apply In_upto; lia].
Qed.

End Culler.

Section CullerWitnesses.
Import JsNumber WeatherGrid.
Local Open Scope Q_scope.

Lemma tileable_by_evaluation (p : Q) :
  Qeq_bool (double p) p = true ->
  Qle_bool (2 ^ (-1016)) (Qabs p) = true ->
  Qle_bool (Qabs p) (2 ^ 58) = true ->
  tileable p.
Proof.
  intros H1 H2 H3. split; [apply Qeq_bool_eq, H1|]. split.
  - right. apply Qle_bool_iff, H2.
  - apply Qle_bool_iff, H3.
Qed.

Lemma tileable_0 : tileable 0.
Proof.
  split; [reflexivity|]. split; [left; reflexivity | vm_compute; discriminate].
Qed.

(** The point (1000, -3) lies in the zone (1, -1), and so does a point a
    tiny step left of the origin lie in column -1. *)
Lemma worldToZone_locates_the_point_witness :
  (tileable 1000 /\ tileable (- (3)) /\ tileable (- (1 # 2 ^ 1000)))
  /\ (let zone := zoneAt 1 (-1) in
      (Zone.x zone <= 1000 /\ 1000 < Zone.x zone + Zone.width zone)
      /\ (Zone.y zone <= - (3) /\ - (3) < Zone.y zone + Zone.height zone))
  /\ worldToZone (- (1 # 2 ^ 1000)) (- (3)) = ((-1)%Z, (-1)%Z).
Proof.
  assert (T1 : tileable 1000) by (apply tileable_by_evaluation; vm_compute; reflexivity).
  assert (T2 : tileable (- (3))) by (apply tileable_by_evaluation; vm_compute; reflexivity).
  assert (T3 : tileable (- (1 # 2 ^ 1000)))
    by (apply tileable_by_evaluation; vm_compute; reflexivity).
  split; [split; [exact T1 | split; [exact T2 | exact T3]]|]. split.
  - apply (proj1 (worldToZone_locates_the_point 1000 (- (3)) 1 (-1) T1 T2)).
    vm_compute. reflexivity.
  - apply (proj2 (worldToZone_locates_the_point (- (1 # 2 ^ 1000)) (- (3)) (-1) (-1) T3 T2)).
    vm_compute. repeat split; discriminate.
Defined.

(** A viewport from 0.1 with the width 511.9: the far corner the source
    computes is 512, and the zone of column 1, which starts there, is
    returned. *)
Lemma getVisibleZones_are_the_zones_in_view_witness :
  (tileable (double 0.1) /\ tileable 0
   /\ tileable (double 0.1 + double 511.9)%js /\ tileable (0 + 100)%js)
  /\ (double 0.1 + double 511.9)%js == 512
  /\ In (zoneAt 1 0) (getVisibleZones (double 0.1) 0 (double 511.9) 100 1 4).
Proof.
  assert (T1 : tileable (double 0.1))
    by (apply tileable_by_evaluation; vm_compute; reflexivity).
  assert (T2 : tileable (double 0.1 + double 511.9)%js)
    by (apply tileable_by_evaluation; vm_compute; reflexivity).
  assert (T3 : tileable (0 + 100)%js)
    by (apply tileable_by_evaluation; vm_compute; reflexivity).
  split; [split; [exact T1 | split; [exact tileable_0 | split; [exact T2 | exact T3]]]|].
  split; [vm_compute; reflexivity|].
  apply (proj2 (getVisibleZones_are_the_zones_in_view
                  (double 0.1) 0 (double 511.9) 100 1 4 (zoneAt 1 0)
                  T1 tileable_0 T2 T3)).
  exists 1%Z, 0%Z. split; [reflexivity|].
  split; [lia|]. split; [lia|]. vm_compute. repeat split; discriminate.
Defined.

End CullerWitnesses.

(** ** The weather of a zone is decided by its own tiles *)

Section Locality.
Import JsNumber WeatherGrid.
Local Open Scope nat_scope.

Lemma zone_in_grid_has_tiles (mapData : MapMatrix) (zx zy : nat) :
  zy < ceilDiv (rowsOf mapData) ZONE_SIZE ->
  zx < ceilDiv (colsOf mapData) ZONE_SIZE ->
  zoneTiles mapData zx zy <> [].
Proof.
  intros Hy Hx.
  pose proof (ceilDiv_bounds (rowsOf mapData)) as Br.
  pose proof (ceilDiv_bounds (colsOf mapData)) as Bc.
  assert (Hin : (zy * ZONE_SIZE <? rowsOf mapData) && (zx * ZONE_SIZE <? colsOf mapData)
                = true).
  { apply andb_true_iff. unfold ZONE_SIZE in *. split; apply Nat.ltb_lt; lia. }
  unfold zoneTiles. cbv zeta. change (seq 0 ZONE_SIZE) with (0 :: seq 1 7).
  cbn [flat_map]. rewrite !Nat.add_0_r, Hin. cbn [app]. discriminate.
Qed.

Lemma getZoneDominantTerrain_local (m1 m2 : MapMatrix) (zx zy : nat) :
  zoneTiles m1 zx zy <> [] ->
  zoneTiles m1 zx zy = zoneTiles m2 zx zy ->
  getZoneDominantTerrain m1 zx zy = getZoneDominantTerrain m2 zx zy.
Proof.
  intros Hne E.
  assert (Hc : tileOr m1 (zy * ZONE_SIZE) (zx * ZONE_SIZE)
               = tileOr m2 (zy * ZONE_SIZE) (zx * ZONE_SIZE)).
  { destruct (zoneTiles_head m1 zx zy Hne) as (r1 & E1).
    destruct (zoneTiles_head m2 zx zy ltac:(rewrite <- E; exact Hne)) as (r2 & E2).
    rewrite E1, E2 in E. injection E as E _. exact E. }
  unfold getZoneDominantTerrain. rewrite E, Hc. reflexivity.
Qed.

(** X9.  The weather of a zone is decided by the tiles of that zone, the
    zone's indices and the seed: two maps whose tiles agree on a zone (in
    scan order) give the zone the same weather, whatever they hold
    elsewhere. *)
Theorem zone_weather_depends_on_its_own_tiles
  (m1 m2 : MapMatrix) (seed : Z) (zx zy : nat) :
  zy < ceilDiv (rowsOf m1) ZONE_SIZE -> zx < ceilDiv (colsOf m1) ZONE_SIZE ->
  zy < ceilDiv (rowsOf m2) ZONE_SIZE -> zx < ceilDiv (colsOf m2) ZONE_SIZE ->
  zoneTiles m1 zx zy = zoneTiles m2 zx zy ->
  cellAt (buildWeatherGrid m1 seed) (Z.of_nat zy) (Z.of_nat zx)
  = cellAt (buildWeatherGrid m2 seed) (Z.of_nat zy) (Z.of_nat zx).
Proof.
  intros Hy1 Hx1 Hy2 Hx2 E.
  rewrite (buildWeatherGrid_cell m1 seed zy zx Hy1 Hx1).
  rewrite (buildWeatherGrid_cell m2 seed zy zx Hy2 Hx2).
  unfold zoneWeather.
  rewrite (getZoneDominantTerrain_local m1 m2 zx zy
             (zone_in_grid_has_tiles m1 zx zy Hy1 Hx1) E).
  reflexivity.
Qed.

End Locality.

Section LocalityWitness.
Import JsNumber WeatherGrid.
Local Open Scope nat_scope.
Local Open Scope string_scope.

Lemma zone_weather_depends_on_its_own_tiles_witness :
  let m1 := [(repeat "SEA" 8 ++ ["DESERT"])%list] in
  let m2 := [(repeat "SEA" 8 ++ ["FOREST"; "FOREST"])%list] in
  (0 < ceilDiv (rowsOf m1) ZONE_SIZE /\ 0 < ceilDiv (colsOf m1) ZONE_SIZE
   /\ 0 < ceilDiv (rowsOf m2) ZONE_SIZE /\ 0 < ceilDiv (colsOf m2) ZONE_SIZE
   /\ zoneTiles m1 0 0 = zoneTiles m2 0 0)
  /\ cellAt (buildWeatherGrid m1 7) 0 0 = cellAt (buildWeatherGrid m2 7) 0 0.
Proof.
  cbv zeta.
  assert (H1 : 0 < ceilDiv (rowsOf [(repeat "SEA" 8 ++ ["DESERT"])%list]) ZONE_SIZE)
    by (vm_compute; lia).
  assert (H2 : 0 < ceilDiv (colsOf [(repeat "SEA" 8 ++ ["DESERT"])%list]) ZONE_SIZE)
    by (vm_compute; lia).
  assert (H3 : 0 < ceilDiv (rowsOf [(repeat "SEA" 8 ++ ["FOREST"; "FOREST"])%list]) ZONE_SIZE)
    by (vm_compute; lia).
  assert (H4 : 0 < ceilDiv (colsOf [(repeat "SEA" 8 ++ ["FOREST"; "FOREST"])%list]) ZONE_SIZE)
    by (vm_compute; lia).
  assert (H5 : zoneTiles [(repeat "SEA" 8 ++ ["DESERT"])%list] 0 0
               = zoneTiles [(repeat "SEA" 8 ++ ["FOREST"; "FOREST"])%list] 0 0)
    by (vm_compute; reflexivity).
  split; [repeat split; assumption|].
  exact (zone_weather_depends_on_its_own_tiles _ _ 7%Z 0 0 H1 H2 H3 H4 H5).
Defined.

End LocalityWitness.

(** ** The life cycle of the weather layer *)

(** From [Some a = Some b] with [b] a variable, replaces [b] by [a]. *)
Ltac returned H :=
  match type of H with
  | Some ?a = Some ?b =>
      let E := fresh in
      assert (E : b = a) by (symmetry; congruence); subst b; clear H
  end.


Section ThroughAFrame.
Import WeatherLayer.
Local Open Scope nat_scope.
Variable entropy : nat -> Q.
Variable Math_sin : Q -> Q.
Variable Math_PI : Q.

(** What a frame does not write. *)
Lemma tick_keeps {X : Type} (f : World -> X) :
  SceneBlind f ->
  Ignores set_rainContainer f ->
  Ignores set_rainPool f -> Ignores set_windPool f -> Ignores set_snowPool f ->
  Ignores set_stormOverlay f ->
  Ignores set_lightningGraphics f -> Ignores set_lightningAlpha f ->
  Ignores set_lightningPhase f ->
  Ignores set_stormAccum f -> Ignores (V := nat) set_thunder f ->
  forall env fuel dt w w',
    tick entropy Math_sin Math_PI env fuel dt w = Some w' -> f w' = f w.
Proof.
  intros Hb Hrc Hr Hw Hs Ho Hg Ha Hp Hacc Hth env fuel dt w w' Ht.
  apply tick_cases in Ht. cbv zeta in Ht.
  destruct Ht as [-> | (rz & wz & sz & tz & hs & w3 & Ht & ->)].
  - apply Keeps_exec, Keeps_setupContainers; assumption.
  - rewrite (Keeps_exec f _ (Keeps_updateLightning f Hb dt Hg Ha Hp)).
    rewrite (tryLightning_keeps entropy env f Hb Hg Ha Hp Hacc Hth _ _ _ _ _ Ht).
    rewrite (Keeps_exec f _ (Keeps_integrateSnow entropy Math_sin f Hb Hs dt)).
    rewrite (Keeps_exec f _ (Keeps_integrateWind f Hb Hw dt)).
    rewrite (Keeps_exec f _ (Keeps_integrateRain entropy f Hb Hr dt)).
    rewrite (Keeps_exec f _ (Keeps_ensureStormOverlay f Hb hs Ho)).
    rewrite (Keeps_exec f _ (Keeps_ensureSnowParticles entropy Math_PI env f Hb Hs _ _)).
    rewrite (Keeps_exec f _ (Keeps_ensureWindParticles entropy Math_PI env f Hb Hw _ _)).
    rewrite (Keeps_exec f _ (Keeps_ensureRainParticles entropy env f Hb Hr _ _)).
    apply Keeps_exec, Keeps_setupContainers; assumption.
Qed.

Lemma tick_ticker env fuel dt w w' :
  tick entropy Math_sin Math_PI env fuel dt w = Some w' -> ticker w' = ticker w.
Proof. apply (tick_keeps ticker); frame_side. Qed.

End ThroughAFrame.

Section Mounting.
Import WeatherLayer.
Local Open Scope nat_scope.

(** [getWeatherLevel().rain === 0] holds for the preset none alone: the
    counts of the other presets are positive, and the inherited members
    have no [rain]. *)
Lemma rain_level_zero_iff env :
  strictEq (Level.rain (getWeatherLevel env)) 0 = true
  <-> Env.weather env = Some Setting.none.
Proof.
  unfold getWeatherLevel. destruct (Env.weather env) as [[| | | |]|]; cbn; split;
    first [reflexivity | discriminate].
Qed.

Lemma allZero_iff env :
  allZero (getWeatherLevel env) = true <-> Env.weather env = Some Setting.none.
Proof.
  unfold getWeatherLevel. destruct (Env.weather env) as [[| | | |]|]; cbn; split;
    first [reflexivity | discriminate].
Qed.

Lemma created_weatherGrid env :
  weatherGrid (created env)
  = match Env.mapData env with
    | Some ((t :: row) :: rows) =>
        WeatherGrid.buildWeatherGrid ((t :: row) :: rows) WeatherGrid.defaultSeed
    | _ => []
    end.
Proof.
  unfold created, watchMapData.
  destruct (Env.mapData env) as [[|[|t row] rows]|]; reflexivity.
Qed.

Lemma buildWeatherGrid_nonempty t row rows seed :
  (0 < len (WeatherGrid.buildWeatherGrid ((t :: row) :: rows) seed))%Z.
Proof.
  unfold WeatherGrid.buildWeatherGrid, len.
  cbn [WeatherGrid.rowsOf WeatherGrid.colsOf List.length Nat.eqb orb].
  rewrite length_map, length_seq.
  pose proof (ceilDiv_bounds (S (List.length rows))) as H.
  unfold WeatherGrid.ZONE_SIZE in *. lia.
Qed.

Lemma onMounted_ticker env w :
  ticker (exec (onMounted env) w)
  = if negb (strictEq (Level.rain (getWeatherLevel env)) 0) && (0 <? len (weatherGrid w))%Z
    then true else ticker w.
Proof.
  unfold onMounted. rewrite exec_seq, exec_bind. cbn [get fst snd].
  rewrite (Keeps_exec weatherGrid _
             (Keeps_setupContainers weatherGrid ltac:(frame_side) ltac:(frame_side))).
  destruct (_ && _).
  - unfold startTicker, exec, bind, get, modify. cbn [fst snd].
    destruct (ticker (snd (setupContainers w))) eqn:E; cbn; [exact E | reflexivity].
  - cbn [ret exec snd].
    apply (Keeps_exec ticker _
             (Keeps_setupContainers ticker ltac:(frame_side) ltac:(frame_side))).
Qed.

Lemma mount_ticker env w :
  ticker (exec (mount env) w)
  = if negb (strictEq (Level.rain (getWeatherLevel env)) 0) && (0 <? len (weatherGrid w))%Z
    then true else ticker w.
Proof.
  unfold mount. rewrite exec_bind, exec_seq. rewrite onMounted_ticker. reflexivity.
Qed.

(** X10.  Mounting a freshly created component starts the ticker exactly
    when the weather setting is not the preset none and the map has a first
    row with a tile in it.  An absent or unknown setting counts as the
    preset high; the name of a member inherited from [Object.prototype]
    gives an object without a rain count, which is not zero either. *)
Theorem mounting_starts_the_ticker_iff_weather_and_map (env : Env.t) :
  ticker (exec (mount env) (created env)) = true
  <-> Env.weather env <> Some Setting.none
      /\ exists t row rows, Env.mapData env = Some ((t :: row) :: rows).
Proof.
  rewrite mount_ticker, created_weatherGrid.
  assert (Ht : ticker (created env) = false)
    by (unfold created; drop_exec; reflexivity).
  rewrite Ht.
  destruct (strictEq (Level.rain (getWeatherLevel env)) 0) eqn:Er; cbn [negb andb].
  - apply (proj1 (rain_level_zero_iff env)) in Er. split; [discriminate|].
    intros [Hne _]. contradiction.
  - assert (Hne : Env.weather env <> Some Setting.none).
    { intros E. apply (proj2 (rain_level_zero_iff env)) in E. rewrite E in Er.
      discriminate Er. }
    destruct (Env.mapData env) as [[|[|t row] rows]|] eqn:Em.
    + split; [discriminate | intros [_ (t & row & rows & E)]; discriminate E].
    + split; [discriminate | intros [_ (t & row' & rows' & E)]; discriminate E].
    + pose proof (buildWeatherGrid_nonempty t row rows WeatherGrid.defaultSeed) as Hl.
      apply Z.ltb_lt in Hl. rewrite Hl. split; [|reflexivity].
      intros _. split; [exact Hne | exists t, row, rows; reflexivity].
    + split; [discriminate | intros [_ (t & row & rows & E)]; discriminate E].
Qed.

End Mounting.

Section TickerOff.
Import WeatherLayer.
Local Open Scope nat_scope.
Local Open Scope Q_scope.
Variable entropy : nat -> Q.
Variable Math_sin : Q -> Q.
Variable Math_PI : Q.

Lemma stopTicker_stormAccum : Sets stormAccum 0 stopTicker.
Proof.
  assert (SceneBlind stormAccum) by frame_side.
  assert (Ignores set_lightningGraphics stormAccum) by frame_side.
  assert (Ignores set_rainPool stormAccum) by frame_side.
  assert (Ignores set_windPool stormAccum) by frame_side.
  assert (Ignores set_snowPool stormAccum) by frame_side.
  unfold stopTicker, attached, destroy.
  apply Sets_bind_right; intros _.
  apply Sets_bind_left; [intros ?; reflexivity | intros ?; keeps].
Qed.

Lemma Keeps_mount {X : Type} (f : World -> X) env :
  SceneBlind f -> Ignores set_rainContainer f -> Ignores set_ticker f ->
  Ignores set_container f ->
  Keeps f (mount env).
Proof.
  intros Hb Hr Ht Hc. unfold mount.
  apply Keeps_bind; [apply Keeps_new; assumption | intros c].
  apply Keeps_bind; [apply Keeps_modify_const; assumption | intros _].
  apply Keeps_onMounted; assumption.
Qed.

Lemma Keeps_tail_of_unmount {X : Type} (f : World -> X) :
  SceneBlind f -> Ignores set_rainContainer f -> Ignores set_stormOverlay f ->
  Ignores set_container f ->
  forall w, f (exec unmount w) = f (exec stopTicker w).
Proof.
  intros Hb Hr Ho Hc w. unfold unmount, onUnmounted.
  rewrite !exec_seq.
  match goal with
  | |- f (exec ?m3 (exec ?m2 (exec ?m1 _))) = _ =>
      assert (K1 : Keeps f m1) by keeps;
      assert (K2 : Keeps f m2) by (unfold attached, destroy; keeps);
      assert (K3 : Keeps f m3) by keeps
  end.
  rewrite (Keeps_exec f _ K3), (Keeps_exec f _ K2), (Keeps_exec f _ K1). reflexivity.
Qed.

Lemma startTicker_ticker w : ticker (exec startTicker w) = true.
Proof.
  unfold startTicker, exec, bind, get, modify. cbn [fst snd].
  destruct (ticker w) eqn:E; cbn; [exact E | reflexivity].
Qed.

Lemma stopTicker_idle w : idle (exec stopTicker w).
Proof.
  split; [|split; [|split]]; apply Sets_exec.
  - apply stopTicker_rainPool.
  - apply stopTicker_windPool.
  - apply stopTicker_snowPool.
  - apply stopTicker_stormAccum.
Qed.

Lemma idle_same w w' :
  rainPool w' = rainPool w -> windPool w' = windPool w -> snowPool w' = snowPool w ->
  stormAccum w' = stormAccum w -> idle w -> idle w'.
Proof. unfold idle. intros -> -> -> ->. exact (fun H => H). Qed.

(** X11.  In every state the component can be in, while there is no ticker
    the three particle pools are empty and the storm accumulator is zero:
    particles exist only while the animation runs. *)
Theorem particles_only_while_the_ticker_runs (w : World) :
  reachable entropy Math_sin Math_PI w ->
  ticker w = false ->
  rainPool w = [] /\ windPool w = [] /\ snowPool w = [] /\ stormAccum w = 0.
Proof.
  fold (idle w).
  induction 1 as [env | env w _ IH | env fuel dt w w' _ IH Hf | env w _ IH | env w _ IH | w _ _];
    intros Hoff.
  - unfold idle. split; [|split; [|split]]; unfold created; drop_exec; reflexivity.
  - assert (Hw : ticker w = false).
    { rewrite mount_ticker in Hoff. destruct (_ && _); [discriminate | exact Hoff]. }
    apply (idle_same w); try exact (IH Hw);
      [ apply (Keeps_exec rainPool) | apply (Keeps_exec windPool)
      | apply (Keeps_exec snowPool) | apply (Keeps_exec stormAccum) ];
      apply Keeps_mount; frame_side.
  - unfold frame in Hf. destruct (ticker w) eqn:Et.
    + rewrite (tick_ticker _ _ _ _ _ _ _ _ Hf) in Hoff. congruence.
    + injection Hf as <-. exact (IH eq_refl).
  - assert (E : ticker (exec (watchMapData env) w) = ticker w) by (drop_exec; reflexivity).
    rewrite E in Hoff.
    apply (idle_same w); try exact (IH Hoff); drop_exec; reflexivity.
  - unfold watchLevel in *. cbv zeta in *.
    destruct (allZero _); [apply stopTicker_idle|].
    rewrite exec_bind in *. cbn [get fst snd] in *.
    destruct (_ <? _)%Z.
    + rewrite startTicker_ticker in Hoff. discriminate.
    + exact (IH Hoff).
  - destruct (stopTicker_idle w) as (Hr & Hw & Hs & Ha).
    split; [|split; [|split]].
    + rewrite (Keeps_tail_of_unmount rainPool); [exact Hr | frame_side ..].
    + rewrite (Keeps_tail_of_unmount windPool); [exact Hw | frame_side ..].
    + rewrite (Keeps_tail_of_unmount snowPool); [exact Hs | frame_side ..].
    + rewrite (Keeps_tail_of_unmount stormAccum); [exact Ha | frame_side ..].
Qed.

End TickerOff.

Section StormClock.
Import WeatherLayer.
Local Open Scope nat_scope.
Local Open Scope Q_scope.
Variable entropy : nat -> Q.
Variable Math_sin : Q -> Q.
Variable Math_PI : Q.

Lemma ltb_lt (a b : Q) : JsNumber.ltb a b = true -> a < b.
Proof.
  unfold JsNumber.ltb. intros H. apply negb_true_iff in H.
  destruct (Qlt_le_dec a b) as [Hlt | Hle]; [exact Hlt|].
  apply Qle_bool_iff in Hle. congruence.
Qed.

Lemma ltb_ge (a b : Q) : JsNumber.ltb a b = false -> b <= a.
Proof.
  unfold JsNumber.ltb. intros H. apply negb_false_iff in H.
  apply Qle_bool_iff, H.
Qed.

(** After [tryLightning] the accumulator is as before or below the half
    unit at which it is reset. *)
Lemma tryLightning_accum env fuel dt zs w w' :
  tryLightning entropy env fuel dt zs w = Some w' ->
  stormAccum w' = stormAccum w \/ stormAccum w' < 0.5.
Proof.
  unfold tryLightning.
  destruct (_ =? _)%Z; [intros H; injection H as <-; left; reflexivity|].
  lazy zeta.
  destruct (leq _ _); [intros H; injection H as <-; left; reflexivity|].
  destruct (JsNumber.ltb _ _) eqn:El.
  - intros H; returned H. right. apply ltb_lt, El.
  - clear El. destruct (gt _ _).
    + intros H; returned H. right. reflexivity.
    + intros H.
      rewrite (triggerLightning_keeps entropy stormAccum ltac:(frame_side) ltac:(frame_side)
                 ltac:(frame_side) ltac:(frame_side) ltac:(frame_side) _ _ _ _ H).
      right. reflexivity.
Qed.

Lemma tick_accum env fuel dt w w' :
  tick entropy Math_sin Math_PI env fuel dt w = Some w' ->
  stormAccum w' = stormAccum w \/ stormAccum w' < 0.5.
Proof.
  intros Ht. apply tick_cases in Ht. cbv zeta in Ht.
  destruct Ht as [-> | (rz & wz & sz & tz & hs & w3 & Ht & ->)].
  - left. drop_exec. reflexivity.
  - drop_exec. destruct (tryLightning_accum _ _ _ _ _ _ Ht) as [E | Hlt]; [|right; exact Hlt].
    left. rewrite E. repeat drop_exec. reflexivity.
Qed.

(** X12.  In every state the component can be in, the storm accumulator is
    below the half unit at which [tryLightning] resets it: between two
    frames it never holds a whole period. *)
Theorem storm_accumulator_stays_below_its_period (w : World) :
  reachable entropy Math_sin Math_PI w -> stormAccum w < 0.5.
Proof.
  induction 1 as [env | env w _ IH | env fuel dt w w' _ IH Hf | env w _ IH | env w _ IH | w _ _].
  - unfold created. drop_exec. reflexivity.
  - rewrite (Keeps_exec stormAccum _
               (Keeps_mount stormAccum env ltac:(frame_side) ltac:(frame_side)
                  ltac:(frame_side) ltac:(frame_side))).
    exact IH.
  - unfold frame in Hf. destruct (ticker w).
    + destruct (tick_accum _ _ _ _ _ Hf) as [-> | Hlt]; assumption.
    + injection Hf as <-. exact IH.
  - drop_exec. exact IH.
  - unfold watchLevel. cbv zeta.
    destruct (allZero _).
    + rewrite (Sets_exec _ _ _ stopTicker_stormAccum). reflexivity.
    + rewrite exec_bind. cbn [get fst snd].
      destruct (_ <? _)%Z; [drop_exec|]; exact IH.
  - rewrite (Keeps_tail_of_unmount stormAccum) by frame_side.
    rewrite (Sets_exec _ _ _ stopTicker_stormAccum). reflexivity.
Qed.

End StormClock.

Section LightningLive.
Import WeatherLayer.
Local Open Scope nat_scope.
Local Open Scope Q_scope.
Variable entropy : nat -> Q.
Variable Math_sin : Q -> Q.
Variable Math_PI : Q.

Lemma lightningLive_same w w' :
  lightningGraphics w' = lightningGraphics w ->
  lightningPhase w' = lightningPhase w ->
  lightningAlpha w' = lightningAlpha w ->
  lightningLive w -> lightningLive w'.
Proof. unfold lightningLive. intros -> -> ->. exact (fun H => H). Qed.

Lemma lightningLive_none w : lightningGraphics w = None -> lightningLive w.
Proof. intros E g Hg. congruence. Qed.

Lemma Qle_bool_false_lt (a b : Q) : Qle_bool a b = false -> b < a.
Proof.
  intros E. apply Qnot_le_lt. intros H. apply Qle_bool_iff in H. congruence.
Qed.

Ltac fields :=
  cbn [fst snd lightningAlpha lightningPhase lightningGraphics set_lightningAlpha
       set_lightningPhase set_nodes set_lightningGraphics] in *.

(** [updateLightning] keeps a flash alive or ends it. *)
Lemma updateLightning_live dt w :
  lightningLive w -> lightningLive (exec (updateLightning dt) w).
Proof.
  intros Hl. destruct (lightningGraphics w) as [g|] eqn:Hg.
  - destruct (Hl g Hg) as [Hp Ha].
    unfold updateLightning, exec, bind, get, modify, onNode, destroy, onNode, modify, ret.
    cbn [fst snd]. rewrite Hg. cbv zeta. cbn [fst snd].
    destruct (lightningPhase w) eqn:Ep; [| | |contradiction].
    + destruct (Qle_bool (lightningAlpha w - dt * 7)%js 0.25) eqn:E1; fields.
      * change (Qle_bool 0.25 0) with false. fields.
        intros g' _. fields. split; [discriminate | reflexivity].
      * destruct (Qle_bool (lightningAlpha w - dt * 7)%js 0) eqn:E2; fields.
        -- apply lightningLive_none. reflexivity.
        -- intros g' _. fields. rewrite Ep. split; [discriminate|].
           apply Qle_bool_false_lt, E2.
    + destruct (Qle_bool (lightningAlpha w - dt * 2)%js (JsNumber.double 0.15)) eqn:E1; fields.
      * rewrite double_0_65.
        change (Qle_bool (5854679515581645 # 9007199254740992) 0) with false. fields.
        intros g' _. fields. split; [discriminate | reflexivity].
      * destruct (Qle_bool (lightningAlpha w - dt * 2)%js 0) eqn:E2; fields.
        -- apply lightningLive_none. reflexivity.
        -- intros g' _. fields. rewrite Ep. split; [discriminate|].
           apply Qle_bool_false_lt, E2.
    + destruct (Qle_bool (lightningAlpha w - dt * 7)%js 0) eqn:E2; fields; rewrite ?E2; fields.
      * apply lightningLive_none. reflexivity.
      * intros g' _. fields. rewrite Ep. split; [discriminate|].
        apply Qle_bool_false_lt, E2.
  - unfold updateLightning, exec, bind, get. cbn [fst snd]. rewrite Hg. exact Hl.
Qed.

Lemma triggerLightning_live fuel zs w w0 :
  triggerLightning entropy fuel zs w = Some w0 -> lightningLive w -> lightningLive w0.
Proof.
  intros Ht Hl. destruct (container w) as [c|] eqn:Hc.
  - destruct zs as [|z zs].
    + unfold triggerLightning in Ht. rewrite Hc in Ht. cbn in Ht. returned Ht. exact Hl.
    + destruct (triggerLightning_flash entropy fuel (z :: zs) w w0 c Hc ltac:(discriminate) Ht)
        as (g & (Hg & Hp & Ha & _) & _).
      intros g' _. rewrite Hp. split; [discriminate | exact Ha].
  - unfold triggerLightning in Ht. rewrite Hc in Ht. returned Ht. exact Hl.
Qed.

Lemma tryLightning_live env fuel dt zs w w' :
  tryLightning entropy env fuel dt zs w = Some w' -> lightningLive w -> lightningLive w'.
Proof.
  unfold tryLightning. intros Ht Hl. revert Ht.
  destruct (_ =? _)%Z; [intros H; returned H; exact Hl|].
  lazy zeta.
  destruct (leq _ _); [intros H; returned H; exact Hl|].
  match goal with
  | |- context [JsNumber.ltb ?a ?b] => destruct (JsNumber.ltb a b)
  end; [intros H; returned H; exact Hl|].
  match goal with
  | |- context [gt ?a ?b] => destruct (gt a b)
  end; [intros H; returned H; exact Hl|].
  intros H. apply (triggerLightning_live _ _ _ _ H). exact Hl.
Qed.

Lemma tick_live env fuel dt w w' :
  tick entropy Math_sin Math_PI env fuel dt w = Some w' ->
  lightningLive w -> lightningLive w'.
Proof.
  intros Ht Hl. apply tick_cases in Ht. cbv zeta in Ht.
  destruct Ht as [-> | (rz & wz & sz & tz & hs & w3 & Ht & ->)].
  - apply (lightningLive_same w); try exact Hl; drop_exec; reflexivity.
  - apply updateLightning_live. apply (tryLightning_live _ _ _ _ _ _ Ht).
    apply (lightningLive_same w); try exact Hl; repeat drop_exec; reflexivity.
Qed.

(** The three fields of the lightning, observed together. *)
Lemma Hoare_lightningLive {A : Type} (m : M A) :
  Keeps (fun w => (lightningGraphics w, lightningPhase w, lightningAlpha w)) m ->
  Hoare lightningLive m (fun _ => lightningLive).
Proof.
  intros Hk w Hl. specialize (Hk w). injection Hk as E1 E2 E3.
  exact (lightningLive_same _ _ E1 E2 E3 Hl).
Qed.

(** The teardown forgets the lightning node or leaves it as it is. *)
Lemma stopTicker_live : Hoare lightningLive stopTicker (fun _ => lightningLive).
Proof.
  set (f := fun w => (lightningGraphics w, lightningPhase w, lightningAlpha w)).
  assert (SceneBlind f) by frame_side.
  assert (Ignores set_ticker f) by frame_side.
  assert (Ignores set_stormAccum f) by frame_side.
  assert (Ignores set_rainPool f) by frame_side.
  assert (Ignores set_windPool f) by frame_side.
  assert (Ignores set_snowPool f) by frame_side.
  unfold stopTicker, attached, destroy.
  do 3 (apply (Hoare_bind _ (fun _ => lightningLive));
        [apply Hoare_lightningLive; fold f; keeps | intros ?]).
  apply (Hoare_bind _ (fun _ => lightningLive));
    [apply Hoare_lightningLive; fold f; keeps | intros ?].
  apply (Hoare_bind _ (fun _ => lightningLive));
    [apply Hoare_lightningLive; fold f; keeps | intros _].
  apply (Hoare_bind _ (fun _ => lightningLive));
    [apply Hoare_lightningLive; fold f; keeps | intros g].
  apply (Hoare_bind _ (fun _ => lightningLive));
    [apply Hoare_lightningLive; fold f; keeps | intros a'].
  apply (Hoare_bind _ (fun _ => lightningLive)).
  { destruct g as [g|]; [destruct a'|]; try (intros w Hl; exact Hl).
    intros w _. apply lightningLive_none. reflexivity. }
  intros _. apply Hoare_lightningLive. fold f. keeps.
Qed.

(** X13.  In every state the component can be in, a lightning node exists
    only in the course of a flash: while there is one, the phase is first,
    dim or second and the opacity is positive.  So the branch of
    [updateLightning] for the phase out never runs with a node in place. *)
Theorem lightning_node_only_during_a_flash (w : World) (g : Handle) :
  reachable entropy Math_sin Math_PI w ->
  lightningGraphics w = Some g ->
  lightningPhase w <> Phase.out /\ 0 < lightningAlpha w.
Proof.
  intros Hr. revert g. fold (lightningLive w).
  induction Hr as [env | env w _ IH | env fuel dt w w' _ IH Hf | env w _ IH | env w _ IH | w _ IH].
  - apply lightningLive_none. unfold created. drop_exec. reflexivity.
  - apply (lightningLive_same w); try exact IH;
      [ apply (Keeps_exec lightningGraphics) | apply (Keeps_exec lightningPhase)
      | apply (Keeps_exec lightningAlpha) ];
      apply Keeps_mount; frame_side.
  - unfold frame in Hf. destruct (ticker w).
    + exact (tick_live _ _ _ _ _ Hf IH).
    + returned Hf. exact IH.
  - apply (lightningLive_same w); try exact IH; drop_exec; reflexivity.
  - unfold watchLevel. cbv zeta. destruct (allZero _).
    + apply stopTicker_live, IH.
    + rewrite exec_bind. cbn [get fst snd].
      destruct (_ <? _)%Z; [|exact IH].
      apply (lightningLive_same w); try exact IH; drop_exec; reflexivity.
  - apply (lightningLive_same (exec stopTicker w)); [| | |apply stopTicker_live, IH].
    + apply (Keeps_tail_of_unmount lightningGraphics); frame_side.
    + apply (Keeps_tail_of_unmount lightningPhase); frame_side.
    + apply (Keeps_tail_of_unmount lightningAlpha); frame_side.
Qed.

End LightningLive.

Section LifeCycleWitnesses.
Import WeatherLayer.
Local Open Scope nat_scope.
Local Open Scope Q_scope.

Lemma particles_only_while_the_ticker_runs_witness :
  let w := exec (watchLevel (Scenario.env Setting.none)) Scenario.afterFrame in
  (reachable Scenario.entropy Scenario.Math_sin Scenario.Math_PI w /\ ticker w = false)
  /\ rainPool w = [].
Proof.
  assert (Hr : reachable Scenario.entropy Scenario.Math_sin Scenario.Math_PI
                 (exec (watchLevel (Scenario.env Setting.none)) Scenario.afterFrame))
    by (apply reach_watchLevel, scenario_reachable).
  assert (Ht : ticker (exec (watchLevel (Scenario.env Setting.none)) Scenario.afterFrame)
               = false) by (vm_compute; reflexivity).
  split; [split; [exact Hr | exact Ht]|].
  exact (proj1 (particles_only_while_the_ticker_runs
                  Scenario.entropy Scenario.Math_sin Scenario.Math_PI _ Hr Ht)).
Defined.

Lemma storm_accumulator_stays_below_its_period_witness :
  reachable Scenario.entropy Scenario.Math_sin Scenario.Math_PI Scenario.afterFrame
  /\ stormAccum Scenario.afterFrame < 0.5.
Proof.
  split; [exact scenario_reachable|].
  exact (storm_accumulator_stays_below_its_period
           Scenario.entropy Scenario.Math_sin Scenario.Math_PI _ scenario_reachable).
Defined.

Lemma lightning_node_only_during_a_flash_witness :
  (reachable Scenario.entropy Scenario.Math_sin Scenario.Math_PI Scenario.afterFrame
   /\ lightningGraphics Scenario.afterFrame = Some 143%nat)
  /\ lightningPhase Scenario.afterFrame <> Phase.out.
Proof.
  assert (Hg : lightningGraphics Scenario.afterFrame = Some 143%nat)
    by (vm_compute; reflexivity).
  split; [split; [exact scenario_reachable | exact Hg]|].
  exact (proj1 (lightning_node_only_during_a_flash
                  Scenario.entropy Scenario.Math_sin Scenario.Math_PI _ _
                  scenario_reachable Hg)).
Defined.

End LifeCycleWitnesses.

(** ** Nodes created on demand *)

Section OnDemand.
Import WeatherLayer.
Local Open Scope nat_scope.
Variable entropy : nat -> Q.
Variable Math_sin : Q -> Q.
Variable Math_PI : Q.

Lemma ensureStormOverlay_overlay hasStorm w o :
  stormOverlay w = Some o -> stormOverlay (exec (ensureStormOverlay hasStorm) w) = Some o.
Proof.
  intros Ho. unfold ensureStormOverlay, exec, bind, get. cbn [fst snd].
  destruct (container w); [|exact Ho]. rewrite Ho. destruct hasStorm; exact Ho.
Qed.

Lemma tick_overlay env fuel dt w w' o :
  tick entropy Math_sin Math_PI env fuel dt w = Some w' ->
  stormOverlay w = Some o -> stormOverlay w' = Some o.
Proof.
  intros Ht Ho. apply tick_cases in Ht. cbv zeta in Ht.
  destruct Ht as [-> | (rz & wz & sz & tz & hs & w3 & Ht & ->)].
  - drop_exec. exact Ho.
  - drop_exec.
    rewrite (tryLightning_keeps entropy env stormOverlay ltac:(frame_side)
               ltac:(frame_side) ltac:(frame_side) ltac:(frame_side) ltac:(frame_side)
               ltac:(frame_side) _ _ _ _ _ Ht).
    do 3 drop_exec. apply ensureStormOverlay_overlay. repeat drop_exec. exact Ho.
Qed.

(** X14.  The rain container and the storm overlay are created on demand
    and then reused: a frame and the watchers leave a rain container and
    an overlay that exist in place, so each is created at most once between
    mounting and unmounting. *)
Theorem nodes_created_on_demand_are_reused
  (env : Env.t) (fuel : nat) (dt : Q) (w w' : World) :
  frame entropy Math_sin Math_PI env fuel dt w = Some w' ->
  (forall r, rainContainer w = Some r -> rainContainer w' = Some r)
  /\ (forall o, stormOverlay w = Some o -> stormOverlay w' = Some o)
  /\ (forall env',
         rainContainer (exec (watchLevel env') w) = rainContainer w
         /\ stormOverlay (exec (watchLevel env') w) = stormOverlay w
         /\ rainContainer (exec (watchMapData env') w) = rainContainer w
         /\ stormOverlay (exec (watchMapData env') w) = stormOverlay w).
Proof.
  intros Hf. split; [|split].
  - intros r Hr. unfold frame in Hf. destruct (ticker w); [|returned Hf; exact Hr].
    destruct (tick_containers _ _ _ _ _ _ _ _ Hf) as [_ ->].
    rewrite setupContainers_rainContainer, Hr. reflexivity.
  - intros o Ho. unfold frame in Hf. destruct (ticker w); [|returned Hf; exact Ho].
    exact (tick_overlay _ _ _ _ _ _ Hf Ho).
  - intros env'.
    assert (Hs : rainContainer (exec stopTicker w) = rainContainer w).
    { assert (SceneBlind rainContainer) by frame_side.
      assert (Ignores set_ticker rainContainer) by frame_side.
      assert (Ignores set_stormAccum rainContainer) by frame_side.
      assert (Ignores set_lightningGraphics rainContainer) by frame_side.
      assert (Ignores set_rainPool rainContainer) by frame_side.
      assert (Ignores set_windPool rainContainer) by frame_side.
      assert (Ignores set_snowPool rainContainer) by frame_side.
      apply Keeps_exec. unfold stopTicker, attached, destroy. keeps. }
    unfold watchLevel. cbv zeta. destruct (allZero _).
    + split; [exact Hs|]. split; [apply (Keeps_exec _ _ Keeps_stopTicker_overlay)|].
      split; drop_exec; reflexivity.
    + rewrite !exec_bind. cbn [get fst snd].
      destruct (_ <? _)%Z; repeat split; try drop_exec; reflexivity.
Qed.

End OnDemand.

Section OnDemandWitness.
Import WeatherLayer.
Local Open Scope nat_scope.

Lemma nodes_created_on_demand_are_reused_witness :
  frame Scenario.entropy Scenario.Math_sin Scenario.Math_PI
    (Scenario.env Setting.high) 5 1 Scenario.mounted = Some Scenario.afterFrame
  /\ (forall r, rainContainer Scenario.mounted = Some r ->
                rainContainer Scenario.afterFrame = Some r).
Proof.
  split; [exact scenario_frame|].
  exact (proj1 (nodes_created_on_demand_are_reused
                  Scenario.entropy Scenario.Math_sin Scenario.Math_PI
                  (Scenario.env Setting.high) 5 1 Scenario.mounted Scenario.afterFrame
                  scenario_frame)).
Defined.

End OnDemandWitness.

(** ** The zones a lightning strikes *)

Section Strike.
Import WeatherLayer.
Local Open Scope Z_scope.
Variable entropy : nat -> Q.

(** [Math.floor(Math.random() * n)] is an index below [n]: the product of
    a double below one with [n], rounded to a double, stays below [n]. *)
Lemma drawn_index_in_range (w : World) (n : Z) :
  0 < n -> 0 <= Qfloor (fst (Math_random entropy w) * inject_Z n)%js < n.
Proof.
  intros Hn. destruct (Math_random_bounds entropy w) as [Hlo Hhi].
  apply index_in_range; [exact Hlo | exact Hhi | lia].
Qed.

Lemma setAdd_spec (i : Z) (indices : list Z) :
  NoDup indices ->
  NoDup (setAdd i indices)
  /\ (forall j, In j (setAdd i indices) <-> j = i \/ In j indices)
  /\ (List.length (setAdd i indices) <= S (List.length indices))%nat.
Proof.
  intros Hnd. unfold setAdd. destruct (existsb (Z.eqb i) indices) eqn:E.
  - split; [exact Hnd|]. split; [|lia].
    intros j. split; [intros H; right; exact H | intros [-> | H]; [|exact H]].
    apply existsb_exists in E. destruct E as (x & Hx & Ex). apply Z.eqb_eq in Ex.
    subst x. exact Hx.
  - split; [|split].
    + apply NoDup_app; [exact Hnd | constructor; [intros [] | constructor]|].
      intros a Ha [<- | []].
      assert (existsb (Z.eqb i) indices = true)
        by (apply existsb_exists; exists i; split; [exact Ha | apply Z.eqb_refl]).
      congruence.
    + intros j. rewrite in_app_iff. cbn [In]. intuition auto.
    + rewrite length_app. cbn [List.length]. lia.
Qed.

Lemma pickIndices_spec (fuel count : nat) (n : Z) (indices : list Z) (w : World)
  (ids : list Z) (w' : World) :
  (0 < n \/ (List.length indices >= count)%nat) ->
  NoDup indices ->
  (forall i, In i indices -> 0 <= i < n) ->
  (List.length indices <= count)%nat ->
  pickIndices entropy fuel count n indices w = Some (ids, w') ->
  NoDup ids /\ (forall i, In i ids -> 0 <= i < n) /\ List.length ids = count.
Proof.
  revert indices w. induction fuel as [|fuel IH]; intros indices w Hn Hnd Hr Hl;
    cbn [pickIndices]; destruct (Nat.ltb_spec (List.length indices) count) as [Hlt | Hge].
  - discriminate.
  - intros H. injection H as <- <-. split; [assumption | split; [assumption | lia]].
  - destruct Hn as [Hn | Hn]; [|lia].
    set (i := Qfloor (fst (Math_random entropy w) * inject_Z n)%js).
    assert (Hi : 0 <= i < n) by (apply drawn_index_in_range; exact Hn).
    destruct (setAdd_spec i indices Hnd) as (Hnd' & Hin' & Hlen').
    apply IH; try assumption.
    + left. exact Hn.
    + intros j Hj. apply Hin' in Hj. destruct Hj as [-> | Hj]; [exact Hi | apply Hr, Hj].
    + lia.
  - intros H. injection H as <- <-. split; [assumption | split; [assumption | lia]].
Qed.


End Strike.

Section StrikeWitness.
Import WeatherLayer.
Local Open Scope nat_scope.


End StrikeWitness.

(** ** Topping up a pool *)

Section TopUp.
Import WeatherLayer.
Local Open Scope nat_scope.
Variable entropy : nat -> Q.
Variable Math_PI : Q.
Variable env : Env.t.

(** X16.  With its container in place and a non-empty zone list, one
    reconcile call brings the pool to the larger of its size and the target
    count: the missing particles are all created in that call and appended
    after the ones the pool held, which stay in place. *)
Theorem reconcile_tops_up_in_one_call
  (k : Kind.t) (zones : list WeatherGrid.Zone.t) (maxCount : Z) (w : World) (c : Handle) :
  poolContainer k w = Some c ->
  zones <> [] ->
  let w' := exec (reconcile entropy Math_PI env k zones maxCount) w in
  poolSize k w' = Z.max (poolSize k w) (target k zones maxCount)
  /\ exists created,
       pooled k w' = pooled k w ++ created
       /\ Z.of_nat (List.length created)
          = Z.max 0 (target k zones maxCount - poolSize k w).
Proof.
  intros Hc Hz w'. subst w'.
  destruct (reconcile_grow entropy Math_PI env k zones maxCount w c Hc Hz) as (l & E & L).
  split.
  - rewrite (poolSize_app _ _ _ _ E), L. pose proof (poolSize_nonneg k w). lia.
  - exists l. split; [exact E | rewrite L; lia].
Qed.

End TopUp.

Section TopUpWitness.
Import WeatherLayer.
Local Open Scope nat_scope.

Lemma reconcile_tops_up_in_one_call_witness :
  (poolContainer Kind.rain Scenario.mounted = Some 1%nat /\ [WeatherGrid.zoneAt 0 0] <> [])
  /\ poolSize Kind.rain
       (exec (reconcile Scenario.entropy Scenario.Math_PI (Scenario.env Setting.high)
                Kind.rain [WeatherGrid.zoneAt 0 0] 320) Scenario.mounted)
     = Z.max (poolSize Kind.rain Scenario.mounted)
         (target Kind.rain [WeatherGrid.zoneAt 0 0] 320).
Proof.
  assert (Hc : poolContainer Kind.rain Scenario.mounted = Some 1%nat)
    by (vm_compute; reflexivity).
  assert (Hz : [WeatherGrid.zoneAt 0 0] <> []) by discriminate.
  split; [split; [exact Hc | exact Hz]|].
  exact (proj1 (reconcile_tops_up_in_one_call Scenario.entropy Scenario.Math_PI
                  (Scenario.env Setting.high) Kind.rain [WeatherGrid.zoneAt 0 0] 320
                  Scenario.mounted 1%nat Hc Hz)).
Defined.

End TopUpWitness.

(** ** What holds of every particle *)

Section ParticleInvariants.
Import WeatherLayer.
Local Open Scope nat_scope.
Local Open Scope Q_scope.
Variable entropy : nat -> Q.
Variable Math_sin : Q -> Q.
Variable Math_PI : Q.

(** A frame that does not return early reconciles, moves and strikes over
    zone rectangles. *)
Lemma tick_over_grid_zones env fuel dt w w' :
  tick entropy Math_sin Math_PI env fuel dt w = Some w' ->
  let w1 := exec setupContainers w in
  w' = w1
  \/ exists rainZones windZones snowZones stormZones w3,
      let level := getWeatherLevel env in
      Forall zoneRect rainZones /\ Forall zoneRect windZones
      /\ Forall zoneRect snowZones /\ Forall zoneRect stormZones
      /\ allZero level = false
      /\ tryLightning entropy env fuel dt stormZones
           (exec (integrateSnow entropy Math_sin dt)
              (exec (integrateWind dt)
                 (exec (integrateRain entropy dt)
                    (exec (ensureStormOverlay (0 <? len stormZones)%Z)
                       (exec (ensureSnowParticles entropy Math_PI env snowZones (Level.snow level))
                          (exec (ensureWindParticles entropy Math_PI env windZones (Level.wind level))
                             (exec (ensureRainParticles entropy env rainZones (Level.rain level))
                                w1)))))))
         = Some w3
      /\ w' = exec (updateLightning dt) w3.
Proof.
  unfold tick. cbv zeta.
  destruct (getViewportBounds env) as [[[bx by_] bw] bh].
  destruct (_ || _); [intros H; injection H as <-; left; reflexivity|].
  destruct (allZero _) eqn:Ez; [intros H; injection H as <-; left; reflexivity|].
  match goal with
  | |- match tryLightning _ _ _ _ ?sz ?w2 with _ => _ end = _ -> _ =>
      destruct (tryLightning entropy env fuel dt sz w2) as [w3|] eqn:Ht;
      [|discriminate]
  end.
  intros H; injection H as <-. right.
  assert (Hz : forall f zoneRows zoneCols,
             Forall zoneRect
               (filter f (WeatherGrid.getVisibleZones bx by_ bw bh zoneRows zoneCols))).
  { intros f zr zc. apply Forall_forall. intros z Hz. apply filter_In in Hz.
    destruct Hz as [Hz _]. apply visible_zone_in_grid in Hz.
    destruct Hz as (zx & zy & -> & Hx & Hy). exists zx, zy.
    split; [reflexivity | split; lia]. }
  do 4 eexists. exists w3. cbv zeta.
  split; [apply Hz|]. split; [apply Hz|]. split; [apply Hz|]. split; [apply Hz|].
  split; [reflexivity|]. split; [exact Ht | reflexivity].
Qed.

Lemma Hoare_pool {P A : Type} (pool : World -> list P) (S : P -> Prop) (m : M A) :
  Keeps pool m ->
  Hoare (fun w => Forall S (pool w)) m (fun _ w => Forall S (pool w)).
Proof. intros Hk w H. rewrite Hk. exact H. Qed.

Lemma Hoare_value {A : Type} (I : World -> Prop) (R : A -> Prop) (m : M A) :
  (forall w, R (fst (m w))) ->
  Hoare I m (fun _ => I) ->
  Hoare I m (fun a w => R a /\ I w).
Proof. intros Hr Hi w Hw. split; [apply Hr | apply Hi, Hw]. Qed.

Lemma Hoare_given {A : Type} (F : Prop) (I : World -> Prop) (m : M A)
  (Q : A -> World -> Prop) :
  (F -> Hoare I m Q) -> Hoare (fun w => F /\ I w) m Q.
Proof. intros H w [HF HI]. exact (H HF w HI). Qed.

Lemma random_range w : 0 <= fst (Math_random entropy w) /\ fst (Math_random entropy w) < 1.
Proof. apply Math_random_range. Qed.

(** The bounds the particles are compared with, on doubles. *)
Lemma bound_grows (a h c : Q) : 0 <= c -> (a + h)%js <= (a + h + c)%js.
Proof.
  intros Hc. unfold JsNumber.plus at 2. apply double_le_l; [apply double_representable|].
  lra.
Qed.

Lemma spawned_below (a r h : Q) :
  0 <= r -> r < 1 -> 0 <= h -> JsNumber.representable h -> (a + r * h)%js <= (a + h)%js.
Proof.
  intros H0 H1 Hh Hrep. apply double_le.
  assert ((r * h)%js <= h) by (apply double_le_r; [exact Hrep | nra]). lra.
Qed.

Lemma reset_below (a h k : Q) : 0 <= k -> 0 <= h -> (a - k)%js <= (a + h)%js.
Proof. intros Hk Hh. apply double_le. lra. Qed.

Lemma representable_512 : JsNumber.representable 512.
Proof. apply (representable_Z 512). reflexivity. Qed.

(** A speed [lo + r * span] drawn with [r] in [0, 1) lies between [lo] and
    the double of [lo + span]. *)
Lemma speed_range (lo span r : Q) :
  0 <= r -> r < 1 -> 0 <= span ->
  JsNumber.representable lo -> JsNumber.representable span ->
  lo <= (lo + r * span)%js /\ (lo + r * span)%js <= (lo + span)%js.
Proof.
  intros H0 H1 Hs Hlo Hspan.
  assert (Ht : 0 <= (r * span)%js) by (apply double_nonneg; nra).
  split.
  - apply double_le_l; [exact Hlo | lra].
  - apply spawned_below; assumption.
Qed.

Lemma pick_In {A : Type} (a : A) (l : list A) w : In (fst (pick entropy a l w)) (a :: l).
Proof.
  unfold pick, bind, ret. cbn [fst snd].
  set (i := Z.to_nat _). destruct (Nat.lt_ge_cases i (List.length (a :: l))) as [Hlt | Hge].
  - apply nth_In, Hlt.
  - rewrite nth_overflow by exact Hge. left. reflexivity.
Qed.

Lemma zoneRect_size z : zoneRect z ->
  WeatherGrid.Zone.width z = 512 /\ WeatherGrid.Zone.height z = 512.
Proof. intros (zx & zy & -> & _). split; reflexivity. Qed.

(** *** Rain *)

Section RainSound.
Variable env : Env.t.

Let I (w : World) : Prop := Forall rainSound (rainPool w).

Ltac kept lemma :=
  apply (Hoare_bind _ (fun _ => I));
  [apply Hoare_pool, lemma, rainPool_blind | intros ?].

Ltac kept_node :=
  apply (Hoare_bind _ (fun _ => I));
  [apply Hoare_pool; apply Keeps_onNode; apply rainPool_blind | intros ?].

Ltac drawn_ r H :=
  apply (Hoare_bind _ (fun r w => (0 <= r /\ r < 1) /\ I w));
  [ apply Hoare_value; [apply random_range | apply Hoare_pool, Keeps_random, rainPool_blind]
  | intros r; apply Hoare_given; intros H ].

Lemma addRainParticle_sound c z0 zs :
  Forall zoneRect (z0 :: zs) ->
  Hoare I (addRainParticle entropy env c z0 zs) (fun _ => I).
Proof.
  intros Hz. unfold addRainParticle, addChild.
  apply (Hoare_bind _ (fun zone w => In zone (z0 :: zs) /\ I w)).
  { apply Hoare_value; [apply pick_In | apply Hoare_pool, Keeps_pick, rainPool_blind]. }
  intros zone. apply Hoare_given. intros Hzone.
  rewrite Forall_forall in Hz. specialize (Hz zone Hzone).
  destruct (zoneRect_size zone Hz) as [Ew Eh].
  kept Keeps_createRainParticle.
  drawn_ rx Hrx. lazy zeta. kept_node.
  drawn_ ry Hry. lazy zeta. kept_node.
  drawn_ rvx Hrvx. drawn_ rvy Hrvy. lazy zeta. kept_node.
  intros w Hw. unfold I, modify. cbn [snd rainPool set_rainPool].
  apply Forall_app. split; [exact Hw|]. constructor; [|constructor].
  unfold rainSound.
  cbn [RainParticle.vy RainParticle.vx RainParticle.y RainParticle.zoneX RainParticle.zoneY
       RainParticle.zoneW RainParticle.zoneH].
  rewrite Eh. split; [|split; [|split]].
  - destruct (speed_range 4 6 rvy) as [L U];
      [ apply Hrvy | apply Hrvy | lra
      | apply (representable_Z 4); reflexivity
      | apply (representable_Z 6); reflexivity | ].
    split; [exact L|]. apply (Qle_trans _ _ _ U). vm_compute. discriminate.
  - assert (Hm : - (1 # 2) <= (rvx - 0.5)%js /\ (rvx - 0.5)%js <= 1 # 2).
    { split.
      - apply double_le_l; [vm_compute; reflexivity | lra].
      - apply double_le_r; [vm_compute; reflexivity | lra]. }
    assert (E : (1 # 2) * JsNumber.double 0.8 == JsNumber.double 0.4)
      by (vm_compute; reflexivity).
    assert (P : 0 < JsNumber.double 0.8) by (vm_compute; reflexivity).
    assert (R : JsNumber.representable (- JsNumber.double 0.4))
      by (vm_compute; reflexivity).
    set (m := (rvx - 0.5)%js) in *. clearbody m.
    split.
    + apply double_le_l; [exact R|].
      set (d8 := JsNumber.double 0.8) in *. set (d4 := JsNumber.double 0.4) in *.
      clearbody d8 d4. nra.
    + apply double_le_r; [apply double_representable|].
      set (d8 := JsNumber.double 0.8) in *. set (d4 := JsNumber.double 0.4) in *.
      clearbody d8 d4. nra.
  - exists zone. rewrite Eh, Ew. repeat split. exact Hz.
  - apply Qle_trans with (WeatherGrid.Zone.y zone + 512)%js.
    + apply spawned_below; try tauto; [lra | apply representable_512].
    + apply bound_grows. lra.
Qed.

Lemma rainLoop_sound c zs n :
  Forall zoneRect zs -> Hoare I (rainLoop entropy env c zs n) (fun _ => I).
Proof.
  intros Hz. induction n as [|n IH]; destruct zs as [|z0 zs']; cbn [rainLoop];
    try (intros w Hw; exact Hw).
  apply (Hoare_bind _ (fun _ => I)); [apply addRainParticle_sound, Hz | intros _; exact IH].
Qed.

Lemma ensureRainParticles_sound zs maxCount :
  Forall zoneRect zs ->
  Hoare I (ensureRainParticles entropy env zs maxCount) (fun _ => I).
Proof.
  intros Hz. unfold ensureRainParticles.
  apply (Hoare_bind _ (fun _ => I)); [intros w Hw; exact Hw | intros [c|]];
    [|intros w Hw; exact Hw].
  apply (Hoare_bind _ (fun _ => I)); [intros w Hw; exact Hw | intros existing].
  lazy zeta. destruct (_ && _).
  - intros w _. unfold I. constructor.
  - apply (Hoare_bind _ (fun _ => I)); [apply rainLoop_sound, Hz | intros _].
    apply (Hoare_bind _ (fun _ => I)); [intros w Hw; exact Hw | intros existing'].
    destruct (_ && _); [|intros w Hw; exact Hw].
    intros w _. unfold I. constructor.
Qed.

Lemma rainStep_sound dt p p' : rainSound p -> rainStep dt p p' -> rainSound p'.
Proof.
  intros (Hvy & Hvx & (z & Hz & Ex & Ey & Ew & Eh) & Hy)
         (Eg & Evx & Evy & E1 & E2 & E3 & E4 & Hstep).
  destruct (zoneRect_size z Hz) as [Ew' Eh'].
  unfold rainSound. rewrite Evx, Evy, E1, E2, E3, E4.
  split; [exact Hvy|]. split; [exact Hvx|].
  split; [exists z; repeat split; assumption|].
  destruct (JsNumber.ltb _ _) eqn:El.
  - destruct Hstep as [-> _]. rewrite Eh, Eh'.
    apply Qle_trans with (RainParticle.zoneY p + 512)%js;
      [apply reset_below | apply bound_grows]; lra.
  - destruct Hstep as [_ ->]. apply ltb_ge in El. exact El.
Qed.

Lemma integrateRain_sound dt : Hoare I (integrateRain entropy dt) (fun _ => I).
Proof.
  intros w Hw. unfold I in *. pose proof (integrateRain_step entropy dt w) as Hs.
  fold (exec (integrateRain entropy dt) w).
  revert Hs Hw. generalize (rainPool (exec (integrateRain entropy dt) w)) as pool'.
  generalize (rainPool w) as pool.
  induction 1 as [|p p' l l' Hp _ IH]; intros Hw; [constructor|].
  inversion Hw as [|? ? Hs Hl]; subst.
  constructor; [exact (rainStep_sound dt p p' Hs Hp) | exact (IH Hl)].
Qed.

Lemma tick_rainSound fuel dt w w' :
  I w -> tick entropy Math_sin Math_PI env fuel dt w = Some w' -> I w'.
Proof.
  intros Hw Ht. apply tick_over_grid_zones in Ht. cbv zeta in Ht. unfold I in *.
  destruct Ht as [-> | (rz & wz & sz & tz & w3 & Hrz & _ & _ & _ & _ & Ht & ->)].
  - drop_exec. exact Hw.
  - drop_exec.
    rewrite (tryLightning_keeps entropy env rainPool ltac:(frame_side)
               ltac:(frame_side) ltac:(frame_side) ltac:(frame_side) ltac:(frame_side)
               ltac:(frame_side) _ _ _ _ _ Ht).
    do 2 drop_exec. apply integrateRain_sound. unfold I. do 3 drop_exec.
    apply (ensureRainParticles_sound _ _ Hrz). unfold I. drop_exec. exact Hw.
Qed.

End RainSound.

(** *** Wind *)

Section WindSound.
Variable env : Env.t.

Let I (w : World) : Prop := Forall windSound (windPool w).

Ltac kept lemma :=
  apply (Hoare_bind _ (fun _ => I));
  [apply Hoare_pool, lemma, windPool_blind | intros ?].

Ltac kept_node :=
  apply (Hoare_bind _ (fun _ => I));
  [apply Hoare_pool; apply Keeps_onNode; apply windPool_blind | intros ?].

Ltac drawn_ r H :=
  apply (Hoare_bind _ (fun r w => (0 <= r /\ r < 1) /\ I w));
  [ apply Hoare_value; [apply random_range | apply Hoare_pool, Keeps_random, windPool_blind]
  | intros r; apply Hoare_given; intros H ].

Lemma addWindParticle_sound c z0 zs :
  Forall zoneRect (z0 :: zs) ->
  Hoare I (addWindParticle entropy Math_PI env c z0 zs) (fun _ => I).
Proof.
  intros Hz. unfold addWindParticle, addChild.
  apply (Hoare_bind _ (fun zone w => In zone (z0 :: zs) /\ I w)).
  { apply Hoare_value; [apply pick_In | apply Hoare_pool, Keeps_pick, windPool_blind]. }
  intros zone. apply Hoare_given. intros Hzone.
  rewrite Forall_forall in Hz. specialize (Hz zone Hzone).
  destruct (zoneRect_size zone Hz) as [Ew Eh].
  kept Keeps_createWindParticle.
  drawn_ rx Hrx. lazy zeta. kept_node.
  drawn_ ry Hry. lazy zeta. kept_node.
  drawn_ rvx Hrvx. lazy zeta. kept_node.
  intros w Hw. unfold I, modify. cbn [snd windPool set_windPool].
  apply Forall_app. split; [exact Hw|]. constructor; [|constructor].
  unfold windSound.
  cbn [WindParticle.vx WindParticle.x WindParticle.zoneX WindParticle.zoneW].
  rewrite Ew. split; [|split].
  - destruct (speed_range 1.5 2 rvx) as [L U];
      [ apply Hrvx | apply Hrvx | lra
      | vm_compute; reflexivity
      | apply (representable_Z 2); reflexivity | ].
    split; [exact L|]. apply (Qle_trans _ _ _ U). vm_compute. discriminate.
  - exists zone. rewrite Ew. repeat split. exact Hz.
  - apply Qle_trans with (WeatherGrid.Zone.x zone + 512)%js.
    + apply spawned_below; try tauto; [lra | apply representable_512].
    + apply bound_grows. lra.
Qed.

Lemma windLoop_sound c zs n :
  Forall zoneRect zs -> Hoare I (windLoop entropy Math_PI env c zs n) (fun _ => I).
Proof.
  intros Hz. induction n as [|n IH]; destruct zs as [|z0 zs']; cbn [windLoop];
    try (intros w Hw; exact Hw).
  apply (Hoare_bind _ (fun _ => I)); [apply addWindParticle_sound, Hz | intros _; exact IH].
Qed.

Lemma ensureWindParticles_sound zs maxCount :
  Forall zoneRect zs ->
  Hoare I (ensureWindParticles entropy Math_PI env zs maxCount) (fun _ => I).
Proof.
  intros Hz. unfold ensureWindParticles.
  apply (Hoare_bind _ (fun _ => I)); [intros w Hw; exact Hw | intros [c|]];
    [|intros w Hw; exact Hw].
  apply (Hoare_bind _ (fun _ => I)); [intros w Hw; exact Hw | intros existing].
  lazy zeta. destruct (_ && _).
  - intros w _. unfold I. constructor.
  - apply (Hoare_bind _ (fun _ => I)); [apply windLoop_sound, Hz | intros _].
    apply (Hoare_bind _ (fun _ => I)); [intros w Hw; exact Hw | intros existing'].
    destruct (_ && _); [|intros w Hw; exact Hw].
    intros w _. unfold I. constructor.
Qed.

Lemma windStep_sound dt p p' : windSound p -> windStep dt p p' -> windSound p'.
Proof.
  intros (Hvx & (z & Hz & Ex & Ew) & Hx) (Eg & Evx & E1 & E2 & Ey & Hstep).
  destruct (zoneRect_size z Hz) as [Ew' Eh'].
  unfold windSound. rewrite Evx, E1, E2, Hstep.
  split; [exact Hvx|]. split; [exists z; repeat split; assumption|].
  destruct (JsNumber.ltb _ _) eqn:El.
  - rewrite Ew, Ew'.
    apply Qle_trans with (WindParticle.zoneX p + 512)%js;
      [apply reset_below | apply bound_grows]; lra.
  - apply ltb_ge in El. exact El.
Qed.

Lemma integrateWind_sound dt : Hoare I (integrateWind dt) (fun _ => I).
Proof.
  intros w Hw. unfold I in *. pose proof (integrateWind_step dt w) as Hs.
  fold (exec (integrateWind dt) w).
  revert Hs Hw. generalize (windPool (exec (integrateWind dt) w)) as pool'.
  generalize (windPool w) as pool.
  induction 1 as [|p p' l l' Hp _ IH]; intros Hw; [constructor|].
  inversion Hw as [|? ? Hs Hl]; subst.
  constructor; [exact (windStep_sound dt p p' Hs Hp) | exact (IH Hl)].
Qed.

Lemma tick_windSound fuel dt w w' :
  I w -> tick entropy Math_sin Math_PI env fuel dt w = Some w' -> I w'.
Proof.
  intros Hw Ht. apply tick_over_grid_zones in Ht. cbv zeta in Ht. unfold I in *.
  destruct Ht as [-> | (rz & wz & sz & tz & w3 & _ & Hwz & _ & _ & _ & Ht & ->)].
  - drop_exec. exact Hw.
  - drop_exec.
    rewrite (tryLightning_keeps entropy env windPool ltac:(frame_side)
               ltac:(frame_side) ltac:(frame_side) ltac:(frame_side) ltac:(frame_side)
               ltac:(frame_side) _ _ _ _ _ Ht).
    do 1 drop_exec. apply integrateWind_sound. unfold I. do 3 drop_exec.
    apply (ensureWindParticles_sound _ _ Hwz). unfold I. do 2 drop_exec. exact Hw.
Qed.

End WindSound.

(** *** Snow *)

Section SnowSound.
Variable env : Env.t.

Let I (w : World) : Prop := Forall snowSound (snowPool w).

Ltac kept lemma :=
  apply (Hoare_bind _ (fun _ => I));
  [apply Hoare_pool, lemma, snowPool_blind | intros ?].

Ltac kept_node :=
  apply (Hoare_bind _ (fun _ => I));
  [apply Hoare_pool; apply Keeps_onNode; apply snowPool_blind | intros ?].

Ltac drawn_ r H :=
  apply (Hoare_bind _ (fun r w => (0 <= r /\ r < 1) /\ I w));
  [ apply Hoare_value; [apply random_range | apply Hoare_pool, Keeps_random, snowPool_blind]
  | intros r; apply Hoare_given; intros H ].

Lemma addSnowParticle_sound c z0 zs :
  Forall zoneRect (z0 :: zs) ->
  Hoare I (addSnowParticle entropy Math_PI env c z0 zs) (fun _ => I).
Proof.
  intros Hz. unfold addSnowParticle, addChild.
  apply (Hoare_bind _ (fun zone w => In zone (z0 :: zs) /\ I w)).
  { apply Hoare_value; [apply pick_In | apply Hoare_pool, Keeps_pick, snowPool_blind]. }
  intros zone. apply Hoare_given. intros Hzone.
  rewrite Forall_forall in Hz. specialize (Hz zone Hzone).
  destruct (zoneRect_size zone Hz) as [Ew Eh].
  kept Keeps_createSnowParticle.
  drawn_ rx Hrx. lazy zeta. kept_node.
  drawn_ ry Hry. lazy zeta. kept_node.
  drawn_ rvy Hrvy. lazy zeta. drawn_ rph Hrph. lazy zeta. kept_node.
  intros w Hw. unfold I, modify. cbn [snd snowPool set_snowPool].
  apply Forall_app. split; [exact Hw|]. constructor; [|constructor].
  unfold snowSound.
  cbn [SnowParticle.vy SnowParticle.y SnowParticle.zoneX SnowParticle.zoneY
       SnowParticle.zoneW SnowParticle.zoneH].
  rewrite Eh. split; [|split].
  - destruct (speed_range (JsNumber.double 0.35) (JsNumber.double 0.55) rvy) as [L U];
      [ apply Hrvy | apply Hrvy | vm_compute; discriminate
      | apply double_representable | apply double_representable | ].
    split; [exact L|]. apply (Qle_trans _ _ _ U). vm_compute. discriminate.
  - exists zone. rewrite Eh, Ew. repeat split. exact Hz.
  - apply Qle_trans with (WeatherGrid.Zone.y zone + 512)%js.
    + apply spawned_below; try tauto; [lra | apply representable_512].
    + apply bound_grows. lra.
Qed.

Lemma snowLoop_sound c zs n :
  Forall zoneRect zs -> Hoare I (snowLoop entropy Math_PI env c zs n) (fun _ => I).
Proof.
  intros Hz. induction n as [|n IH]; destruct zs as [|z0 zs']; cbn [snowLoop];
    try (intros w Hw; exact Hw).
  apply (Hoare_bind _ (fun _ => I)); [apply addSnowParticle_sound, Hz | intros _; exact IH].
Qed.

Lemma ensureSnowParticles_sound zs maxCount :
  Forall zoneRect zs ->
  Hoare I (ensureSnowParticles entropy Math_PI env zs maxCount) (fun _ => I).
Proof.
  intros Hz. unfold ensureSnowParticles.
  apply (Hoare_bind _ (fun _ => I)); [intros w Hw; exact Hw | intros [c|]];
    [|intros w Hw; exact Hw].
  apply (Hoare_bind _ (fun _ => I)); [intros w Hw; exact Hw | intros existing].
  lazy zeta. destruct (_ && _).
  - intros w _. unfold I. constructor.
  - apply (Hoare_bind _ (fun _ => I)); [apply snowLoop_sound, Hz | intros _].
    apply (Hoare_bind _ (fun _ => I)); [intros w Hw; exact Hw | intros existing'].
    destruct (_ && _); [|intros w Hw; exact Hw].
    intros w _. unfold I. constructor.
Qed.

Lemma snowStep_sound dt p p' : snowSound p -> snowStep dt p p' -> snowSound p'.
Proof.
  intros (Hvy & (z & Hz & Ex & Ey & Ew & Eh) & Hy)
         (Eg & Evy & Eph & E1 & E2 & E3 & E4 & Hstep).
  destruct (zoneRect_size z Hz) as [Ew' Eh'].
  unfold snowSound. rewrite Evy, E1, E2, E3, E4.
  split; [exact Hvy|]. split; [exists z; repeat split; assumption|].
  destruct (JsNumber.ltb _ _) eqn:El.
  - destruct Hstep as [-> _]. rewrite Eh, Eh'.
    apply Qle_trans with (SnowParticle.zoneY p + 512)%js;
      [apply reset_below | apply bound_grows]; lra.
  - destruct Hstep as [_ ->]. apply ltb_ge in El. exact El.
Qed.

Lemma integrateSnow_sound dt : Hoare I (integrateSnow entropy Math_sin dt) (fun _ => I).
Proof.
  intros w Hw. unfold I in *. pose proof (integrateSnow_step entropy Math_sin dt w) as Hs.
  fold (exec (integrateSnow entropy Math_sin dt) w).
  revert Hs Hw. generalize (snowPool (exec (integrateSnow entropy Math_sin dt) w)) as pool'.
  generalize (snowPool w) as pool.
  induction 1 as [|p p' l l' Hp _ IH]; intros Hw; [constructor|].
  inversion Hw as [|? ? Hs Hl]; subst.
  constructor; [exact (snowStep_sound dt p p' Hs Hp) | exact (IH Hl)].
Qed.

Lemma tick_snowSound fuel dt w w' :
  I w -> tick entropy Math_sin Math_PI env fuel dt w = Some w' -> I w'.
Proof.
  intros Hw Ht. apply tick_over_grid_zones in Ht. cbv zeta in Ht. unfold I in *.
  destruct Ht as [-> | (rz & wz & sz & tz & w3 & _ & _ & Hsz & _ & _ & Ht & ->)].
  - drop_exec. exact Hw.
  - drop_exec.
    rewrite (tryLightning_keeps entropy env snowPool ltac:(frame_side)
               ltac:(frame_side) ltac:(frame_side) ltac:(frame_side) ltac:(frame_side)
               ltac:(frame_side) _ _ _ _ _ Ht).
    apply integrateSnow_sound. unfold I. do 3 drop_exec.
    apply (ensureSnowParticles_sound _ _ Hsz). unfold I. do 3 drop_exec. exact Hw.
Qed.

End SnowSound.

(** How a pool fares through the events other than a frame. *)
Lemma pool_through_events {P : Type} (pool : World -> list P) (S : P -> Prop) :
  SceneBlind pool -> Ignores set_rainContainer pool -> Ignores set_ticker pool ->
  Ignores set_container pool -> Ignores set_weatherGrid pool ->
  Ignores set_stormOverlay pool ->
  (forall env, pool (created env) = []) ->
  Sets pool [] stopTicker ->
  (forall env fuel dt w w',
      Forall S (pool w) -> tick entropy Math_sin Math_PI env fuel dt w = Some w' ->
      Forall S (pool w')) ->
  forall w, reachable entropy Math_sin Math_PI w -> Forall S (pool w).
Proof.
  intros Hb Hrc Ht Hc Hg Ho Hnew Hstop Htick.
  induction 1 as [env | env w _ IH | env fuel dt w w' _ IH Hf | env w _ IH | env w _ IH | w _ _].
  - rewrite Hnew. constructor.
  - rewrite (Keeps_exec pool _ (Keeps_mount pool env Hb Hrc Ht Hc)). exact IH.
  - unfold frame in Hf. destruct (ticker w).
    + exact (Htick _ _ _ _ _ IH Hf).
    + returned Hf. exact IH.
  - rewrite (Keeps_exec pool _ (Keeps_watchMapData env pool Hg)). exact IH.
  - unfold watchLevel. cbv zeta. destruct (allZero _).
    + rewrite (Sets_exec _ _ _ Hstop). constructor.
    + rewrite exec_bind. cbn [get fst snd]. destruct (_ <? _)%Z; [|exact IH].
      rewrite (Keeps_exec pool _ (Keeps_startTicker pool Ht)). exact IH.
  - rewrite (Keeps_tail_of_unmount pool Hb Hrc Ho Hc), (Sets_exec _ _ _ Hstop). constructor.
Qed.

(** X17.  In every state the component can be in, each rain particle falls
    with a speed between 4 and 10 (the sum [4 + Math.random() * 6] can
    round to 10) and drifts with a speed between the doubles nearest to
    -0.4 and 0.4, its home zone is one of the 512 by 512 pixel rectangles
    the culler builds for zone indices that are not negative, and its
    height is at most the bound [zoneY + zoneH + 20] beyond which the frame
    callback recycles it. *)
Theorem rain_particles_stay_sound (w : World) :
  reachable entropy Math_sin Math_PI w -> Forall rainSound (rainPool w).
Proof.
  apply pool_through_events; try frame_side;
    first [ apply stopTicker_rainPool
          | intros env fuel dt w0 w' H0 Ht; exact (tick_rainSound env fuel dt w0 w' H0 Ht)
          | intros env; unfold created; drop_exec; reflexivity ].
Qed.

(** X18.  In every state the component can be in, each wind particle blows
    to the right with a speed between 1.5 and 3.5, its home zone is one of
    the 512 by 512 pixel rectangles the culler builds for zone indices that
    are not negative, and it is at most at the bound [zoneX + zoneW + 20]
    beyond which the frame callback recycles it. *)
Theorem wind_particles_stay_sound (w : World) :
  reachable entropy Math_sin Math_PI w -> Forall windSound (windPool w).
Proof.
  apply pool_through_events; try frame_side;
    first [ apply stopTicker_windPool
          | intros env fuel dt w0 w' H0 Ht; exact (tick_windSound env fuel dt w0 w' H0 Ht)
          | intros env; unfold created; drop_exec; reflexivity ].
Qed.

(** X19.  In every state the component can be in, each snow particle falls
    with a speed between the doubles nearest to 0.35 and 0.9, its home zone
    is one of the 512 by 512 pixel rectangles the culler builds for zone
    indices that are not negative, and its height is at most the bound
    [zoneY + zoneH + 10] beyond which the frame callback recycles it. *)
Theorem snow_particles_stay_sound (w : World) :
  reachable entropy Math_sin Math_PI w -> Forall snowSound (snowPool w).
Proof.
  apply pool_through_events; try frame_side;
    first [ apply stopTicker_snowPool
          | intros env fuel dt w0 w' H0 Ht; exact (tick_snowSound env fuel dt w0 w' H0 Ht)
          | intros env; unfold created; drop_exec; reflexivity ].
Qed.

End ParticleInvariants.

Section ParticleWitnesses.
Import WeatherLayer Scenario.
Local Open Scope nat_scope.

Lemma coast_frame :
  frame entropy Math_sin Math_PI coastEnv 5 1 coastMounted = Some coastAfterFrame.
Proof.
  unfold frame. replace (ticker coastMounted) with true by (vm_compute; reflexivity).
  unfold coastAfterFrame.
  destruct (tick _ _ _ _ _ _ _) as [w|] eqn:E; [reflexivity|].
  exfalso.
  assert (H : match tick entropy Math_sin Math_PI coastEnv 5 1 coastMounted with
              | Some _ => true
              | None => false
              end = true) by (vm_compute; reflexivity).
  rewrite E in H. discriminate H.
Qed.

Lemma coast_reachable : reachable entropy Math_sin Math_PI coastAfterFrame.
Proof.
  apply (reach_frame _ _ _ coastEnv 5 1 coastMounted).
  - apply reach_mount, reach_created.
  - exact coast_frame.
Qed.

Lemma rain_particles_stay_sound_witness :
  reachable entropy Math_sin Math_PI afterFrame
  /\ List.length (rainPool afterFrame) = 140%nat
  /\ Forall rainSound (rainPool afterFrame).
Proof.
  split; [exact scenario_reachable|]. split; [vm_compute; reflexivity|].
  exact (rain_particles_stay_sound entropy Math_sin Math_PI afterFrame scenario_reachable).
Defined.

Lemma wind_particles_stay_sound_witness :
  reachable entropy Math_sin Math_PI coastAfterFrame
  /\ List.length (windPool coastAfterFrame) = 12%nat
  /\ Forall windSound (windPool coastAfterFrame).
Proof.
  split; [exact coast_reachable|]. split; [vm_compute; reflexivity|].
  exact (wind_particles_stay_sound entropy Math_sin Math_PI coastAfterFrame coast_reachable).
Defined.

Lemma snow_particles_stay_sound_witness :
  reachable entropy Math_sin Math_PI coastAfterFrame
  /\ List.length (snowPool coastAfterFrame) = 40%nat
  /\ Forall snowSound (snowPool coastAfterFrame).
Proof.
  split; [exact coast_reachable|]. split; [vm_compute; reflexivity|].
  exact (snow_particles_stay_sound entropy Math_sin Math_PI coastAfterFrame coast_reachable).
Defined.

End ParticleWitnesses.

(** ** The display objects referred to are distinct, alive and in the scene *)

Section Gentle.
Import WeatherLayer.
Local Open Scope nat_scope.

Lemma Gentle_ret {A : Type} (a : A) : Gentle (ret a).
Proof. intros w. split; [reflexivity | intros h; split; [reflexivity | exact (fun H => H)]]. Qed.

Lemma Gentle_get {A : Type} (p : World -> A) : Gentle (get p).
Proof. intros w. split; [reflexivity | intros h; split; [reflexivity | exact (fun H => H)]]. Qed.

Lemma Gentle_bind {A B : Type} (m : M A) (k : A -> M B) :
  Gentle m -> (forall a, Gentle (k a)) -> Gentle (bind m k).
Proof.
  intros Hm Hk w. unfold bind. cbv zeta.
  destruct (Hm w) as [N1 S1]. destruct (Hk (fst (m w)) (snd (m w))) as [N2 S2].
  split; [rewrite N2; exact N1 | intros h].
  destruct (S1 h) as [D1 P1]. destruct (S2 h) as [D2 P2].
  split; [rewrite D2; exact D1 | intros H; apply P2, P1, H].
Qed.

Lemma Gentle_modify (f : World -> World) :
  (forall w, next (f w) = next w) -> (forall w, nodes (f w) = nodes w) ->
  Gentle (modify f).
Proof.
  intros Hn Hs w. unfold modify. cbn [snd]. split; [apply Hn | intros h].
  unfold inScene. rewrite Hs. split; [reflexivity | exact (fun H => H)].
Qed.

Lemma Gentle_onNode (g : Handle) (f : DisplayObject.t -> DisplayObject.t) :
  (forall d, DisplayObject.destroyed (f d) = DisplayObject.destroyed d) ->
  (forall d, DisplayObject.parent d <> None -> DisplayObject.parent (f d) <> None) ->
  Gentle (onNode g f).
Proof.
  intros Hd Hp w. unfold onNode, modify, update, inScene. cbn [snd next nodes set_nodes].
  split; [reflexivity | intros h].
  destruct (Nat.eqb_spec h g) as [-> | _]; [split; [apply Hd | apply Hp]|].
  split; [reflexivity | exact (fun H => H)].
Qed.

Lemma Gentle_random entropy : Gentle (Math_random entropy).
Proof.
  intros w. unfold Math_random. cbn [snd].
  split; [reflexivity | intros h; split; [reflexivity | exact (fun H => H)]].
Qed.

Lemma Gentle_forEach {A : Type} (l : list A) (body : A -> M unit) :
  (forall a, Gentle (body a)) -> Gentle (forEach l body).
Proof.
  intros H. induction l as [|a l IH]; cbn [forEach].
  - apply Gentle_ret.
  - apply Gentle_bind; [apply H | intros _; exact IH].
Qed.

Lemma Gentle_forEachUpdate {A : Type} (l : list A) (body : A -> M A) :
  (forall a, Gentle (body a)) -> Gentle (forEachUpdate l body).
Proof.
  intros H. induction l as [|a l IH]; cbn [forEachUpdate].
  - apply Gentle_ret.
  - apply Gentle_bind; [apply H | intros a'].
    apply Gentle_bind; [exact IH | intros r; apply Gentle_ret].
Qed.

End Gentle.

(** Structural descent through a program that is gentle. *)
Ltac gentle_step :=
  lazy zeta;
  first
    [ apply Gentle_ret
    | apply Gentle_get
    | apply Gentle_random
    | apply Gentle_onNode; [intros ?; reflexivity | intros ? ?; assumption]
    | apply Gentle_onNode; [intros ?; reflexivity | intros ? ?; discriminate]
    | apply Gentle_onNode; [intros []; reflexivity | intros [] ?; assumption]
    | apply Gentle_modify; [intros ?; reflexivity | intros ?; reflexivity]
    | apply Gentle_forEach; intros ?
    | apply Gentle_forEachUpdate; intros ?
    | apply Gentle_bind; [|intros ?]
    | match goal with
      | |- WeatherLayer.Gentle (if ?b then _ else _) => destruct b
      | |- WeatherLayer.Gentle (match ?x with _ => _ end) => destruct x
      end ].

Ltac gentle := repeat gentle_step.

Section GentlePrograms.
Import WeatherLayer.
Local Open Scope nat_scope.
Variable entropy : nat -> Q.
Variable Math_sin : Q -> Q.
Variable Math_PI : Q.
Variable env : Env.t.

Lemma Gentle_pick {A : Type} (a : A) (l : list A) : Gentle (pick entropy a l).
Proof. unfold pick. gentle. Qed.

Lemma Gentle_addChild c g : Gentle (addChild c g).
Proof. unfold addChild. gentle. Qed.

Lemma Gentle_moveRain dt p : Gentle (moveRain entropy dt p).
Proof. unfold moveRain. gentle. Qed.

Lemma Gentle_moveWind dt p : Gentle (moveWind dt p).
Proof. unfold moveWind. gentle. Qed.

Lemma Gentle_moveSnow dt p : Gentle (moveSnow entropy Math_sin dt p).
Proof.
  unfold moveSnow. gentle.
  apply Gentle_onNode; intros d;
    [ destruct (DisplayObject.kind d); reflexivity
    | intros H; destruct (DisplayObject.kind d); exact H ].
Qed.

Lemma Gentle_integrateRain dt : Gentle (integrateRain entropy dt).
Proof. unfold integrateRain. gentle. Qed.

Lemma Gentle_integrateWind dt : Gentle (integrateWind dt).
Proof. unfold integrateWind. gentle. Qed.

Lemma Gentle_integrateSnow dt : Gentle (integrateSnow entropy Math_sin dt).
Proof.
  unfold integrateSnow.
  apply Gentle_bind; [apply Gentle_get | intros pool].
  apply Gentle_bind; [apply Gentle_forEachUpdate; intros p; apply Gentle_moveSnow | intros ?].
  gentle.
Qed.

Lemma Gentle_startTicker : Gentle startTicker.
Proof. unfold startTicker. gentle. Qed.

Lemma Gentle_watchMapData : Gentle (watchMapData env).
Proof. unfold watchMapData. gentle. Qed.

End GentlePrograms.

Section WellFormed.
Import WeatherLayer.
Local Open Scope nat_scope.

Lemma NoDup_app_disjoint {A : Type} (l1 l2 : list A) :
  NoDup (l1 ++ l2) -> forall a, In a l1 -> ~ In a l2.
Proof.
  induction l1 as [|x l1 IH]; cbn [app]; intros Hnd a Hin; [destruct Hin|].
  inversion Hnd as [|? ? Hx Hrest]; subst. destruct Hin as [<- | Hin].
  - intros H2. apply Hx, in_or_app. right. exact H2.
  - apply IH; assumption.
Qed.

Lemma wellFormed_gentle {A : Type} (pending : list Handle) (m : M A) :
  Gentle m -> Keeps referenced m ->
  Hoare (wellFormed pending) m (fun _ => wellFormed pending).
Proof.
  intros Hg Hk w (Hnd & Ha & Hs). destruct (Hg w) as [Hn Hst].
  unfold wellFormed. rewrite Hk. split; [exact Hnd|]. split.
  - apply Forall_forall. intros h Hin. rewrite Forall_forall in Ha.
    destruct (Ha h Hin) as [Hlt Hd]. destruct (Hst h) as [Ed _].
    split; [rewrite Hn; exact Hlt | rewrite Ed; exact Hd].
  - apply Forall_forall. intros h Hin. rewrite Forall_forall in Hs.
    destruct (Hst h) as [_ Hp]. apply Hp, Hs, Hin.
Qed.

(** A display object just created is pending: it is none of those referred
    to so far. *)
Lemma wellFormed_new (pending : list Handle) (k : DisplayObject.Kind) :
  Hoare (wellFormed pending) (new k) (fun h => wellFormed (h :: pending)).
Proof.
  intros w (Hnd & Ha & Hs). unfold new, wellFormed, alive, inScene, update.
  cbn [fst snd next nodes set_next set_nodes].
  change (referenced (set_next (S (next w)) (set_nodes _ w))) with (referenced w).
  rewrite Forall_forall in Ha, Hs.
  assert (Hfresh : forall h, In h (pending ++ referenced w) -> h <> next w)
    by (intros h Hin; destruct (Ha h Hin) as [Hlt _]; lia).
  split; [|split].
  - cbn [app]. constructor; [|exact Hnd]. intros Hin. exact (Hfresh _ Hin eq_refl).
  - cbn [app]. constructor.
    + rewrite Nat.eqb_refl. split; [lia | reflexivity].
    + apply Forall_forall. intros h Hin. destruct (Ha h Hin) as [Hlt Hd].
      destruct (Nat.eqb_spec h (next w)) as [E | _]; [elim (Hfresh _ Hin E)|].
      split; [lia | exact Hd].
  - apply Forall_forall. intros h Hin.
    assert (Hin' : In h (pending ++ referenced w)) by (apply in_or_app; right; exact Hin).
    destruct (Nat.eqb_spec h (next w)) as [E | _]; [elim (Hfresh _ Hin' E)|].
    apply Hs, Hin.
Qed.

(** A pending object that is in the scene may be assigned. *)
Lemma wellFormed_assign (pending : list Handle) (g : Handle) (w w' : World) :
  next w' = next w -> nodes w' = nodes w ->
  Permutation (g :: referenced w) (referenced w') ->
  wellFormed (g :: pending) w -> inScene w g -> wellFormed pending w'.
Proof.
  intros Hn Hs Hperm (Hnd & Ha & Hsc) Hg.
  assert (Hp : Permutation ((g :: pending) ++ referenced w) (pending ++ referenced w')).
  { cbn [app]. apply (Permutation_trans (Permutation_middle pending (referenced w) g)).
    apply Permutation_app_head, Hperm. }
  unfold wellFormed, alive, inScene. rewrite Hn, Hs. split; [|split].
  - exact (Permutation_NoDup Hp Hnd).
  - exact (Permutation_Forall Hp Ha).
  - apply (Permutation_Forall Hperm). constructor; [exact Hg | exact Hsc].
Qed.

(** Objects that are no longer referred to may be destroyed or detached. *)
Lemma wellFormed_release (pending removed : list Handle) (w w' : World) :
  next w' = next w ->
  Permutation (referenced w) (removed ++ referenced w') ->
  (forall h, ~ In h removed ->
             DisplayObject.destroyed (nodes w' h) = DisplayObject.destroyed (nodes w h)
             /\ (inScene w h -> inScene w' h)) ->
  wellFormed pending w -> wellFormed pending w'.
Proof.
  intros Hn Hperm Hst (Hnd & Ha & Hsc).
  assert (Hp : Permutation (pending ++ referenced w)
                 (removed ++ (pending ++ referenced w'))).
  { rewrite Hperm, !app_assoc. apply Permutation_app_tail, Permutation_app_comm. }
  pose proof (Permutation_NoDup Hp Hnd) as Hnd'.
  assert (Hout : forall h, In h (pending ++ referenced w') -> ~ In h removed).
  { intros h Hin Hr. exact (NoDup_app_disjoint _ _ Hnd' h Hr Hin). }
  unfold wellFormed. split; [|split].
  - exact (NoDup_app_remove_l _ _ Hnd').
  - apply Forall_forall. intros h Hin.
    pose proof (Permutation_Forall Hp Ha) as Ha'. apply Forall_app in Ha'.
    destruct Ha' as [_ Ha']. rewrite Forall_forall in Ha'.
    destruct (Ha' h Hin) as [Hlt Hd]. destruct (Hst h (Hout h Hin)) as [Ed _].
    split; [rewrite Hn; exact Hlt | rewrite Ed; exact Hd].
  - apply Forall_forall. intros h Hin.
    pose proof (Permutation_Forall Hperm Hsc) as Hsc'. apply Forall_app in Hsc'.
    destruct Hsc' as [_ Hsc']. rewrite Forall_forall in Hsc'.
    assert (Hin' : In h (pending ++ referenced w')) by (apply in_or_app; right; exact Hin).
    destruct (Hst h (Hout h Hin')) as [_ Hp']. apply Hp', Hsc', Hin.
Qed.

End WellFormed.

Section Touching.
Import WeatherLayer.
Local Open Scope nat_scope.

Lemma Touches_onNode (g : Handle) (f : DisplayObject.t -> DisplayObject.t) :
  Touches [g] (onNode g f).
Proof.
  intros w. unfold onNode, modify, update. cbn [snd next nodes set_nodes].
  split; [reflexivity | intros h Hh].
  destruct (Nat.eqb_spec h g) as [-> | _]; [elim Hh; left; reflexivity | reflexivity].
Qed.

Lemma Touches_bind {A B : Type} (hs : list Handle) (m : M A) (k : A -> M B) :
  Touches hs m -> (forall a, Touches hs (k a)) -> Touches hs (bind m k).
Proof.
  intros Hm Hk w. unfold bind. cbv zeta.
  destruct (Hm w) as [N1 S1]. destruct (Hk (fst (m w)) (snd (m w))) as [N2 S2].
  split; [rewrite N2; exact N1 | intros h Hh; rewrite (S2 h Hh); exact (S1 h Hh)].
Qed.

Lemma Touches_weaken {A : Type} (hs hs' : list Handle) (m : M A) :
  (forall h, In h hs -> In h hs') -> Touches hs m -> Touches hs' m.
Proof.
  intros Hsub Hm w. destruct (Hm w) as [N S]. split; [exact N | intros h Hh].
  apply S. intros Hin. apply Hh, Hsub, Hin.
Qed.

Lemma Touches_discard c g : Touches [g] (discard c g).
Proof.
  unfold discard, removeChild, destroy.
  apply Touches_bind; [apply Touches_onNode | intros _; apply Touches_onNode].
Qed.

Lemma Touches_destroy g : Touches [g] (destroy g).
Proof. apply Touches_onNode. Qed.

Lemma Touches_forEach {A : Type} (g : A -> Handle) (body : Handle -> M unit) (l : list A) :
  (forall h, Touches [h] (body h)) ->
  Touches (map g l) (forEach l (fun p => body (g p))).
Proof.
  intros Hb. induction l as [|a l IH]; cbn [forEach map].
  - intros w. split; [reflexivity | intros h _; reflexivity].
  - apply Touches_bind.
    + apply (Touches_weaken [g a]); [intros h [<- | []]; left; reflexivity | apply Hb].
    + intros _. apply (Touches_weaken (map g l)); [intros h Hh; right; exact Hh | exact IH].
Qed.

End Touching.

Section Operations.
Import WeatherLayer.
Local Open Scope nat_scope.
Variable entropy : nat -> Q.
Variable Math_sin : Q -> Q.
Variable Math_PI : Q.
Variable env : Env.t.

Lemma referenced_frame :
  SceneBlind referenced /\ Ignores set_ticker referenced
  /\ Ignores set_stormAccum referenced /\ Ignores set_lightningAlpha referenced
  /\ Ignores set_lightningPhase referenced /\ Ignores (V := nat) set_thunder referenced
  /\ Ignores set_weatherGrid referenced /\ Ignores set_container referenced.
Proof. repeat split; intros ? ?; reflexivity. Qed.

Ltac frame_referenced :=
  destruct referenced_frame as (Fblind & Fticker & Faccum & Falpha & Fphase & Fthunder
                                & Fgrid & Fcontainer).

Ltac steady := apply wellFormed_gentle; [gentle | keeps].

Ltac steady_bind E :=
  apply (Hoare_bind _ (fun _ => wellFormed E)); [steady | intros ?].

Lemma createRainParticle_wf E :
  Hoare (wellFormed E) (createRainParticle entropy env) (fun g => wellFormed (g :: E)).
Proof.
  frame_referenced. unfold createRainParticle. destruct (_ || _).
  - apply (Hoare_bind _ (fun s => wellFormed (s :: E))); [apply wellFormed_new | intros s].
    do 5 steady_bind (s :: E). intros w Hwf; exact Hwf.
  - do 2 steady_bind E. apply wellFormed_new.
Qed.

Lemma createWindParticle_wf E :
  Hoare (wellFormed E) (createWindParticle entropy Math_PI env)
    (fun g => wellFormed (g :: E)).
Proof.
  frame_referenced. unfold createWindParticle. destruct (Textures.weather_wind_leaf _).
  - apply (Hoare_bind _ (fun s => wellFormed (s :: E))); [apply wellFormed_new | intros s].
    do 5 steady_bind (s :: E). intros w Hwf; exact Hwf.
  - apply (Hoare_bind _ (fun s => wellFormed (s :: E))); [apply wellFormed_new | intros s].
    steady_bind (s :: E). intros w Hwf; exact Hwf.
Qed.

Lemma createSnowParticle_wf E :
  Hoare (wellFormed E) (createSnowParticle entropy Math_PI env)
    (fun g => wellFormed (g :: E)).
Proof.
  frame_referenced. unfold createSnowParticle. destruct (Textures.weather_snowflake _).
  - apply (Hoare_bind _ (fun s => wellFormed (s :: E))); [apply wellFormed_new | intros s].
    do 5 steady_bind (s :: E). intros w Hwf; exact Hwf.
  - apply wellFormed_new.
Qed.

Lemma addChild_wf E c g :
  Hoare (wellFormed (g :: E)) (addChild c g)
    (fun _ w => wellFormed (g :: E) w /\ inScene w g).
Proof.
  frame_referenced. intros w Hw. split.
  - revert w Hw. unfold addChild. steady.
  - unfold addChild, onNode, modify, update, inScene. cbn [snd nodes set_nodes].
    rewrite Nat.eqb_refl. discriminate.
Qed.

Lemma referenced_split w :
  referenced w
  = map RainParticle.g (rainPool w)
      ++ map WindParticle.g (windPool w)
      ++ map SnowParticle.g (snowPool w)
      ++ olist (lightningGraphics w) ++ olist (stormOverlay w) ++ olist (rainContainer w).
Proof. reflexivity. Qed.

Lemma perm_insert_2 {A : Type} (g : A) (l1 l2 l3 : list A) :
  Permutation (g :: l1 ++ l2 ++ l3) (l1 ++ (l2 ++ [g]) ++ l3).
Proof.
  rewrite <- (app_assoc l2 [g] l3). cbn [app]. rewrite !app_assoc. apply Permutation_middle.
Qed.

Lemma perm_insert_3 {A : Type} (g : A) (l1 l2 l3 l4 : list A) :
  Permutation (g :: l1 ++ l2 ++ l3 ++ l4) (l1 ++ l2 ++ (l3 ++ [g]) ++ l4).
Proof.
  rewrite <- (app_assoc l3 [g] l4). cbn [app]. rewrite !app_assoc. apply Permutation_middle.
Qed.

Lemma addRainParticle_wf E c z0 zs :
  Hoare (wellFormed E) (addRainParticle entropy env c z0 zs) (fun _ => wellFormed E).
Proof.
  frame_referenced. unfold addRainParticle.
  steady_bind E.
  apply (Hoare_bind _ (fun g => wellFormed (g :: E)));
    [apply createRainParticle_wf | intros g].
  do 6 steady_bind (g :: E).
  apply (Hoare_bind _ (fun _ w => wellFormed (g :: E) w /\ inScene w g));
    [apply addChild_wf | intros _].
  intros w [Hw Hg]. unfold modify. cbn [snd].
  apply (wellFormed_assign E g w); try reflexivity; try assumption.
  rewrite !referenced_split. cbn [rainPool windPool snowPool lightningGraphics stormOverlay
    rainContainer set_rainPool]. rewrite map_app, <- app_assoc. cbn [map app RainParticle.g].
  apply Permutation_middle.
Qed.

Lemma addWindParticle_wf E c z0 zs :
  Hoare (wellFormed E) (addWindParticle entropy Math_PI env c z0 zs)
    (fun _ => wellFormed E).
Proof.
  frame_referenced. unfold addWindParticle.
  steady_bind E.
  apply (Hoare_bind _ (fun g => wellFormed (g :: E)));
    [apply createWindParticle_wf | intros g].
  do 5 steady_bind (g :: E).
  apply (Hoare_bind _ (fun _ w => wellFormed (g :: E) w /\ inScene w g));
    [apply addChild_wf | intros _].
  intros w [Hw Hg]. unfold modify. cbn [snd].
  apply (wellFormed_assign E g w); try reflexivity; try assumption.
  rewrite !referenced_split. cbn [rainPool windPool snowPool lightningGraphics stormOverlay
    rainContainer set_windPool]. rewrite map_app. cbn [map WindParticle.g].
  apply perm_insert_2.
Qed.

Lemma addSnowParticle_wf E c z0 zs :
  Hoare (wellFormed E) (addSnowParticle entropy Math_PI env c z0 zs)
    (fun _ => wellFormed E).
Proof.
  frame_referenced. unfold addSnowParticle.
  steady_bind E.
  apply (Hoare_bind _ (fun g => wellFormed (g :: E)));
    [apply createSnowParticle_wf | intros g].
  do 6 steady_bind (g :: E).
  apply (Hoare_bind _ (fun _ w => wellFormed (g :: E) w /\ inScene w g));
    [apply addChild_wf | intros _].
  intros w [Hw Hg]. unfold modify. cbn [snd].
  apply (wellFormed_assign E g w); try reflexivity; try assumption.
  rewrite !referenced_split. cbn [rainPool windPool snowPool lightningGraphics stormOverlay
    rainContainer set_snowPool]. rewrite map_app. cbn [map SnowParticle.g].
  apply perm_insert_3.
Qed.

Lemma rainLoop_wf E c zs n :
  Hoare (wellFormed E) (rainLoop entropy env c zs n) (fun _ => wellFormed E).
Proof.
  induction n as [|n IH]; destruct zs as [|z0 zs']; cbn [rainLoop];
    try (intros w Hwf; exact Hwf).
  apply (Hoare_bind _ (fun _ => wellFormed E)); [apply addRainParticle_wf | intros _; exact IH].
Qed.

Lemma windLoop_wf E c zs n :
  Hoare (wellFormed E) (windLoop entropy Math_PI env c zs n) (fun _ => wellFormed E).
Proof.
  induction n as [|n IH]; destruct zs as [|z0 zs']; cbn [windLoop];
    try (intros w Hwf; exact Hwf).
  apply (Hoare_bind _ (fun _ => wellFormed E)); [apply addWindParticle_wf | intros _; exact IH].
Qed.

Lemma snowLoop_wf E c zs n :
  Hoare (wellFormed E) (snowLoop entropy Math_PI env c zs n) (fun _ => wellFormed E).
Proof.
  induction n as [|n IH]; destruct zs as [|z0 zs']; cbn [snowLoop];
    try (intros w Hwf; exact Hwf).
  apply (Hoare_bind _ (fun _ => wellFormed E)); [apply addSnowParticle_wf | intros _; exact IH].
Qed.

(** Rewrites the fields read after a loop over a pool to the fields before
    it. *)
Ltac field_kept :=
  apply Keeps_exec;
  first [ apply Keeps_forEach; intros ?;
          first [apply Keeps_discard | apply Keeps_onNode]; frame_side ].

Ltac unfold_field f :=
  repeat match goal with
         | |- context [f (exec ?m ?w)] =>
             let E := fresh in
             assert (E : f (exec m w) = f w) by field_kept;
             rewrite E; clear E
         end.

Ltac unfold_fields :=
  unfold_field rainPool; unfold_field windPool; unfold_field snowPool;
  unfold_field lightningGraphics; unfold_field stormOverlay; unfold_field rainContainer.

Lemma Hoare_get {A : Type} (P : World -> Prop) (f : World -> A) :
  Hoare P (get f) (fun r w => r = f w /\ P w).
Proof. intros w Hw. split; [reflexivity | exact Hw]. Qed.

(** Objects that are written to and then no longer referred to. *)
Lemma wellFormed_drop E (hs : list Handle) (m : M unit) (f : World -> World) (w : World) :
  Touches hs m ->
  next (f (exec m w)) = next (exec m w) ->
  nodes (f (exec m w)) = nodes (exec m w) ->
  Permutation (referenced w) (hs ++ referenced (f (exec m w))) ->
  wellFormed E w -> wellFormed E (f (exec m w)).
Proof.
  intros Ht Hn Hs Hp. destruct (Ht w) as [N S].
  apply (wellFormed_release E hs); [rewrite Hn; exact N | exact Hp|].
  intros h Hh. unfold inScene. rewrite Hs. unfold exec. rewrite (S h Hh).
  split; [reflexivity | exact (fun H => H)].
Qed.

Lemma clearRain_wf E c w :
  wellFormed E w ->
  wellFormed E
    (exec (forEach (rainPool w) (fun p => discard c (RainParticle.g p)) ;;
           modify (set_rainPool [])) w).
Proof.
  rewrite exec_seq.
  apply (wellFormed_drop E (map RainParticle.g (rainPool w))
           (forEach (rainPool w) (fun p => discard c (RainParticle.g p)))
           (set_rainPool [])); try reflexivity.
  - apply (Touches_forEach RainParticle.g (discard c)). intros h. apply Touches_discard.
  - rewrite !referenced_split. cbn [rainPool windPool snowPool lightningGraphics stormOverlay
      rainContainer set_rainPool map app].
    apply Permutation_app_head. unfold_fields. reflexivity.
Qed.

Lemma clearWind_wf E c w :
  wellFormed E w ->
  wellFormed E
    (exec (forEach (windPool w) (fun p => discard c (WindParticle.g p)) ;;
           modify (set_windPool [])) w).
Proof.
  rewrite exec_seq.
  apply (wellFormed_drop E (map WindParticle.g (windPool w))
           (forEach (windPool w) (fun p => discard c (WindParticle.g p)))
           (set_windPool [])); try reflexivity.
  - apply (Touches_forEach WindParticle.g (discard c)). intros h. apply Touches_discard.
  - rewrite !referenced_split. cbn [rainPool windPool snowPool lightningGraphics stormOverlay
      rainContainer set_windPool map app].
    unfold_fields. apply Permutation_app_swap_app.
Qed.

Lemma clearSnow_wf E c w :
  wellFormed E w ->
  wellFormed E
    (exec (forEach (snowPool w) (fun p => discard c (SnowParticle.g p)) ;;
           modify (set_snowPool [])) w).
Proof.
  rewrite exec_seq.
  apply (wellFormed_drop E (map SnowParticle.g (snowPool w))
           (forEach (snowPool w) (fun p => discard c (SnowParticle.g p)))
           (set_snowPool [])); try reflexivity.
  - apply (Touches_forEach SnowParticle.g (discard c)). intros h. apply Touches_discard.
  - rewrite !referenced_split. cbn [rainPool windPool snowPool lightningGraphics stormOverlay
      rainContainer set_snowPool map app].
    unfold_fields. rewrite !app_assoc. rewrite <- (app_assoc _ _ (olist (lightningGraphics w))).
    rewrite <- !app_assoc. rewrite (app_assoc (map RainParticle.g (rainPool w))).
    rewrite (app_assoc (map RainParticle.g (rainPool w)) (map WindParticle.g (windPool w))
               (olist _ ++ _)).
    apply Permutation_app_swap_app.
Qed.

Lemma ensureRainParticles_wf E zs maxCount :
  Hoare (wellFormed E) (ensureRainParticles entropy env zs maxCount)
    (fun _ => wellFormed E).
Proof.
  unfold ensureRainParticles.
  apply (Hoare_bind _ (fun _ => wellFormed E)); [intros w Hwf; exact Hwf | intros [c|]];
    [|intros w Hwf; exact Hwf].
  apply (Hoare_bind _ _ _ _ _ (Hoare_get _ _)). intros existing.
  lazy zeta. destruct (_ && _).
  - intros w [-> Hwf]. apply clearRain_wf, Hwf.
  - apply (Hoare_bind _ (fun _ => wellFormed E)).
    { intros w [_ Hwf]. apply rainLoop_wf, Hwf. }
    intros _. apply (Hoare_bind _ _ _ _ _ (Hoare_get _ _)). intros existing'.
    destruct (_ && _); [|intros w [_ Hwf]; exact Hwf].
    intros w [-> Hwf]. apply clearRain_wf, Hwf.
Qed.

Lemma ensureWindParticles_wf E zs maxCount :
  Hoare (wellFormed E) (ensureWindParticles entropy Math_PI env zs maxCount)
    (fun _ => wellFormed E).
Proof.
  unfold ensureWindParticles.
  apply (Hoare_bind _ (fun _ => wellFormed E)); [intros w Hwf; exact Hwf | intros [c|]];
    [|intros w Hwf; exact Hwf].
  apply (Hoare_bind _ _ _ _ _ (Hoare_get _ _)). intros existing.
  lazy zeta. destruct (_ && _).
  - intros w [-> Hwf]. apply clearWind_wf, Hwf.
  - apply (Hoare_bind _ (fun _ => wellFormed E)).
    { intros w [_ Hwf]. apply windLoop_wf, Hwf. }
    intros _. apply (Hoare_bind _ _ _ _ _ (Hoare_get _ _)). intros existing'.
    destruct (_ && _); [|intros w [_ Hwf]; exact Hwf].
    intros w [-> Hwf]. apply clearWind_wf, Hwf.
Qed.

Lemma ensureSnowParticles_wf E zs maxCount :
  Hoare (wellFormed E) (ensureSnowParticles entropy Math_PI env zs maxCount)
    (fun _ => wellFormed E).
Proof.
  unfold ensureSnowParticles.
  apply (Hoare_bind _ (fun _ => wellFormed E)); [intros w Hwf; exact Hwf | intros [c|]];
    [|intros w Hwf; exact Hwf].
  apply (Hoare_bind _ _ _ _ _ (Hoare_get _ _)). intros existing.
  lazy zeta. destruct (_ && _).
  - intros w [-> Hwf]. apply clearSnow_wf, Hwf.
  - apply (Hoare_bind _ (fun _ => wellFormed E)).
    { intros w [_ Hwf]. apply snowLoop_wf, Hwf. }
    intros _. apply (Hoare_bind _ _ _ _ _ (Hoare_get _ _)). intros existing'.
    destruct (_ && _); [|intros w [_ Hwf]; exact Hwf].
    intros w [-> Hwf]. apply clearSnow_wf, Hwf.
Qed.

Lemma rainStep_handles dt l l' :
  Forall2 (rainStep dt) l l' -> map RainParticle.g l' = map RainParticle.g l.
Proof.
  induction 1 as [|p p' l l' (Eg & _) _ IH]; [reflexivity|].
  cbn [map]. rewrite Eg, IH. reflexivity.
Qed.

Lemma windStep_handles dt l l' :
  Forall2 (windStep dt) l l' -> map WindParticle.g l' = map WindParticle.g l.
Proof.
  induction 1 as [|p p' l l' (Eg & _) _ IH]; [reflexivity|].
  cbn [map]. rewrite Eg, IH. reflexivity.
Qed.

Lemma snowStep_handles dt l l' :
  Forall2 (snowStep dt) l l' -> map SnowParticle.g l' = map SnowParticle.g l.
Proof.
  induction 1 as [|p p' l l' (Eg & _) _ IH]; [reflexivity|].
  cbn [map]. rewrite Eg, IH. reflexivity.
Qed.

Lemma integrateRain_referenced dt : Keeps referenced (integrateRain entropy dt).
Proof.
  intros w. fold (exec (integrateRain entropy dt) w). rewrite !referenced_split.
  rewrite (rainStep_handles dt _ _ (integrateRain_step entropy dt w)).
  repeat drop_exec. reflexivity.
Qed.

Lemma integrateWind_referenced dt : Keeps referenced (integrateWind dt).
Proof.
  intros w. fold (exec (integrateWind dt) w). rewrite !referenced_split.
  rewrite (windStep_handles dt _ _ (integrateWind_step dt w)).
  repeat drop_exec. reflexivity.
Qed.

Lemma integrateSnow_referenced dt : Keeps referenced (integrateSnow entropy Math_sin dt).
Proof.
  intros w. fold (exec (integrateSnow entropy Math_sin dt) w). rewrite !referenced_split.
  rewrite (snowStep_handles dt _ _ (integrateSnow_step entropy Math_sin dt w)).
  repeat drop_exec. reflexivity.
Qed.

Lemma perm_mid3 {A : Type} (g : A) (l1 l2 l3 t : list A) :
  Permutation (g :: l1 ++ l2 ++ l3 ++ t) (l1 ++ l2 ++ l3 ++ g :: t).
Proof.
  rewrite !(app_assoc l1 l2), !(app_assoc (l1 ++ l2) l3). apply Permutation_middle.
Qed.

Lemma perm_mid4 {A : Type} (g : A) (l1 l2 l3 l4 t : list A) :
  Permutation (g :: l1 ++ l2 ++ l3 ++ l4 ++ t) (l1 ++ l2 ++ l3 ++ l4 ++ g :: t).
Proof.
  rewrite !(app_assoc l1 l2), !(app_assoc (l1 ++ l2) l3), !(app_assoc ((l1 ++ l2) ++ l3) l4).
  apply Permutation_middle.
Qed.

Lemma perm_mid5 {A : Type} (g : A) (l1 l2 l3 l4 l5 t : list A) :
  Permutation (g :: l1 ++ l2 ++ l3 ++ l4 ++ l5 ++ t) (l1 ++ l2 ++ l3 ++ l4 ++ l5 ++ g :: t).
Proof.
  rewrite !(app_assoc l1 l2), !(app_assoc (l1 ++ l2) l3), !(app_assoc ((l1 ++ l2) ++ l3) l4),
    !(app_assoc (((l1 ++ l2) ++ l3) ++ l4) l5).
  apply Permutation_middle.
Qed.

Ltac fields_of_block :=
  unfold addChild, removeChild, destroy, onNode, modify, new, exec, bind, get, ret;
  cbn [fst snd rainPool windPool snowPool lightningGraphics stormOverlay rainContainer
       next nodes set_nodes set_next set_rainContainer set_stormOverlay
       set_lightningGraphics set_lightningPhase set_lightningAlpha set_thunder
       set_rainPool set_windPool set_snowPool].

Lemma setupContainers_wf E : Hoare (wellFormed E) setupContainers (fun _ => wellFormed E).
Proof.
  unfold setupContainers.
  apply (Hoare_bind _ _ _ _ _ (Hoare_get _ _)). intros [r|]; [intros w [_ Hwf]; exact Hwf|].
  apply (Hoare_bind _ (fun _ w => None = rainContainer w /\ wellFormed E w));
    [intros w Hwf; exact Hwf | intros [c|]]; [|intros w [_ Hwf]; exact Hwf].
  intros w [Hrc Hwf].
  pose proof (wellFormed_new E DisplayObject.Container w Hwf) as H1.
  pose proof (addChild_wf E c _ _ H1) as [H2 H3].
  refine (wellFormed_assign E (next w) _ _ _ _ _ H2 H3); try reflexivity.
  rewrite !referenced_split. fields_of_block. rewrite <- Hrc. cbn [olist].
  apply perm_mid5.
Qed.

Lemma ensureStormOverlay_wf E hasStorm :
  Hoare (wellFormed E) (ensureStormOverlay hasStorm) (fun _ => wellFormed E).
Proof.
  frame_referenced. unfold ensureStormOverlay.
  apply (Hoare_bind _ (fun _ => wellFormed E)); [intros w Hwf; exact Hwf | intros [c|]];
    [|intros w Hwf; exact Hwf].
  apply (Hoare_bind _ _ _ _ _ (Hoare_get _ _)). intros [o|].
  - destruct hasStorm; intros w [_ Hwf]; revert w Hwf; steady.
  - destruct hasStorm; [|intros w [_ Hwf]; exact Hwf].
    intros w [Ho Hwf].
    pose proof (wellFormed_new E DisplayObject.Graphics w Hwf) as H1.
    pose proof (addChild_wf E c _ _ H1) as [H2 H3].
    assert (H4 : wellFormed E
                   (set_stormOverlay (Some (next w))
                      (snd (addChild c (next w) (snd (new DisplayObject.Graphics w)))))).
    { refine (wellFormed_assign E (next w) _ _ _ _ _ H2 H3); try reflexivity.
      rewrite !referenced_split. fields_of_block. rewrite <- Ho. cbn [olist].
      apply perm_mid4. }
    assert (Hv : Hoare (wellFormed E) (onNode (next w) (DisplayObject.set_visible true))
                   (fun _ => wellFormed E)) by steady.
    exact (Hv _ H4).
Qed.

Lemma Hoare_with {A X : Type} (P : World -> Prop) (f : World -> X) (v : X) (m : M A) :
  Hoare P m (fun _ => P) -> Keeps f m ->
  Hoare (fun w => v = f w /\ P w) m (fun _ w => v = f w /\ P w).
Proof. intros Hp Hk w [Hv Hw]. split; [rewrite Hk; exact Hv | apply Hp, Hw]. Qed.

Lemma releaseLightning_wf E g w :
  Some g = lightningGraphics w -> wellFormed E w ->
  wellFormed E
    (exec (onNode g (DisplayObject.set_parent None) ;; destroy g ;;
           modify (set_lightningGraphics None)) w).
Proof.
  intros Hg.
  change (wellFormed E w ->
          wellFormed E
            (set_lightningGraphics None
               (exec (onNode g (DisplayObject.set_parent None) ;; destroy g) w))).
  apply (wellFormed_drop E [g]); try reflexivity.
  - apply Touches_bind; [apply Touches_onNode | intros _; apply Touches_destroy].
  - rewrite !referenced_split. fields_of_block. rewrite <- Hg. cbn [olist app].
    symmetry. apply (perm_mid3 g).
Qed.

Lemma updateLightning_wf E dt :
  Hoare (wellFormed E) (updateLightning dt) (fun _ => wellFormed E).
Proof.
  frame_referenced.
  assert (SceneBlind lightningGraphics) by frame_side.
  assert (Ignores set_lightningAlpha lightningGraphics) by frame_side.
  assert (Ignores set_lightningPhase lightningGraphics) by frame_side.
  unfold updateLightning.
  apply (Hoare_bind _ _ _ _ _ (Hoare_get _ _)). intros [g|]; [|intros w [_ Hwf]; exact Hwf].
  lazy zeta.
  do 5 (apply (Hoare_bind _ (fun _ w => Some g = lightningGraphics w /\ wellFormed E w));
        [apply Hoare_with; [steady | keeps] | intros ?]).
  destruct (Qle_bool _ _); [|intros w [_ Hwf]; exact Hwf].
  intros w [Hg Hwf].
  assert (Hr := releaseLightning_wf E g w Hg Hwf).
  assert (Hp : Hoare (wellFormed E) (modify (set_lightningPhase Phase.out))
                 (fun _ => wellFormed E)) by steady.
  exact (Hp _ Hr).
Qed.

Lemma wellFormed_same E w w' :
  next w' = next w -> nodes w' = nodes w -> referenced w' = referenced w ->
  wellFormed E w -> wellFormed E w'.
Proof.
  intros Hn Hs Hr. unfold wellFormed, alive, inScene. rewrite Hn, Hs, Hr.
  exact (fun H => H).
Qed.

Lemma wellFormed_forget E h w : wellFormed (h :: E) w -> wellFormed E w.
Proof.
  intros (Hnd & Ha & Hs). cbn [app] in Hnd, Ha.
  inversion Hnd; inversion Ha; subst. split; [|split]; assumption.
Qed.

Lemma Hoare_block {A : Type} (P R : World -> Prop) (Q : A -> World -> Prop)
  (m1 m2 : M unit) (k : M A) :
  (forall w, P w -> R (exec (m1 ;; m2) w)) -> Hoare R k Q -> Hoare P (m1 ;; m2 ;; k) Q.
Proof. intros H1 H2 w Hw. exact (H2 _ (H1 w Hw)). Qed.

(** The new lightning node is assigned before it is added to the
    container, and the sampling runs in between. *)
Lemma strike_wf E c fuel count n w1 v r wp :
  wellFormed E v -> None = lightningGraphics v ->
  next w1 = next v -> nodes w1 = nodes v ->
  rainPool w1 = rainPool v -> windPool w1 = windPool v -> snowPool w1 = snowPool v ->
  stormOverlay w1 = stormOverlay v -> rainContainer w1 = rainContainer v ->
  pickIndices entropy fuel count n []
    (exec (g <- new DisplayObject.Graphics ;; modify (set_lightningGraphics (Some g))) w1)
  = Some (r, wp) ->
  wellFormed E
    (exec (g <- get lightningGraphics ;;
           match g with
           | Some g => addChild c g
           | None => ret tt
           end ;;
           modify (set_lightningAlpha 0.92) ;;
           modify (set_lightningPhase Phase.first) ;;
           modify (fun w => set_thunder (S (thunder w)) w)) wp).
Proof.
  intros Hv Hl Hn Hs Hr Hw Hsn Ho Hc Hp.
  assert (Pn : next wp = S (next v))
    by (rewrite (pickIndices_drawn entropy next ltac:(frame_side) _ _ _ _ _ _ _ Hp);
        cbn; rewrite Hn; reflexivity).
  assert (Ps : nodes wp
               = update (next v) (fun _ => DisplayObject.create DisplayObject.Graphics)
                   (nodes v))
    by (rewrite (pickIndices_drawn entropy nodes ltac:(frame_side) _ _ _ _ _ _ _ Hp);
        cbn; rewrite Hn, Hs; reflexivity).
  assert (Pg : lightningGraphics wp = Some (next v))
    by (rewrite (pickIndices_drawn entropy lightningGraphics ltac:(frame_side)
                   _ _ _ _ _ _ _ Hp); cbn; rewrite Hn; reflexivity).
  assert (Pr : rainPool wp = rainPool v)
    by (rewrite (pickIndices_drawn entropy rainPool ltac:(frame_side) _ _ _ _ _ _ _ Hp);
        exact Hr).
  assert (Pw : windPool wp = windPool v)
    by (rewrite (pickIndices_drawn entropy windPool ltac:(frame_side) _ _ _ _ _ _ _ Hp);
        exact Hw).
  assert (Psn : snowPool wp = snowPool v)
    by (rewrite (pickIndices_drawn entropy snowPool ltac:(frame_side) _ _ _ _ _ _ _ Hp);
        exact Hsn).
  assert (Po : stormOverlay wp = stormOverlay v)
    by (rewrite (pickIndices_drawn entropy stormOverlay ltac:(frame_side) _ _ _ _ _ _ _ Hp);
        exact Ho).
  assert (Pc : rainContainer wp = rainContainer v)
    by (rewrite (pickIndices_drawn entropy rainContainer ltac:(frame_side) _ _ _ _ _ _ _ Hp);
        exact Hc).
  pose proof (wellFormed_new E DisplayObject.Graphics v Hv) as H1.
  pose proof (addChild_wf E c _ _ H1) as [H2 H3].
  assert (H4 : wellFormed E
                 (set_lightningGraphics (Some (next v))
                    (snd (addChild c (next v) (snd (new DisplayObject.Graphics v)))))).
  { refine (wellFormed_assign E (next v) _ _ _ _ _ H2 H3); try reflexivity.
    rewrite !referenced_split. fields_of_block. rewrite <- Hl. cbn [olist app].
    apply perm_mid3. }
  revert H4. unfold exec, bind, get. cbn [fst snd]. rewrite Pg.
  apply wellFormed_same.
  - fields_of_block. exact Pn.
  - fields_of_block. rewrite Ps. reflexivity.
  - rewrite !referenced_split. fields_of_block. rewrite Pg, Pr, Pw, Psn, Po, Pc.
    reflexivity.
Qed.

Lemma triggerLightning_wf E fuel zs w w' :
  triggerLightning entropy fuel zs w = Some w' -> wellFormed E w -> wellFormed E w'.
Proof.
  unfold triggerLightning.
  destruct (container w) as [c|]; [|intros H; returned H; exact (fun H => H)].
  destruct (_ =? _)%Z; [intros H; returned H; exact (fun H => H)|].
  lazy zeta.
  destruct (lightningGraphics w) as [old|] eqn:Hold.
  - destruct (pickIndices _ _ _ _ _ _) as [[r wp]|] eqn:Hp; [|discriminate].
    intros H Hwf. returned H.
    assert (Hv : wellFormed E
                   (set_lightningGraphics None
                      (exec (removeChild c old ;; destroy old) w))).
    { apply (wellFormed_drop E [old]); try reflexivity; [| |exact Hwf].
      - apply Touches_bind; [apply Touches_onNode | intros _; apply Touches_destroy].
      - rewrite !referenced_split. fields_of_block. rewrite Hold. cbn [olist app].
        symmetry. apply (perm_mid3 old). }
    exact (strike_wf E c _ _ _ _ _ _ _ Hv eq_refl eq_refl eq_refl eq_refl eq_refl eq_refl
             eq_refl eq_refl Hp).
  - destruct (pickIndices _ _ _ _ _ _) as [[r wp]|] eqn:Hp; [|discriminate].
    intros H Hwf. returned H.
    exact (strike_wf E c _ _ _ _ _ _ _ Hwf (eq_sym Hold) eq_refl eq_refl eq_refl eq_refl
             eq_refl eq_refl eq_refl Hp).
Qed.

Lemma tryLightning_wf E fuel dt zs w w' :
  tryLightning entropy env fuel dt zs w = Some w' -> wellFormed E w -> wellFormed E w'.
Proof.
  frame_referenced. unfold tryLightning.
  destruct (_ =? _)%Z; [intros H; returned H; exact (fun H => H)|].
  lazy zeta.
  destruct (leq _ _); [intros H; returned H; exact (fun H => H)|].
  assert (Ha : forall q, Hoare (wellFormed E) (modify (set_stormAccum q))
                           (fun _ => wellFormed E)) by (intros q; steady).
  assert (Hr : Hoare (wellFormed E) (Math_random entropy) (fun _ => wellFormed E))
    by steady.
  destruct (JsNumber.ltb _ _); [intros H Hwf; returned H; exact (Ha _ _ Hwf)|].
  destruct (gt _ _).
  - intros H Hwf. returned H. exact (Hr _ (Ha _ _ (Ha _ _ Hwf))).
  - intros H Hwf. apply (triggerLightning_wf E _ _ _ _ H).
    exact (Hr _ (Ha _ _ (Ha _ _ Hwf))).
Qed.

Lemma tick_wf E fuel dt w w' :
  tick entropy Math_sin Math_PI env fuel dt w = Some w' ->
  wellFormed E w -> wellFormed E w'.
Proof.
  frame_referenced.
  intros H Hwf. apply tick_cases in H. cbv zeta in H.
  pose proof (setupContainers_wf E w Hwf) as H1.
  destruct H as [-> | (rz & wz & sz & tz & hs & w3 & Ht & ->)]; [exact H1|].
  apply updateLightning_wf. apply (tryLightning_wf E _ _ _ _ _ Ht).
  apply (wellFormed_gentle E (integrateSnow entropy Math_sin dt));
    [apply Gentle_integrateSnow | apply integrateSnow_referenced|].
  apply (wellFormed_gentle E (integrateWind dt));
    [apply Gentle_integrateWind | apply integrateWind_referenced|].
  apply (wellFormed_gentle E (integrateRain entropy dt));
    [apply Gentle_integrateRain | apply integrateRain_referenced|].
  apply ensureStormOverlay_wf, ensureSnowParticles_wf, ensureWindParticles_wf,
    ensureRainParticles_wf, H1.
Qed.

Lemma destroyRain_wf E w :
  wellFormed E w ->
  wellFormed E
    (exec (forEach (rainPool w) (fun p => destroy (RainParticle.g p)) ;;
           modify (set_rainPool [])) w).
Proof.
  rewrite exec_seq.
  apply (wellFormed_drop E (map RainParticle.g (rainPool w))
           (forEach (rainPool w) (fun p => destroy (RainParticle.g p)))
           (set_rainPool [])); try reflexivity.
  - apply (Touches_forEach RainParticle.g destroy). intros h. apply Touches_destroy.
  - rewrite !referenced_split. cbn [rainPool windPool snowPool lightningGraphics stormOverlay
      rainContainer set_rainPool map app].
    apply Permutation_app_head. unfold_fields. reflexivity.
Qed.

Lemma destroyWind_wf E w :
  wellFormed E w ->
  wellFormed E
    (exec (forEach (windPool w) (fun p => destroy (WindParticle.g p)) ;;
           modify (set_windPool [])) w).
Proof.
  rewrite exec_seq.
  apply (wellFormed_drop E (map WindParticle.g (windPool w))
           (forEach (windPool w) (fun p => destroy (WindParticle.g p)))
           (set_windPool [])); try reflexivity.
  - apply (Touches_forEach WindParticle.g destroy). intros h. apply Touches_destroy.
  - rewrite !referenced_split. cbn [rainPool windPool snowPool lightningGraphics stormOverlay
      rainContainer set_windPool map app].
    unfold_fields. apply Permutation_app_swap_app.
Qed.

Lemma destroySnow_wf E w :
  wellFormed E w ->
  wellFormed E
    (exec (forEach (snowPool w) (fun p => destroy (SnowParticle.g p)) ;;
           modify (set_snowPool [])) w).
Proof.
  rewrite exec_seq.
  apply (wellFormed_drop E (map SnowParticle.g (snowPool w))
           (forEach (snowPool w) (fun p => destroy (SnowParticle.g p)))
           (set_snowPool [])); try reflexivity.
  - apply (Touches_forEach SnowParticle.g destroy). intros h. apply Touches_destroy.
  - rewrite !referenced_split. cbn [rainPool windPool snowPool lightningGraphics stormOverlay
      rainContainer set_snowPool map app].
    unfold_fields. rewrite !app_assoc. rewrite <- (app_assoc _ _ (olist (lightningGraphics w))).
    rewrite <- !app_assoc. rewrite (app_assoc (map RainParticle.g (rainPool w))).
    rewrite (app_assoc (map RainParticle.g (rainPool w)) (map WindParticle.g (windPool w))
               (olist _ ++ _)).
    apply Permutation_app_swap_app.
Qed.

Lemma lightning_referenced w h : lightningGraphics w = Some h -> In h (referenced w).
Proof.
  intros H. rewrite referenced_split, H, !in_app_iff. do 3 right. left. left. reflexivity.
Qed.

Lemma overlay_referenced w h : stormOverlay w = Some h -> In h (referenced w).
Proof.
  intros H. rewrite referenced_split, H, !in_app_iff. do 4 right. left. left. reflexivity.
Qed.

(** What is referred to has a parent, so [node?.parent] is set. *)
Lemma attached_referenced E (P : World -> Prop) (f : World -> option Handle) o :
  (forall w, P w -> wellFormed E w) ->
  (forall w h, f w = Some h -> In h (referenced w)) ->
  Hoare (fun w => o = f w /\ P w) (attached o)
    (fun a w => (o = f w /\ P w) /\ forall h, o = Some h -> a = true).
Proof.
  intros HP Hin w [Ho Hw]. split; [split; assumption|]. intros h ->.
  unfold attached, bind, get, ret. cbn [fst snd].
  destruct (HP w Hw) as (_ & _ & Hs). rewrite Forall_forall in Hs.
  specialize (Hs h (Hin w h (eq_sym Ho))). unfold inScene in Hs.
  destruct (DisplayObject.parent (nodes w h)); [reflexivity | elim Hs; reflexivity].
Qed.

Lemma stopTicker_wf E :
  Hoare (wellFormed E) stopTicker
    (fun _ w => wellFormed E w /\ lightningGraphics w = None).
Proof.
  frame_referenced.
  assert (SceneBlind lightningGraphics) by frame_side.
  assert (Ignores set_rainPool lightningGraphics) by frame_side.
  assert (Ignores set_windPool lightningGraphics) by frame_side.
  assert (Ignores set_snowPool lightningGraphics) by frame_side.
  unfold stopTicker.
  do 2 steady_bind E.
  apply (Hoare_bind _ (fun _ => wellFormed E)); [intros w Hwf; exact Hwf | intros overlay].
  apply (Hoare_bind _ (fun _ => wellFormed E)); [intros w Hwf; exact Hwf | intros att].
  apply (Hoare_bind _ (fun _ => wellFormed E));
    [destruct overlay as [o|]; [destruct att|]; steady | intros _].
  apply (Hoare_bind _ _ _ _ _ (Hoare_get _ _)). intros g.
  apply (Hoare_bind _ _ _ _ _
           (attached_referenced E _ lightningGraphics g (fun _ H => H) lightning_referenced)).
  intros a'.
  apply (Hoare_bind _ (fun _ w => wellFormed E w /\ lightningGraphics w = None)).
  { intros w [[Hg Hwf] Ha]. destruct g as [g|].
    - rewrite (Ha g eq_refl). split; [apply releaseLightning_wf; assumption | reflexivity].
    - split; [exact Hwf | symmetry; exact Hg]. }
  intros _.
  apply (Hoare_bind _ _ _ _ _ (Hoare_get _ _)). intros pool.
  apply (Hoare_block _ (fun w => wellFormed E w /\ lightningGraphics w = None)).
  { intros w [-> [Hwf Hl]]. split; [apply destroyRain_wf, Hwf|].
    rewrite <- Hl. apply Keeps_exec. unfold destroy. keeps. }
  apply (Hoare_bind _ _ _ _ _ (Hoare_get _ _)). intros pool2.
  apply (Hoare_block _ (fun w => wellFormed E w /\ lightningGraphics w = None)).
  { intros w [-> [Hwf Hl]]. split; [apply destroyWind_wf, Hwf|].
    rewrite <- Hl. apply Keeps_exec. unfold destroy. keeps. }
  apply (Hoare_bind _ _ _ _ _ (Hoare_get _ _)). intros pool3.
  intros w [-> [Hwf Hl]]. split; [apply destroySnow_wf, Hwf|].
  rewrite <- Hl. apply (Keeps_exec lightningGraphics). unfold destroy. keeps.
Qed.

Lemma perm_last5 {A : Type} (l1 l2 l3 l4 l5 t : list A) :
  Permutation (l1 ++ l2 ++ l3 ++ l4 ++ l5 ++ t) (t ++ l1 ++ l2 ++ l3 ++ l4 ++ l5 ++ []).
Proof.
  rewrite app_nil_r.
  rewrite !(app_assoc l1 l2), !(app_assoc (l1 ++ l2) l3), !(app_assoc ((l1 ++ l2) ++ l3) l4),
    !(app_assoc (((l1 ++ l2) ++ l3) ++ l4) l5).
  apply Permutation_app_comm.
Qed.

Lemma dropRainContainer_wf E w : wellFormed E w -> wellFormed E (set_rainContainer None w).
Proof.
  apply (wellFormed_release E (olist (rainContainer w))); [reflexivity | |].
  - rewrite !referenced_split. apply perm_last5.
  - intros h _. split; [reflexivity | exact (fun H => H)].
Qed.

Lemma releaseOverlay_wf E o w :
  Some o = stormOverlay w -> wellFormed E w ->
  wellFormed E
    (exec (onNode o (DisplayObject.set_parent None) ;; destroy o ;;
           modify (set_stormOverlay None)) w).
Proof.
  intros Ho.
  change (wellFormed E w ->
          wellFormed E
            (set_stormOverlay None
               (exec (onNode o (DisplayObject.set_parent None) ;; destroy o) w))).
  apply (wellFormed_drop E [o]); try reflexivity.
  - apply Touches_bind; [apply Touches_onNode | intros _; apply Touches_destroy].
  - rewrite !referenced_split. fields_of_block. rewrite <- Ho. cbn [olist app].
    symmetry. apply (perm_mid4 o).
Qed.

Lemma onUnmounted_wf E :
  Hoare (wellFormed E) onUnmounted
    (fun _ w => wellFormed E w
                /\ lightningGraphics w = None /\ stormOverlay w = None
                /\ rainContainer w = None).
Proof.
  unfold onUnmounted.
  apply (Hoare_bind _ _ _ _ _ (stopTicker_wf E)). intros _.
  apply (Hoare_bind _ (fun _ w => wellFormed E w /\ lightningGraphics w = None
                                  /\ rainContainer w = None)).
  { intros w [Hwf Hl].
    split; [apply dropRainContainer_wf, Hwf | split; [exact Hl | reflexivity]]. }
  intros _.
  apply (Hoare_bind _ _ _ _ _ (Hoare_get _ _)). intros overlay.
  apply (Hoare_bind _ _ _ _ _
           (attached_referenced E _ stormOverlay overlay (fun _ H => proj1 H)
              overlay_referenced)).
  intros a. intros w [[Ho (Hwf & Hl & Hc)] Ha]. destruct overlay as [o|].
  - rewrite (Ha o eq_refl).
    split; [apply releaseOverlay_wf; assumption | split; [exact Hl | split; [reflexivity | exact Hc]]].
  - split; [exact Hwf | split; [exact Hl | split; [symmetry; exact Ho | exact Hc]]].
Qed.

Lemma unmount_wf E :
  Hoare (wellFormed E) unmount
    (fun _ w => wellFormed E w
                /\ lightningGraphics w = None /\ stormOverlay w = None
                /\ rainContainer w = None).
Proof.
  unfold unmount.
  apply (Hoare_bind _ _ _ _ _ (onUnmounted_wf E)). intros _.
  intros w (Hwf & Hl & Ho & Hc).
  split; [|split; [exact Hl | split; [exact Ho | exact Hc]]].
  revert Hwf. apply wellFormed_same; reflexivity.
Qed.

Lemma mount_wf E : Hoare (wellFormed E) (mount env) (fun _ => wellFormed E).
Proof.
  frame_referenced. unfold mount.
  apply (Hoare_bind _ (fun _ => wellFormed E)).
  { intros w Hwf. apply (wellFormed_forget E (next w)).
    exact (wellFormed_new E DisplayObject.Container w Hwf). }
  intros c. steady_bind E. unfold onMounted.
  apply (Hoare_bind _ (fun _ => wellFormed E)); [apply setupContainers_wf | intros _].
  steady.
Qed.

Lemma watchMapData_wf E : Hoare (wellFormed E) (watchMapData env) (fun _ => wellFormed E).
Proof.
  frame_referenced. apply wellFormed_gentle; [apply Gentle_watchMapData|].
  unfold watchMapData. keeps.
Qed.

Lemma watchLevel_wf E : Hoare (wellFormed E) (watchLevel env) (fun _ => wellFormed E).
Proof.
  frame_referenced. unfold watchLevel. cbv zeta.
  destruct (allZero _); [intros w Hwf; apply (stopTicker_wf E w Hwf) | steady].
Qed.

Lemma created_wf : wellFormed [] (created env).
Proof.
  unfold created. apply watchMapData_wf.
  split; [constructor | split; constructor].
Qed.

End Operations.

Section Lifetime.
Import WeatherLayer.
Local Open Scope nat_scope.
Variable entropy : nat -> Q.
Variable Math_sin : Q -> Q.
Variable Math_PI : Q.

Lemma reachable_wellFormed (w : World) :
  reachable entropy Math_sin Math_PI w -> wellFormed [] w.
Proof.
  induction 1 as [env | env w _ IH | env fuel dt w w' _ IH Hf | env w _ IH | env w _ IH
                 | w _ IH].
  - apply created_wf.
  - apply mount_wf, IH.
  - unfold frame in Hf. destruct (ticker w).
    + exact (tick_wf entropy Math_sin Math_PI env [] _ _ _ _ Hf IH).
    + returned Hf. exact IH.
  - apply watchMapData_wf, IH.
  - apply watchLevel_wf, IH.
  - apply (unmount_wf [] w IH).
Qed.

End Lifetime.

Section HeldObjects.
Import WeatherLayer.
Local Open Scope nat_scope.
Variable entropy : nat -> Q.
Variable Math_sin : Q -> Q.
Variable Math_PI : Q.

(** X20.  In every state the component can be in, the display objects it
    holds (the sprites and graphics of the three particle pools, the
    lightning node, the storm overlay and the rain container) are pairwise
    distinct: no object is held twice. *)
Theorem held_display_objects_are_distinct (w : World) :
  reachable entropy Math_sin Math_PI w ->
  NoDup (pooled Kind.rain w ++ pooled Kind.wind w ++ pooled Kind.snow w
         ++ olist (lightningGraphics w) ++ olist (stormOverlay w)
         ++ olist (rainContainer w)).
Proof.
  intros Hr. exact (proj1 (reachable_wellFormed entropy Math_sin Math_PI w Hr)).
Qed.

(** X21.  In every state the component can be in, every display object it
    holds was created, has not been destroyed and has a parent: the
    component never keeps a destroyed or a detached object. *)
Theorem held_display_objects_are_alive_and_attached (w : World) (h : Handle) :
  reachable entropy Math_sin Math_PI w ->
  In h (referenced w) ->
  (h < next w)%nat
  /\ DisplayObject.destroyed (nodes w h) = false
  /\ DisplayObject.parent (nodes w h) <> None.
Proof.
  intros Hr Hin.
  destruct (reachable_wellFormed entropy Math_sin Math_PI w Hr) as (_ & Ha & Hs).
  rewrite Forall_forall in Ha, Hs. cbn [app] in Ha.
  destruct (Ha h Hin) as [Hlt Hd]. split; [exact Hlt | split; [exact Hd | exact (Hs h Hin)]].
Qed.

(** X22.  Unmounting from any state the component can be in leaves it
    holding no display object: the three pools are empty and the lightning
    node, the storm overlay, the rain container and the template's
    container are all cleared. *)
Theorem unmounting_releases_every_display_object (w : World) :
  reachable entropy Math_sin Math_PI w ->
  let w' := exec unmount w in
  rainPool w' = [] /\ windPool w' = [] /\ snowPool w' = []
  /\ lightningGraphics w' = None /\ stormOverlay w' = None
  /\ rainContainer w' = None /\ container w' = None.
Proof.
  intros Hr. cbv zeta.
  destruct (unmount_wf [] w (reachable_wellFormed entropy Math_sin Math_PI w Hr))
    as (_ & Hl & Ho & Hc).
  destruct (stopTicker_idle w) as (Hrain & Hwind & Hsnow & _).
  split; [|split; [|split; [|split; [|split; [|split]]]]].
  - rewrite (Keeps_tail_of_unmount rainPool); [exact Hrain | frame_side ..].
  - rewrite (Keeps_tail_of_unmount windPool); [exact Hwind | frame_side ..].
  - rewrite (Keeps_tail_of_unmount snowPool); [exact Hsnow | frame_side ..].
  - exact Hl.
  - exact Ho.
  - exact Hc.
  - reflexivity.
Qed.

(** X23.  In every state the component can be in, while there is no ticker
    there is no lightning node: a flash that is under way when the
    animation stops is removed with it. *)
Theorem lightning_node_only_while_the_ticker_runs (w : World) :
  reachable entropy Math_sin Math_PI w ->
  ticker w = false ->
  lightningGraphics w = None.
Proof.
  induction 1 as [env | env w Hr IH | env fuel dt w w' Hr IH Hf | env w Hr IH
                 | env w Hr IH | w Hr IH];
    intros Hoff.
  - unfold created. drop_exec. reflexivity.
  - assert (Hw : ticker w = false).
    { rewrite mount_ticker in Hoff. destruct (_ && _); [discriminate | exact Hoff]. }
    rewrite <- (IH Hw). apply (Keeps_exec lightningGraphics). apply Keeps_mount; frame_side.
  - unfold frame in Hf. destruct (ticker w) eqn:Et.
    + rewrite (tick_ticker _ _ _ _ _ _ _ _ Hf) in Hoff. congruence.
    + returned Hf. exact (IH eq_refl).
  - assert (E : ticker (exec (watchMapData env) w) = ticker w) by (drop_exec; reflexivity).
    rewrite E in Hoff. rewrite <- (IH Hoff). drop_exec. reflexivity.
  - unfold watchLevel in *. cbv zeta in *.
    destruct (allZero _).
    + exact (proj2 (stopTicker_wf [] w
                      (reachable_wellFormed entropy Math_sin Math_PI w Hr))).
    + rewrite exec_bind in *. cbn [get fst snd] in *.
      destruct (_ <? _)%Z.
      * rewrite startTicker_ticker in Hoff. discriminate.
      * exact (IH Hoff).
  - destruct (unmount_wf [] w (reachable_wellFormed entropy Math_sin Math_PI w Hr))
      as (_ & Hl & _).
    exact Hl.
Qed.

End HeldObjects.

Section HeldObjectsWitnesses.
Import WeatherLayer.
Local Open Scope nat_scope.

Lemma held_display_objects_are_distinct_witness :
  reachable Scenario.entropy Scenario.Math_sin Scenario.Math_PI Scenario.afterFrame
  /\ NoDup (pooled Kind.rain Scenario.afterFrame ++ pooled Kind.wind Scenario.afterFrame
            ++ pooled Kind.snow Scenario.afterFrame
            ++ olist (lightningGraphics Scenario.afterFrame)
            ++ olist (stormOverlay Scenario.afterFrame)
            ++ olist (rainContainer Scenario.afterFrame)).
Proof.
  split; [exact scenario_reachable|].
  exact (held_display_objects_are_distinct
           Scenario.entropy Scenario.Math_sin Scenario.Math_PI _ scenario_reachable).
Defined.

Lemma held_display_objects_are_alive_and_attached_witness :
  (reachable Scenario.entropy Scenario.Math_sin Scenario.Math_PI Scenario.afterFrame
   /\ In 143%nat (referenced Scenario.afterFrame))
  /\ DisplayObject.destroyed (nodes Scenario.afterFrame 143%nat) = false.
Proof.
  assert (Hin : In 143%nat (referenced Scenario.afterFrame))
    by (apply lightning_referenced; vm_compute; reflexivity).
  split; [split; [exact scenario_reachable | exact Hin]|].
  exact (proj1 (proj2 (held_display_objects_are_alive_and_attached
                         Scenario.entropy Scenario.Math_sin Scenario.Math_PI _ _
                         scenario_reachable Hin))).
Defined.

Lemma unmounting_releases_every_display_object_witness :
  reachable Scenario.entropy Scenario.Math_sin Scenario.Math_PI Scenario.afterFrame
  /\ lightningGraphics (exec unmount Scenario.afterFrame) = None.
Proof.
  split; [exact scenario_reachable|].
  exact (proj1 (proj2 (proj2 (proj2
           (unmounting_releases_every_display_object
              Scenario.entropy Scenario.Math_sin Scenario.Math_PI _ scenario_reachable))))).
Defined.

Lemma lightning_node_only_while_the_ticker_runs_witness :
  let w := exec (watchLevel (Scenario.env Setting.none)) Scenario.afterFrame in
  (reachable Scenario.entropy Scenario.Math_sin Scenario.Math_PI w /\ ticker w = false)
  /\ lightningGraphics w = None.
Proof.
  assert (Hr : reachable Scenario.entropy Scenario.Math_sin Scenario.Math_PI
                 (exec (watchLevel (Scenario.env Setting.none)) Scenario.afterFrame))
    by (apply reach_watchLevel, scenario_reachable).
  assert (Ht : ticker (exec (watchLevel (Scenario.env Setting.none)) Scenario.afterFrame)
               = false) by (vm_compute; reflexivity).
  split; [split; [exact Hr | exact Ht]|].
  exact (lightning_node_only_while_the_ticker_runs
           Scenario.entropy Scenario.Math_sin Scenario.Math_PI _ Hr Ht).
Defined.

End HeldObjectsWitnesses.

(** ** Thunder *)

Section Thunder.
Import WeatherLayer.
Local Open Scope nat_scope.
Local Open Scope Q_scope.
Variable entropy : nat -> Q.
Variable Math_sin : Q -> Q.
Variable Math_PI : Q.

Lemma triggerLightning_thunder fuel zs w w0 :
  triggerLightning entropy fuel zs w = Some w0 ->
  thunder w0 = thunder w
  \/ (thunder w0 = S (thunder w)
      /\ exists g, flashing g Phase.first w0 /\ lightningAlpha w0 = JsNumber.double 0.92).
Proof.
  intros H. destruct (container w) as [c|] eqn:Hc.
  2: { unfold triggerLightning in H. rewrite Hc in H. returned H. left. reflexivity. }
  destruct zs as [|z zs].
  { unfold triggerLightning in H. rewrite Hc in H. cbn in H. returned H. left. reflexivity. }
  right. split.
  - unfold triggerLightning in H. rewrite Hc in H.
    replace (len (z :: zs) =? 0)%Z with false in H
      by (symmetry; apply Z.eqb_neq; unfold len; cbn [List.length]; lia).
    lazy zeta in H.
    destruct (pickIndices _ _ _ _ _ _) as [[r wp]|] eqn:Hp; [|discriminate].
    returned H.
    apply (pickIndices_drawn entropy thunder ltac:(frame_side)) in Hp.
    unfold exec, bind, get. cbn [fst snd].
    assert (Hw : thunder wp = thunder w)
      by (rewrite Hp; destruct (lightningGraphics w); reflexivity).
    destruct (lightningGraphics wp); unfold addChild, onNode, modify, ret;
      cbn [fst snd thunder set_thunder set_nodes set_lightningPhase set_lightningAlpha];
      rewrite Hw; reflexivity.
  - apply (triggerLightning_flash entropy fuel (z :: zs) w w0 c Hc); [discriminate | exact H].
Qed.

Lemma tryLightning_thunder env fuel dt zs w w0 :
  tryLightning entropy env fuel dt zs w = Some w0 ->
  thunder w0 = thunder w
  \/ (thunder w0 = S (thunder w)
      /\ exists g, flashing g Phase.first w0 /\ lightningAlpha w0 = JsNumber.double 0.92).
Proof.
  unfold tryLightning.
  destruct (_ =? _)%Z; [intros H; returned H; left; reflexivity|].
  lazy zeta.
  destruct (leq _ _); [intros H; returned H; left; reflexivity|].
  destruct (JsNumber.ltb _ _); [intros H; returned H; left; reflexivity|].
  destruct (gt _ _); [intros H; returned H; left; reflexivity|].
  intros H. apply triggerLightning_thunder in H. exact H.
Qed.

(** X24.  A frame plays the thunder sound at most once, and when it does a
    flash has just started: at the end of that frame the lightning node
    exists and is not destroyed, the phase is first or dim, and the opacity
    is at least 0.25. *)
Theorem thunder_comes_with_a_flash
  (env : Env.t) (fuel : nat) (dt : Q) (w w' : World) :
  frame entropy Math_sin Math_PI env fuel dt w = Some w' ->
  thunder w' = thunder w
  \/ (thunder w' = S (thunder w)
      /\ exists g, lightningGraphics w' = Some g
                   /\ DisplayObject.destroyed (nodes w' g) = false
                   /\ (lightningPhase w' = Phase.first \/ lightningPhase w' = Phase.dim)
                   /\ 0.25 <= lightningAlpha w').
Proof.
  intros Hf. unfold frame in Hf.
  destruct (ticker w); [|returned Hf; left; reflexivity].
  apply tick_cases in Hf. cbv zeta in Hf.
  destruct Hf as [-> | (rz & wz & sz & tz & hs & w3 & Ht & ->)].
  - left. drop_exec. reflexivity.
  - match type of Ht with
    | tryLightning _ _ _ _ _ ?w2 = _ =>
        assert (H2 : thunder w2 = thunder w) by (repeat drop_exec; reflexivity)
    end.
    assert (Hu : thunder (exec (updateLightning dt) w3) = thunder w3)
      by (drop_exec; reflexivity).
    apply tryLightning_thunder in Ht. rewrite H2 in Ht. rewrite Hu.
    destruct Ht as [Ht | [Ht (g & Hfl & Ha)]]; [left; exact Ht | right].
    split; [exact Ht|]. exists g.
    destruct (Qlt_le_dec 0.25 (lightningAlpha w3 - dt * 7)%js) as [Hs | Hs].
    + destruct (first_stay dt g w3 Hfl Hs) as [(Hg & Hp & _ & Hd) Hal].
      split; [exact Hg | split; [exact Hd | split; [left; exact Hp|]]].
      rewrite Hal. apply Qlt_le_weak, Hs.
    + destruct (first_leave dt g w3 Hfl Hs) as [(Hg & Hp & _ & Hd) Hal].
      split; [exact Hg | split; [exact Hd | split; [right; exact Hp|]]].
      rewrite Hal. apply Qle_refl.
Qed.

End Thunder.

Section ThunderWitness.
Import WeatherLayer.
Local Open Scope nat_scope.

Lemma thunder_comes_with_a_flash_witness :
  frame Scenario.entropy Scenario.Math_sin Scenario.Math_PI
    (Scenario.env Setting.high) 5 1 Scenario.mounted = Some Scenario.afterFrame
  /\ (thunder Scenario.afterFrame = thunder Scenario.mounted
      \/ (thunder Scenario.afterFrame = S (thunder Scenario.mounted)
          /\ exists g, lightningGraphics Scenario.afterFrame = Some g
                       /\ DisplayObject.destroyed (nodes Scenario.afterFrame g) = false
                       /\ (lightningPhase Scenario.afterFrame = Phase.first
                           \/ lightningPhase Scenario.afterFrame = Phase.dim)
                       /\ (0.25 <= lightningAlpha Scenario.afterFrame)%Q)).
Proof.
  split; [exact scenario_frame|].
  exact (thunder_comes_with_a_flash Scenario.entropy Scenario.Math_sin Scenario.Math_PI
           _ _ _ _ _ scenario_frame).
Defined.

End ThunderWitness.

(** ** What a program leaves of the display objects that exist *)

Section Still.
Import WeatherLayer.
Local Open Scope nat_scope.
Context {X : Type} (obs : DisplayObject.t -> X) (n : nat).

Lemma Still_ret {A : Type} (a : A) : Still obs n (ret a).
Proof. intros w Hn. split; [exact Hn | intros h _; reflexivity]. Qed.

Lemma Still_get {A : Type} (p : World -> A) : Still obs n (get p).
Proof. intros w Hn. split; [exact Hn | intros h _; reflexivity]. Qed.

Lemma Still_random entropy : Still obs n (Math_random entropy).
Proof. intros w Hn. split; [exact Hn | intros h _; reflexivity]. Qed.

Lemma Still_modify (f : World -> World) :
  (forall w, next (f w) = next w) -> (forall w, nodes (f w) = nodes w) ->
  Still obs n (modify f).
Proof.
  intros Hx Hs w Hn. unfold modify. cbn [snd]. rewrite Hx, Hs.
  split; [exact Hn | intros h _; reflexivity].
Qed.

Lemma Still_onNode (g : Handle) (f : DisplayObject.t -> DisplayObject.t) :
  (forall d, obs (f d) = obs d) -> Still obs n (onNode g f).
Proof.
  intros Hf w Hn. unfold onNode, modify, update. cbn [snd next nodes set_nodes].
  split; [exact Hn | intros h _].
  destruct (Nat.eqb_spec h g) as [-> | _]; [apply Hf | reflexivity].
Qed.

Lemma Still_onNode_later (g : Handle) (f : DisplayObject.t -> DisplayObject.t) :
  n <= g -> Still obs n (onNode g f).
Proof.
  intros Hg w Hn. unfold onNode, modify, update. cbn [snd next nodes set_nodes].
  split; [exact Hn | intros h Hh].
  destruct (Nat.eqb_spec h g) as [-> | _]; [lia | reflexivity].
Qed.

Lemma Still_new (k : DisplayObject.Kind) : Still obs n (new k).
Proof.
  intros w Hn. unfold new, update. cbn [snd next nodes set_nodes set_next].
  split; [lia | intros h Hh].
  destruct (Nat.eqb_spec h (next w)) as [-> | _]; [lia | reflexivity].
Qed.

Lemma Still_bind_value {A B : Type} (R : A -> Prop) (m : M A) (k : A -> M B) :
  (forall w, n <= next w -> R (fst (m w))) ->
  Still obs n m -> (forall a, R a -> Still obs n (k a)) -> Still obs n (bind m k).
Proof.
  intros HR Hm Hk w Hn. unfold bind. cbv zeta.
  destruct (Hm w Hn) as [N1 S1].
  destruct (Hk (fst (m w)) (HR w Hn) (snd (m w)) N1) as [N2 S2].
  split; [exact N2 | intros h Hh; rewrite (S2 h Hh); exact (S1 h Hh)].
Qed.

Lemma Still_bind {A B : Type} (m : M A) (k : A -> M B) :
  Still obs n m -> (forall a, Still obs n (k a)) -> Still obs n (bind m k).
Proof.
  intros Hm Hk. apply (Still_bind_value (fun _ => True)); [intros; exact I | exact Hm|].
  intros a _. apply Hk.
Qed.

Lemma Still_bind_new {B : Type} (kind : DisplayObject.Kind) (k : Handle -> M B) :
  (forall g, n <= g -> Still obs n (k g)) -> Still obs n (bind (new kind) k).
Proof.
  intros Hk. apply (Still_bind_value (fun g => n <= g)); [|apply Still_new | exact Hk].
  intros w Hn. exact Hn.
Qed.

Lemma Still_forEach {A : Type} (l : list A) (body : A -> M unit) :
  (forall a, Still obs n (body a)) -> Still obs n (forEach l body).
Proof.
  intros H. induction l as [|a l IH]; cbn [forEach].
  - apply Still_ret.
  - apply Still_bind; [apply H | intros _; exact IH].
Qed.

Lemma Still_exec {A : Type} (m : M A) (w : World) (h : Handle) :
  Still obs n m -> n <= next w -> h < n ->
  obs (nodes (exec m w) h) = obs (nodes w h).
Proof. intros Hm Hn Hh. exact (proj2 (Hm w Hn) h Hh). Qed.

End Still.

(** Structural descent through a program that leaves the objects at rest. *)
Ltac still_step :=
  lazy zeta;
  first
    [ apply Still_ret
    | apply Still_get
    | apply Still_random
    | apply Still_new
    | apply Still_onNode_later; assumption
    | apply Still_onNode; intros ?;
      first [ reflexivity
            | match goal with |- context [if ?b then _ else _] => destruct b end;
              reflexivity ]
    | apply Still_modify; [intros ?; reflexivity | intros ?; reflexivity]
    | apply Still_forEach; intros ?
    | apply Still_bind_new; intros ? ?
    | apply Still_bind; [|intros ?]
    | match goal with
      | |- WeatherLayer.Still _ _ (if ?b then _ else _) => destruct b
      | |- WeatherLayer.Still _ _ (match ?x with _ => _ end) => destruct x
      end ].

Ltac still := repeat still_step.

Section StillPrograms.
Import WeatherLayer.
Local Open Scope nat_scope.
Context {X : Type} (obs : DisplayObject.t -> X).
Variable n : nat.

Lemma Still_setupContainers : Still obs n setupContainers.
Proof. unfold setupContainers, addChild. still. Qed.

Lemma Still_mount env : Still obs n (mount env).
Proof. unfold mount, onMounted, setupContainers, addChild, startTicker. still. Qed.

End StillPrograms.

(** ** The storm overlay while the animation is stopped *)

Section OverlayHidden.
Import WeatherLayer.
Local Open Scope nat_scope.
Variable entropy : nat -> Q.
Variable Math_sin : Q -> Q.
Variable Math_PI : Q.

Lemma Still_Hoare {X A : Type} (obs : DisplayObject.t -> X) (v : X) (h : Handle) (m : M A) :
  (forall n, Still obs n m) ->
  Hoare (fun w => h < next w /\ obs (nodes w h) = v) m
    (fun _ w => h < next w /\ obs (nodes w h) = v).
Proof.
  intros Hm w [Hh Hv]. destruct (Hm (S h) w Hh) as [N S'].
  split; [exact N | rewrite S'; [exact Hv | lia]].
Qed.

Lemma wellFormed_alive E w h : wellFormed E w -> In h (referenced w) -> h < next w.
Proof.
  intros (_ & Ha & _) Hin. rewrite Forall_forall in Ha.
  exact (proj1 (Ha h (in_or_app _ _ _ (or_intror Hin)))).
Qed.

Lemma stopTicker_hides E o :
  Hoare (fun w => wellFormed E w /\ stormOverlay w = Some o) stopTicker
    (fun _ w => DisplayObject.visible (nodes w o) = false).
Proof.
  unfold stopTicker.
  do 2 (apply (Hoare_bind _ (fun _ w => wellFormed E w /\ stormOverlay w = Some o));
        [ intros w [Hwf Ho]; split; [revert Hwf; apply wellFormed_same; reflexivity | exact Ho]
        | intros _ ]).
  apply (Hoare_bind _ _ _ _ _ (Hoare_get _ _)). intros overlay.
  apply (Hoare_bind _ _ _ _ _
           (attached_referenced E _ stormOverlay overlay (fun _ H => proj1 H)
              overlay_referenced)).
  intros a.
  apply (Hoare_bind _ (fun _ w => o < next w /\ DisplayObject.visible (nodes w o) = false)).
  { intros w [[Hov [Hwf Ho]] Ha]. rewrite Ho in Hov. subst overlay.
    rewrite (Ha o eq_refl). split.
    - exact (wellFormed_alive E w o Hwf (overlay_referenced w o Ho)).
    - unfold onNode, modify, update. cbn [snd nodes set_nodes].
      rewrite Nat.eqb_refl. reflexivity. }
  intros _ w H.
  refine (proj2 (Still_Hoare DisplayObject.visible false o _ _ w H)).
  intros n. unfold attached, destroy. still.
Qed.

(** X25.  In every state the component can be in, while there is no ticker
    the storm overlay, if it exists, is hidden: the dimming of a storm does
    not stay on the screen when the animation stops. *)
Theorem storm_overlay_hidden_while_the_ticker_is_off (w : World) (o : Handle) :
  reachable entropy Math_sin Math_PI w ->
  ticker w = false ->
  stormOverlay w = Some o ->
  DisplayObject.visible (nodes w o) = false.
Proof.
  intros Hr. revert o.
  induction Hr as [env | env w Hr IH | env fuel dt w w' Hr IH Hf | env w Hr IH
                  | env w Hr IH | w Hr IH];
    intros o Hoff Ho.
  - unfold created in Ho. revert Ho. drop_exec. discriminate.
  - assert (Hw : ticker w = false).
    { rewrite mount_ticker in Hoff. destruct (_ && _); [discriminate | exact Hoff]. }
    assert (Ho' : stormOverlay w = Some o).
    { rewrite <- Ho. symmetry. apply (Keeps_exec stormOverlay). apply Keeps_mount; frame_side. }
    rewrite <- (IH o Hw Ho').
    apply (Still_exec DisplayObject.visible (next w)); [|apply Nat.le_refl|].
    + apply Still_mount.
    + exact (wellFormed_alive [] w o (reachable_wellFormed entropy Math_sin Math_PI w Hr)
               (overlay_referenced w o Ho')).
  - unfold frame in Hf. destruct (ticker w) eqn:Et.
    + rewrite (tick_ticker _ _ _ _ _ _ _ _ Hf) in Hoff. congruence.
    + returned Hf. exact (IH o eq_refl Ho).
  - assert (E : ticker (exec (watchMapData env) w) = ticker w) by (drop_exec; reflexivity).
    rewrite E in Hoff.
    assert (Ho' : stormOverlay w = Some o) by (rewrite <- Ho; drop_exec; reflexivity).
    rewrite <- (IH o Hoff Ho').
    unfold watchMapData. destruct (Env.mapData env) as [[|[|? ?] ?]|]; reflexivity.
  - unfold watchLevel in *. cbv zeta in *.
    destruct (allZero _).
    + assert (Ho' : stormOverlay w = Some o).
      { rewrite <- Ho. symmetry. apply (Keeps_exec stormOverlay), Keeps_stopTicker_overlay. }
      exact (stopTicker_hides [] o w
               (conj (reachable_wellFormed entropy Math_sin Math_PI w Hr) Ho')).
    + rewrite exec_bind in *. cbn [get fst snd] in *.
      destruct (_ <? _)%Z.
      * rewrite startTicker_ticker in Hoff. discriminate.
      * exact (IH o Hoff Ho).
  - destruct (unmount_wf [] w (reachable_wellFormed entropy Math_sin Math_PI w Hr))
      as (_ & _ & Hov & _).
    unfold exec in Ho. rewrite Hov in Ho. discriminate.
Qed.

End OverlayHidden.

Section OverlayHiddenWitness.
Import WeatherLayer.
Local Open Scope nat_scope.

Lemma storm_overlay_hidden_while_the_ticker_is_off_witness :
  let w := exec (watchLevel (Scenario.env Setting.none)) Scenario.afterFrame in
  (reachable Scenario.entropy Scenario.Math_sin Scenario.Math_PI w
   /\ ticker w = false /\ stormOverlay w = Some 142%nat)
  /\ DisplayObject.visible (nodes w 142%nat) = false.
Proof.
  assert (Hr : reachable Scenario.entropy Scenario.Math_sin Scenario.Math_PI
                 (exec (watchLevel (Scenario.env Setting.none)) Scenario.afterFrame))
    by (apply reach_watchLevel, scenario_reachable).
  assert (Ht : ticker (exec (watchLevel (Scenario.env Setting.none)) Scenario.afterFrame)
               = false) by (vm_compute; reflexivity).
  assert (Ho : stormOverlay (exec (watchLevel (Scenario.env Setting.none))
                               Scenario.afterFrame) = Some 142%nat)
    by (vm_compute; reflexivity).
  split; [split; [exact Hr | split; [exact Ht | exact Ho]]|].
  exact (storm_overlay_hidden_while_the_ticker_is_off
           Scenario.entropy Scenario.Math_sin Scenario.Math_PI _ _ Hr Ht Ho).
Defined.

End OverlayHiddenWitness.

(** ** The display object of a particle is drawn where the particle is *)

Section AtRest.
Import WeatherLayer.
Local Open Scope nat_scope.
Variable entropy : nat -> Q.
Variable Math_sin : Q -> Q.
Variable Math_PI : Q.
Variable env : Env.t.
Variable n : nat.

Lemma Still_pick {A : Type} (a : A) (l : list A) : Still position n (pick entropy a l).
Proof. unfold pick. still. Qed.

Lemma Still_createRainParticle : Still position n (createRainParticle entropy env).
Proof. unfold createRainParticle. still. Qed.

Lemma Still_createWindParticle : Still position n (createWindParticle entropy Math_PI env).
Proof. unfold createWindParticle. still. Qed.

Lemma Still_createSnowParticle : Still position n (createSnowParticle entropy Math_PI env).
Proof. unfold createSnowParticle. still. Qed.

Lemma createRainParticle_later w :
  n <= next w -> n <= fst (createRainParticle entropy env w).
Proof. unfold createRainParticle. destruct (_ || _); intros H; exact H. Qed.

Lemma createWindParticle_later w :
  n <= next w -> n <= fst (createWindParticle entropy Math_PI env w).
Proof. unfold createWindParticle. destruct (Textures.weather_wind_leaf _); intros H; exact H. Qed.

Lemma createSnowParticle_later w :
  n <= next w -> n <= fst (createSnowParticle entropy Math_PI env w).
Proof. unfold createSnowParticle. destruct (Textures.weather_snowflake _); intros H; exact H. Qed.

Ltac still_add later created :=
  unfold addChild;
  apply Still_bind; [apply Still_pick | intros zone];
  apply (Still_bind_value position n (fun g => n <= g));
  [exact later | exact created | intros g Hg; still].

Lemma Still_addRainParticle c z0 zs : Still position n (addRainParticle entropy env c z0 zs).
Proof.
  unfold addRainParticle.
  still_add createRainParticle_later Still_createRainParticle.
Qed.

Lemma Still_addWindParticle c z0 zs :
  Still position n (addWindParticle entropy Math_PI env c z0 zs).
Proof.
  unfold addWindParticle.
  still_add createWindParticle_later Still_createWindParticle.
Qed.

Lemma Still_addSnowParticle c z0 zs :
  Still position n (addSnowParticle entropy Math_PI env c z0 zs).
Proof.
  unfold addSnowParticle.
  still_add createSnowParticle_later Still_createSnowParticle.
Qed.

Lemma Still_rainLoop c zs k : Still position n (rainLoop entropy env c zs k).
Proof.
  induction k as [|k IH]; destruct zs as [|z0 zs']; cbn [rainLoop]; try apply Still_ret.
  apply Still_bind; [apply Still_addRainParticle | intros _; exact IH].
Qed.

Lemma Still_windLoop c zs k : Still position n (windLoop entropy Math_PI env c zs k).
Proof.
  induction k as [|k IH]; destruct zs as [|z0 zs']; cbn [windLoop]; try apply Still_ret.
  apply Still_bind; [apply Still_addWindParticle | intros _; exact IH].
Qed.

Lemma Still_snowLoop c zs k : Still position n (snowLoop entropy Math_PI env c zs k).
Proof.
  induction k as [|k IH]; destruct zs as [|z0 zs']; cbn [snowLoop]; try apply Still_ret.
  apply Still_bind; [apply Still_addSnowParticle | intros _; exact IH].
Qed.

Ltac still_ensure loop :=
  apply Still_bind; [apply Still_get | intros [c|]; [|apply Still_ret]];
  apply Still_bind; [apply Still_get | intros existing]; lazy zeta;
  destruct (_ && _);
  [ unfold discard, removeChild, destroy; still
  | apply Still_bind; [apply loop | intros _];
    unfold discard, removeChild, destroy; still ].

Lemma Still_ensureRainParticles zs maxCount :
  Still position n (ensureRainParticles entropy env zs maxCount).
Proof. unfold ensureRainParticles. still_ensure Still_rainLoop. Qed.

Lemma Still_ensureWindParticles zs maxCount :
  Still position n (ensureWindParticles entropy Math_PI env zs maxCount).
Proof. unfold ensureWindParticles. still_ensure Still_windLoop. Qed.

Lemma Still_ensureSnowParticles zs maxCount :
  Still position n (ensureSnowParticles entropy Math_PI env zs maxCount).
Proof. unfold ensureSnowParticles. still_ensure Still_snowLoop. Qed.

Lemma Still_ensureStormOverlay hasStorm : Still position n (ensureStormOverlay hasStorm).
Proof. unfold ensureStormOverlay, addChild. still. Qed.

Lemma Still_updateLightning dt : Still position n (updateLightning dt).
Proof. unfold updateLightning, destroy. still. Qed.

Lemma triggerLightning_still fuel zs w w' h :
  triggerLightning entropy fuel zs w = Some w' ->
  n <= next w -> h < n ->
  position (nodes w' h) = position (nodes w h).
Proof.
  unfold triggerLightning.
  destruct (container w) as [c|]; [|intros H; returned H; reflexivity].
  destruct (_ =? _)%Z; [intros H; returned H; reflexivity|].
  lazy zeta. intros H Hn Hh.
  match type of H with
  | match pickIndices _ _ _ _ _ (exec ?m2 ?w1) with _ => _ end = _ =>
      set (w1' := w1) in *;
      assert (S1 : n <= next w1' /\ position (nodes w1' h) = position (nodes w h));
      [|assert (S2 : Still position n m2) by still;
        destruct (pickIndices entropy fuel (Nat.min 2 (List.length zs)) (len zs) []
                    (exec m2 w1')) as [[r wp]|] eqn:Hp; [|discriminate]]
  end.
  { subst w1'. destruct (lightningGraphics w) as [old|]; [|split; [exact Hn | reflexivity]].
    assert (S0 : Still position n (removeChild c old ;; destroy old))
      by (unfold removeChild, destroy; still).
    destruct (S0 w Hn) as [N0 P0]. split; [exact N0 | exact (P0 h Hh)]. }
  destruct S1 as [N1 P1]. returned H.
  match type of Hp with
  | pickIndices _ _ _ _ _ ?wn = _ =>
      destruct (S2 _ N1) as [N2 P2];
      assert (Pn : nodes wp = nodes wn)
        by exact (pickIndices_drawn entropy nodes ltac:(frame_side) _ _ _ _ _ _ _ Hp);
      assert (Px : next wp = next wn)
        by exact (pickIndices_drawn entropy next ltac:(frame_side) _ _ _ _ _ _ _ Hp)
  end.
  match goal with
  | |- position (nodes (exec ?m3 wp) h) = _ =>
      assert (S3 : Still position n m3) by (unfold addChild; still)
  end.
  assert (N3 : n <= next wp) by (rewrite Px; exact N2).
  rewrite (Still_exec position n _ wp h S3 N3 Hh), Pn.
  transitivity (position (nodes w1' h)); [exact (P2 h Hh) | exact P1].
Qed.

Lemma tryLightning_still fuel dt zs w w' h :
  tryLightning entropy env fuel dt zs w = Some w' ->
  n <= next w -> h < n ->
  position (nodes w' h) = position (nodes w h).
Proof.
  unfold tryLightning.
  destruct (_ =? _)%Z; [intros H; returned H; reflexivity|].
  lazy zeta.
  destruct (leq _ _); [intros H; returned H; reflexivity|].
  destruct (JsNumber.ltb _ _); [intros H; returned H; reflexivity|].
  destruct (gt _ _); [intros H; returned H; reflexivity|].
  intros H Hn Hh. rewrite (triggerLightning_still _ _ _ _ _ H Hn Hh). reflexivity.
Qed.

End AtRest.

Section Placed.
Import WeatherLayer.
Local Open Scope nat_scope.
Context {P X : Type} (g : P -> Handle) (obs : DisplayObject.t -> X) (want : P -> X).

(** Particles stay placed through a program that leaves the objects that
    exist at rest. *)
Lemma placed_still {A : Type} (m : M A) (l : list P) (w : World) :
  (forall n, Still obs n m) ->
  Forall (fun p => g p < next w) l ->
  Forall (fun p => obs (nodes w (g p)) = want p) l ->
  Forall (fun p => obs (nodes (exec m w) (g p)) = want p) l.
Proof.
  intros Hm Ha Hp. rewrite Forall_forall in *. intros p Hin.
  destruct (Hm (S (g p)) w (Ha p Hin)) as [_ S'].
  unfold exec. rewrite S'; [apply Hp, Hin | lia].
Qed.

(** ... and through one that writes to other objects only. *)
Lemma placed_elsewhere {A : Type} (hs : list Handle) (m : M A) (l : list P) (w : World) :
  Touches hs m ->
  (forall p, In p l -> ~ In (g p) hs) ->
  Forall (fun p => obs (nodes w (g p)) = want p) l ->
  Forall (fun p => obs (nodes (exec m w) (g p)) = want p) l.
Proof.
  intros Hm Hd Hp. rewrite Forall_forall in *. intros p Hin.
  destruct (Hm w) as [_ S']. unfold exec. rewrite (S' _ (Hd p Hin)). apply Hp, Hin.
Qed.

Lemma Touches_ret {A : Type} (hs : list Handle) (a : A) : Touches hs (ret a).
Proof. intros w. split; [reflexivity | intros h _; reflexivity]. Qed.

Lemma Touches_random (hs : list Handle) entropy : Touches hs (Math_random entropy).
Proof. intros w. split; [reflexivity | intros h _; reflexivity]. Qed.

Lemma Touches_forEachUpdate (move : P -> M P) (l : list P) :
  (forall p, Touches [g p] (move p)) ->
  Touches (map g l) (forEachUpdate l move).
Proof.
  intros Hb. induction l as [|a l IH]; cbn [forEachUpdate map].
  - apply Touches_ret.
  - apply Touches_bind.
    + apply (Touches_weaken [g a]); [intros h [<- | []]; left; reflexivity | apply Hb].
    + intros a'. apply Touches_bind; [|intros r; apply Touches_ret].
      apply (Touches_weaken (map g l)); [intros h Hh; right; exact Hh | exact IH].
Qed.

(** A loop that moves every particle of a pool, and the display object of
    each with it, leaves all of them placed, provided no two particles
    share a display object. *)
Lemma placed_forEachUpdate (move : P -> M P) :
  (forall p, Touches [g p] (move p)) ->
  (forall p w, g (fst (move p w)) = g p
               /\ obs (nodes (snd (move p w)) (g p)) = want (fst (move p w))) ->
  forall (l : list P) (w : World),
    NoDup (map g l) ->
    Forall (fun p => obs (nodes (snd (forEachUpdate l move w)) (g p)) = want p)
      (fst (forEachUpdate l move w)).
Proof.
  intros Ht Hm. induction l as [|a l IH]; intros w Hnd; cbn [forEachUpdate map] in *.
  - constructor.
  - inversion Hnd as [|? ? Ha Hl]; subst.
    unfold bind, ret. cbn [fst snd].
    destruct (Hm a w) as [Eg Ep].
    constructor; [|exact (IH _ Hl)].
    rewrite Eg.
    destruct (Touches_forEachUpdate move l Ht (snd (move a w))) as [_ S'].
    rewrite (S' _ Ha). exact Ep.
Qed.

End Placed.

Section Sprites.
Import WeatherLayer.
Local Open Scope nat_scope.
Variable entropy : nat -> Q.
Variable Math_sin : Q -> Q.
Variable Math_PI : Q.
Variable env : Env.t.

Lemma Still_y {A : Type} (n : nat) (m : M A) :
  Still position n m -> Still DisplayObject.y n m.
Proof.
  intros Hm w Hn. destruct (Hm w Hn) as [N S']. split; [exact N | intros h Hh].
  exact (f_equal snd (S' h Hh)).
Qed.

Lemma rain_alive E w :
  wellFormed E w -> Forall (fun p => RainParticle.g p < next w) (rainPool w).
Proof.
  intros Hwf. apply Forall_forall. intros p Hin. apply (wellFormed_alive E w _ Hwf).
  rewrite referenced_split, !in_app_iff. left. apply in_map, Hin.
Qed.

Lemma wind_alive E w :
  wellFormed E w -> Forall (fun p => WindParticle.g p < next w) (windPool w).
Proof.
  intros Hwf. apply Forall_forall. intros p Hin. apply (wellFormed_alive E w _ Hwf).
  rewrite referenced_split, !in_app_iff. right. left. apply in_map, Hin.
Qed.

Lemma snow_alive E w :
  wellFormed E w -> Forall (fun p => SnowParticle.g p < next w) (snowPool w).
Proof.
  intros Hwf. apply Forall_forall. intros p Hin. apply (wellFormed_alive E w _ Hwf).
  rewrite referenced_split, !in_app_iff. right. right. left. apply in_map, Hin.
Qed.

Lemma pools_apart E w :
  wellFormed E w ->
  NoDup (map RainParticle.g (rainPool w))
  /\ NoDup (map WindParticle.g (windPool w))
  /\ NoDup (map SnowParticle.g (snowPool w))
  /\ (forall h, In h (map RainParticle.g (rainPool w)) ->
                ~ In h (map WindParticle.g (windPool w)))
  /\ (forall h, In h (map RainParticle.g (rainPool w)) ->
                ~ In h (map SnowParticle.g (snowPool w)))
  /\ (forall h, In h (map WindParticle.g (windPool w)) ->
                ~ In h (map SnowParticle.g (snowPool w))).
Proof.
  intros (Hnd & _ & _). apply NoDup_app_remove_l in Hnd. rewrite referenced_split in Hnd.
  pose proof (NoDup_app_remove_l _ _ Hnd) as Hw.
  pose proof (NoDup_app_remove_l _ _ Hw) as Hs.
  split; [exact (NoDup_app_remove_r _ _ Hnd)|].
  split; [exact (NoDup_app_remove_r _ _ Hw)|].
  split; [exact (NoDup_app_remove_r _ _ Hs)|].
  split; [|split].
  - intros h Hr Hin. apply (NoDup_app_disjoint _ _ Hnd h Hr), in_or_app. left. exact Hin.
  - intros h Hr Hin. apply (NoDup_app_disjoint _ _ Hnd h Hr), in_or_app. right.
    apply in_or_app. left. exact Hin.
  - intros h Hr Hin. apply (NoDup_app_disjoint _ _ Hw h Hr), in_or_app. left. exact Hin.
Qed.

(** A program that leaves the objects at rest and a pool as it is. *)
Lemma rain_through {A : Type} E (m : M A) w :
  (forall n, Still position n m) -> Keeps rainPool m ->
  wellFormed E w ->
  Forall (rainPlaced w) (rainPool w) ->
  Forall (rainPlaced (exec m w)) (rainPool (exec m w)).
Proof.
  intros Hm Hk Hwf Hp. rewrite (Keeps_exec rainPool m Hk).
  exact (placed_still RainParticle.g position _ m _ w Hm (rain_alive E w Hwf) Hp).
Qed.

Lemma wind_through {A : Type} E (m : M A) w :
  (forall n, Still position n m) -> Keeps windPool m ->
  wellFormed E w ->
  Forall (windPlaced w) (windPool w) ->
  Forall (windPlaced (exec m w)) (windPool (exec m w)).
Proof.
  intros Hm Hk Hwf Hp. rewrite (Keeps_exec windPool m Hk).
  exact (placed_still WindParticle.g position _ m _ w Hm (wind_alive E w Hwf) Hp).
Qed.

Lemma snow_through {A : Type} E (m : M A) w :
  (forall n, Still position n m) -> Keeps snowPool m ->
  wellFormed E w ->
  Forall (snowPlaced w) (snowPool w) ->
  Forall (snowPlaced (exec m w)) (snowPool (exec m w)).
Proof.
  intros Hm Hk Hwf Hp. rewrite (Keeps_exec snowPool m Hk).
  exact (placed_still SnowParticle.g DisplayObject.y _ m _ w
           (fun n => Still_y n m (Hm n)) (snow_alive E w Hwf) Hp).
Qed.

Lemma placed_through {A : Type} E (m : M A) w :
  (forall n, Still position n m) ->
  Keeps rainPool m -> Keeps windPool m -> Keeps snowPool m ->
  wellFormed E w -> placed w -> placed (exec m w).
Proof.
  intros Hm Kr Kw Ks Hwf (Hr & Hw & Hs). split; [|split].
  - exact (rain_through E m w Hm Kr Hwf Hr).
  - exact (wind_through E m w Hm Kw Hwf Hw).
  - exact (snow_through E m w Hm Ks Hwf Hs).
Qed.

Lemma Hoare_keeps {Y A : Type} (f : World -> Y) (v : Y) (m : M A) :
  Keeps f m -> Hoare (fun w => f w = v) m (fun _ w => f w = v).
Proof. intros Hk w Hv. rewrite Hk. exact Hv. Qed.

(** The steps of a reconcile round once the display object [g] exists:
    they write its [x], then its [y], and then push a particle carrying
    both. *)
Ltac drawn_step :=
  match goal with
  | |- Hoare (fun w => @?f w = ?v) _ _ =>
      apply (Hoare_bind _ (fun _ w => f w = v));
      [apply Hoare_keeps, Keeps_random_drawn; intros ? ?; reflexivity | intros ?];
      lazy beta zeta
  end.

Ltac write_step f v :=
  apply (Hoare_bind _ (fun _ w => f w = v));
  [ intros ? ?; unfold onNode, addChild, onNode, modify, update;
    cbn [snd nodes set_nodes rainPool windPool snowPool]; rewrite Nat.eqb_refl;
    cbn [DisplayObject.x DisplayObject.y DisplayObject.set_x DisplayObject.set_y
         DisplayObject.set_parent];
    congruence
  | intros _ ]; lazy beta zeta.

Lemma addRainParticle_result c z0 zs w :
  exists p,
    rainPool (exec (addRainParticle entropy env c z0 zs) w) = rainPool w ++ [p]
    /\ rainPlaced (exec (addRainParticle entropy env c z0 zs) w) p.
Proof.
  assert (H : Hoare (fun w0 => rainPool w0 = rainPool w)
                (addRainParticle entropy env c z0 zs)
                (fun _ w' => exists p, rainPool w' = rainPool w ++ [p] /\ rainPlaced w' p));
    [|exact (H w eq_refl)].
  unfold addRainParticle.
  apply (Hoare_bind _ (fun _ w0 => rainPool w0 = rainPool w));
    [apply Hoare_keeps, Keeps_pick; frame_side | intros zone].
  apply (Hoare_bind _ (fun _ w0 => rainPool w0 = rainPool w));
    [apply Hoare_keeps, Keeps_createRainParticle; frame_side | intros g].
  drawn_step.
  match goal with
  | |- Hoare _ (bind (onNode g (DisplayObject.set_x ?gx)) _) _ =>
      write_step (fun w0 => (rainPool w0, DisplayObject.x (nodes w0 g))) (rainPool w, gx);
      drawn_step;
      match goal with
      | |- Hoare _ (bind (onNode g (DisplayObject.set_y ?gy)) _) _ =>
          write_step (fun w0 => (rainPool w0, DisplayObject.x (nodes w0 g),
                                 DisplayObject.y (nodes w0 g)))
                     (rainPool w, gx, gy)
      end
  end.
  do 2 drawn_step.
  match goal with
  | |- Hoare (fun w0 => @?f w0 = ?v) _ _ => write_step f v
  end.
  intros w0 H. injection H as H1 H2 H3.
  eexists. unfold modify, rainPlaced, position.
  cbn [snd rainPool set_rainPool nodes].
  split; [rewrite H1; reflexivity|].
  cbn [RainParticle.g RainParticle.x RainParticle.y]. rewrite H2, H3. reflexivity.
Qed.

Lemma addWindParticle_result c z0 zs w :
  exists p,
    windPool (exec (addWindParticle entropy Math_PI env c z0 zs) w) = windPool w ++ [p]
    /\ windPlaced (exec (addWindParticle entropy Math_PI env c z0 zs) w) p.
Proof.
  assert (H : Hoare (fun w0 => windPool w0 = windPool w)
                (addWindParticle entropy Math_PI env c z0 zs)
                (fun _ w' => exists p, windPool w' = windPool w ++ [p] /\ windPlaced w' p));
    [|exact (H w eq_refl)].
  unfold addWindParticle.
  apply (Hoare_bind _ (fun _ w0 => windPool w0 = windPool w));
    [apply Hoare_keeps, Keeps_pick; frame_side | intros zone].
  apply (Hoare_bind _ (fun _ w0 => windPool w0 = windPool w));
    [apply Hoare_keeps, Keeps_createWindParticle; frame_side | intros g].
  drawn_step.
  match goal with
  | |- Hoare _ (bind (onNode g (DisplayObject.set_x ?gx)) _) _ =>
      write_step (fun w0 => (windPool w0, DisplayObject.x (nodes w0 g))) (windPool w, gx);
      drawn_step;
      match goal with
      | |- Hoare _ (bind (onNode g (DisplayObject.set_y ?gy)) _) _ =>
          write_step (fun w0 => (windPool w0, DisplayObject.x (nodes w0 g),
                                 DisplayObject.y (nodes w0 g)))
                     (windPool w, gx, gy)
      end
  end.
  drawn_step.
  match goal with
  | |- Hoare (fun w0 => @?f w0 = ?v) _ _ => write_step f v
  end.
  intros w0 H. injection H as H1 H2 H3.
  eexists. unfold modify, windPlaced, position.
  cbn [snd windPool set_windPool nodes].
  split; [rewrite H1; reflexivity|].
  cbn [WindParticle.g WindParticle.x WindParticle.y]. rewrite H2, H3. reflexivity.
Qed.

Lemma addSnowParticle_result c z0 zs w :
  exists p,
    snowPool (exec (addSnowParticle entropy Math_PI env c z0 zs) w) = snowPool w ++ [p]
    /\ snowPlaced (exec (addSnowParticle entropy Math_PI env c z0 zs) w) p.
Proof.
  assert (H : Hoare (fun w0 => snowPool w0 = snowPool w)
                (addSnowParticle entropy Math_PI env c z0 zs)
                (fun _ w' => exists p, snowPool w' = snowPool w ++ [p] /\ snowPlaced w' p));
    [|exact (H w eq_refl)].
  unfold addSnowParticle.
  apply (Hoare_bind _ (fun _ w0 => snowPool w0 = snowPool w));
    [apply Hoare_keeps, Keeps_pick; frame_side | intros zone].
  apply (Hoare_bind _ (fun _ w0 => snowPool w0 = snowPool w));
    [apply Hoare_keeps, Keeps_createSnowParticle; frame_side | intros g].
  drawn_step.
  match goal with
  | |- Hoare _ (bind (onNode g (DisplayObject.set_x ?gx)) _) _ =>
      write_step (fun w0 => (snowPool w0, DisplayObject.x (nodes w0 g))) (snowPool w, gx);
      drawn_step;
      match goal with
      | |- Hoare _ (bind (onNode g (DisplayObject.set_y ?gy)) _) _ =>
          write_step (fun w0 => (snowPool w0, DisplayObject.x (nodes w0 g),
                                 DisplayObject.y (nodes w0 g)))
                     (snowPool w, gx, gy)
      end
  end.
  do 2 drawn_step.
  match goal with
  | |- Hoare (fun w0 => @?f w0 = ?v) _ _ => write_step f v
  end.
  intros w0 H. injection H as H1 H2 H3.
  eexists. unfold modify, snowPlaced.
  cbn [snd snowPool set_snowPool nodes].
  split; [rewrite H1; reflexivity|].
  cbn [SnowParticle.g SnowParticle.y]. rewrite H3. reflexivity.
Qed.

(** The reconcile step of a pool: the particles it adds are placed, and the
    ones already there stay so. *)
Lemma addRainParticle_placed E c z0 zs w :
  wellFormed E w -> Forall (rainPlaced w) (rainPool w) ->
  Forall (rainPlaced (exec (addRainParticle entropy env c z0 zs) w))
    (rainPool (exec (addRainParticle entropy env c z0 zs) w)).
Proof.
  intros Hwf Hp. destruct (addRainParticle_result c z0 zs w) as (p & -> & Hnew).
  apply Forall_app. split; [|constructor; [exact Hnew | constructor]].
  exact (placed_still RainParticle.g position _ _ _ w
           (fun n => Still_addRainParticle entropy env n c z0 zs) (rain_alive E w Hwf) Hp).
Qed.

Lemma addWindParticle_placed E c z0 zs w :
  wellFormed E w -> Forall (windPlaced w) (windPool w) ->
  Forall (windPlaced (exec (addWindParticle entropy Math_PI env c z0 zs) w))
    (windPool (exec (addWindParticle entropy Math_PI env c z0 zs) w)).
Proof.
  intros Hwf Hp. destruct (addWindParticle_result c z0 zs w) as (p & -> & Hnew).
  apply Forall_app. split; [|constructor; [exact Hnew | constructor]].
  exact (placed_still WindParticle.g position _ _ _ w
           (fun n => Still_addWindParticle entropy Math_PI env n c z0 zs)
           (wind_alive E w Hwf) Hp).
Qed.

Lemma addSnowParticle_placed E c z0 zs w :
  wellFormed E w -> Forall (snowPlaced w) (snowPool w) ->
  Forall (snowPlaced (exec (addSnowParticle entropy Math_PI env c z0 zs) w))
    (snowPool (exec (addSnowParticle entropy Math_PI env c z0 zs) w)).
Proof.
  intros Hwf Hp. destruct (addSnowParticle_result c z0 zs w) as (p & -> & Hnew).
  apply Forall_app. split; [|constructor; [exact Hnew | constructor]].
  exact (placed_still SnowParticle.g DisplayObject.y _ _ _ w
           (fun n => Still_y n _ (Still_addSnowParticle entropy Math_PI env n c z0 zs))
           (snow_alive E w Hwf) Hp).
Qed.

Lemma rainLoop_placed E c zs k :
  Hoare (fun w => wellFormed E w /\ Forall (rainPlaced w) (rainPool w))
    (rainLoop entropy env c zs k)
    (fun _ w => Forall (rainPlaced w) (rainPool w)).
Proof.
  induction k as [|k IH]; destruct zs as [|z0 zs']; cbn [rainLoop];
    try (intros w [_ Hp]; exact Hp).
  apply (Hoare_bind _ (fun _ w => wellFormed E w /\ Forall (rainPlaced w) (rainPool w)));
    [|intros _; exact IH].
  intros w [Hwf Hp].
  split; [exact (addRainParticle_wf entropy env E c z0 zs' w Hwf)
         | exact (addRainParticle_placed E c z0 zs' w Hwf Hp)].
Qed.

Lemma windLoop_placed E c zs k :
  Hoare (fun w => wellFormed E w /\ Forall (windPlaced w) (windPool w))
    (windLoop entropy Math_PI env c zs k)
    (fun _ w => Forall (windPlaced w) (windPool w)).
Proof.
  induction k as [|k IH]; destruct zs as [|z0 zs']; cbn [windLoop];
    try (intros w [_ Hp]; exact Hp).
  apply (Hoare_bind _ (fun _ w => wellFormed E w /\ Forall (windPlaced w) (windPool w)));
    [|intros _; exact IH].
  intros w [Hwf Hp].
  split; [exact (addWindParticle_wf entropy Math_PI env E c z0 zs' w Hwf)
         | exact (addWindParticle_placed E c z0 zs' w Hwf Hp)].
Qed.

Lemma snowLoop_placed E c zs k :
  Hoare (fun w => wellFormed E w /\ Forall (snowPlaced w) (snowPool w))
    (snowLoop entropy Math_PI env c zs k)
    (fun _ w => Forall (snowPlaced w) (snowPool w)).
Proof.
  induction k as [|k IH]; destruct zs as [|z0 zs']; cbn [snowLoop];
    try (intros w [_ Hp]; exact Hp).
  apply (Hoare_bind _ (fun _ w => wellFormed E w /\ Forall (snowPlaced w) (snowPool w)));
    [|intros _; exact IH].
  intros w [Hwf Hp].
  split; [exact (addSnowParticle_wf entropy Math_PI env E c z0 zs' w Hwf)
         | exact (addSnowParticle_placed E c z0 zs' w Hwf Hp)].
Qed.

Ltac placed_ensure loop I :=
  apply (Hoare_bind _ (fun _ => I));
    [intros ? ?; assumption | intros [c|]]; [|intros ? [_ ?]; assumption];
  apply (Hoare_bind _ (fun _ => I));
    [intros ? ?; assumption | intros existing];
  lazy zeta; destruct (_ && _);
  [ intros ? _; constructor
  | apply (Hoare_bind _ _ _ _ _ (loop _ _ _ _)); intros _;
    apply (Hoare_bind _ _ _ _ _ (Hoare_get _ _)); intros existing';
    destruct (_ && _); [intros ? _; constructor | intros ? [_ ?]; assumption] ].

Lemma ensureRainParticles_placed E zs maxCount :
  Hoare (fun w => wellFormed E w /\ Forall (rainPlaced w) (rainPool w))
    (ensureRainParticles entropy env zs maxCount)
    (fun _ w => Forall (rainPlaced w) (rainPool w)).
Proof.
  unfold ensureRainParticles.
  placed_ensure rainLoop_placed
    (fun w => wellFormed E w /\ Forall (rainPlaced w) (rainPool w)).
Qed.

Lemma ensureWindParticles_placed E zs maxCount :
  Hoare (fun w => wellFormed E w /\ Forall (windPlaced w) (windPool w))
    (ensureWindParticles entropy Math_PI env zs maxCount)
    (fun _ w => Forall (windPlaced w) (windPool w)).
Proof.
  unfold ensureWindParticles.
  placed_ensure windLoop_placed
    (fun w => wellFormed E w /\ Forall (windPlaced w) (windPool w)).
Qed.

Lemma ensureSnowParticles_placed E zs maxCount :
  Hoare (fun w => wellFormed E w /\ Forall (snowPlaced w) (snowPool w))
    (ensureSnowParticles entropy Math_PI env zs maxCount)
    (fun _ w => Forall (snowPlaced w) (snowPool w)).
Proof.
  unfold ensureSnowParticles.
  placed_ensure snowLoop_placed
    (fun w => wellFormed E w /\ Forall (snowPlaced w) (snowPool w)).
Qed.

(** The three loops of the frame callback. *)
Lemma Touches_moveRain dt p : Touches [RainParticle.g p] (moveRain entropy dt p).
Proof.
  unfold moveRain. lazy zeta.
  apply Touches_bind.
  - destruct (JsNumber.ltb _ _); [|apply Touches_ret].
    apply Touches_bind; [apply Touches_random | intros r; apply Touches_ret].
  - intros xy. apply Touches_bind; [apply Touches_onNode | intros _].
    apply Touches_bind; [apply Touches_onNode | intros _; apply Touches_ret].
Qed.

Lemma Touches_moveWind dt p : Touches [WindParticle.g p] (moveWind dt p).
Proof.
  unfold moveWind. lazy zeta.
  apply Touches_bind; [apply Touches_onNode | intros _].
  apply Touches_bind; [apply Touches_onNode | intros _; apply Touches_ret].
Qed.

Lemma Touches_moveSnow dt p : Touches [SnowParticle.g p] (moveSnow entropy Math_sin dt p).
Proof.
  unfold moveSnow. lazy zeta.
  apply Touches_bind.
  - destruct (JsNumber.ltb _ _); [|apply Touches_ret].
    apply Touches_bind; [apply Touches_random | intros r; apply Touches_ret].
  - intros xy. apply Touches_bind; [apply Touches_onNode | intros _].
    apply Touches_bind; [apply Touches_onNode | intros _].
    apply Touches_bind; [apply Touches_onNode | intros _; apply Touches_ret].
Qed.

Lemma moveRain_placed dt p w :
  RainParticle.g (fst (moveRain entropy dt p w)) = RainParticle.g p
  /\ position (nodes (snd (moveRain entropy dt p w)) (RainParticle.g p))
     = (RainParticle.x (fst (moveRain entropy dt p w)),
        RainParticle.y (fst (moveRain entropy dt p w))).
Proof.
  unfold moveRain, bind, onNode, modify, ret, Math_random, update, position. lazy zeta.
  destruct (JsNumber.ltb _ _); cbn; rewrite Nat.eqb_refl; split; reflexivity.
Qed.

Lemma moveWind_placed dt p w :
  WindParticle.g (fst (moveWind dt p w)) = WindParticle.g p
  /\ position (nodes (snd (moveWind dt p w)) (WindParticle.g p))
     = (WindParticle.x (fst (moveWind dt p w)),
        WindParticle.y (fst (moveWind dt p w))).
Proof.
  unfold moveWind, bind, onNode, modify, ret, update, position. lazy zeta.
  cbn. rewrite Nat.eqb_refl. split; reflexivity.
Qed.

Lemma moveSnow_placed dt p w :
  SnowParticle.g (fst (moveSnow entropy Math_sin dt p w)) = SnowParticle.g p
  /\ DisplayObject.y (nodes (snd (moveSnow entropy Math_sin dt p w)) (SnowParticle.g p))
     = SnowParticle.y (fst (moveSnow entropy Math_sin dt p w)).
Proof.
  unfold moveSnow, bind, onNode, modify, ret, Math_random, update. lazy zeta.
  destruct (JsNumber.ltb _ _); cbn [fst snd nodes set_nodes SnowParticle.g SnowParticle.y];
    rewrite !Nat.eqb_refl; (split; [reflexivity|]);
    destruct (DisplayObject.kind _); reflexivity.
Qed.

Lemma integrateRain_placed E dt w :
  wellFormed E w ->
  Forall (rainPlaced (exec (integrateRain entropy dt) w))
    (rainPool (exec (integrateRain entropy dt) w)).
Proof.
  intros Hwf. destruct (pools_apart E w Hwf) as (Hnd & _).
  exact (placed_forEachUpdate RainParticle.g position
           (fun p => (RainParticle.x p, RainParticle.y p)) (moveRain entropy dt)
           (Touches_moveRain dt) (moveRain_placed dt) (rainPool w) w Hnd).
Qed.

Lemma integrateWind_placed E dt w :
  wellFormed E w ->
  Forall (windPlaced (exec (integrateWind dt) w)) (windPool (exec (integrateWind dt) w)).
Proof.
  intros Hwf. destruct (pools_apart E w Hwf) as (_ & Hnd & _).
  exact (placed_forEachUpdate WindParticle.g position
           (fun p => (WindParticle.x p, WindParticle.y p)) (moveWind dt)
           (Touches_moveWind dt) (moveWind_placed dt) (windPool w) w Hnd).
Qed.

Lemma integrateSnow_placed E dt w :
  wellFormed E w ->
  Forall (snowPlaced (exec (integrateSnow entropy Math_sin dt) w))
    (snowPool (exec (integrateSnow entropy Math_sin dt) w)).
Proof.
  intros Hwf. destruct (pools_apart E w Hwf) as (_ & _ & Hnd & _).
  exact (placed_forEachUpdate SnowParticle.g DisplayObject.y SnowParticle.y
           (moveSnow entropy Math_sin dt)
           (Touches_moveSnow dt) (moveSnow_placed dt) (snowPool w) w Hnd).
Qed.

(** A loop over one pool writes to the display objects of that pool only. *)
Lemma Touches_integrateRain dt w :
  Touches (map RainParticle.g (rainPool w))
    (forEachUpdate (rainPool w) (moveRain entropy dt)).
Proof. apply Touches_forEachUpdate, Touches_moveRain. Qed.

Lemma Touches_integrateWind dt w :
  Touches (map WindParticle.g (windPool w)) (forEachUpdate (windPool w) (moveWind dt)).
Proof. apply Touches_forEachUpdate, Touches_moveWind. Qed.

Lemma Touches_integrateSnow dt w :
  Touches (map SnowParticle.g (snowPool w))
    (forEachUpdate (snowPool w) (moveSnow entropy Math_sin dt)).
Proof. apply Touches_forEachUpdate, Touches_moveSnow. Qed.

(** *** Through a frame *)

Lemma setupContainers_step E w :
  wellFormed E w /\ placed w ->
  wellFormed E (exec setupContainers w) /\ placed (exec setupContainers w).
Proof.
  intros [Hwf Hp]. split; [exact (setupContainers_wf E w Hwf)|].
  apply (placed_through E); try assumption;
    [intros n; apply Still_setupContainers | apply Keeps_setupContainers; frame_side ..].
Qed.

Lemma ensureRainParticles_step E zs maxCount w :
  wellFormed E w /\ placed w ->
  wellFormed E (exec (ensureRainParticles entropy env zs maxCount) w)
  /\ placed (exec (ensureRainParticles entropy env zs maxCount) w).
Proof.
  intros [Hwf (Hr & Hw & Hs)].
  split; [exact (ensureRainParticles_wf entropy env E zs maxCount w Hwf)|].
  split; [|split].
  - exact (ensureRainParticles_placed E zs maxCount w (conj Hwf Hr)).
  - apply (wind_through E); try assumption;
      [intros n; apply Still_ensureRainParticles
      | apply Keeps_ensureRainParticles; frame_side].
  - apply (snow_through E); try assumption;
      [intros n; apply Still_ensureRainParticles
      | apply Keeps_ensureRainParticles; frame_side].
Qed.

Lemma ensureWindParticles_step E zs maxCount w :
  wellFormed E w /\ placed w ->
  wellFormed E (exec (ensureWindParticles entropy Math_PI env zs maxCount) w)
  /\ placed (exec (ensureWindParticles entropy Math_PI env zs maxCount) w).
Proof.
  intros [Hwf (Hr & Hw & Hs)].
  split; [exact (ensureWindParticles_wf entropy Math_PI env E zs maxCount w Hwf)|].
  split; [|split].
  - apply (rain_through E); try assumption;
      [intros n; apply Still_ensureWindParticles
      | apply Keeps_ensureWindParticles; frame_side].
  - exact (ensureWindParticles_placed E zs maxCount w (conj Hwf Hw)).
  - apply (snow_through E); try assumption;
      [intros n; apply Still_ensureWindParticles
      | apply Keeps_ensureWindParticles; frame_side].
Qed.

Lemma ensureSnowParticles_step E zs maxCount w :
  wellFormed E w /\ placed w ->
  wellFormed E (exec (ensureSnowParticles entropy Math_PI env zs maxCount) w)
  /\ placed (exec (ensureSnowParticles entropy Math_PI env zs maxCount) w).
Proof.
  intros [Hwf (Hr & Hw & Hs)].
  split; [exact (ensureSnowParticles_wf entropy Math_PI env E zs maxCount w Hwf)|].
  split; [|split].
  - apply (rain_through E); try assumption;
      [intros n; apply Still_ensureSnowParticles
      | apply Keeps_ensureSnowParticles; frame_side].
  - apply (wind_through E); try assumption;
      [intros n; apply Still_ensureSnowParticles
      | apply Keeps_ensureSnowParticles; frame_side].
  - exact (ensureSnowParticles_placed E zs maxCount w (conj Hwf Hs)).
Qed.

Lemma ensureStormOverlay_step E hasStorm w :
  wellFormed E w /\ placed w ->
  wellFormed E (exec (ensureStormOverlay hasStorm) w)
  /\ placed (exec (ensureStormOverlay hasStorm) w).
Proof.
  intros [Hwf Hp]. split; [exact (ensureStormOverlay_wf E hasStorm w Hwf)|].
  apply (placed_through E); try assumption;
    [intros n; apply Still_ensureStormOverlay | apply Keeps_ensureStormOverlay; frame_side ..].
Qed.

Lemma updateLightning_step E dt w :
  wellFormed E w /\ placed w ->
  wellFormed E (exec (updateLightning dt) w) /\ placed (exec (updateLightning dt) w).
Proof.
  intros [Hwf Hp]. split; [exact (updateLightning_wf E dt w Hwf)|].
  apply (placed_through E); try assumption;
    [intros n; apply Still_updateLightning | apply Keeps_updateLightning; frame_side ..].
Qed.

Lemma integrateRain_step_placed E dt w :
  wellFormed E w /\ placed w ->
  wellFormed E (exec (integrateRain entropy dt) w)
  /\ placed (exec (integrateRain entropy dt) w).
Proof.
  intros [Hwf (Hr & Hw & Hs)].
  destruct (pools_apart E w Hwf) as (_ & _ & _ & Drw & Drs & _).
  split.
  { exact (wellFormed_gentle E _ (Gentle_integrateRain entropy dt)
             (integrateRain_referenced entropy dt) w Hwf). }
  split; [exact (integrateRain_placed E dt w Hwf) | split].
  - rewrite (Keeps_exec windPool _
               (Keeps_integrateRain entropy windPool ltac:(frame_side) ltac:(frame_side) dt)).
    refine (placed_elsewhere WindParticle.g position _ _ _ _ w
              (Touches_integrateRain dt w) _ Hw).
    intros p Hin HR. exact (Drw _ HR (in_map _ _ _ Hin)).
  - rewrite (Keeps_exec snowPool _
               (Keeps_integrateRain entropy snowPool ltac:(frame_side) ltac:(frame_side) dt)).
    refine (placed_elsewhere SnowParticle.g DisplayObject.y _ _ _ _ w
              (Touches_integrateRain dt w) _ Hs).
    intros p Hin HR. exact (Drs _ HR (in_map _ _ _ Hin)).
Qed.

Lemma integrateWind_step_placed E dt w :
  wellFormed E w /\ placed w ->
  wellFormed E (exec (integrateWind dt) w) /\ placed (exec (integrateWind dt) w).
Proof.
  intros [Hwf (Hr & Hw & Hs)].
  destruct (pools_apart E w Hwf) as (_ & _ & _ & Drw & _ & Dws).
  split.
  { exact (wellFormed_gentle E _ (Gentle_integrateWind dt)
             (integrateWind_referenced dt) w Hwf). }
  split; [|split; [exact (integrateWind_placed E dt w Hwf)|]].
  - rewrite (Keeps_exec rainPool _
               (Keeps_integrateWind rainPool ltac:(frame_side) ltac:(frame_side) dt)).
    refine (placed_elsewhere RainParticle.g position _ _ _ _ w
              (Touches_integrateWind dt w) _ Hr).
    intros p Hin HW. exact (Drw _ (in_map _ _ _ Hin) HW).
  - rewrite (Keeps_exec snowPool _
               (Keeps_integrateWind snowPool ltac:(frame_side) ltac:(frame_side) dt)).
    refine (placed_elsewhere SnowParticle.g DisplayObject.y _ _ _ _ w
              (Touches_integrateWind dt w) _ Hs).
    intros p Hin HW. exact (Dws _ HW (in_map _ _ _ Hin)).
Qed.

Lemma integrateSnow_step_placed E dt w :
  wellFormed E w /\ placed w ->
  wellFormed E (exec (integrateSnow entropy Math_sin dt) w)
  /\ placed (exec (integrateSnow entropy Math_sin dt) w).
Proof.
  intros [Hwf (Hr & Hw & Hs)].
  destruct (pools_apart E w Hwf) as (_ & _ & _ & _ & Drs & Dws).
  split.
  { exact (wellFormed_gentle E _ (Gentle_integrateSnow entropy Math_sin dt)
             (integrateSnow_referenced entropy Math_sin dt) w Hwf). }
  split; [|split; [|exact (integrateSnow_placed E dt w Hwf)]].
  - rewrite (Keeps_exec rainPool _
               (Keeps_integrateSnow entropy Math_sin rainPool ltac:(frame_side)
                  ltac:(frame_side) dt)).
    refine (placed_elsewhere RainParticle.g position _ _ _ _ w
              (Touches_integrateSnow dt w) _ Hr).
    intros p Hin HS. exact (Drs _ (in_map _ _ _ Hin) HS).
  - rewrite (Keeps_exec windPool _
               (Keeps_integrateSnow entropy Math_sin windPool ltac:(frame_side)
                  ltac:(frame_side) dt)).
    refine (placed_elsewhere WindParticle.g position _ _ _ _ w
              (Touches_integrateSnow dt w) _ Hw).
    intros p Hin HS. exact (Dws _ (in_map _ _ _ Hin) HS).
Qed.

Lemma tryLightning_step E fuel dt zs w w' :
  tryLightning entropy env fuel dt zs w = Some w' ->
  wellFormed E w /\ placed w -> wellFormed E w' /\ placed w'.
Proof.
  intros H [Hwf (Hr & Hw & Hs)].
  split; [exact (tryLightning_wf entropy env E _ _ _ _ _ H Hwf)|].
  assert (Hpos : forall h, h < next w -> position (nodes w' h) = position (nodes w h))
    by (intros h Hh;
        exact (tryLightning_still entropy env (next w) _ _ _ _ _ h H (Nat.le_refl _) Hh)).
  pose proof (rain_alive E w Hwf) as Ar.
  pose proof (wind_alive E w Hwf) as Aw.
  pose proof (snow_alive E w Hwf) as As.
  rewrite Forall_forall in *.
  split; [|split].
  - rewrite (tryLightning_keeps entropy env rainPool ltac:(frame_side) ltac:(frame_side)
               ltac:(frame_side) ltac:(frame_side) ltac:(frame_side) ltac:(frame_side)
               _ _ _ _ _ H).
    apply Forall_forall. intros p Hin. unfold rainPlaced.
    rewrite (Hpos _ (Ar p Hin)). exact (Hr p Hin).
  - rewrite (tryLightning_keeps entropy env windPool ltac:(frame_side) ltac:(frame_side)
               ltac:(frame_side) ltac:(frame_side) ltac:(frame_side) ltac:(frame_side)
               _ _ _ _ _ H).
    apply Forall_forall. intros p Hin. unfold windPlaced.
    rewrite (Hpos _ (Aw p Hin)). exact (Hw p Hin).
  - rewrite (tryLightning_keeps entropy env snowPool ltac:(frame_side) ltac:(frame_side)
               ltac:(frame_side) ltac:(frame_side) ltac:(frame_side) ltac:(frame_side)
               _ _ _ _ _ H).
    apply Forall_forall. intros p Hin. unfold snowPlaced.
    rewrite <- (Hs p Hin). exact (f_equal snd (Hpos _ (As p Hin))).
Qed.

Lemma tick_placed E fuel dt w w' :
  tick entropy Math_sin Math_PI env fuel dt w = Some w' ->
  wellFormed E w /\ placed w -> wellFormed E w' /\ placed w'.
Proof.
  intros H Hw. apply tick_cases in H. cbv zeta in H.
  apply setupContainers_step in Hw.
  destruct H as [-> | (rz & wz & sz & tz & hs & w3 & Ht & ->)]; [exact Hw|].
  apply updateLightning_step. apply (tryLightning_step E _ _ _ _ _ Ht).
  apply integrateSnow_step_placed, integrateWind_step_placed, integrateRain_step_placed,
    ensureStormOverlay_step, ensureSnowParticles_step, ensureWindParticles_step,
    ensureRainParticles_step, Hw.
Qed.

End Sprites.

Section SpritesFollow.
Import WeatherLayer.
Local Open Scope nat_scope.
Variable entropy : nat -> Q.
Variable Math_sin : Q -> Q.
Variable Math_PI : Q.

Lemma placed_no_particles w :
  rainPool w = [] -> windPool w = [] -> snowPool w = [] -> placed w.
Proof. intros Hr Hw Hs. unfold placed. rewrite Hr, Hw, Hs. repeat split; constructor. Qed.

Lemma placed_idle w : idle w -> placed w.
Proof. intros (Hr & Hw & Hs & _). exact (placed_no_particles w Hr Hw Hs). Qed.

Lemma reachable_placed (w : World) :
  reachable entropy Math_sin Math_PI w -> placed w.
Proof.
  induction 1 as [env | env w Hr IH | env fuel dt w w' Hr IH Hf | env w Hr IH
                 | env w Hr IH | w Hr IH].
  - apply placed_no_particles; unfold created; drop_exec; reflexivity.
  - apply (placed_through []); try assumption;
      [ intros n; apply Still_mount
      | apply Keeps_mount; frame_side ..
      | exact (reachable_wellFormed entropy Math_sin Math_PI w Hr) ].
  - unfold frame in Hf. destruct (ticker w); [|returned Hf; exact IH].
    exact (proj2 (tick_placed entropy Math_sin Math_PI env [] _ _ _ _ Hf
                    (conj (reachable_wellFormed entropy Math_sin Math_PI w Hr) IH))).
  - destruct IH as (Ir & Iw & Is). unfold placed.
    assert (Hn : nodes (exec (watchMapData env) w) = nodes w)
      by (unfold watchMapData; destruct (Env.mapData env) as [[|[|? ?] ?]|]; reflexivity).
    assert (Er : rainPool (exec (watchMapData env) w) = rainPool w) by (drop_exec; reflexivity).
    assert (Ew : windPool (exec (watchMapData env) w) = windPool w) by (drop_exec; reflexivity).
    assert (Es : snowPool (exec (watchMapData env) w) = snowPool w) by (drop_exec; reflexivity).
    unfold rainPlaced, windPlaced, snowPlaced. rewrite Hn, Er, Ew, Es.
    split; [exact Ir | split; [exact Iw | exact Is]].
  - unfold watchLevel. cbv zeta.
    destruct (allZero _); [apply placed_idle, stopTicker_idle|].
    rewrite exec_bind. cbn [get fst snd].
    destruct (_ <? _)%Z; [|exact IH].
    apply (placed_through []); try assumption;
      [ intros n; unfold startTicker; still
      | apply Keeps_startTicker; frame_side ..
      | exact (reachable_wellFormed entropy Math_sin Math_PI w Hr) ].
  - destruct (stopTicker_idle w) as (Hrain & Hwind & Hsnow & _).
    apply placed_no_particles.
    + rewrite (Keeps_tail_of_unmount rainPool); [exact Hrain | frame_side ..].
    + rewrite (Keeps_tail_of_unmount windPool); [exact Hwind | frame_side ..].
    + rewrite (Keeps_tail_of_unmount snowPool); [exact Hsnow | frame_side ..].
Qed.

(** X26.  In every state the component can be in, the display object of
    each rain particle is drawn where the particle is: its [x] and [y] are
    the particle's. *)
Theorem rain_sprites_follow_their_particles (w : World) (p : RainParticle.t) :
  reachable entropy Math_sin Math_PI w ->
  In p (rainPool w) ->
  DisplayObject.x (nodes w (RainParticle.g p)) = RainParticle.x p
  /\ DisplayObject.y (nodes w (RainParticle.g p)) = RainParticle.y p.
Proof.
  intros Hr Hin. destruct (reachable_placed w Hr) as (H & _ & _).
  rewrite Forall_forall in H. specialize (H p Hin). unfold rainPlaced, position in H.
  split; [exact (f_equal fst H) | exact (f_equal snd H)].
Qed.

(** X27.  In every state the component can be in, the display object of
    each wind particle is drawn where the particle is. *)
Theorem wind_sprites_follow_their_particles (w : World) (p : WindParticle.t) :
  reachable entropy Math_sin Math_PI w ->
  In p (windPool w) ->
  DisplayObject.x (nodes w (WindParticle.g p)) = WindParticle.x p
  /\ DisplayObject.y (nodes w (WindParticle.g p)) = WindParticle.y p.
Proof.
  intros Hr Hin. destruct (reachable_placed w Hr) as (_ & H & _).
  rewrite Forall_forall in H. specialize (H p Hin). unfold windPlaced, position in H.
  split; [exact (f_equal fst H) | exact (f_equal snd H)].
Qed.

(** X28.  In every state the component can be in, the display object of
    each snow particle is drawn at the particle's height (its [x] carries
    the wobble and is not the particle's). *)
Theorem snow_sprites_follow_their_particles (w : World) (p : SnowParticle.t) :
  reachable entropy Math_sin Math_PI w ->
  In p (snowPool w) ->
  DisplayObject.y (nodes w (SnowParticle.g p)) = SnowParticle.y p.
Proof.
  intros Hr Hin. destruct (reachable_placed w Hr) as (_ & _ & H).
  rewrite Forall_forall in H. exact (H p Hin).
Qed.

End SpritesFollow.

Section SpritesWitnesses.
Import WeatherLayer Scenario.
Local Open Scope nat_scope.
Local Open Scope Q_scope.

Lemma rain_sprites_follow_their_particles_witness :
  let p := hd (RainParticle.Build_t 0%nat 0 0 0 0 0 0 0 0) (rainPool afterFrame) in
  (reachable entropy Math_sin Math_PI afterFrame /\ In p (rainPool afterFrame))
  /\ DisplayObject.x (nodes afterFrame (RainParticle.g p)) = RainParticle.x p.
Proof.
  cbv zeta.
  assert (Hin : In (hd (RainParticle.Build_t 0%nat 0 0 0 0 0 0 0 0) (rainPool afterFrame))
                  (rainPool afterFrame)) by (vm_compute; left; reflexivity).
  split; [split; [exact scenario_reachable | exact Hin]|].
  exact (proj1 (rain_sprites_follow_their_particles entropy Math_sin Math_PI _ _
                  scenario_reachable Hin)).
Defined.

Lemma wind_sprites_follow_their_particles_witness :
  let p := hd (WindParticle.Build_t 0%nat 0 0 0 0 0) (windPool coastAfterFrame) in
  (reachable entropy Math_sin Math_PI coastAfterFrame /\ In p (windPool coastAfterFrame))
  /\ DisplayObject.x (nodes coastAfterFrame (WindParticle.g p)) = WindParticle.x p.
Proof.
  cbv zeta.
  assert (Hin : In (hd (WindParticle.Build_t 0%nat 0 0 0 0 0) (windPool coastAfterFrame))
                  (windPool coastAfterFrame)) by (vm_compute; left; reflexivity).
  split; [split; [exact coast_reachable | exact Hin]|].
  exact (proj1 (wind_sprites_follow_their_particles entropy Math_sin Math_PI _ _
                  coast_reachable Hin)).
Defined.

Lemma snow_sprites_follow_their_particles_witness :
  let p := hd (SnowParticle.Build_t 0%nat 0 0 0 0 0 0 0 0) (snowPool coastAfterFrame) in
  (reachable entropy Math_sin Math_PI coastAfterFrame /\ In p (snowPool coastAfterFrame))
  /\ DisplayObject.y (nodes coastAfterFrame (SnowParticle.g p)) = SnowParticle.y p.
Proof.
  cbv zeta.
  assert (Hin : In (hd (SnowParticle.Build_t 0%nat 0 0 0 0 0 0 0 0) (snowPool coastAfterFrame))
                  (snowPool coastAfterFrame)) by (vm_compute; left; reflexivity).
  split; [split; [exact coast_reachable | exact Hin]|].
  exact (snow_sprites_follow_their_particles entropy Math_sin Math_PI _ _
           coast_reachable Hin).
Defined.

End SpritesWitnesses.

(** ** The pools never outgrow the largest preset *)

Section Caps.
Import WeatherLayer.
Local Open Scope Z_scope.
Variable entropy : nat -> Q.
Variable Math_sin : Q -> Q.
Variable Math_PI : Q.

(** A count read from the level is at most the cap; the object an
    inherited name gives has no count. *)
Lemma getWeatherLevel_cap env :
  let level := getWeatherLevel env in
  (forall m, Level.rain level = Some m -> m <= cap Kind.rain)
  /\ (forall m, Level.wind level = Some m -> m <= cap Kind.wind)
  /\ (forall m, Level.snow level = Some m -> m <= cap Kind.snow).
Proof.
  unfold getWeatherLevel.
  destruct (Env.weather env) as [[]|]; cbn; repeat split; intros m E;
    first [discriminate E | injection E as <-; lia].
Qed.

Lemma poolSize_kept {A : Type} (m : M A) (k : Kind.t) (w : World) :
  Keeps rainPool m -> Keeps windPool m -> Keeps snowPool m ->
  poolSize k (exec m w) = poolSize k w.
Proof.
  intros Kr Kw Ks. unfold poolSize, pooled.
  rewrite (Keeps_exec rainPool m Kr), (Keeps_exec windPool m Kw), (Keeps_exec snowPool m Ks).
  reflexivity.
Qed.

Lemma poolSize_keeps {A : Type} (m : M A) (k : Kind.t) (w : World) :
  Keeps (pooled k) m -> poolSize k (exec m w) = poolSize k w.
Proof. intros Hk. unfold poolSize. rewrite (Keeps_exec _ m Hk). reflexivity. Qed.

Lemma capped_no_particles_at k : len (@nil Handle) <= cap k.
Proof. destruct k; cbn; lia. Qed.

Lemma reconcile_capped env k zones maxCount w :
  maxCount <= cap k ->
  (forall k', poolSize k' w <= cap k') ->
  forall k', poolSize k' (exec (reconcile entropy Math_PI env k zones maxCount) w) <= cap k'.
Proof.
  intros Hm H k'.
  assert (Same : poolSize k (exec (reconcile entropy Math_PI env k zones maxCount) w)
                 <= cap k).
  { pose proof (reconcile_size entropy Math_PI env k zones maxCount w) as E.
    cbv zeta in E. rewrite E. pose proof (H k) as Hk.
    pose proof (poolSize_nonneg k w) as Hn. unfold target.
    destruct (poolContainer k w), zones; lia. }
  destruct k, k'; try exact Same; cbn [reconcile];
    (rewrite poolSize_keeps; [apply H|]);
    first [ apply Keeps_ensureRainParticles | apply Keeps_ensureWindParticles
          | apply Keeps_ensureSnowParticles ]; frame_side.
Qed.

(** The same for a count that may be [undefined]: no particle is created
    then. *)
Lemma ensure_capped env k zones (maxCount : option Z) w :
  (forall m, maxCount = Some m -> m <= cap k) ->
  (forall k', poolSize k' w <= cap k') ->
  forall k',
    poolSize k'
      (exec match k with
            | Kind.rain => ensureRainParticles entropy env zones maxCount
            | Kind.wind => ensureWindParticles entropy Math_PI env zones maxCount
            | Kind.snow => ensureSnowParticles entropy Math_PI env zones maxCount
            end w)
    <= cap k'.
Proof.
  intros Hm H. destruct maxCount as [m|].
  { exact (reconcile_capped env k zones m w (Hm m eq_refl) H). }
  intros k'.
  assert (Same : forall (P : Type) (g : P -> Handle) (pool pool' created : list P),
             pool' = pool ++ created -> List.length created = 0%nat ->
             len (map g pool') = len (map g pool)).
  { intros P g pool pool' created -> Hl. destruct created; [|discriminate Hl].
    rewrite app_nil_r. reflexivity. }
  pose proof (H k') as Hk'. pose proof (capped_no_particles_at k') as Hz.
  destruct k, k';
    try (rewrite poolSize_keeps;
         [ exact Hk'
         | first [ apply Keeps_ensureRainParticles | apply Keeps_ensureWindParticles
                 | apply Keeps_ensureSnowParticles ]; frame_side ]);
    unfold poolSize, pooled in *.
  - destruct (rainContainer w) as [c|] eqn:Hc;
      [|rewrite ensureRainParticles_no_container by exact Hc; exact Hk'].
    destruct zones as [|z0 zs].
    + destruct (ensureRainParticles_clear entropy env None w c Hc) as [E _].
      cbv zeta in E. rewrite E. exact Hz.
    + destruct (ensureRainParticles_grow entropy env z0 zs None w c Hc) as (l & E & L).
      rewrite (Same _ _ _ _ _ E L). exact Hk'.
  - destruct (container w) as [c|] eqn:Hc;
      [|rewrite ensureWindParticles_no_container by exact Hc; exact Hk'].
    destruct zones as [|z0 zs].
    + destruct (ensureWindParticles_clear entropy Math_PI env None w c Hc) as [E _].
      cbv zeta in E. rewrite E. exact Hz.
    + destruct (ensureWindParticles_grow entropy Math_PI env z0 zs None w c Hc) as (l & E & L).
      rewrite (Same _ _ _ _ _ E L). exact Hk'.
  - destruct (container w) as [c|] eqn:Hc;
      [|rewrite ensureSnowParticles_no_container by exact Hc; exact Hk'].
    destruct zones as [|z0 zs].
    + destruct (ensureSnowParticles_clear entropy Math_PI env None w c Hc) as [E _].
      cbv zeta in E. rewrite E. exact Hz.
    + destruct (ensureSnowParticles_grow entropy Math_PI env z0 zs None w c Hc) as (l & E & L).
      rewrite (Same _ _ _ _ _ E L). exact Hk'.
Qed.

Lemma integrateRain_size dt k w :
  poolSize k (exec (integrateRain entropy dt) w) = poolSize k w.
Proof.
  unfold poolSize. f_equal. destruct k; cbn [pooled].
  - exact (rainStep_handles dt _ _ (integrateRain_step entropy dt w)).
  - drop_exec. reflexivity.
  - drop_exec. reflexivity.
Qed.

Lemma integrateWind_size dt k w :
  poolSize k (exec (integrateWind dt) w) = poolSize k w.
Proof.
  unfold poolSize. f_equal. destruct k; cbn [pooled].
  - drop_exec. reflexivity.
  - exact (windStep_handles dt _ _ (integrateWind_step dt w)).
  - drop_exec. reflexivity.
Qed.

Lemma integrateSnow_size dt k w :
  poolSize k (exec (integrateSnow entropy Math_sin dt) w) = poolSize k w.
Proof.
  unfold poolSize. f_equal. destruct k; cbn [pooled].
  - drop_exec. reflexivity.
  - drop_exec. reflexivity.
  - exact (snowStep_handles dt _ _ (integrateSnow_step entropy Math_sin dt w)).
Qed.

Lemma tick_capped env fuel dt w w' :
  tick entropy Math_sin Math_PI env fuel dt w = Some w' ->
  (forall k, poolSize k w <= cap k) ->
  forall k, poolSize k w' <= cap k.
Proof.
  intros H Hw. apply tick_cases in H. cbv zeta in H.
  destruct (getWeatherLevel_cap env) as (Lr & Lw & Ls).
  assert (H1 : forall k, poolSize k (exec setupContainers w) <= cap k).
  { intros k. rewrite poolSize_kept; [apply Hw | apply Keeps_setupContainers; frame_side ..]. }
  destruct H as [-> | (rz & wz & sz & tz & hs & w3 & Ht & ->)]; [exact H1|].
  intros k.
  rewrite poolSize_kept; [|apply Keeps_updateLightning; frame_side ..].
  replace (poolSize k w3) with (poolSize k
    (exec (integrateSnow entropy Math_sin dt)
       (exec (integrateWind dt)
          (exec (integrateRain entropy dt)
             (exec (ensureStormOverlay hs)
                (exec (ensureSnowParticles entropy Math_PI env sz
                         (Level.snow (getWeatherLevel env)))
                   (exec (ensureWindParticles entropy Math_PI env wz
                            (Level.wind (getWeatherLevel env)))
                      (exec (ensureRainParticles entropy env rz
                               (Level.rain (getWeatherLevel env)))
                         (exec setupContainers w))))))))).
  2: { symmetry. unfold poolSize. f_equal. destruct k; cbn [pooled]; f_equal.
       - exact (tryLightning_keeps entropy env rainPool ltac:(frame_side) ltac:(frame_side)
                  ltac:(frame_side) ltac:(frame_side) ltac:(frame_side) ltac:(frame_side)
                  _ _ _ _ _ Ht).
       - exact (tryLightning_keeps entropy env windPool ltac:(frame_side) ltac:(frame_side)
                  ltac:(frame_side) ltac:(frame_side) ltac:(frame_side) ltac:(frame_side)
                  _ _ _ _ _ Ht).
       - exact (tryLightning_keeps entropy env snowPool ltac:(frame_side) ltac:(frame_side)
                  ltac:(frame_side) ltac:(frame_side) ltac:(frame_side) ltac:(frame_side)
                  _ _ _ _ _ Ht). }
  rewrite integrateSnow_size, integrateWind_size, integrateRain_size.
  rewrite poolSize_kept; [|apply Keeps_ensureStormOverlay; frame_side ..].
  apply (ensure_capped env Kind.snow sz _ _ Ls).
  apply (ensure_capped env Kind.wind wz _ _ Lw).
  apply (ensure_capped env Kind.rain rz _ _ Lr).
  exact H1.
Qed.

Lemma capped_no_particles w :
  rainPool w = [] -> windPool w = [] -> snowPool w = [] ->
  forall k, poolSize k w <= cap k.
Proof.
  intros Hr Hw Hs k. unfold poolSize, pooled. rewrite Hr, Hw, Hs.
  destruct k; cbn; lia.
Qed.

Lemma reachable_capped (w : World) :
  reachable entropy Math_sin Math_PI w -> forall k, poolSize k w <= cap k.
Proof.
  induction 1 as [env | env w Hr IH | env fuel dt w w' Hr IH Hf | env w Hr IH
                 | env w Hr IH | w Hr IH].
  - apply capped_no_particles; unfold created; drop_exec; reflexivity.
  - intros k. rewrite poolSize_kept; [apply IH | apply Keeps_mount; frame_side ..].
  - unfold frame in Hf. destruct (ticker w); [|returned Hf; exact IH].
    exact (tick_capped env fuel dt w w' Hf IH).
  - intros k. rewrite poolSize_kept; [apply IH | apply Keeps_watchMapData; frame_side ..].
  - unfold watchLevel. cbv zeta.
    destruct (allZero _).
    + destruct (stopTicker_idle w) as (Hrain & Hwind & Hsnow & _).
      exact (capped_no_particles _ Hrain Hwind Hsnow).
    + rewrite exec_bind. cbn [get fst snd].
      destruct (_ <? _); [|exact IH].
      intros k. rewrite poolSize_kept; [apply IH | apply Keeps_startTicker; frame_side ..].
  - destruct (stopTicker_idle w) as (Hrain & Hwind & Hsnow & _).
    apply capped_no_particles.
    + rewrite (Keeps_tail_of_unmount rainPool); [exact Hrain | frame_side ..].
    + rewrite (Keeps_tail_of_unmount windPool); [exact Hwind | frame_side ..].
    + rewrite (Keeps_tail_of_unmount snowPool); [exact Hsnow | frame_side ..].
Qed.

(** X29.  In every state the component can be in, whatever settings were
    in force on the way, the pools hold at most the counts of the largest
    preset: 320 rain, 90 wind and 110 snow particles.  (Under a setting
    that names a member inherited from [Object.prototype] the count read
    from the level is [undefined], and no particle is created.) *)
Theorem pools_never_outgrow_the_largest_preset (w : World) :
  reachable entropy Math_sin Math_PI w ->
  len (rainPool w) <= 320 /\ len (windPool w) <= 90 /\ len (snowPool w) <= 110.
Proof.
  intros Hr. pose proof (reachable_capped w Hr) as H.
  pose proof (H Kind.rain) as H1. pose proof (H Kind.wind) as H2.
  pose proof (H Kind.snow) as H3.
  unfold poolSize, pooled, len in *. rewrite length_map in H1, H2, H3.
  cbn [cap] in *.
  split; [exact H1 | split; [exact H2 | exact H3]].
Qed.

End Caps.

Section CapsWitness.
Import WeatherLayer.
Local Open Scope Z_scope.

Lemma pools_never_outgrow_the_largest_preset_witness :
  reachable Scenario.entropy Scenario.Math_sin Scenario.Math_PI Scenario.afterFrame
  /\ len (rainPool Scenario.afterFrame) <= 320.
Proof.
  split; [exact scenario_reachable|].
  exact (proj1 (pools_never_outgrow_the_largest_preset
                  Scenario.entropy Scenario.Math_sin Scenario.Math_PI _ scenario_reachable)).
Defined.

End CapsWitness.
